(** * A Texas Hold'em engine: the hand evaluator and the betting engine

    Shallow embedding of [PokerService] (the poker service of the bot) and
    the properties of its evaluator, its turn engine and its settlement.

    Conventions of the embedding.
    - Token amounts, bets and card values are JavaScript numbers holding
      integers; they are [Z] here.  Seat indices are [nat].
    - Strings are byte strings in UTF-8.  The four suits are the two code
      point emoji of [SUITS]; suffix tests and prefix slices agree between
      UTF-8 bytes and UTF-16 code units for such strings.
    - The chat surface (messages, buttons), the snapshot persistence and the
      timers' bookkeeping maps do not feed back into the [Game]; the
      embedding leaves them out.  A timer that fires is an operation of its
      own ([handleTurnTimeout], [handleInsufficientFundsTimeout],
      [dealCardsAndStartGame]).
    - The user table is total: a lookup never fails with a database error. *)

From Stdlib Require Import ZArith List String Ascii Bool Lia.
From stdpp Require Import gmap strings list fin_maps pretty.
Import ListNotations.
Local Open Scope string_scope.
Local Open Scope Z_scope.

(** ** Cards *)

Module Cards.

Definition SUITS : list string := ["♠️"; "♥️"; "♦️"; "♣️"].

Definition RANKS : list string :=
  ["2"; "3"; "4"; "5"; "6"; "7"; "8"; "9"; "10"; "J"; "Q"; "K"; "A"].

(** [createDeck]: suits outermost, ranks innermost, each card the rank
    followed by the suit. *)
Definition createDeck : list string :=
  flat_map (fun suit => List.map (fun rank => (rank ++ suit)%string) RANKS) SUITS.

(** [card.endsWith(suit)] *)
Definition endsWith (s suffix : string) : bool :=
  let n := String.length s in
  let k := String.length suffix in
  (k <=? n)%nat && String.eqb (substring (n - k) k s) suffix.

Definition isContinuation (a : ascii) : bool :=
  let n := nat_of_ascii a in (128 <=? n)%nat && (n <? 192)%nat.

(** The bytes of the last code point, read from the reversed string. *)
Fixpoint takeTail (bs : list ascii) : list ascii :=
  match bs with
  | [] => []
  | b :: rest => if isContinuation b then b :: takeTail rest else [b]
  end.

(** [Array.from(card)[chars.length - 1] || ''] *)
Definition lastCodePoint (s : string) : string :=
  string_of_list_ascii (rev (takeTail (rev (list_ascii_of_string s)))).

Definition getCardSuit (card : string) : string :=
  match List.find (endsWith card) SUITS with
  | Some suit => suit
  | None => lastCodePoint card
  end.

Definition digitValue (a : ascii) : option Z :=
  let n := nat_of_ascii a in
  if (48 <=? n)%nat && (n <=? 57)%nat then Some (Z.of_nat (n - 48)) else None.

Fixpoint parseDigits (acc : Z) (s : string) : option Z :=
  match s with
  | EmptyString => Some acc
  | String a rest =>
      match digitValue a with
      | Some d => parseDigits (10 * acc + d) rest
      | None => None
      end
  end.

(** [parseInt(value)] on a plain decimal numeral.  [None] stands for every
    prefix on which the embedding does not follow JavaScript: [NaN] (no
    leading digit), a numeral with a sign, blanks or trailing characters, and
    a number that is not an array index (which [Object.entries] would not
    list in numeric order).  No card of [createDeck] is of that kind. *)
Definition parseInt (s : string) : option Z :=
  match s with
  | EmptyString => None
  | _ =>
      match parseDigits 0 s with
      | Some n => if n <? 2 ^ 32 - 1 then Some n else None
      | None => None
      end
  end.

Definition getCardValue (card : string) : option Z :=
  let suit := getCardSuit card in
  let value := substring 0 (String.length card - String.length suit) card in
  if String.eqb value "A" then Some 14
  else if String.eqb value "K" then Some 13
  else if String.eqb value "Q" then Some 12
  else if String.eqb value "J" then Some 11
  else if String.eqb value "10" || String.eqb value "T" then Some 10
  else parseInt value.

End Cards.

(** ** The hand evaluator *)

Module Evaluator.
Import Cards.

Record HandRank := { rank : Z; kickers : list Z }.

(** [values.sort((a, b) => b - a)]: the descending order of a list of
    integers does not depend on the sorting algorithm. *)
Fixpoint insertDesc (v : Z) (l : list Z) : list Z :=
  match l with
  | [] => [v]
  | x :: rest => if x <? v then v :: l else x :: insertDesc v rest
  end.

Definition sortDesc (l : list Z) : list Z := fold_right insertDesc [] l.

(** [counts[value] = (counts[value] || 0) + 1] on an object whose keys are
    array indices: [Object.entries] lists them in ascending numeric order. *)
Fixpoint bump (v : Z) (counts : list (Z * nat)) : list (Z * nat) :=
  match counts with
  | [] => [(v, 1%nat)]
  | (k, c) :: rest =>
      if v =? k then (k, S c) :: rest
      else if v <? k then (v, 1%nat) :: counts
      else (k, c) :: bump v rest
  end.

Definition countValues (values : list Z) : list (Z * nat) :=
  fold_left (fun counts v => bump v counts) values [].

Definition withCount (n : nat) (counts : list (Z * nat)) : list Z :=
  List.map fst (List.filter (fun e => (snd e =? n)%nat) counts).

Definition isFlush (suits : list string) : bool :=
  (length suits =? 5)%nat && (length (remove_dups suits) =? 1)%nat.

Record StraightInfo := { straight : bool; highCard : Z }.

(** [uniqueValues[i] - uniqueValues[i + 1] === 1] for every [i < 4], on a
    list of five values. *)
Fixpoint stepsDown (l : list Z) : bool :=
  match l with
  | a :: ((b :: _) as rest) => (a - b =? 1) && stepsDown rest
  | _ => true
  end.

Definition isStraight (values : list Z) : StraightInfo :=
  let uniqueValues := sortDesc (remove_dups values) in
  if negb (length uniqueValues =? 5)%nat then {| straight := false; highCard := 0 |}
  else if stepsDown uniqueValues
  then {| straight := true; highCard := nth 0 uniqueValues 0 |}
  else if bool_decide (uniqueValues = [14; 5; 4; 3; 2])
  then {| straight := true; highCard := 5 |}
  else {| straight := false; highCard := 0 |}.

(** [hand.map(getCardValue)]; [None] as soon as one card has no value. *)
Definition handValues (hand : list string) : option (list Z) :=
  mapM getCardValue hand.

(** [values.find(p) || 0] *)
Definition findOr0 (p : Z -> bool) (values : list Z) : Z :=
  match List.find p values with Some v => v | None => 0 end.

(** [evaluateBasicHand]: the evaluation used to choose among the five-card
    combinations; it keeps fewer kickers than [calculateHandRank]. *)
Definition evaluateBasicHand (hand : list string) : option HandRank :=
  values ← handValues hand;
  let suits := List.map getCardSuit hand in
  let values := sortDesc values in
  let counts := countValues values in
  let pairs := withCount 2 counts in
  let threes := withCount 3 counts in
  let fours := withCount 4 counts in
  let flush := isFlush suits in
  let straightInfo := isStraight values in
  Some (
  if flush && straight straightInfo
     && bool_decide (values !! 0%nat = Some 14) && bool_decide (values !! 1%nat = Some 13)
  then {| rank := 10; kickers := [14] |}
  else if flush && straight straightInfo
  then {| rank := 9; kickers := [highCard straightInfo] |}
  else match fours with
  | fourValue :: _ => {| rank := 8; kickers := [fourValue] |}
  | [] =>
  match threes, pairs with
  | threeValue :: _, pairValue :: _ => {| rank := 7; kickers := [threeValue; pairValue] |}
  | _, _ =>
  if flush then {| rank := 6; kickers := values |}
  else if straight straightInfo then {| rank := 5; kickers := [highCard straightInfo] |}
  else match threes with
  | threeValue :: _ => {| rank := 4; kickers := [threeValue] |}
  | [] =>
  if (2 <=? length pairs)%nat then {| rank := 3; kickers := sortDesc pairs |}
  else match pairs with
  | [pairValue] => {| rank := 2; kickers := [pairValue] |}
  | _ => {| rank := 1; kickers := values |}
  end end end end).

(** The loop of [compareHands] over the first [min] kickers. *)
Fixpoint compareKickers (k1 k2 : list Z) : Z :=
  match k1, k2 with
  | a :: r1, b :: r2 => if negb (a =? b) then a - b else compareKickers r1 r2
  | _, _ => 0
  end.

Definition compareHands (hand1 hand2 : HandRank) : Z :=
  if negb (rank hand1 =? rank hand2) then rank hand1 - rank hand2
  else compareKickers (kickers hand1) (kickers hand2).

(** The five nested loops [i < j < k < l < m] of [getBestFiveCardHand]
    visit the [n]-element sublists in this order. *)
Fixpoint combinations {A} (n : nat) (l : list A) : list (list A) :=
  match n with
  | O => [[]]
  | S n' =>
      match l with
      | [] => []
      | x :: rest => List.map (cons x) (combinations n' rest) ++ combinations n rest
      end
  end.

(** One iteration of the innermost loop body. *)
Definition keepBetter (best : option (list string * HandRank)) (combo : list string)
  : option (list string * HandRank) :=
  '(bestHand, bestRank) ← best;
  r ← evaluateBasicHand combo;
  Some (if 0 <? compareHands r bestRank then (combo, r) else (bestHand, bestRank)).

Definition getBestFiveCardHand (hand : list string) : option (list string) :=
  if (length hand =? 5)%nat then Some hand
  else if (6 <=? length hand)%nat then
    let bestHand := take 5 hand in
    bestRank ← evaluateBasicHand bestHand;
    fst <$> fold_left keepBetter (combinations 5 hand) (Some (bestHand, bestRank))
  else Some (take (Nat.min 5 (length hand)) hand).

Definition calculateHandRank (hand : list string) : option HandRank :=
  bestHand ← getBestFiveCardHand hand;
  values ← handValues bestHand;
  let suits := List.map getCardSuit bestHand in
  let values := sortDesc values in
  let counts := countValues values in
  let pairs := withCount 2 counts in
  let threes := withCount 3 counts in
  let fours := withCount 4 counts in
  let flush := isFlush suits in
  let straightInfo := isStraight values in
  Some (
  if flush && straight straightInfo
     && bool_decide (values !! 0%nat = Some 14) && bool_decide (values !! 1%nat = Some 13)
  then {| rank := 10; kickers := [14] |}
  else if flush && straight straightInfo
  then {| rank := 9; kickers := [highCard straightInfo] |}
  else match fours with
  | fourValue :: _ =>
      {| rank := 8; kickers := [fourValue; findOr0 (fun v => negb (v =? fourValue)) values] |}
  | [] =>
  match threes, pairs with
  | threeValue :: _, pairValue :: _ => {| rank := 7; kickers := [threeValue; pairValue] |}
  | _, _ =>
  if flush then {| rank := 6; kickers := values |}
  else if straight straightInfo then {| rank := 5; kickers := [highCard straightInfo] |}
  else match threes with
  | threeValue :: _ =>
      {| rank := 4;
         kickers := threeValue :: take 2 (List.filter (fun v => negb (v =? threeValue)) values) |}
  | [] =>
  if (2 <=? length pairs)%nat then
    let pairValues := sortDesc pairs in
    {| rank := 3;
       kickers := pairValues
                  ++ [findOr0 (fun v => negb (bool_decide (v ∈ pairValues))) values] |}
  else match pairs with
  | [pairValue] =>
      {| rank := 2;
         kickers := pairValue :: take 3 (List.filter (fun v => negb (v =? pairValue)) values) |}
  | _ => {| rank := 1; kickers := values |}
  end end end end).

(** [getRankName]: what a category is called when the winner is announced. *)
Definition getRankName (rank : Z) : string :=
  if rank =? 10 then "Royal Flush (Sảnh chúa)"
  else if rank =? 9 then "Straight Flush (Thùng phá sảnh)"
  else if rank =? 8 then "Four of a Kind (Tứ quý)"
  else if rank =? 7 then "Full House (Cù lũ)"
  else if rank =? 6 then "Flush (Thùng)"
  else if rank =? 5 then "Straight (Sảnh)"
  else if rank =? 4 then "Three of a Kind (Bộ ba)"
  else if rank =? 3 then "Two Pair (Hai đôi)"
  else if rank =? 2 then "One Pair (Một đôi)"
  else if rank =? 1 then "High Card (Mậu thầu)"
  else "Unknown".

End Evaluator.

(** ** The data model *)

Inductive Round := Waiting | Preflop | Flop | Turn | River | Showdown.

Inductive ActionKind := ActBet | ActCall | ActRaise | ActCheck | ActFold | ActAllin.

#[global] Instance Round_eq_dec : EqDecision Round.
Proof. solve_decision. Defined.

(** The records have primitive projections: a field of an updated record
    reduces in one step. *)
#[local] Set Primitive Projections.

Module Player.

Record t := {
  id : string;
  name : string;
  chips : Z;
  seat : nat;
  hole : list string;
  hasFolded : bool;
  currentBet : Z;
  isAllIn : bool
}.

Definition set_id (v : string) (x : t) : t :=
  {| id := v; name := name x; chips := chips x; seat := seat x; hole := hole x; hasFolded
     := hasFolded x; currentBet := currentBet x; isAllIn := isAllIn x |}.

Definition set_name (v : string) (x : t) : t :=
  {| id := id x; name := v; chips := chips x; seat := seat x; hole := hole x; hasFolded :=
     hasFolded x; currentBet := currentBet x; isAllIn := isAllIn x |}.

Definition set_chips (v : Z) (x : t) : t :=
  {| id := id x; name := name x; chips := v; seat := seat x; hole := hole x; hasFolded :=
     hasFolded x; currentBet := currentBet x; isAllIn := isAllIn x |}.

Definition set_seat (v : nat) (x : t) : t :=
  {| id := id x; name := name x; chips := chips x; seat := v; hole := hole x; hasFolded :=
     hasFolded x; currentBet := currentBet x; isAllIn := isAllIn x |}.

Definition set_hole (v : list string) (x : t) : t :=
  {| id := id x; name := name x; chips := chips x; seat := seat x; hole := v; hasFolded :=
     hasFolded x; currentBet := currentBet x; isAllIn := isAllIn x |}.

Definition set_hasFolded (v : bool) (x : t) : t :=
  {| id := id x; name := name x; chips := chips x; seat := seat x; hole := hole x;
     hasFolded := v; currentBet := currentBet x; isAllIn := isAllIn x |}.

Definition set_currentBet (v : Z) (x : t) : t :=
  {| id := id x; name := name x; chips := chips x; seat := seat x; hole := hole x;
     hasFolded := hasFolded x; currentBet := v; isAllIn := isAllIn x |}.

Definition set_isAllIn (v : bool) (x : t) : t :=
  {| id := id x; name := name x; chips := chips x; seat := seat x; hole := hole x;
     hasFolded := hasFolded x; currentBet := currentBet x; isAllIn := v |}.

End Player.

(** An entry of [actionHistory]; the timestamp is left out, nothing reads it. *)
Module PlayerAction.

Record t := {
  playerId : string;
  playerName : string;
  action : ActionKind;
  amount : option Z;
  totalBet : option Z;
  round : Round
}.

End PlayerAction.

(** [burned] holds [None] where [deck.pop()] found the deck empty and
    [undefined] was pushed.  [createdAt] is left out. *)
Module Game.

Record t := {
  id : string;
  clanId : string;
  channelId : string;
  players : list Player.t;
  deck : list string;
  burned : list (option string);
  board : list string;
  pot : Z;
  currentBet : Z;
  round : Round;
  dealerButton : nat;
  currentPlayerIndex : nat;
  isActive : bool;
  hasRaiseInRound : bool;
  betAmount : Z;
  lastAggressorIndex : option nat;
  toActIds : list string;
  actionHistory : list PlayerAction.t
}.

Definition set_id (v : string) (x : t) : t :=
  {| id := v; clanId := clanId x; channelId := channelId x; players := players x; deck :=
     deck x; burned := burned x; board := board x; pot := pot x; currentBet := currentBet x;
     round := round x; dealerButton := dealerButton x; currentPlayerIndex :=
     currentPlayerIndex x; isActive := isActive x; hasRaiseInRound := hasRaiseInRound x;
     betAmount := betAmount x; lastAggressorIndex := lastAggressorIndex x; toActIds :=
     toActIds x; actionHistory := actionHistory x |}.

Definition set_clanId (v : string) (x : t) : t :=
  {| id := id x; clanId := v; channelId := channelId x; players := players x; deck := deck
     x; burned := burned x; board := board x; pot := pot x; currentBet := currentBet x; round
     := round x; dealerButton := dealerButton x; currentPlayerIndex := currentPlayerIndex x;
     isActive := isActive x; hasRaiseInRound := hasRaiseInRound x; betAmount := betAmount x;
     lastAggressorIndex := lastAggressorIndex x; toActIds := toActIds x; actionHistory :=
     actionHistory x |}.

Definition set_channelId (v : string) (x : t) : t :=
  {| id := id x; clanId := clanId x; channelId := v; players := players x; deck := deck x;
     burned := burned x; board := board x; pot := pot x; currentBet := currentBet x; round :=
     round x; dealerButton := dealerButton x; currentPlayerIndex := currentPlayerIndex x;
     isActive := isActive x; hasRaiseInRound := hasRaiseInRound x; betAmount := betAmount x;
     lastAggressorIndex := lastAggressorIndex x; toActIds := toActIds x; actionHistory :=
     actionHistory x |}.

Definition set_players (v : list Player.t) (x : t) : t :=
  {| id := id x; clanId := clanId x; channelId := channelId x; players := v; deck := deck
     x; burned := burned x; board := board x; pot := pot x; currentBet := currentBet x; round
     := round x; dealerButton := dealerButton x; currentPlayerIndex := currentPlayerIndex x;
     isActive := isActive x; hasRaiseInRound := hasRaiseInRound x; betAmount := betAmount x;
     lastAggressorIndex := lastAggressorIndex x; toActIds := toActIds x; actionHistory :=
     actionHistory x |}.

Definition set_deck (v : list string) (x : t) : t :=
  {| id := id x; clanId := clanId x; channelId := channelId x; players := players x; deck
     := v; burned := burned x; board := board x; pot := pot x; currentBet := currentBet x;
     round := round x; dealerButton := dealerButton x; currentPlayerIndex :=
     currentPlayerIndex x; isActive := isActive x; hasRaiseInRound := hasRaiseInRound x;
     betAmount := betAmount x; lastAggressorIndex := lastAggressorIndex x; toActIds :=
     toActIds x; actionHistory := actionHistory x |}.

Definition set_burned (v : list (option string)) (x : t) : t :=
  {| id := id x; clanId := clanId x; channelId := channelId x; players := players x; deck
     := deck x; burned := v; board := board x; pot := pot x; currentBet := currentBet x;
     round := round x; dealerButton := dealerButton x; currentPlayerIndex :=
     currentPlayerIndex x; isActive := isActive x; hasRaiseInRound := hasRaiseInRound x;
     betAmount := betAmount x; lastAggressorIndex := lastAggressorIndex x; toActIds :=
     toActIds x; actionHistory := actionHistory x |}.

Definition set_board (v : list string) (x : t) : t :=
  {| id := id x; clanId := clanId x; channelId := channelId x; players := players x; deck
     := deck x; burned := burned x; board := v; pot := pot x; currentBet := currentBet x;
     round := round x; dealerButton := dealerButton x; currentPlayerIndex :=
     currentPlayerIndex x; isActive := isActive x; hasRaiseInRound := hasRaiseInRound x;
     betAmount := betAmount x; lastAggressorIndex := lastAggressorIndex x; toActIds :=
     toActIds x; actionHistory := actionHistory x |}.

Definition set_pot (v : Z) (x : t) : t :=
  {| id := id x; clanId := clanId x; channelId := channelId x; players := players x; deck
     := deck x; burned := burned x; board := board x; pot := v; currentBet := currentBet x;
     round := round x; dealerButton := dealerButton x; currentPlayerIndex :=
     currentPlayerIndex x; isActive := isActive x; hasRaiseInRound := hasRaiseInRound x;
     betAmount := betAmount x; lastAggressorIndex := lastAggressorIndex x; toActIds :=
     toActIds x; actionHistory := actionHistory x |}.

Definition set_currentBet (v : Z) (x : t) : t :=
  {| id := id x; clanId := clanId x; channelId := channelId x; players := players x; deck
     := deck x; burned := burned x; board := board x; pot := pot x; currentBet := v; round :=
     round x; dealerButton := dealerButton x; currentPlayerIndex := currentPlayerIndex x;
     isActive := isActive x; hasRaiseInRound := hasRaiseInRound x; betAmount := betAmount x;
     lastAggressorIndex := lastAggressorIndex x; toActIds := toActIds x; actionHistory :=
     actionHistory x |}.

Definition set_round (v : Round) (x : t) : t :=
  {| id := id x; clanId := clanId x; channelId := channelId x; players := players x; deck
     := deck x; burned := burned x; board := board x; pot := pot x; currentBet := currentBet
     x; round := v; dealerButton := dealerButton x; currentPlayerIndex := currentPlayerIndex
     x; isActive := isActive x; hasRaiseInRound := hasRaiseInRound x; betAmount := betAmount
     x; lastAggressorIndex := lastAggressorIndex x; toActIds := toActIds x; actionHistory :=
     actionHistory x |}.

Definition set_dealerButton (v : nat) (x : t) : t :=
  {| id := id x; clanId := clanId x; channelId := channelId x; players := players x; deck
     := deck x; burned := burned x; board := board x; pot := pot x; currentBet := currentBet
     x; round := round x; dealerButton := v; currentPlayerIndex := currentPlayerIndex x;
     isActive := isActive x; hasRaiseInRound := hasRaiseInRound x; betAmount := betAmount x;
     lastAggressorIndex := lastAggressorIndex x; toActIds := toActIds x; actionHistory :=
     actionHistory x |}.

Definition set_currentPlayerIndex (v : nat) (x : t) : t :=
  {| id := id x; clanId := clanId x; channelId := channelId x; players := players x; deck
     := deck x; burned := burned x; board := board x; pot := pot x; currentBet := currentBet
     x; round := round x; dealerButton := dealerButton x; currentPlayerIndex := v; isActive
     := isActive x; hasRaiseInRound := hasRaiseInRound x; betAmount := betAmount x;
     lastAggressorIndex := lastAggressorIndex x; toActIds := toActIds x; actionHistory :=
     actionHistory x |}.

Definition set_isActive (v : bool) (x : t) : t :=
  {| id := id x; clanId := clanId x; channelId := channelId x; players := players x; deck
     := deck x; burned := burned x; board := board x; pot := pot x; currentBet := currentBet
     x; round := round x; dealerButton := dealerButton x; currentPlayerIndex :=
     currentPlayerIndex x; isActive := v; hasRaiseInRound := hasRaiseInRound x; betAmount :=
     betAmount x; lastAggressorIndex := lastAggressorIndex x; toActIds := toActIds x;
     actionHistory := actionHistory x |}.

Definition set_hasRaiseInRound (v : bool) (x : t) : t :=
  {| id := id x; clanId := clanId x; channelId := channelId x; players := players x; deck
     := deck x; burned := burned x; board := board x; pot := pot x; currentBet := currentBet
     x; round := round x; dealerButton := dealerButton x; currentPlayerIndex :=
     currentPlayerIndex x; isActive := isActive x; hasRaiseInRound := v; betAmount :=
     betAmount x; lastAggressorIndex := lastAggressorIndex x; toActIds := toActIds x;
     actionHistory := actionHistory x |}.

Definition set_betAmount (v : Z) (x : t) : t :=
  {| id := id x; clanId := clanId x; channelId := channelId x; players := players x; deck
     := deck x; burned := burned x; board := board x; pot := pot x; currentBet := currentBet
     x; round := round x; dealerButton := dealerButton x; currentPlayerIndex :=
     currentPlayerIndex x; isActive := isActive x; hasRaiseInRound := hasRaiseInRound x;
     betAmount := v; lastAggressorIndex := lastAggressorIndex x; toActIds := toActIds x;
     actionHistory := actionHistory x |}.

Definition set_lastAggressorIndex (v : option nat) (x : t) : t :=
  {| id := id x; clanId := clanId x; channelId := channelId x; players := players x; deck
     := deck x; burned := burned x; board := board x; pot := pot x; currentBet := currentBet
     x; round := round x; dealerButton := dealerButton x; currentPlayerIndex :=
     currentPlayerIndex x; isActive := isActive x; hasRaiseInRound := hasRaiseInRound x;
     betAmount := betAmount x; lastAggressorIndex := v; toActIds := toActIds x; actionHistory
     := actionHistory x |}.

Definition set_toActIds (v : list string) (x : t) : t :=
  {| id := id x; clanId := clanId x; channelId := channelId x; players := players x; deck
     := deck x; burned := burned x; board := board x; pot := pot x; currentBet := currentBet
     x; round := round x; dealerButton := dealerButton x; currentPlayerIndex :=
     currentPlayerIndex x; isActive := isActive x; hasRaiseInRound := hasRaiseInRound x;
     betAmount := betAmount x; lastAggressorIndex := lastAggressorIndex x; toActIds := v;
     actionHistory := actionHistory x |}.

Definition set_actionHistory (v : list PlayerAction.t) (x : t) : t :=
  {| id := id x; clanId := clanId x; channelId := channelId x; players := players x; deck
     := deck x; burned := burned x; board := board x; pot := pot x; currentBet := currentBet
     x; round := round x; dealerButton := dealerButton x; currentPlayerIndex :=
     currentPlayerIndex x; isActive := isActive x; hasRaiseInRound := hasRaiseInRound x;
     betAmount := betAmount x; lastAggressorIndex := lastAggressorIndex x; toActIds :=
     toActIds x; actionHistory := v |}.

End Game.

(** ** The engine *)

Module Engine.
Import Cards Evaluator.

(** What the service holds for one game key: the [Game] object, whether
    [activeGames] still maps the key to it ([live]), the [amount] column of
    the user table, and the values [Math.random] will give to [shuffleDeck]
    ([Math.floor(Math.random() * (i + 1))], read modulo [i + 1]; [0] once
    the list is used up).  A [Game] object deleted from [activeGames] is
    still reachable from the result of the operation that ended it. *)
Record World := {
  game : Game.t;
  live : bool;
  users : gmap string Z;
  draws : list nat
}.

Definition set_game (v : Game.t) (w : World) : World :=
  {| game := v; live := live w; users := users w; draws := draws w |}.

Definition set_live (v : bool) (w : World) : World :=
  {| game := game w; live := v; users := users w; draws := draws w |}.

Definition set_users (v : gmap string Z) (w : World) : World :=
  {| game := game w; live := live w; users := v; draws := draws w |}.

Definition set_draws (v : list nat) (w : World) : World :=
  {| game := game w; live := live w; users := users w; draws := v |}.

Definition upd_game (f : Game.t -> Game.t) (w : World) : World :=
  set_game (f (game w)) w.

(** How an operation ends: it returns, or a [TypeError] escapes (a field of
    [undefined] is read), or a showdown meets a hand in which a string has no
    card value ([NoValue]: JavaScript goes on with [NaN], the embedding
    stops there). *)
Inductive Outcome (A : Type) : Type :=
| Done (a : A)
| Throws
| NoValue.

Arguments Done {A} a.
Arguments Throws {A}.
Arguments NoValue {A}.

#[global] Instance Outcome_ret : MRet Outcome := fun A a => Done a.

#[global] Instance Outcome_bind : MBind Outcome := fun A B f m =>
  match m with
  | Done a => f a
  | Throws => Throws
  | NoValue => NoValue
  end.

(** Why an action is refused; the source answers with a message. *)
Inductive Refusal :=
| NoActiveGame
| NotYourTurn
| AlreadyFolded
| InvalidAmount
| BelowCurrentBet
| InsufficientFunds
| NothingToCall
| CannotCheck
| NoMoney.

(** [GameResult]: [success] and, on failure, the reason.  The [game] of the
    result is the [game] of the world that comes with it. *)
Inductive GameResult := Success | Failure (why : Refusal).

Definition success (r : GameResult) : bool :=
  match r with Success => true | Failure _ => false end.

(** *** Arrays *)

(** [deck.pop()]: the last element, [None] on an empty array. *)
Definition pop {A} (l : list A) : option A * list A := (last l, removelast l).

(** [if (card)]: a defined, non-empty string. *)
Definition truthy (card : option string) : option string :=
  match card with
  | Some c => if String.eqb c "" then None else Some c
  | None => None
  end.

Definition includes (ids : list string) (x : string) : bool :=
  existsb (String.eqb x) ids.

(** The index of the first element that satisfies [p]. *)
Fixpoint findIndex {A} (p : A -> bool) (l : list A) : option nat :=
  match l with
  | [] => None
  | x :: rest => if p x then Some O else S <$> findIndex p rest
  end.

(** *** The deck *)

Definition swap (i j : nat) (deck : list string) : list string :=
  match deck !! i, deck !! j with
  | Some a, Some b => <[i:=b]> (<[j:=a]> deck)
  | _, _ => deck
  end.

(** The loop of [shuffleDeck], from index [i] down to 1. *)
Fixpoint shuffleFrom (i : nat) (deck : list string) (rnd : list nat)
  : list string * list nat :=
  match i with
  | O => (deck, rnd)
  | S i' => shuffleFrom i' (swap i (hd O rnd mod (i + 1)) deck) (tl rnd)
  end.

Definition shuffleDeck (deck : list string) (rnd : list nat) : list string * list nat :=
  shuffleFrom (length deck - 1) deck rnd.

(** *** The user table *)

(** [user?.amount || 0] *)
Definition userAmount (us : gmap string Z) (playerId : string) : Z :=
  default 0 (us !! playerId).

(** [if (user) { user.amount -= n; save(user) }] *)
Definition debit (playerId : string) (n : Z) (us : gmap string Z) : gmap string Z :=
  alter (fun a => a - n) playerId us.

Definition addMoneyToUser (playerId : string) (n : Z) (us : gmap string Z)
  : gmap string Z :=
  alter (fun a => a + n) playerId us.

Fixpoint deductLoop (playerIds : list string) (betAmount : Z) (us : gmap string Z)
  : gmap string Z :=
  match playerIds with
  | [] => us
  | playerId :: rest =>
      match us !! playerId with
      | Some a =>
          if betAmount <=? a
          then deductLoop rest betAmount (<[playerId := a - betAmount]> us)
          else deductLoop rest betAmount us
      | None => deductLoop rest betAmount us
      end
  end.

(** [deductPlayersFunds]: the flag is [success]. *)
Definition deductPlayersFunds (playerIds : list string) (betAmount : Z)
  (us : gmap string Z) : bool * gmap string Z :=
  (true, deductLoop playerIds betAmount us).

(** *** Who still has to act *)

Definition activePlayers (g : Game.t) : list Player.t :=
  List.filter (fun p => negb (Player.hasFolded p)) (Game.players g).

Definition setToActForNewRound (g : Game.t) : Game.t :=
  Game.set_toActIds (List.map Player.id (activePlayers g)) g.

Definition setToActAfterRaise (raiserId : string) (g : Game.t) : Game.t :=
  Game.set_toActIds
    (List.map Player.id
       (List.filter
          (fun p => negb (Player.hasFolded p) && negb (String.eqb (Player.id p) raiserId))
          (Game.players g))) g.

Definition removeFromToAct (playerId : string) (g : Game.t) : Game.t :=
  Game.set_toActIds
    (List.filter (fun i => negb (String.eqb i playerId)) (Game.toActIds g)) g.

(** The first [i] in [1..n] for which seat [(startIndex + i) % n] passes. *)
Definition scanSeats (ok : Player.t -> bool) (g : Game.t) (startIndex : nat)
  : option nat :=
  let n := length (Game.players g) in
  List.find
    (fun idx => match Game.players g !! idx with Some p => ok p | None => false end)
    (List.map (fun i => ((startIndex + i) mod n)%nat) (seq 1 n)).

Definition findNextActivePlayer (g : Game.t) (startIndex : nat) : nat :=
  default startIndex (scanSeats (fun p => negb (Player.hasFolded p)) g startIndex).

Definition findNextActorIndex (g : Game.t) (startIndex : nat) : nat :=
  match scanSeats
          (fun p => negb (Player.hasFolded p) && includes (Game.toActIds g) (Player.id p))
          g startIndex with
  | Some idx => idx
  | None => default startIndex (scanSeats (fun p => negb (Player.hasFolded p)) g startIndex)
  end.

Definition addActionToHistory (playerId : string) (action : ActionKind)
  (amount totalBet : option Z) (g : Game.t) : Game.t :=
  match List.find (fun p => String.eqb (Player.id p) playerId) (Game.players g) with
  | Some player =>
      Game.set_actionHistory
        (Game.actionHistory g ++
           [{| PlayerAction.playerId := playerId;
               PlayerAction.playerName := Player.name player;
               PlayerAction.action := action;
               PlayerAction.amount := amount;
               PlayerAction.totalBet := totalBet;
               PlayerAction.round := Game.round g |}]) g
  | None => g
  end.

(** *** Streets *)

(** [game.burned.push(game.deck.pop()!)] *)
Definition burn (g : Game.t) : Game.t :=
  let '(card, deck) := pop (Game.deck g) in
  Game.set_burned (Game.burned g ++ [card]) (Game.set_deck deck g).

(** [const card = game.deck.pop(); if (card) game.board.push(card)] *)
Definition dealBoard (g : Game.t) : Game.t :=
  let '(card, deck) := pop (Game.deck g) in
  let g := Game.set_deck deck g in
  match truthy card with
  | Some c => Game.set_board (Game.board g ++ [c]) g
  | None => g
  end.

Definition revealRemainingBoard (g : Game.t) : Game.t :=
  let g :=
    if (length (Game.board g) =? 0)%nat && negb (bool_decide (Game.round g = Showdown))
    then
      let g :=
        if (4 <=? length (Game.deck g))%nat
        then dealBoard (dealBoard (dealBoard (burn g)))
        else g in
      Game.set_round Flop g
    else g in
  let g :=
    if (length (Game.board g) =? 3)%nat && negb (bool_decide (Game.round g = Showdown))
    then
      let g := if (2 <=? length (Game.deck g))%nat then dealBoard (burn g) else g in
      Game.set_round Turn g
    else g in
  let g :=
    if (length (Game.board g) =? 4)%nat && negb (bool_decide (Game.round g = Showdown))
    then
      let g := if (2 <=? length (Game.deck g))%nat then dealBoard (burn g) else g in
      Game.set_round River g
    else g in
  if (length (Game.board g) =? 5)%nat then Game.set_round River g else g.

(** *** Settlement *)

Definition resetPlayer (p : Player.t) : Player.t :=
  Player.set_chips 0
    (Player.set_isAllIn false
       (Player.set_currentBet 0 (Player.set_hasFolded false (Player.set_hole [] p)))).

(** [resetForNextHand]: the hand is over; the game leaves [activeGames].
    The invitation to a next hand that follows is outside the engine. *)
Definition resetForNextHand (w : World) : World :=
  let '(deck, rnd) := shuffleDeck createDeck (draws w) in
  let g := game w in
  let g := Game.set_board [] g in
  let g := Game.set_burned [] g in
  let g := Game.set_pot 0 g in
  let g := Game.set_currentBet 0 g in
  let g := Game.set_round Waiting g in
  let g := Game.set_players (List.map resetPlayer (Game.players g)) g in
  let g := Game.set_deck deck g in
  let g := Game.set_isActive false g in
  set_live false (set_draws rnd (set_game g w)).

Definition awardPotAndRotate (winnerIds : list string) (w : World) : World :=
  if (length winnerIds =? 0)%nat then resetForNextHand w
  else if negb (live w) then w
  else
    let totalWinnings := Game.pot (game w) in
    let w :=
      match List.find (fun p => includes winnerIds (Player.id p)) (Game.players (game w)) with
      | Some player => set_users (addMoneyToUser (Player.id player) totalWinnings (users w)) w
      | None => w
      end in
    resetForNextHand w.

(** The comparator of the showdown's [sort]: higher category first, then
    higher kickers first. *)
Definition rankedCompare (a b : Player.t * HandRank) : Z :=
  if negb (rank (snd a) =? rank (snd b)) then rank (snd b) - rank (snd a)
  else compareKickers (kickers (snd b)) (kickers (snd a)).

(** [Array.prototype.sort] is stable: elements the comparator does not
    separate keep their order. *)
Fixpoint insertBy {A} (cmp : A -> A -> Z) (x : A) (l : list A) : list A :=
  match l with
  | [] => [x]
  | y :: rest => if cmp x y <=? 0 then x :: l else y :: insertBy cmp x rest
  end.

Definition sortBy {A} (cmp : A -> A -> Z) (l : list A) : list A :=
  fold_right (insertBy cmp) [] l.

(** [contenders.map(p => ({ player: p, rank: calculateHandRank(hand) })).sort(..)] *)
Definition rankContenders (g : Game.t) (contenders : list Player.t)
  : option (list (Player.t * HandRank)) :=
  sortBy rankedCompare <$>
    mapM (fun p => r ← calculateHandRank (Player.hole p ++ Game.board g); Some (p, r))
         contenders.

Definition handleShowdown (w : World) : Outcome World :=
  let contenders := activePlayers (game w) in
  if (length contenders =? 0)%nat then Done (resetForNextHand w)
  else
    match rankContenders (game w) contenders with
    | None => NoValue
    | Some ranked =>
        match ranked with
        | (winner, _) :: _ => Done (awardPotAndRotate [Player.id winner] w)
        | [] => Done (resetForNextHand w)
        end
    end.

Definition handleAllInShowdown (w : World) : Outcome World :=
  let w := upd_game revealRemainingBoard w in
  let active := activePlayers (game w) in
  if (length active =? 0)%nat then Done (resetForNextHand w)
  else
    match active with
    | [winner] => Done (awardPotAndRotate [Player.id winner] w)
    | _ =>
        match rankContenders (game w) active with
        | None => NoValue
        | Some ranked =>
            match ranked with
            | (winner, _) :: _ => Done (awardPotAndRotate [Player.id winner] w)
            | [] => Done (resetForNextHand w)
            end
        end
    end.

(** *** Closing a round *)

Definition advanceToNextRound (w : World) : Outcome World :=
  let g := game w in
  let g := Game.set_hasRaiseInRound false g in
  let g := Game.set_lastAggressorIndex None g in
  let g := Game.set_actionHistory [] g in
  let first (g : Game.t) : Outcome World :=
    Done (set_game
            (Game.set_currentPlayerIndex (findNextActivePlayer g (Game.dealerButton g)) g) w) in
  match Game.round g with
  | Preflop =>
      let g := Game.set_round Flop g in
      first (setToActForNewRound (dealBoard (dealBoard (dealBoard (burn g)))))
  | Flop =>
      let g := Game.set_round Turn g in
      first (setToActForNewRound (dealBoard (burn g)))
  | Turn =>
      let g := Game.set_round River g in
      first (setToActForNewRound (dealBoard (burn g)))
  | River => first g
  | Showdown => handleShowdown (set_game g w)
  | Waiting => Done (set_game g w)
  end.

Definition allMatched (g : Game.t) : bool :=
  forallb (fun p => Player.currentBet p =? Game.currentBet g) (activePlayers g).

(** The closure test and what follows it, shared by [moveToNextPlayer] and
    [checkAndContinueGame]: [None] when the round stays open. *)
Definition closeRound (w : World) : option (Outcome World) :=
  let g := game w in
  if (length (Game.toActIds g) =? 0)%nat && allMatched g then
    if (0 <? length (List.filter Player.isAllIn (activePlayers g)))%nat
    then Some (handleAllInShowdown w)
    else if bool_decide (Game.round g = River)
    then Some (handleShowdown (upd_game (Game.set_round Showdown) w))
    else Some (advanceToNextRound w)
  else None.

Definition passTurn (w : World) : World :=
  upd_game
    (fun g => Game.set_currentPlayerIndex (findNextActorIndex g (Game.currentPlayerIndex g)) g)
    w.

Definition moveToNextPlayer (w : World) : Outcome World :=
  match activePlayers (game w) with
  | [winner] => Done (awardPotAndRotate [Player.id winner] w)
  | _ =>
      match closeRound w with
      | Some out => out
      | None => Done (passTurn w)
      end
  end.

Definition checkAndContinueGame (w : World) : Outcome World :=
  if negb (live w) then Done w
  else
    match activePlayers (game w) with
    | [winner] => Done (awardPotAndRotate [Player.id winner] w)
    | _ =>
        match closeRound w with
        | Some out => out
        | None =>
            if (Game.currentPlayerIndex (game w) <? length (Game.players (game w)))%nat
            then Done (passTurn w)
            else Done w
        end
    end.

(** *** Actions *)

Definition getActiveGame (w : World) : option Game.t :=
  if live w && Game.isActive (game w) then Some (game w) else None.

(** Update the object [game.players[game.currentPlayerIndex]] in place. *)
Definition updCurrent (f : Player.t -> Player.t) (g : Game.t) : Game.t :=
  Game.set_players (alter f (Game.currentPlayerIndex g) (Game.players g)) g.

Definition refuse (why : Refusal) (w : World) : Outcome (GameResult * World) :=
  Done (Failure why, w).

(** The tail shared by the actions that end with [moveToNextPlayer] and
    [return { success: true, .. }]. *)
Definition thenMove (w : World) : Outcome (GameResult * World) :=
  w' ← moveToNextPlayer w; Done (Success, w').

(** The state changes of a raise to [newTotalBet] that costs [amountToAdd]:
    the debit, the player's bet, the pot, the table bet, the aggressor and
    [toActIds]. *)
Definition applyRaise (playerId : string) (newTotalBet amountToAdd : Z) (w : World) : World :=
  let w := set_users (debit playerId amountToAdd (users w)) w in
  upd_game
    (fun g =>
       let g := updCurrent (Player.set_currentBet newTotalBet) g in
       let g := Game.set_pot (Game.pot g + amountToAdd) g in
       let g := Game.set_currentBet newTotalBet g in
       let g := Game.set_hasRaiseInRound true g in
       let g := Game.set_lastAggressorIndex (Some (Game.currentPlayerIndex g)) g in
       setToActAfterRaise playerId g)
    w.

Definition makeRaise (playerId : string) (toTotal : Z) (w : World)
  : Outcome (GameResult * World) :=
  match getActiveGame w with
  | None => refuse NoActiveGame w
  | Some g =>
      match Game.players g !! Game.currentPlayerIndex g with
      | None => Throws
      | Some currentPlayer =>
          if negb (String.eqb (Player.id currentPlayer) playerId) then refuse NotYourTurn w
          else if Player.hasFolded currentPlayer then refuse AlreadyFolded w
          else
            let amountToAdd := toTotal - Player.currentBet currentPlayer in
            if (amountToAdd <=? 0) || (Player.chips currentPlayer <? amountToAdd)
            then refuse InvalidAmount w
            else if toTotal <=? Game.currentBet g then refuse BelowCurrentBet w
            else if userAmount (users w) playerId <? amountToAdd
            then refuse InsufficientFunds w
            else
              let w := set_users (debit playerId amountToAdd (users w)) w in
              let w :=
                upd_game
                  (fun g =>
                     let g := updCurrent (Player.set_currentBet toTotal) g in
                     let g := Game.set_pot (Game.pot g + amountToAdd) g in
                     let g := Game.set_currentBet toTotal g in
                     let g := Game.set_hasRaiseInRound true g in
                     let g :=
                       if Player.chips currentPlayer =? 0
                       then updCurrent (Player.set_isAllIn true) g else g in
                     let g :=
                       Game.set_lastAggressorIndex (Some (Game.currentPlayerIndex g)) g in
                     let g := setToActAfterRaise playerId g in
                     addActionToHistory playerId ActRaise (Some amountToAdd) (Some toTotal) g)
                  w in
              thenMove w
      end
  end.

Definition makeCall (playerId : string) (w : World) : Outcome (GameResult * World) :=
  match getActiveGame w with
  | None => refuse NoActiveGame w
  | Some g =>
      match Game.players g !! Game.currentPlayerIndex g with
      | None => Throws
      | Some currentPlayer =>
          if negb (String.eqb (Player.id currentPlayer) playerId) then refuse NotYourTurn w
          else if Player.hasFolded currentPlayer then refuse AlreadyFolded w
          else
            let amountToCall := Game.currentBet g - Player.currentBet currentPlayer in
            if amountToCall <=? 0 then refuse NothingToCall w
            else if userAmount (users w) playerId <? amountToCall
            then refuse InsufficientFunds w
            else
              let w := set_users (debit playerId amountToCall (users w)) w in
              let w :=
                upd_game
                  (fun g =>
                     let total := Player.currentBet currentPlayer + amountToCall in
                     let g := updCurrent (Player.set_currentBet total) g in
                     let g := Game.set_pot (Game.pot g + amountToCall) g in
                     let g := removeFromToAct playerId g in
                     addActionToHistory playerId ActCall (Some amountToCall) (Some total) g)
                  w in
              thenMove w
      end
  end.

Definition makeCheck (playerId : string) (w : World) : Outcome (GameResult * World) :=
  match getActiveGame w with
  | None => refuse NoActiveGame w
  | Some g =>
      match Game.players g !! Game.currentPlayerIndex g with
      | None => Throws
      | Some currentPlayer =>
          if negb (String.eqb (Player.id currentPlayer) playerId) then refuse NotYourTurn w
          else if Player.hasFolded currentPlayer then refuse AlreadyFolded w
          else if Player.currentBet currentPlayer <? Game.currentBet g
          then refuse CannotCheck w
          else
            let w :=
              upd_game
                (fun g =>
                   let g := removeFromToAct playerId g in
                   addActionToHistory playerId ActCheck None None g)
                w in
            thenMove w
      end
  end.

Definition makeFold (playerId : string) (w : World) : Outcome (GameResult * World) :=
  match getActiveGame w with
  | None => refuse NoActiveGame w
  | Some g =>
      match Game.players g !! Game.currentPlayerIndex g with
      | None => Throws
      | Some currentPlayer =>
          if negb (String.eqb (Player.id currentPlayer) playerId) then refuse NotYourTurn w
          else if Player.hasFolded currentPlayer then refuse AlreadyFolded w
          else
            let w :=
              upd_game
                (fun g =>
                   let g := updCurrent (Player.set_hasFolded true) g in
                   let g := removeFromToAct playerId g in
                   addActionToHistory playerId ActFold None None g)
                w in
            thenMove w
      end
  end.

(** The three quick raises differ in [raiseAmount] only: the table's unit
    stake, a multiple of it, or the pot. *)
Definition raiseBy (raiseAmount : Game.t -> Z) (playerId : string) (w : World)
  : Outcome (GameResult * World) :=
  match getActiveGame w with
  | None => refuse NoActiveGame w
  | Some g =>
      match Game.players g !! Game.currentPlayerIndex g with
      | None => Throws
      | Some currentPlayer =>
          if negb (String.eqb (Player.id currentPlayer) playerId) then refuse NotYourTurn w
          else if Player.hasFolded currentPlayer then refuse AlreadyFolded w
          else
            let newTotalBet := Game.currentBet g + raiseAmount g in
            let amountToAdd := newTotalBet - Player.currentBet currentPlayer in
            if amountToAdd <=? 0 then refuse InvalidAmount w
            else if userAmount (users w) playerId <? amountToAdd
            then refuse InsufficientFunds w
            else
              let w := applyRaise playerId newTotalBet amountToAdd w in
              let w :=
                upd_game
                  (addActionToHistory playerId ActRaise (Some (raiseAmount g))
                     (Some newTotalBet))
                  w in
              thenMove w
      end
  end.

Definition makeRaiseByBetAmount : string -> World -> Outcome (GameResult * World) :=
  raiseBy Game.betAmount.

Definition makeRaiseByMultiplier (playerId : string) (multiplier : Z)
  : World -> Outcome (GameResult * World) :=
  raiseBy (fun g => Z.max 0 (Game.betAmount g * multiplier)) playerId.

Definition makeRaiseByPot : string -> World -> Outcome (GameResult * World) :=
  raiseBy (fun g => Z.max (Game.betAmount g) (Game.pot g)).

(** [makeAllIn].  [handleAllInInsufficientFunds] only prompts the next actor
    and arms the turn timer. *)
Definition makeAllIn (playerId : string) (w : World) : Outcome (GameResult * World) :=
  match getActiveGame w with
  | None => refuse NoActiveGame w
  | Some g =>
      match Game.players g !! Game.currentPlayerIndex g with
      | None => Throws
      | Some currentPlayer =>
          if negb (String.eqb (Player.id currentPlayer) playerId) then refuse NotYourTurn w
          else if Player.hasFolded currentPlayer then refuse AlreadyFolded w
          else
            let balance := userAmount (users w) playerId in
            let amountToCall := Z.max 0 (Game.currentBet g - Player.currentBet currentPlayer) in
            if balance <=? 0 then refuse NoMoney w
            else if (0 <? amountToCall) && (balance <? amountToCall)
            then refuse InsufficientFunds w
            else
              let allInAmount := balance in
              let newPlayerBet := Player.currentBet currentPlayer + allInAmount in
              let w := set_users (alter (fun _ => 0) playerId (users w)) w in
              let w :=
                upd_game
                  (fun g =>
                     let g := updCurrent (Player.set_chips 0) g in
                     let g := updCurrent (Player.set_currentBet newPlayerBet) g in
                     let g := updCurrent (Player.set_isAllIn true) g in
                     Game.set_pot (Game.pot g + allInAmount) g)
                  w in
              let w :=
                if Game.currentBet g <? newPlayerBet then
                  upd_game
                    (fun g =>
                       let g := Game.set_currentBet newPlayerBet g in
                       let g := Game.set_hasRaiseInRound true g in
                       let g :=
                         Game.set_lastAggressorIndex (Some (Game.currentPlayerIndex g)) g in
                       setToActAfterRaise playerId g)
                    w
                else
                  upd_game
                    (fun g =>
                       let g := setToActAfterRaise playerId g in
                       Game.set_lastAggressorIndex (Some (Game.currentPlayerIndex g)) g)
                    w in
              w ← moveToNextPlayer w;
              Done (Success,
                    upd_game
                      (addActionToHistory playerId ActAllin (Some allInAmount)
                         (Some newPlayerBet))
                      w)
      end
  end.

(** *** Timers that fire *)

(** The turn timer: the current player, if it is still [playerId] and has
    not folded, is folded through [makeFold]; its result is dropped. *)
Definition handleTurnTimeout (playerId : string) (w : World) : Outcome World :=
  match Game.players (game w) !! Game.currentPlayerIndex (game w) with
  | Some player =>
      if String.eqb (Player.id player) playerId && negb (Player.hasFolded player)
      then '(_, w') ← makeFold playerId w; Done w'
      else Done w
  | None => Done w
  end.

(** The grace timer of a player who could not pay. *)
Definition handleInsufficientFundsTimeout (playerId : string) (w : World) : Outcome World :=
  if negb (live w) then Done w
  else
    let g := game w in
    match findIndex (fun p => String.eqb (Player.id p) playerId) (Game.players g) with
    | None => Done w
    | Some i =>
        match Game.players g !! i with
        | None => Done w
        | Some player =>
            if Player.hasFolded player then Done w
            else
              let callAmount := Game.currentBet g - Player.currentBet player in
              if userAmount (users w) playerId <? callAmount then
                let g :=
                  Game.set_players (alter (Player.set_hasFolded true) i (Game.players g)) g in
                let g := removeFromToAct playerId g in
                checkAndContinueGame (set_game g w)
              else Done w
        end
    end.

(** *** Starting a hand *)

(** [const card = game.deck.pop(); if (card) player.hole.push(card)] for the
    player at seat [i]. *)
Definition dealHole (g : Game.t) (i : nat) : Game.t :=
  let '(card, deck) := pop (Game.deck g) in
  let g := Game.set_deck deck g in
  match truthy card with
  | Some c =>
      Game.set_players
        (alter (fun p => Player.set_hole (Player.hole p ++ [c]) p) i (Game.players g)) g
  | None => g
  end.

Definition dealRound (g : Game.t) : Game.t :=
  fold_left dealHole (seq 0 (length (Game.players g))) g.

(** No blinds: every bet starts at 0. *)
Definition postBlinds (g : Game.t) : Game.t :=
  let g := Game.set_players (List.map (Player.set_currentBet 0) (Game.players g)) g in
  let g := Game.set_currentBet 0 g in
  let g :=
    Game.set_currentPlayerIndex
      ((Game.dealerButton g + 1) mod length (Game.players g))%nat g in
  let g := setToActForNewRound g in
  Game.set_lastAggressorIndex None g.

Definition dealCardsAndStartGame (w : World) : World :=
  if negb (live w) then w
  else
    upd_game (fun g => postBlinds (Game.set_round Preflop (dealRound (dealRound g)))) w.

Definition newGame (gameId clanId channelId : string) (players : list Player.t)
  (deck : list string) (pot betAmount : Z) : Game.t :=
  {| Game.id := gameId; Game.clanId := clanId; Game.channelId := channelId;
     Game.players := players; Game.deck := deck; Game.burned := []; Game.board := [];
     Game.pot := pot; Game.currentBet := 0; Game.round := Waiting;
     Game.dealerButton := 0; Game.currentPlayerIndex := 0; Game.isActive := true;
     Game.hasRaiseInRound := false; Game.betAmount := betAmount;
     Game.lastAggressorIndex := None; Game.toActIds := []; Game.actionHistory := [] |}.

Definition newPlayer (playerId name : string) (chips : Z) (index : nat) : Player.t :=
  {| Player.id := playerId; Player.name := name; Player.chips := chips;
     Player.seat := index; Player.hole := []; Player.hasFolded := false;
     Player.currentBet := 0; Player.isAllIn := false |}.

(** [startGame].  [gameId] stands for [poker_${Date.now()}], and [nameOf]
    for the display name the user table or the chat client gives for an id;
    without one the name is [Player<index + 1>].  The deal itself is
    [dealCardsAndStartGame], run by a timer. *)
Definition startGame (gameId clanId channelId : string) (nameOf : string -> option string)
  (playerIds : list string) (betAmount : Z) (w : World) : World :=
  let '(deck, rnd) := shuffleDeck createDeck (draws w) in
  let players :=
    imap (fun index playerId =>
            newPlayer playerId
              (default ("Player" ++ pretty (index + 1)%nat)%string (nameOf playerId))
              0 index)
         playerIds in
  let g :=
    newGame gameId clanId channelId players deck
      (Z.of_nat (length playerIds) * betAmount) betAmount in
  let '(_, us) := deductPlayersFunds playerIds betAmount (users w) in
  {| game := g; live := true; users := us; draws := rnd |}.

(** [createNewGame], the start of a continued table: the stakes were taken
    when the players accepted, each player holds [betAmount] chips, and the
    cards are dealt at once. *)
Definition createNewGame (gameId clanId channelId : string)
  (players : list (string * string)) (betAmount : Z) (w : World) : World :=
  let ps := imap (fun index p => newPlayer (fst p) (snd p) betAmount index) players in
  let g0 :=
    newGame gameId clanId channelId ps createDeck
      (Z.of_nat (length players) * betAmount) betAmount in
  let '(deck, rnd) := shuffleDeck (Game.deck g0) (draws w) in
  dealCardsAndStartGame
    {| game := Game.set_deck deck g0; live := true; users := users w; draws := rnd |}.

End Engine.

(** ** Statements about the engine *)

Module Props.
Import Cards Evaluator Engine.

(** The eight actions a player can send. *)
Inductive Action :=
| Call
| CheckTurn
| Fold
| RaiseTo (toTotal : Z)
| RaiseByBetAmount
| RaiseByMultiplier (multiplier : Z)
| RaiseByPot
| AllIn.

Definition perform (a : Action) (playerId : string) (w : World)
  : Outcome (GameResult * World) :=
  match a with
  | Call => makeCall playerId w
  | CheckTurn => makeCheck playerId w
  | Fold => makeFold playerId w
  | RaiseTo toTotal => makeRaise playerId toTotal w
  | RaiseByBetAmount => makeRaiseByBetAmount playerId w
  | RaiseByMultiplier multiplier => makeRaiseByMultiplier playerId multiplier w
  | RaiseByPot => makeRaiseByPot playerId w
  | AllIn => makeAllIn playerId w
  end.

(** The player whose turn it is. *)
Definition currentPlayer (g : Game.t) : option Player.t :=
  Game.players g !! Game.currentPlayerIndex g.

(** The common preconditions fail: no active game, or the player at
    [currentPlayerIndex] is another one, or has folded. *)
Definition preconditionFails (playerId : string) (w : World) : Prop :=
  getActiveGame w = None
  ∨ ∃ p, currentPlayer (game w) = Some p
         ∧ (Player.id p ≠ playerId ∨ Player.hasFolded p = true).

(** It is [playerId]'s turn in an active game, and [playerId] has not folded. *)
Definition onTurn (playerId : string) (w : World) (p : Player.t) : Prop :=
  getActiveGame w = Some (game w)
  ∧ currentPlayer (game w) = Some p
  ∧ Player.id p = playerId
  ∧ Player.hasFolded p = false.

(** Somebody else is still in the hand. *)
Definition hasOpponent (playerId : string) (g : Game.t) : Prop :=
  ∃ q, q ∈ Game.players g ∧ Player.hasFolded q = false ∧ Player.id q ≠ playerId.

(** The ids of the players still in the hand, [playerId] apart. *)
Definition othersToAct (playerId : string) (g : Game.t) : list string :=
  List.map Player.id
    (List.filter
       (fun p => negb (Player.hasFolded p) && negb (String.eqb (Player.id p) playerId))
       (Game.players g)).

(** The four ways to raise. *)
Inductive Raise :=
| ToTotal (toTotal : Z)
| ByBetAmount
| ByMultiplier (multiplier : Z)
| ByPot.

Definition raiseAction (k : Raise) : Action :=
  match k with
  | ToTotal toTotal => RaiseTo toTotal
  | ByBetAmount => RaiseByBetAmount
  | ByMultiplier multiplier => RaiseByMultiplier multiplier
  | ByPot => RaiseByPot
  end.

(** The new total X a raise asks for. *)
Definition raiseTotal (k : Raise) (g : Game.t) : Z :=
  match k with
  | ToTotal toTotal => toTotal
  | ByBetAmount => Game.currentBet g + Game.betAmount g
  | ByMultiplier multiplier =>
      Game.currentBet g + Z.max 0 (Game.betAmount g * multiplier)
  | ByPot => Game.currentBet g + Z.max (Game.betAmount g) (Game.pot g)
  end.

(** [toActIds] only names players who have not folded. *)
Definition toActSubset (g : Game.t) : Prop :=
  ∀ i, i ∈ Game.toActIds g →
       ∃ q, q ∈ Game.players g ∧ Player.hasFolded q = false ∧ Player.id q = i.

(** The states of a table: a hand is created for a list of player ids that
    passes [ok], dealt, and driven by the players' actions and by the
    timers. *)
Inductive reachableFrom (ok : list string → Prop) : World → Prop :=
| reach_start gameId clanId channelId nameOf playerIds betAmount w :
    ok playerIds →
    reachableFrom ok (startGame gameId clanId channelId nameOf playerIds betAmount w)
| reach_continue gameId clanId channelId players betAmount w :
    ok (List.map fst players) →
    reachableFrom ok (createNewGame gameId clanId channelId players betAmount w)
| reach_deal w :
    reachableFrom ok w → reachableFrom ok (dealCardsAndStartGame w)
| reach_action a playerId w r w' :
    reachableFrom ok w → perform a playerId w = Done (r, w') → reachableFrom ok w'
| reach_turn_timer playerId w w' :
    reachableFrom ok w → handleTurnTimeout playerId w = Done w' → reachableFrom ok w'
| reach_grace_timer playerId w w' :
    reachableFrom ok w → handleInsufficientFundsTimeout playerId w = Done w' →
    reachableFrom ok w'.

(** Any list of players. *)
Definition reachable : World → Prop := reachableFrom (fun _ => True).

(** The lists the callers of [startGame] and [createNewGame] pass: two
    players or more ([startGameFromInvite] and [startNewGameFromContinue]
    give up below two), no id twice (an invitation confirms an id once; a
    continuation collects the ids in a set). *)
Definition twoOrMore (playerIds : list string) : Prop :=
  (2 <= length playerIds)%nat ∧ NoDup playerIds.

Definition played : World → Prop := reachableFrom twoOrMore.

Definition ids (g : Game.t) : list string := List.map Player.id (Game.players g).

(** No id sits twice, and a hand that is still in [activeGames] has two
    players or more who have not folded. *)
Definition seated (w : World) : Prop :=
  NoDup (ids (game w))
  ∧ (live w = true → (2 <= length (activePlayers (game w)))%nat).

(** The same ids, and as many players in. *)
Definition keepSeats (g g' : Game.t) : Prop :=
  ids g' = ids g ∧ length (activePlayers g') = length (activePlayers g).

(** What the settling and street functions do to the seats: the ids stay,
    and if the game is still in [activeGames] afterwards it was before, with
    the same players. *)
Definition quiet (w w' : World) : Prop :=
  ids (game w') = ids (game w)
  ∧ (live w' = true → live w = true ∧ Game.players (game w') = Game.players (game w)).

(** The closure condition in the words of the specification: nobody is left
    to act, and every player still in the hand has matched the table bet. *)
Definition roundClosed (g : Game.t) : Prop :=
  Game.toActIds g = []
  ∧ ∀ p, p ∈ Game.players g → Player.hasFolded p = false →
         Player.currentBet p = Game.currentBet g.

Definition someoneAllIn (g : Game.t) : Prop :=
  ∃ p, p ∈ Game.players g ∧ Player.hasFolded p = false ∧ Player.isAllIn p = true.

(** The hand is not decided by a fold-out: the players still in the hand are
    not exactly one. *)
Definition notFoldOut (g : Game.t) : Prop := ∀ x, activePlayers g ≠ [x].

Definition nextStreet (r : Round) : Round :=
  match r with
  | Preflop => Flop
  | Flop => Turn
  | Turn => River
  | other => other
  end.

(** The board cards a street adds. *)
Definition streetCards (r : Round) : nat :=
  match r with Preflop => 3%nat | Flop | Turn => 1%nat | _ => 0%nat end.

(** Every card of the hand has a value: the evaluator then returns. *)
Definition valued (hand : list string) : Prop :=
  Forall (fun card => is_Some (getCardValue card)) hand.

(** Every card a showdown would read has a value. *)
Definition hasValue (card : string) : bool :=
  match getCardValue card with Some _ => true | None => false end.

Definition cardsValid (g : Game.t) : bool :=
  forallb hasValue (Game.board g)
  && forallb (fun p => forallb hasValue (Player.hole p)) (Game.players g).

(** Deck cards are what [createDeck] makes. *)
Definition deckValid (g : Game.t) : bool :=
  forallb (fun c => includes createDeck c) (Game.deck g).

(** The two showdowns: at the end of the river, and after an all-in. *)
Inductive ShowdownKind := AtRiver | AfterAllIn.

Definition showdownOf (k : ShowdownKind) (w : World) : Outcome World :=
  match k with
  | AtRiver => handleShowdown w
  | AfterAllIn => handleAllInShowdown w
  end.

(** The game a showdown ranks: an all-in showdown first reveals the board. *)
Definition showdownGame (k : ShowdownKind) (g : Game.t) : Game.t :=
  match k with
  | AtRiver => g
  | AfterAllIn => revealRemainingBoard g
  end.

(** The three ways a player folds: the fold action, the turn timer, and the
    grace timer of a player who cannot pay. *)
Inductive FoldEvent := FoldSent | TurnTimerFired | GraceTimerFired.

Definition foldBy (e : FoldEvent) (playerId : string) (w : World) : Outcome World :=
  match e with
  | FoldSent => '(_, w') ← makeFold playerId w; Done w'
  | TurnTimerFired => handleTurnTimeout playerId w
  | GraceTimerFired => handleInsufficientFundsTimeout playerId w
  end.

(** The event [e] folds the player at seat [i]. *)
Inductive folds (playerId : string) (w : World) : FoldEvent → nat → Prop :=
| folds_sent p :
    onTurn playerId w p →
    folds playerId w FoldSent (Game.currentPlayerIndex (game w))
| folds_turn_timer p :
    onTurn playerId w p →
    folds playerId w TurnTimerFired (Game.currentPlayerIndex (game w))
| folds_grace_timer i p :
    live w = true →
    findIndex (fun q => String.eqb (Player.id q) playerId) (Game.players (game w)) = Some i →
    Game.players (game w) !! i = Some p →
    Player.hasFolded p = false →
    userAmount (users w) playerId < Game.currentBet (game w) - Player.currentBet p →
    folds playerId w GraceTimerFired i.

(** The players still in the hand once seat [i] has folded. *)
Definition remainingAfterFold (i : nat) (g : Game.t) : list Player.t :=
  List.filter (fun p => negb (Player.hasFolded p))
    (alter (Player.set_hasFolded true) i (Game.players g)).

(** The world an operation returns, [w] if it does not return. *)
Definition worldOf (o : Outcome (GameResult * World)) (w : World) : World :=
  match o with Done (_, w') => w' | _ => w end.

Definition worldOr (o : Outcome World) (w : World) : World :=
  match o with Done w' => w' | _ => w end.

(** A game that differs from [g] in the deck, the burnt cards, the board and
    the round only. *)
Definition sameTable (g g' : Game.t) : Prop :=
  ∃ d b bo r,
    g' = Game.set_deck d (Game.set_burned b (Game.set_board bo (Game.set_round r g))).

(** What a settlement in favour of [W] leaves behind: one credit, of the
    whole pot, to [W]'s row (nothing if [W] has no row), every other row as
    it was, an empty pot, and a game that is over. *)
Definition settledFor (W : Player.t) (w w' : World) : Prop :=
  users w' = addMoneyToUser (Player.id W) (Game.pot (game w)) (users w)
  ∧ (∀ a, users w !! Player.id W = Some a →
          users w' !! Player.id W = Some (a + Game.pot (game w)))
  ∧ (∀ other, other ≠ Player.id W → users w' !! other = users w !! other)
  ∧ live w' = false
  ∧ Game.isActive (game w') = false
  ∧ Game.round (game w') = Waiting
  ∧ Game.pot (game w') = 0.

(** The four blocks of [revealRemainingBoard], one after the other. *)
Definition revealFlop (g : Game.t) : Game.t :=
  if (length (Game.board g) =? 0)%nat && negb (bool_decide (Game.round g = Showdown))
  then
    Game.set_round Flop
      (if (4 <=? length (Game.deck g))%nat
       then dealBoard (dealBoard (dealBoard (burn g))) else g)
  else g.

Definition revealTurn (g : Game.t) : Game.t :=
  if (length (Game.board g) =? 3)%nat && negb (bool_decide (Game.round g = Showdown))
  then Game.set_round Turn (if (2 <=? length (Game.deck g))%nat then dealBoard (burn g) else g)
  else g.

Definition revealRiver (g : Game.t) : Game.t :=
  if (length (Game.board g) =? 4)%nat && negb (bool_decide (Game.round g = Showdown))
  then Game.set_round River (if (2 <=? length (Game.deck g))%nat then dealBoard (burn g) else g)
  else g.

Definition markRiver (g : Game.t) : Game.t :=
  if (length (Game.board g) =? 5)%nat then Game.set_round River g else g.

(** The deck still holds [n] cards, none of them the empty string. *)
Definition stocked (n : nat) (g : Game.t) : Prop :=
  (n <= length (Game.deck g))%nat ∧ Forall (fun c => c ≠ "") (Game.deck g).

(** *** Sample inputs *)

(** The tokens held in the user table. *)
Definition totalAmount (us : gmap string Z) : Z :=
  map_fold (fun _ a acc => a + acc) 0 us.

(** A table where "a" can pay a stake of 1000, "b" cannot, and "c" has no
    row. *)
Definition threeUsers : World :=
  {| game := newGame "" "" "" [] [] 0 0; live := false;
     users := {[ "a" := 5000; "b" := 300 ]}; draws := [] |}.

Definition started : World :=
  startGame "poker_1" "clan" "channel" (fun _ => None) ["a"; "b"; "c"] 1000 threeUsers.

(** The six-card hand on which the choice of the best five cards goes
    wrong, and the five cards it should have kept. *)
Definition pairOfAces6 : list string := ["A♠️"; "A♥️"; "2♦️"; "3♣️"; "4♠️"; "K♦️"].
Definition pairOfAcesKing : list string := ["A♠️"; "A♥️"; "3♣️"; "4♠️"; "K♦️"].

(** A dealt three-handed table with a stake of 1000: after the stakes "a"
    holds 4000, "b" 2000 and "c" 500; "b" is first to act. *)
Definition table : World :=
  dealCardsAndStartGame
    (startGame "poker_2" "clan" "channel" (fun _ => None) ["a"; "b"; "c"] 1000
       {| game := newGame "" "" "" [] [] 0 0; live := false;
          users := {[ "a" := 5000; "b" := 3000; "c" := 1500 ]}; draws := [] |}).

(** "b" has raised to 1000; "c", next to act, holds 500. *)
Definition raised : World :=
  worldOf (perform (raiseAction ByBetAmount) "b" table) table.

(** A dealt heads-up table with a stake of 1000; "b" is first to act. *)
Definition headsUp : World :=
  dealCardsAndStartGame
    (startGame "poker_3" "clan" "channel" (fun _ => None) ["a"; "b"] 1000
       {| game := newGame "" "" "" [] [] 0 0; live := false;
          users := {[ "a" := 5000; "b" := 3000 ]}; draws := [] |}).

(** A river on which both players play the board, a royal flush. *)
Definition tied : World :=
  {| game :=
       Game.set_round River
         (Game.set_board ["A♠️"; "K♠️"; "Q♠️"; "J♠️"; "10♠️"]
            (newGame "poker_4" "clan" "channel"
               [Player.set_hole ["2♥️"; "3♦️"] (newPlayer "a" "Player1" 0 0);
                Player.set_hole ["4♣️"; "5♥️"] (newPlayer "b" "Player2" 0 1)]
               [] 2000 1000));
     live := true;
     users := {[ "a" := 4000; "b" := 2000 ]};
     draws := [] |}.

End Props.

(** ** What an operation is made of *)

Module Steps.
Import Cards Evaluator Engine Props.

(** The game once the player on turn has raised to [newTotalBet], paying
    [amountToAdd]. *)
Definition raisedTo (playerId : string) (newTotalBet amountToAdd : Z) (g : Game.t) : Game.t :=
  setToActAfterRaise playerId
    (Game.set_lastAggressorIndex (Some (Game.currentPlayerIndex g))
       (Game.set_hasRaiseInRound true
          (Game.set_currentBet newTotalBet
             (Game.set_pot (Game.pot g + amountToAdd)
                (updCurrent (Player.set_currentBet newTotalBet) g))))).

(** The game once the player on turn has gone all-in with [balance]. *)
Definition wentAllIn (playerId : string) (p : Player.t) (balance : Z) (g : Game.t) : Game.t :=
  let newPlayerBet := Player.currentBet p + balance in
  let g1 :=
    Game.set_pot (Game.pot g + balance)
      (updCurrent (Player.set_isAllIn true)
         (updCurrent (Player.set_currentBet newPlayerBet)
            (updCurrent (Player.set_chips 0) g))) in
  let g2 :=
    if Game.currentBet g <? newPlayerBet
    then Game.set_hasRaiseInRound true (Game.set_currentBet newPlayerBet g1)
    else g1 in
  setToActAfterRaise playerId
    (Game.set_lastAggressorIndex (Some (Game.currentPlayerIndex g)) g2).

(** The state an accepted action of [playerId], the player [p] on turn,
    hands to [moveToNextPlayer]; [h] is the action history. *)
Inductive commits (playerId : string) (w : World) (p : Player.t) : World → Prop :=
| commits_call h :
    0 < Game.currentBet (game w) - Player.currentBet p →
    Game.currentBet (game w) - Player.currentBet p <= userAmount (users w) playerId →
    commits playerId w p
      {| game :=
           Game.set_actionHistory h
             (removeFromToAct playerId
                (Game.set_pot
                   (Game.pot (game w) + (Game.currentBet (game w) - Player.currentBet p))
                   (updCurrent (Player.set_currentBet (Game.currentBet (game w))) (game w))));
         live := live w;
         users := debit playerId (Game.currentBet (game w) - Player.currentBet p) (users w);
         draws := draws w |}
| commits_check h :
    Game.currentBet (game w) <= Player.currentBet p →
    commits playerId w p
      (set_game (Game.set_actionHistory h (removeFromToAct playerId (game w))) w)
| commits_fold h :
    commits playerId w p
      (set_game
         (Game.set_actionHistory h
            (removeFromToAct playerId (updCurrent (Player.set_hasFolded true) (game w)))) w)
| commits_raise (k : Raise) h :
    0 < raiseTotal k (game w) - Player.currentBet p →
    raiseTotal k (game w) - Player.currentBet p <= userAmount (users w) playerId →
    (∀ toTotal, k = ToTotal toTotal →
       Game.currentBet (game w) < toTotal
       ∧ toTotal - Player.currentBet p <= Player.chips p) →
    commits playerId w p
      {| game :=
           Game.set_actionHistory h
             (raisedTo playerId (raiseTotal k (game w))
                (raiseTotal k (game w) - Player.currentBet p) (game w));
         live := live w;
         users := debit playerId (raiseTotal k (game w) - Player.currentBet p) (users w);
         draws := draws w |}
| commits_allin :
    0 < userAmount (users w) playerId →
    Game.currentBet (game w) - Player.currentBet p <= userAmount (users w) playerId →
    commits playerId w p
      {| game := wentAllIn playerId p (userAmount (users w) playerId) (game w);
         live := live w;
         users := alter (fun _ => 0) playerId (users w);
         draws := draws w |}.

(** The state the grace timer hands to [checkAndContinueGame] when it folds
    seat [i]. *)
Definition graceFolded (playerId : string) (i : nat) (w : World) : World :=
  set_game
    (removeFromToAct playerId
       (Game.set_players (alter (Player.set_hasFolded true) i (Game.players (game w)))
          (game w))) w.

(** The world [resetForNextHand] is run on when a hand ends in [w]: the
    streets may have been run out, the round's marks cleared, and one player
    still in the hand credited with the pot. *)
Definition handOver (w w0 : World) : Prop :=
  (∃ d b bo r hr la ah,
      game w0
      = Game.set_deck d (Game.set_burned b (Game.set_board bo (Game.set_round r
          (Game.set_hasRaiseInRound hr (Game.set_lastAggressorIndex la
             (Game.set_actionHistory ah (game w))))))))
  ∧ live w0 = live w
  ∧ draws w0 = draws w
  ∧ (users w0 = users w
     ∨ ∃ winner, winner ∈ Game.players (game w) ∧ Player.hasFolded winner = false
                 ∧ users w0
                   = addMoneyToUser (Player.id winner) (Game.pot (game w)) (users w)).

(** What [advanceToNextRound] clears. *)
Definition cleared (g : Game.t) : Game.t :=
  Game.set_actionHistory [] (Game.set_lastAggressorIndex None
    (Game.set_hasRaiseInRound false g)).

(** The cards of the street that follows round [r]. *)
Definition dealStreet (r : Round) (g : Game.t) : Game.t :=
  match r with
  | Preflop => dealBoard (dealBoard (dealBoard (burn (Game.set_round Flop g))))
  | Flop => dealBoard (burn (Game.set_round Turn g))
  | Turn => dealBoard (burn (Game.set_round River g))
  | _ => g
  end.

Definition firstToAct (g : Game.t) : Game.t :=
  Game.set_currentPlayerIndex (findNextActivePlayer g (Game.dealerButton g)) g.

(** The game [advanceToNextRound] leaves when the round is a betting street
    before the river, or [Waiting]. *)
Definition enterStreet (g : Game.t) : Game.t :=
  match Game.round g with
  | Waiting => cleared g
  | Preflop | Flop | Turn =>
      firstToAct (setToActForNewRound (dealStreet (Game.round g) (cleared g)))
  | _ => g
  end.

(** The three ways an action goes: a [TypeError] when the turn index names
    no seat, a refusal that changes nothing, or a committed change followed
    by [moveToNextPlayer]. *)
Definition shaped (a : Action) (playerId : string) (w : World) : Prop :=
  (getActiveGame w = Some (game w) ∧ currentPlayer (game w) = None
   ∧ perform a playerId w = Throws)
  ∨ (∃ why, perform a playerId w = Done (Failure why, w))
  ∨ (∃ p w1 (hf : World → World),
       onTurn playerId w p ∧ commits playerId w p w1
       ∧ (∀ w2, ∃ h, hf w2 = upd_game (Game.set_actionHistory h) w2)
       ∧ perform a playerId w = (w2 ← moveToNextPlayer w1; Done (Success, hf w2))).

(** What a returned action did. *)
Definition accepted (playerId : string) (w : World) (r : GameResult) (w' : World) : Prop :=
  (∃ why, r = Failure why ∧ w' = w)
  ∨ (r = Success
     ∧ ∃ p w1 w2 h,
         onTurn playerId w p ∧ commits playerId w p w1
         ∧ moveToNextPlayer w1 = Done w2
         ∧ w' = upd_game (Game.set_actionHistory h) w2).

End Steps.

(** ** Invariants of a table *)

Module Invariants.
Import Cards Evaluator Engine Props Steps.

(** The dealer button is seat 0 and the turn index names a seat. *)
Definition inRange (w : World) : Prop :=
  Game.dealerButton (game w) = 0%nat
  ∧ (Game.currentPlayerIndex (game w) < length (Game.players (game w)))%nat.

(** The cards of a game, wherever they lie: in the players' hands, on the
    board, burnt, or in the deck. *)
Definition cardsOf (g : Game.t) : list string :=
  (concat (List.map Player.hole (Game.players g)) ++ Game.board g
   ++ omap id (Game.burned g) ++ Game.deck g)%list.

Definition fullDeck (g : Game.t) : Prop := cardsOf g ≡ₚ createDeck.

(** Nobody still in the hand has bet more than the table bet, and whoever is
    not listed in [toActIds] has matched it. *)
Definition betsSettled (g : Game.t) : Prop :=
  ∀ p, p ∈ Game.players g → Player.hasFolded p = false →
       Player.currentBet p <= Game.currentBet g
       ∧ (Player.id p ∉ Game.toActIds g → Player.currentBet p = Game.currentBet g).

(** Nobody holds chips: what [startGame] seats. *)
Definition chipless (g : Game.t) : Prop :=
  Forall (fun p => Player.chips p = 0) (Game.players g).

(** Every player holds no chips or the table stake. *)
Definition chipsAtStake (g : Game.t) : Prop :=
  Forall (fun p => Player.chips p = 0 ∨ Player.chips p = Game.betAmount g) (Game.players g).

(** No id sits twice, and with a stake that is not negative the bets are
    settled. *)
Definition settled (w : World) : Prop :=
  NoDup (ids (game w)) ∧ (0 <= Game.betAmount (game w) → betsSettled (game w)).

(** Every player's chips satisfy [P], which may depend on the game. *)
Definition chipsAll (P : Game.t → Z → Prop) (w : World) : Prop :=
  Forall (fun x => P (game w) (Player.chips x)) (Game.players (game w)).

End Invariants.

(** ** Checking the stakes before an invitation *)

Module Funds.
Import Engine.

(** The answer of [checkPlayersFunds]: [success: true], or why not: a
    player without a row, named as the caller named them, or the labels of
    the players who are short. *)
Inductive FundsCheck :=
| FundsOk
| UnknownPlayer (name : string)
| ShortOfFunds (who : list string).

(** The loop of [checkPlayersFunds] over the [{idUser, name}] entries.
    [labelOf] stands for [user.display_name || user.username || playerId],
    read from the row of the user. *)
Fixpoint checkLoop (labelOf : string → string) (players : list (string * string))
  (betAmount : Z) (us : gmap string Z) (insufficientFundsPlayers : list string)
  : FundsCheck :=
  match players with
  | [] =>
      if (0 <? length insufficientFundsPlayers)%nat
      then ShortOfFunds insufficientFundsPlayers else FundsOk
  | (idUser, name) :: rest =>
      match us !! idUser with
      | None => UnknownPlayer name
      | Some amount =>
          checkLoop labelOf rest betAmount us
            (if amount <? betAmount
             then insufficientFundsPlayers ++ [labelOf idUser]
             else insufficientFundsPlayers)
      end
  end.

Definition checkPlayersFunds (labelOf : string → string)
  (players : list (string * string)) (betAmount : Z) (us : gmap string Z) : FundsCheck :=
  checkLoop labelOf players betAmount us [].

End Funds.

(** ** Invitations *)

Module Invite.
Import Engine.

(** [PokerInvite]; [expiresAt] is left out, only the chat surface reads it. *)
Record PokerInvite := {
  gameId : string;
  creatorId : string;
  clanId : string;
  channelId : string;
  messageId : string;
  mentionedUsers : list (string * string);
  confirmedUsers : list string;
  declinedUsers : list string;
  betAmount : Z
}.

Definition set_messageId (v : string) (x : PokerInvite) : PokerInvite :=
  {| gameId := gameId x; creatorId := creatorId x; clanId := clanId x;
     channelId := channelId x; messageId := v; mentionedUsers := mentionedUsers x;
     confirmedUsers := confirmedUsers x; declinedUsers := declinedUsers x;
     betAmount := betAmount x |}.

Definition set_confirmedUsers (v : list string) (x : PokerInvite) : PokerInvite :=
  {| gameId := gameId x; creatorId := creatorId x; clanId := clanId x;
     channelId := channelId x; messageId := messageId x;
     mentionedUsers := mentionedUsers x; confirmedUsers := v;
     declinedUsers := declinedUsers x; betAmount := betAmount x |}.

Definition set_declinedUsers (v : list string) (x : PokerInvite) : PokerInvite :=
  {| gameId := gameId x; creatorId := creatorId x; clanId := clanId x;
     channelId := channelId x; messageId := messageId x;
     mentionedUsers := mentionedUsers x; confirmedUsers := confirmedUsers x;
     declinedUsers := v; betAmount := betAmount x |}.

(** A [Map<string, V>]: the entries in insertion order, no key twice. *)
Definition mapGet {V} (key : string) (m : list (string * V)) : option V :=
  snd <$> List.find (fun e => String.eqb (fst e) key) m.

Definition mapHas {V} (key : string) (m : list (string * V)) : bool :=
  existsb (fun e => String.eqb (fst e) key) m.

(** Change, in place, the value [get] returns for [key]. *)
Fixpoint mapUpdate {V} (key : string) (f : V → V) (m : list (string * V))
  : list (string * V) :=
  match m with
  | [] => []
  | e :: rest =>
      if String.eqb (fst e) key then (fst e, f (snd e)) :: rest
      else e :: mapUpdate key f rest
  end.

(** [set] keeps the place of a key that is already there. *)
Definition mapSet {V} (key : string) (v : V) (m : list (string * V)) : list (string * V) :=
  if mapHas key m then mapUpdate key (fun _ => v) m else (m ++ [(key, v)])%list.

Definition mapDelete {V} (key : string) (m : list (string * V)) : list (string * V) :=
  List.filter (fun e => negb (String.eqb (fst e) key)) m.

(** What the service holds: the invitations, and the table and user rows of
    the engine. *)
Record Lobby := {
  gameInvites : list (string * PokerInvite);
  table : World
}.

(** [getGameInvite]: the first invitation, in insertion order, with this
    game id, together with its key. *)
Definition findInvite (gameId0 : string) (m : list (string * PokerInvite))
  : option (string * PokerInvite) :=
  List.find (fun e => String.eqb (gameId (snd e)) gameId0) m.

Definition getGameInvite (gameId0 : string) (l : Lobby) : option PokerInvite :=
  snd <$> findInvite gameId0 (gameInvites l).

(** Change, in place, the object [getGameInvite] returns. *)
Fixpoint updateInvite (gameId0 : string) (f : PokerInvite → PokerInvite)
  (m : list (string * PokerInvite)) : list (string * PokerInvite) :=
  match m with
  | [] => []
  | e :: rest =>
      if String.eqb (gameId (snd e)) gameId0 then (fst e, f (snd e)) :: rest
      else e :: updateInvite gameId0 f rest
  end.

Definition setInviteMessageId (gameId0 messageId0 : string) (l : Lobby) : Lobby :=
  {| gameInvites := updateInvite gameId0 (set_messageId messageId0) (gameInvites l);
     table := table l |}.

Record InviteResponsesSummary := {
  joined : list string;
  declined : list string;
  pending : list (string * string)
}.

Definition getInviteResponses (gameId0 : string) (l : Lobby) : InviteResponsesSummary :=
  match getGameInvite gameId0 l with
  | None => {| joined := []; declined := []; pending := [] |}
  | Some invite =>
      {| joined := confirmedUsers invite;
         declined := declinedUsers invite;
         pending :=
           List.filter
             (fun u => negb (includes (confirmedUsers invite) (fst u))
                       && negb (includes (declinedUsers invite) (fst u)))
             (mentionedUsers invite) |}
  end.

(** [createInvite]; [gameId0] stands for [poker_${Date.now()}].  The creator
    is confirmed from the start. *)
Definition createInvite (creatorId0 clanId0 channelId0 messageId0 : string)
  (allPlayers : list (string * string)) (betAmount0 : Z) (gameId0 : string) (l : Lobby)
  : Lobby :=
  let inviteKey := (clanId0 ++ "_" ++ channelId0 ++ "_" ++ gameId0)%string in
  let invite :=
    {| gameId := gameId0; creatorId := creatorId0; clanId := clanId0;
       channelId := channelId0; messageId := messageId0; mentionedUsers := allPlayers;
       confirmedUsers := [creatorId0]; declinedUsers := []; betAmount := betAmount0 |} in
  {| gameInvites := mapSet inviteKey invite (gameInvites l); table := table l |}.

(** How [startGameFromInvite] ends. *)
Inductive StartResult := InviteMissing | NotEnoughPlayers | GameStarted.

(** [startGameFromInvite]: the invitation is deleted first; the game starts
    with the confirmed users when they are two or more.  [newGameId] stands
    for the id [startGame] makes, [nameOf] for the display names. *)
Definition startGameFromInvite (inviteKey newGameId : string)
  (nameOf : string → option string) (l : Lobby) : StartResult * Lobby :=
  match mapGet inviteKey (gameInvites l) with
  | None => (InviteMissing, l)
  | Some invite =>
      let l := {| gameInvites := mapDelete inviteKey (gameInvites l); table := table l |} in
      if (length (confirmedUsers invite) =? 0)%nat then (NotEnoughPlayers, l)
      else if (length (confirmedUsers invite) <? 2)%nat then (NotEnoughPlayers, l)
      else
        (GameStarted,
         {| gameInvites := gameInvites l;
            table :=
              startGame newGameId (clanId invite) (channelId invite) nameOf
                (confirmedUsers invite) (betAmount invite) (table l) |})
  end.

Inductive InviteAction := PokerJoin | PokerDecline.

(** What a click does to the two lists. *)
Definition respond (userId : string) (action : InviteAction) (invite : PokerInvite)
  : PokerInvite :=
  match action with
  | PokerJoin =>
      let invite :=
        if includes (confirmedUsers invite) userId then invite
        else set_confirmedUsers (confirmedUsers invite ++ [userId]) invite in
      set_declinedUsers
        (List.filter (fun u => negb (String.eqb u userId)) (declinedUsers invite)) invite
  | PokerDecline =>
      let invite :=
        if includes (declinedUsers invite) userId then invite
        else set_declinedUsers (declinedUsers invite ++ [userId]) invite in
      set_confirmedUsers
        (List.filter (fun u => negb (String.eqb u userId)) (confirmedUsers invite)) invite
  end.

(** [ButtonActionResult]: a refusal, or [success: true] with [gameStarted]. *)
Inductive ClickResult :=
| NoSuchInvite
| CreatorIsIn
| Clicked (gameStarted : bool).

Definition handleButtonClick (userId : string) (action : InviteAction)
  (gameId0 newGameId : string) (nameOf : string → option string) (l : Lobby)
  : ClickResult * Lobby :=
  match getGameInvite gameId0 l with
  | None => (NoSuchInvite, l)
  | Some invite =>
      if String.eqb userId (creatorId invite) then (CreatorIsIn, l)
      else
        let invite := respond userId action invite in
        let l :=
          {| gameInvites := updateInvite gameId0 (respond userId action) (gameInvites l);
             table := table l |} in
        let totalResponses :=
          (length (confirmedUsers invite) + length (declinedUsers invite))%nat in
        let totalInvited := length (mentionedUsers invite) in
        if (totalResponses =? totalInvited)%nat then
          match findInvite (gameId invite) (gameInvites l) with
          | Some (actualInviteKey, _) =>
              if String.eqb actualInviteKey "" then (Clicked true, l)
              else
                (Clicked true, (startGameFromInvite actualInviteKey newGameId nameOf l).2)
          | None => (Clicked true, l)
          end
        else (Clicked false, l)
  end.

(** [handlePlayerTimeout]: a user who has not answered is declined. *)
Definition handlePlayerTimeout (inviteKey playerId : string) (l : Lobby) : Lobby :=
  match mapGet inviteKey (gameInvites l) with
  | None => l
  | Some invite =>
      if negb (includes (confirmedUsers invite) playerId)
         && negb (includes (declinedUsers invite) playerId)
      then
        {| gameInvites :=
             mapUpdate inviteKey
               (fun invite => set_declinedUsers (declinedUsers invite ++ [playerId]) invite)
               (gameInvites l);
           table := table l |}
      else l
  end.

(** The creator is confirmed, no user is listed twice, and nobody is both
    confirmed and declined. *)
Definition wellFormed (invite : PokerInvite) : Prop :=
  creatorId invite ∈ confirmedUsers invite
  ∧ NoDup (confirmedUsers invite)
  ∧ NoDup (declinedUsers invite)
  ∧ ∀ u, u ∈ confirmedUsers invite → u ∉ declinedUsers invite.

Definition lobbyOk (l : Lobby) : Prop :=
  NoDup (List.map fst (gameInvites l))
  ∧ Forall (fun e => wellFormed (snd e)) (gameInvites l).

End Invite.

(** ** Offering another hand *)

Module Rematch.
Import Engine.

(** What [sendContinueGameButtons] keeps of the hand that ended. *)
Record GameInfo := {
  clanId : string;
  channelId : string;
  gameId : string;
  players : list Player.t;
  betAmount : Z
}.

(** The entries of [continueGamePlayers], [continueGamePaid] and
    [continueGameInfo] at the key of the hand that ended ([None]: no entry),
    with the table and the user rows.  A [Set] is the list of its members in
    insertion order. *)
Record Offer := {
  continueGamePlayers : option (list string);
  continueGamePaid : option (list string);
  continueGameInfo : option GameInfo;
  table : World
}.

Definition set_table (v : World) (o : Offer) : Offer :=
  {| continueGamePlayers := continueGamePlayers o;
     continueGamePaid := continueGamePaid o;
     continueGameInfo := continueGameInfo o; table := v |}.

Definition set_continueGamePlayers (v : option (list string)) (o : Offer) : Offer :=
  {| continueGamePlayers := v; continueGamePaid := continueGamePaid o;
     continueGameInfo := continueGameInfo o; table := table o |}.

(** [Set.add] and [Set.delete]. *)
Definition setAdd (x : string) (s : list string) : list string :=
  if includes s x then s else (s ++ [x])%list.

Definition setDelete (x : string) (s : list string) : list string :=
  List.filter (fun y => negb (String.eqb y x)) s.

(** [cleanupContinueGameData]: the entry of [continueGamePaid] stays. *)
Definition cleanupContinueGameData (o : Offer) : Offer :=
  {| continueGamePlayers := None; continueGamePaid := continueGamePaid o;
     continueGameInfo := None; table := table o |}.

(** [sendContinueGameButtons]: nobody has accepted, nobody has paid. *)
Definition sendContinueGameButtons (g : Game.t) (o : Offer) : Offer :=
  {| continueGamePlayers := Some [];
     continueGamePaid := Some [];
     continueGameInfo :=
       Some {| clanId := Game.clanId g; channelId := Game.channelId g;
               gameId := Game.id g;
               players := List.filter (fun p => negb (Player.hasFolded p)) (Game.players g);
               betAmount := Game.betAmount g |};
     table := table o |}.

(** [continueGame]: a user who can pay the stake is listed, and charged
    unless [continueGamePaid] already lists them. *)
Definition continueGame (playerId : string) (o : Offer) : Offer :=
  match continueGamePlayers o with
  | None => o
  | Some acceptedPlayers =>
      match continueGameInfo o with
      | None => o
      | Some gameInfo =>
          let currentAmount := userAmount (users (table o)) playerId in
          if currentAmount <? betAmount gameInfo then o
          else
            let acceptedPlayers := setAdd playerId acceptedPlayers in
            match continueGamePaid o with
            | Some paidSet =>
                if negb (includes paidSet playerId) then
                  let '(ok, us) :=
                    deductPlayersFunds [playerId] (betAmount gameInfo) (users (table o)) in
                  if ok then
                    {| continueGamePlayers := Some acceptedPlayers;
                       continueGamePaid := Some (setAdd playerId paidSet);
                       continueGameInfo := continueGameInfo o;
                       table := set_users us (table o) |}
                  else
                    {| continueGamePlayers := Some (setDelete playerId acceptedPlayers);
                       continueGamePaid := continueGamePaid o;
                       continueGameInfo := continueGameInfo o;
                       table := set_users us (table o) |}
                else set_continueGamePlayers (Some acceptedPlayers) o
            | None => set_continueGamePlayers (Some acceptedPlayers) o
            end
      end
  end.

(** [declineGame]: the user leaves the list; nothing is paid back. *)
Definition declineGame (playerId : string) (o : Offer) : Offer :=
  match continueGamePlayers o with
  | None => o
  | Some acceptedPlayers =>
      set_continueGamePlayers (Some (setDelete playerId acceptedPlayers)) o
  end.

(** [resolvePlayerName]: the name the ended hand had for the player, else
    [nameOf], which stands for the user table and the chat client and ends
    with the id itself. *)
Definition resolvePlayerName (nameOf : string → string) (playerId : string)
  (gameInfo : option GameInfo) : string :=
  match gameInfo with
  | Some gi =>
      match List.find (fun p => String.eqb (Player.id p) playerId) (players gi) with
      | Some found =>
          if String.eqb (Player.name found) "" then nameOf playerId else Player.name found
      | None => nameOf playerId
      end
  | None => nameOf playerId
  end.

(** [uniqueById] of [startNewGameFromContinue]: a [Map] from id to player,
    filled in order; a player without id is left out. *)
Definition uniqueById (players : list (string * string))
  : list (string * (string * string)) :=
  fold_left
    (fun m p => if String.eqb (fst p) "" then m else Invite.mapSet (fst p) p m)
    players [].

(** [startNewGameFromContinue]; a player is an id with a name (the [seat]
    of the object is not read), [newGameId] stands for the id made from the
    clock and [Math.random]. *)
Definition startNewGameFromContinue (clanId0 channelId0 newGameId : string)
  (players : list (string * string)) (gameInfo : GameInfo) (o : Offer) : Offer :=
  let o := cleanupContinueGameData o in
  let normalizedPlayers := take 8 (List.map snd (uniqueById players)) in
  if (length normalizedPlayers <? 2)%nat then o
  else
    set_table
      (createNewGame newGameId clanId0 channelId0 normalizedPlayers
         (if betAmount gameInfo =? 0 then 1000 else betAmount gameInfo) (table o))
      o.

(** The refund of [handleContinueGameTimeout]. *)
Definition refund (o : Offer) : Offer :=
  match continueGamePaid o, continueGameInfo o with
  | Some paidSet, Some gameInfo =>
      set_table
        (set_users
           (fold_left (fun us userId => addMoneyToUser userId (betAmount gameInfo) us)
              paidSet (users (table o)))
           (table o))
        o
  | _, _ => o
  end.

(** [handleContinueGameTimeout], fifteen seconds after the offer; [g] is
    the hand that ended. *)
Definition handleContinueGameTimeout (newGameId : string) (nameOf : string → string)
  (g : Game.t) (o : Offer) : Offer :=
  let giveUp := cleanupContinueGameData (refund o) in
  match continueGamePlayers o, continueGameInfo o with
  | Some acceptedPlayers, Some gameInfo =>
      if (2 <=? length acceptedPlayers)%nat then
        let acceptedPlayerObjects :=
          List.map (fun id => (id, resolvePlayerName nameOf id (Some gameInfo)))
            acceptedPlayers in
        let acceptedPlayerObjects :=
          if (8 <? length acceptedPlayerObjects)%nat
          then take 8 acceptedPlayerObjects else acceptedPlayerObjects in
        cleanupContinueGameData
          (startNewGameFromContinue (Game.clanId g) (Game.channelId g) newGameId
             acceptedPlayerObjects gameInfo o)
      else giveUp
  | _, _ => giveUp
  end.

(** The offers the clicks of the users lead to. *)
Inductive clicked (o0 : Offer) : Offer → Prop :=
| clicked_none : clicked o0 o0
| clicked_continue playerId o :
    clicked o0 o → clicked o0 (continueGame playerId o)
| clicked_decline playerId o :
    clicked o0 o → clicked o0 (declineGame playerId o).

(** An open offer at stake [b], made when the balances were [us0]: who is
    listed has paid, and who has paid has paid once. *)
Definition charged (b : Z) (us0 : gmap string Z) (w0 : World) (o : Offer) : Prop :=
  ∃ accepted paid gi,
    continueGamePlayers o = Some accepted
    ∧ continueGamePaid o = Some paid
    ∧ continueGameInfo o = Some gi ∧ betAmount gi = b
    ∧ NoDup accepted ∧ NoDup paid
    ∧ (∀ u, u ∈ accepted → u ∈ paid)
    ∧ (∀ u, users (table o) !! u
            = if includes paid u then (fun a => a - b) <$> us0 !! u else us0 !! u)
    ∧ (∀ u, u ∈ paid → b <= userAmount us0 u)
    ∧ game (table o) = game w0 ∧ live (table o) = live w0 ∧ draws (table o) = draws w0.

End Rematch.

(** ** Buttons: what a player is offered, and what a click does *)

Module Buttons.
Import Engine Props.

Definition underscore : ascii := "_"%char.

(** [s.split('_')] *)
Fixpoint split (sep : ascii) (s : string) : list string :=
  match s with
  | EmptyString => [EmptyString]
  | String c rest =>
      if Ascii.eqb c sep then EmptyString :: split sep rest
      else
        match split sep rest with
        | first :: more => String c first :: more
        | [] => [String c EmptyString]
        end
  end.

(** [parts.join('_')] *)
Fixpoint join (sep : string) (parts : list string) : string :=
  match parts with
  | [] => EmptyString
  | x :: rest =>
      match rest with
      | [] => x
      | _ :: _ => x ++ sep ++ join sep rest
      end
  end.

(** [parts.slice(from, to)], for indices within the array. *)
Definition slice {A} (from to : nat) (l : list A) : list A := take (to - from) (drop from l).

Definition createGameKey (clanId channelId gameId : string) : string :=
  clanId ++ "_" ++ channelId ++ "_" ++ gameId.

(** The id every button is given:
    [poker_<action>_<game id>_<clan id>_<channel id>]. *)
Definition buttonId (action gameId clanId channelId : string) : string :=
  "poker_" ++ action ++ "_" ++ gameId ++ "_" ++ clanId ++ "_" ++ channelId.

(** [sendTurnActionButtons]: the actions of the buttons sent to the player
    on turn, in order; [None] when nothing is sent, and no turn timer
    armed: the seat is empty, or the player has folded or is all-in. *)
Definition sendTurnActionButtons (w : World) : option (list string) :=
  let g := game w in
  match Game.players g !! Game.currentPlayerIndex g with
  | None => None
  | Some currentPlayer =>
      if Player.hasFolded currentPlayer then None
      else if Player.isAllIn currentPlayer then None
      else
        let userAmount := userAmount (users w) (Player.id currentPlayer) in
        let canCheck := Game.currentBet g <=? Player.currentBet currentPlayer in
        let callAmountButtons :=
          Z.max 0 (Game.currentBet g - Player.currentBet currentPlayer) in
        let hasAnyAllIn :=
          existsb (fun p => negb (Player.hasFolded p) && Player.isAllIn p) (Game.players g) in
        let buttons : list string := [] in
        let buttons :=
          if canCheck && negb hasAnyAllIn then (buttons ++ ["check"])%list else buttons in
        let buttons :=
          if negb canCheck && (0 <? callAmountButtons) then (buttons ++ ["call"])%list
          else buttons in
        let buttons :=
          if negb hasAnyAllIn then
            let baseRaise := Game.betAmount g in
            let need1 := Game.currentBet g + baseRaise - Player.currentBet currentPlayer in
            let buttons :=
              if (0 <? need1) && (need1 <=? userAmount) then (buttons ++ ["raise1"])%list
              else buttons in
            let need2 :=
              Game.currentBet g + baseRaise * 2 - Player.currentBet currentPlayer in
            let buttons :=
              if (0 <? need2) && (need2 <=? userAmount) then (buttons ++ ["raise2"])%list
              else buttons in
            let potRaise := Z.max baseRaise (Game.pot g) in
            let needPot := Game.currentBet g + potRaise - Player.currentBet currentPlayer in
            if (0 <? needPot) && (needPot <=? userAmount) then (buttons ++ ["raisepot"])%list
            else buttons
          else buttons in
        let buttons := if 1 <=? userAmount then (buttons ++ ["allin"])%list else buttons in
        Some (buttons ++ ["fold"])%list
  end.

(** What the label of each of these buttons announces. *)
Definition turnButtons : list (string * Action) :=
  [("check", CheckTurn); ("call", Call); ("raise1", RaiseByBetAmount);
   ("raise2", RaiseByMultiplier 2); ("raisepot", RaiseByPot); ("allin", AllIn);
   ("fold", Fold)].

(** The event of a click; [clan_id] and [channel_id] may be missing. *)
Record ButtonData := {
  button_id : string;
  clan_id : option string;
  channel_id : option string;
  user_id : string
}.

(** [extractGameIdFromData]; [fromMessage] stands for what the two searches
    in the text of the message give when the button id does not have the
    five parts. *)
Definition extractGameIdFromData (fromMessage : option string) (data : ButtonData)
  : option string :=
  let parts := split underscore (button_id data) in
  if negb (String.eqb (button_id data) "") && (5 <=? length parts)%nat
     && bool_decide (parts !! 0%nat = Some "poker")
  then Some (join "_" (slice 2 (length parts - 2) parts))
  else fromMessage.

(** The clan and the channel a handler goes on with: those of the event,
    or, if one is missing, the last two parts of the button id. *)
Definition address (data : ButtonData) : option (string * string) :=
  let parts := split underscore (button_id data) in
  let '(clanId, channelId) :=
    match truthy (clan_id data), truthy (channel_id data) with
    | Some _, Some _ => (clan_id data, channel_id data)
    | _, _ =>
        if (5 <=? length parts)%nat
        then (parts !! (length parts - 2)%nat, parts !! (length parts - 1)%nat)
        else (clan_id data, channel_id data)
    end in
  match truthy clanId, truthy channelId with
  | Some clanId, Some channelId => Some (clanId, channelId)
  | _, _ => None
  end.

(** The call a click ends in. *)
Inductive ServiceCall :=
| SelectRole
| HandleButtonClick (userId : string) (action : Invite.InviteAction) (gameId : string)
| TableAction (a : Action) (clanId channelId gameId userId : string)
| ContinueGame (clanId channelId gameId userId : string)
| DeclineGame (clanId channelId gameId userId : string).

Definition handlePokerJoin (l : Invite.Lobby) (fromMessage : option string)
  (data : ButtonData) : option ServiceCall :=
  match truthy (extractGameIdFromData fromMessage data) with
  | None => None
  | Some gameId =>
      match Invite.getGameInvite gameId l with
      | None => None
      | Some invite =>
          if existsb (fun u => String.eqb (fst u) (user_id data))
               (Invite.mentionedUsers invite)
          then Some (HandleButtonClick (user_id data) Invite.PokerJoin gameId)
          else None
      end
  end.

(** The handlers of the table buttons, of [continue] and of [decline]
    differ in the service method only. *)
Definition withAddress (call : string → string → string → string → ServiceCall)
  (fromMessage : option string) (data : ButtonData) : option ServiceCall :=
  match address data with
  | None => None
  | Some (clanId, channelId) =>
      match truthy (extractGameIdFromData fromMessage data) with
      | None => None
      | Some gameId => Some (call clanId channelId gameId (user_id data))
      end
  end.

Definition handlePoker (l : Invite.Lobby) (fromMessage : option string)
  (data : ButtonData) : option ServiceCall :=
  match split underscore (button_id data) !! 1%nat with
  | None => None
  | Some action =>
      if String.eqb action "join" then handlePokerJoin l fromMessage data
      else if String.eqb action "decline" then withAddress DeclineGame fromMessage data
      else if String.eqb action "call" then withAddress (TableAction Call) fromMessage data
      else if String.eqb action "raise"
      then withAddress (TableAction RaiseByBetAmount) fromMessage data
      else if String.eqb action "raise1"
      then withAddress (TableAction RaiseByBetAmount) fromMessage data
      else if String.eqb action "raise2"
      then withAddress (TableAction (RaiseByMultiplier 2)) fromMessage data
      else if String.eqb action "raisepot"
      then withAddress (TableAction RaiseByPot) fromMessage data
      else if String.eqb action "check"
      then withAddress (TableAction CheckTurn) fromMessage data
      else if String.eqb action "allin" then withAddress (TableAction AllIn) fromMessage data
      else if String.eqb action "fold" then withAddress (TableAction Fold) fromMessage data
      else if String.eqb action "continue" then withAddress ContinueGame fromMessage data
      else None
  end.

Definition handleButtonForm (l : Invite.Lobby) (fromMessage : option string)
  (data : ButtonData) : option ServiceCall :=
  match split underscore (button_id data) !! 0%nat with
  | None => None
  | Some buttonConfirmType =>
      if String.eqb buttonConfirmType "role" then Some SelectRole
      else if String.eqb buttonConfirmType "poker" then handlePoker l fromMessage data
      else None
  end.

(** A table action at a service whose [activeGames] holds the table [w]
    and nothing else: under another key there is no game. *)
Definition serve (call : ServiceCall) (w : World) : option (Outcome (GameResult * World)) :=
  match call with
  | TableAction a clanId channelId gameId userId =>
      Some
        (if String.eqb (createGameKey clanId channelId gameId)
              (createGameKey (Game.clanId (game w)) (Game.channelId (game w))
                 (Game.id (game w)))
         then perform a userId w
         else refuse NoActiveGame w)
  | _ => None
  end.

(** The invitations once the listener has served a click: only
    [handleButtonClick] touches them. *)
Definition click (newGameId : string) (nameOf : string → option string)
  (fromMessage : option string) (data : ButtonData) (l : Invite.Lobby) : Invite.Lobby :=
  match handleButtonForm l fromMessage data with
  | Some (HandleButtonClick userId action gameId) =>
      (Invite.handleButtonClick userId action gameId newGameId nameOf l).2
  | _ => l
  end.

(** No underscore in [s]. *)
Fixpoint plain (s : string) : bool :=
  match s with
  | EmptyString => true
  | String c rest => negb (Ascii.eqb c underscore) && plain rest
  end.

End Buttons.

(** ** A hand that is on *)

Module Hands.
Import Engine Props.

(** The tables at which the cards were dealt before anybody acted: the
    deal timer of [startGame] has fired, or the table was continued by
    [createNewGame], which deals at once; then come the actions and the
    fold timers. *)
Inductive dealt : World → Prop :=
| dealt_start gameId clanId channelId nameOf playerIds betAmount w :
    twoOrMore playerIds →
    dealt (dealCardsAndStartGame
             (startGame gameId clanId channelId nameOf playerIds betAmount w))
| dealt_continue gameId clanId channelId players betAmount w :
    twoOrMore (List.map fst players) →
    dealt (createNewGame gameId clanId channelId players betAmount w)
| dealt_action a playerId w r w' :
    dealt w → perform a playerId w = Done (r, w') → dealt w'
| dealt_turn_timer playerId w w' :
    dealt w → handleTurnTimeout playerId w = Done w' → dealt w'
| dealt_grace_timer playerId w w' :
    dealt w → handleInsufficientFundsTimeout playerId w = Done w' → dealt w'.

(** While the game is in [activeGames] it is active, on one of the four
    streets, and the turn is on a player who has not folded and, with a
    stake that is not negative, is listed in [toActIds]. *)
Definition turnOk (w : World) : Prop :=
  live w = true →
  Game.isActive (game w) = true
  ∧ Game.round (game w) ∈ [Preflop; Flop; Turn; River]
  ∧ ∃ p, currentPlayer (game w) = Some p
         ∧ Player.hasFolded p = false
         ∧ (0 <= Game.betAmount (game w) → Player.id p ∈ Game.toActIds (game w)).

End Hands.

(** ** The cards of a street *)

Module Streets.
Import Engine Props.

(** The cards on the board and the cards burnt, street by street. *)
Definition boardFor (r : Round) : nat :=
  match r with Flop => 3 | Turn => 4 | River => 5 | _ => 0 end.

Definition burnedFor (r : Round) : nat :=
  match r with Flop => 1 | Turn => 2 | River => 3 | _ => 0 end.

(** While the game is in [activeGames], at a table of 22 players or fewer:
    two hole cards each, the board and the burnt cards of the street, and
    the rest of the 52 cards in the deck. *)
Definition streetOk (w : World) : Prop :=
  live w = true → (length (Game.players (game w)) <= 22)%nat →
  Forall (fun p => length (Player.hole p) = 2%nat) (Game.players (game w))
  ∧ length (Game.board (game w)) = boardFor (Game.round (game w))
  ∧ length (Game.burned (game w)) = burnedFor (Game.round (game w))
  ∧ (length (Game.deck (game w)) + 2 * length (Game.players (game w))
     + boardFor (Game.round (game w)) + burnedFor (Game.round (game w)) = 52)%nat.

End Streets.

(** ** More sample inputs *)

Module Examples.
Import Engine Props.

(** A continued heads-up table with a stake of 1000: each player holds 1000
    chips, and "b" is first to act. *)
Definition continued : World :=
  createNewGame "poker_5" "clan" "channel" [("a", "Ann"); ("b", "Bob")] 1000
    {| game := newGame "" "" "" [] [] 0 0; live := false;
       users := {[ "a" := 4000; "b" := 2000 ]}; draws := [] |}.

(** "b" raises to 500 at the continued table. *)
Definition raisedTo500 : World := worldOf (makeRaise "b" 500 continued) continued.

(** The rows of three users. *)
Definition balances : gmap string Z := {[ "a" := 5000; "b" := 3000; "c" := 1500 ]}.

Definition invitedPlayers : list (string * string) :=
  [("a", "Ann"); ("b", "Bob"); ("c", "Cat")].

(** "a" has invited "b" and "c" at a stake of 1000. *)
Definition invitation : Invite.PokerInvite :=
  {| Invite.gameId := "poker_7"; Invite.creatorId := "a"; Invite.clanId := "clan";
     Invite.channelId := "channel"; Invite.messageId := "m1";
     Invite.mentionedUsers := invitedPlayers;
     Invite.confirmedUsers := ["a"]; Invite.declinedUsers := [];
     Invite.betAmount := 1000 |}.

Definition invited : Invite.Lobby :=
  {| Invite.gameInvites := [("clan_channel_poker_7", invitation)];
     Invite.table :=
       {| game := newGame "" "" "" [] [] 0 0; live := false; users := balances;
          draws := [] |} |}.

(** "b" has joined. *)
Definition joined : Invite.Lobby :=
  (Invite.handleButtonClick "b" Invite.PokerJoin "poker_7" "poker_8" (fun _ => None)
     invited).2.

(** The game the invitation starts once "a" and "b" are in. *)
Definition fromInvite : Invite.Lobby :=
  (Invite.startGameFromInvite "clan_channel_poker_7" "poker_8" (fun _ => None) joined).2.

(** The hand at [table] is over; nobody has answered the offer of another
    one yet. *)
Definition offer : Rematch.Offer :=
  Rematch.sendContinueGameButtons (game table)
    {| Rematch.continueGamePlayers := None; Rematch.continueGamePaid := None;
       Rematch.continueGameInfo := None;
       Rematch.table := set_live false table |}.

Definition onceAccepted : Rematch.Offer := Rematch.continueGame "a" offer.

Definition twiceAccepted : Rematch.Offer := Rematch.continueGame "b" onceAccepted.

(** "b" clicks the call button of [table]; the event names no clan and no
    channel. *)
Definition callClick : Buttons.ButtonData :=
  {| Buttons.button_id := "poker_call_poker_2_clan_channel";
     Buttons.clan_id := None; Buttons.channel_id := None; Buttons.user_id := "b" |}.

(** "b" clicks the join button of the invitation. *)
Definition joinClick : Buttons.ButtonData :=
  {| Buttons.button_id := "poker_join_poker_7_clan_channel";
     Buttons.clan_id := Some "clan"; Buttons.channel_id := Some "channel";
     Buttons.user_id := "b" |}.

(** The table of [table] as [startGame] leaves it: the deal timer has not
    run yet, and the round is [Waiting]. *)
Definition undealt : World :=
  startGame "poker_2" "clan" "channel" (fun _ => None) ["a"; "b"; "c"] 1000
    {| game := newGame "" "" "" [] [] 0 0; live := false;
       users := {[ "a" := 5000; "b" := 3000; "c" := 1500 ]}; draws := [] |}.

(** "b" and "c" have checked at the dealt table and "a", the last to act,
    checks: the state [makeCheck] hands to [moveToNextPlayer], the action
    history apart. *)
Definition checkedAround : World :=
  upd_game (removeFromToAct "a")
    (worldOf (perform CheckTurn "c" (worldOf (perform CheckTurn "b" table) table)) table).

(** Heads-up, "b" is all-in with 2000 and "a" calls: the state [makeCall]
    hands to [moveToNextPlayer], the action history apart. *)
Definition calledAllIn : World :=
  let w := worldOf (perform AllIn "b" headsUp) headsUp in
  {| game :=
       removeFromToAct "a"
         (Game.set_pot (Game.pot (game w) + 2000)
            (updCurrent (Player.set_currentBet (Game.currentBet (game w))) (game w)));
     live := live w;
     users := debit "a" 2000 (users w);
     draws := draws w |}.

End Examples.

(** * Properties *)

(** ** The evaluator *)

Section EvaluatorFacts.
Import Cards Evaluator Props.

Lemma createDeck_length : length createDeck = 52%nat.
Proof. reflexivity. Qed.

(** Every card of the deck has a value between 2 and 14. *)
Lemma createDeck_values :
  Forall (fun card => ∃ v, getCardValue card = Some v ∧ 2 <= v <= 14) createDeck.
Proof.
  apply Forall_forall. intros card Hin.
  assert (Hb : forallb
                 (fun c => match getCardValue c with
                           | Some v => (2 <=? v) && (v <=? 14)
                           | None => false
                           end) createDeck = true) by (vm_compute; reflexivity).
  rewrite forallb_forall in Hb. apply list_elem_of_In in Hin.
  specialize (Hb card Hin). destruct (getCardValue card) as [v|]; [|discriminate].
  exists v. split; [done|]. apply andb_true_iff in Hb as [H1 H2]. lia.
Qed.

(** C8: the golden cases of the five-card evaluator.  A-K-Q-J-10 of any one
    suit is a royal flush (category 10); 7-7-7-2-2 is a full house
    (category 7) with kickers [7; 2]; A-2-3-4-5 of mixed suits is a straight
    (category 5) whose high card is 5, strictly below the straight
    6-5-4-3-2. *)
Theorem golden_cases :
  Forall (fun suit =>
            calculateHandRank
              (List.map (fun r => (r ++ suit)%string) ["A"; "K"; "Q"; "J"; "10"])
            = Some {| rank := 10; kickers := [14] |}) SUITS
  ∧ calculateHandRank ["7♣️"; "7♦️"; "7♥️"; "2♠️"; "2♣️"]
    = Some {| rank := 7; kickers := [7; 2] |}
  ∧ calculateHandRank ["A♦️"; "2♣️"; "3♠️"; "4♥️"; "5♦️"]
    = Some {| rank := 5; kickers := [5] |}
  ∧ calculateHandRank ["6♠️"; "5♥️"; "4♦️"; "3♣️"; "2♠️"]
    = Some {| rank := 5; kickers := [6] |}
  ∧ compareHands {| rank := 5; kickers := [5] |} {| rank := 5; kickers := [6] |} < 0.
Proof.
  split; [|repeat split].
  - repeat constructor.
Qed.

(** C2, at the failing input: [evaluateBasicHand] gives every pair of aces
    the kicker list [[14]], so the first combination is kept, and the hand
    is ranked below one of its own five-card subsets. *)
Theorem best_five_misses_kickers :
  pairOfAcesKing ∈ combinations 5 pairOfAces6
  ∧ calculateHandRank pairOfAces6 = Some {| rank := 2; kickers := [14; 4; 3; 2] |}
  ∧ calculateHandRank pairOfAcesKing = Some {| rank := 2; kickers := [14; 13; 4; 3] |}
  ∧ compareHands {| rank := 2; kickers := [14; 4; 3; 2] |}
                 {| rank := 2; kickers := [14; 13; 4; 3] |} < 0
  ∧ ¬ (∀ hand subset r s,
         (length hand = 6%nat ∨ length hand = 7%nat) →
         subset ∈ combinations 5 hand →
         calculateHandRank hand = Some r →
         calculateHandRank subset = Some s →
         0 <= compareHands r s).
Proof.
  assert (Hin : pairOfAcesKing ∈ combinations 5 pairOfAces6).
  { apply list_elem_of_In. vm_compute. tauto. }
  assert (H6 : calculateHandRank pairOfAces6
               = Some {| rank := 2; kickers := [14; 4; 3; 2] |}) by (vm_compute; reflexivity).
  assert (H5 : calculateHandRank pairOfAcesKing
               = Some {| rank := 2; kickers := [14; 13; 4; 3] |}) by (vm_compute; reflexivity).
  repeat split; try assumption.
  intros H. specialize (H pairOfAces6 pairOfAcesKing _ _ (or_introl eq_refl) Hin H6 H5).
  vm_compute in H. apply H. reflexivity.
Qed.

End EvaluatorFacts.

(** ** Taking the stakes *)

Section Stakes.
Import Engine Props.

Lemma deductLoop_missing playerIds betAmount (us : gmap string Z) playerId :
  us !! playerId = None → deductLoop playerIds betAmount us !! playerId = None.
Proof.
  revert us. induction playerIds as [|x rest IH]; intros us Hnone; simpl; [done|].
  destruct (us !! x) as [a|] eqn:Hx; [|by apply IH].
  destruct (betAmount <=? a); [|by apply IH].
  apply IH. rewrite lookup_insert_ne; [done|]. intros ->. congruence.
Qed.

Lemma deductLoop_short playerIds betAmount (us : gmap string Z) playerId a :
  us !! playerId = Some a → a < betAmount →
  deductLoop playerIds betAmount us !! playerId = Some a.
Proof.
  revert us. induction playerIds as [|x rest IH]; intros us Hsome Hlt; simpl; [done|].
  destruct (us !! x) as [b|] eqn:Hx; [|by apply IH].
  destruct (Z.leb_spec betAmount b); [|by apply IH].
  apply IH; [|done]. rewrite lookup_insert_ne; [done|].
  intros ->. rewrite Hx in Hsome. injection Hsome as ->. lia.
Qed.

(** C10: [deductPlayersFunds] answers [success: true] whatever it is given;
    a listed player without a row, or with less than the stake, is skipped
    and keeps what it has; [startGame] sets the pot to the number of players
    times the stake all the same, so a hand can start with a pot larger than
    what was collected (here 3000 against 1000). *)
Theorem deduct_skips_silently :
  (∀ playerIds betAmount us, (deductPlayersFunds playerIds betAmount us).1 = true)
  ∧ (∀ playerIds betAmount (us : gmap string Z) playerId,
       us !! playerId = None →
       (deductPlayersFunds playerIds betAmount us).2 !! playerId = None)
  ∧ (∀ playerIds betAmount (us : gmap string Z) playerId a,
       us !! playerId = Some a → a < betAmount →
       (deductPlayersFunds playerIds betAmount us).2 !! playerId = Some a)
  ∧ (∀ gameId clanId channelId nameOf playerIds betAmount w,
       let w' := startGame gameId clanId channelId nameOf playerIds betAmount w in
       live w' = true
       ∧ Game.isActive (game w') = true
       ∧ Game.pot (game w') = Z.of_nat (length playerIds) * betAmount
       ∧ users w' = (deductPlayersFunds playerIds betAmount (users w)).2)
  ∧ (Game.pot (game started) = 3000
     ∧ totalAmount (users threeUsers) - totalAmount (users started) = 1000).
Proof.
  split; [done|]. split; [intros; by apply deductLoop_missing|].
  split; [intros; by eapply deductLoop_short|]. split.
  - intros. unfold w', startGame.
    destruct (shuffleDeck Cards.createDeck (draws w)) as [deck rnd]. simpl. done.
  - split; vm_compute; reflexivity.
Qed.

End Stakes.

(** ** Refused actions *)

Section Refusals.
Import Engine Props.

Lemma getActiveGame_Some w g : getActiveGame w = Some g → g = game w.
Proof. unfold getActiveGame. destruct (live w && Game.isActive (game w)); congruence. Qed.

Lemma eqb_neq_false (a b : string) : a ≠ b → String.eqb a b = false.
Proof. intros H. by apply String.eqb_neq. Qed.

(** C3: an action sent when no game is active, or by somebody other than the
    player at [currentPlayerIndex], or by a player who has folded, is
    answered with a failure, and nothing changes: the world after is the
    world before, the [Game] with it. *)
Theorem refused_action_changes_nothing (a : Action) (playerId : string) (w : World) :
  preconditionFails playerId w →
  ∃ why, perform a playerId w = Done (Failure why, w).
Proof.
  intros [Hnone | (p & Hp & Hbad)].
  - destruct a; simpl;
      unfold makeCall, makeCheck, makeFold, makeRaise, makeRaiseByBetAmount,
        makeRaiseByMultiplier, makeRaiseByPot, raiseBy, makeAllIn, refuse;
      rewrite Hnone; eauto.
  - unfold currentPlayer in Hp.
    destruct a; simpl;
      unfold makeCall, makeCheck, makeFold, makeRaise, makeRaiseByBetAmount,
        makeRaiseByMultiplier, makeRaiseByPot, raiseBy, makeAllIn, refuse;
      (destruct (getActiveGame w) as [g|] eqn:Hg; [|eauto]);
      apply getActiveGame_Some in Hg; subst g; rewrite Hp;
      (destruct (String.eqb_spec (Player.id p) playerId) as [Heq|Hne]; simpl; [|eauto]);
      (destruct Hbad as [Hbad|Hbad]; [contradiction|]); rewrite Hbad; eauto.
Qed.

End Refusals.

(** The preamble every action starts with. *)
Ltac preamble H playerId :=
  match type of H with
  | context [Engine.getActiveGame ?w] =>
      let g := fresh "g" in
      let Hg := fresh "Hactive" in
      let Hgw := fresh "Hgw" in
      destruct (Engine.getActiveGame w) as [g|] eqn:Hg; [|by inversion H; subst];
      pose proof (getActiveGame_Some _ _ Hg) as Hgw; subst g;
      let p := fresh "p" in
      let Hp := fresh "Hp" in
      destruct (Game.players (Engine.game w) !! Game.currentPlayerIndex (Engine.game w)) as [p|] eqn:Hp;
      [|discriminate];
      let Hid := fresh "Hid" in
      destruct (String.eqb_spec (Player.id p) playerId) as [Hid|Hid];
      simpl in H; [|by inversion H; subst];
      let Hf := fresh "Hfolded" in
      destruct (Player.hasFolded p) eqn:Hf; [by inversion H; subst|]
  end.


(** ** Turns *)

Section Turns.
Import Engine Props.

(** [addActionToHistory] touches [actionHistory] only. *)
Lemma addActionToHistory_only playerId action amount totalBet g :
  ∃ h, addActionToHistory playerId action amount totalBet g = Game.set_actionHistory h g.
Proof.
  unfold addActionToHistory. destruct (List.find _ _); eauto.
Qed.

Lemma elem_of_activePlayers g p :
  p ∈ activePlayers g ↔ p ∈ Game.players g ∧ Player.hasFolded p = false.
Proof.
  unfold activePlayers. rewrite !list_elem_of_In, filter_In, negb_true_iff. tauto.
Qed.

(** Two players with different ids are still in: no fold-out. *)
Lemma opponent_notFoldOut playerId g p :
  p ∈ Game.players g → Player.hasFolded p = false → Player.id p = playerId →
  hasOpponent playerId g → notFoldOut g.
Proof.
  intros Hp Hf Hid (q & Hq & Hqf & Hqid) x Hx.
  assert (Hpx : p ∈ activePlayers g) by (by apply elem_of_activePlayers).
  assert (Hqx : q ∈ activePlayers g) by (by apply elem_of_activePlayers).
  rewrite Hx in Hpx, Hqx. apply list_elem_of_singleton in Hpx, Hqx. congruence.
Qed.

Lemma elem_of_othersToAct playerId g i :
  i ∈ othersToAct playerId g ↔
  ∃ q, q ∈ Game.players g ∧ Player.hasFolded q = false ∧ Player.id q = i ∧ i ≠ playerId.
Proof.
  unfold othersToAct. rewrite list_elem_of_In, in_map_iff. split.
  - intros (q & <- & Hq). apply filter_In in Hq as [Hq Hc].
    apply andb_true_iff in Hc as [Hf Hn]. apply negb_true_iff in Hf, Hn.
    exists q. rewrite list_elem_of_In. repeat split; try done.
    by apply String.eqb_neq.
  - intros (q & Hq & Hf & <- & Hn). exists q. split; [done|].
    apply filter_In. rewrite <- list_elem_of_In. split; [done|].
    rewrite Hf. simpl. apply negb_true_iff. by apply String.eqb_neq.
Qed.

(** While somebody is left to act and the hand is not folded out, the turn
    passes on and nothing else changes. *)
Lemma moveToNextPlayer_open w :
  notFoldOut (game w) → Game.toActIds (game w) ≠ [] →
  moveToNextPlayer w = Done (passTurn w).
Proof.
  intros Hnf Hne. unfold moveToNextPlayer.
  assert (Hc : closeRound w = None).
  { unfold closeRound. destruct (Game.toActIds (game w)); [done|]. reflexivity. }
  rewrite Hc. destruct (activePlayers (game w)) as [|x [|y rest]] eqn:Ha; try done.
  by destruct (Hnf x).
Qed.

End Turns.

(** Name what [addActionToHistory] appends in [H]. *)
Ltac history H :=
  unfold Engine.upd_game, Engine.applyRaise in H; cbv beta in H;
  repeat match type of H with
         | context [Engine.addActionToHistory ?a ?b ?c ?d ?g0] =>
             let h := fresh "h" in
             let Hh := fresh "Hh" in
             destruct (addActionToHistory_only a b c d g0) as [h Hh];
             rewrite Hh in H; clear Hh
         end.

(** ** Raises *)

Section Raises.
Import Engine Props.

Lemma opponent_toAct playerId g : hasOpponent playerId g → othersToAct playerId g ≠ [].
Proof.
  intros (q & Hq & Hf & Hn) Hnil.
  assert (Hin : Player.id q ∈ othersToAct playerId g).
  { apply elem_of_othersToAct. eauto. }
  rewrite Hnil in Hin. by apply not_elem_of_nil in Hin.
Qed.

(** The state a raise or an all-in hands to [moveToNextPlayer] leaves the
    round open: the player on turn is still in, so is an opponent, and the
    opponent is in [toActIds]. *)
Lemma raise_core playerId w p w2 p2 :
  onTurn playerId w p → hasOpponent playerId (game w) →
  Game.players (game w2) !! Game.currentPlayerIndex (game w) = Some p2 →
  Player.id p2 = playerId → Player.hasFolded p2 = false →
  (∀ j, j ≠ Game.currentPlayerIndex (game w) →
        Game.players (game w2) !! j = Game.players (game w) !! j) →
  Game.toActIds (game w2) = othersToAct playerId (game w2) →
  moveToNextPlayer w2 = Done (passTurn w2).
Proof.
  intros (Hact & Hp & Hid & Hf) (q & Hq & Hqf & Hqn) Hp2 Hid2 Hf2 Hothers Hto.
  assert (Hopp2 : hasOpponent playerId (game w2)).
  { exists q. split; [|done]. apply list_elem_of_lookup in Hq as [j Hj].
    apply list_elem_of_lookup. exists j. rewrite Hothers; [done|].
    intros ->. unfold currentPlayer in Hp. congruence. }
  apply moveToNextPlayer_open.
  - apply (opponent_notFoldOut playerId _ p2); try done.
    apply list_elem_of_lookup. eauto.
  - rewrite Hto. by apply opponent_toAct.
Qed.

(** A raise at a table where the raiser has an opponent. *)
Lemma raise_with_opponent (k : Raise) (playerId : string) (w : World)
  (r : GameResult) (w' : World) :
  perform (raiseAction k) playerId w = Done (r, w') →
  success r = true →
  hasOpponent playerId (game w) →
  ∃ p, onTurn playerId w p
       ∧ Game.toActIds (game w') = othersToAct playerId (game w')
       ∧ (∀ i, i ∈ Game.toActIds (game w') ↔
               ∃ q, q ∈ Game.players (game w') ∧ Player.hasFolded q = false
                    ∧ Player.id q = i ∧ i ≠ playerId)
       ∧ Game.currentBet (game w') = raiseTotal k (game w)
       ∧ Game.lastAggressorIndex (game w') = Some (Game.currentPlayerIndex (game w))
       ∧ Player.currentBet <$> Game.players (game w') !! Game.currentPlayerIndex (game w)
         = Some (raiseTotal k (game w)).
Proof.
  intros H Hs Hopp.
  assert (Hmain : ∃ p, onTurn playerId w p
       ∧ Game.toActIds (game w') = othersToAct playerId (game w')
       ∧ Game.currentBet (game w') = raiseTotal k (game w)
       ∧ Game.lastAggressorIndex (game w') = Some (Game.currentPlayerIndex (game w))
       ∧ Player.currentBet <$> Game.players (game w') !! Game.currentPlayerIndex (game w)
         = Some (raiseTotal k (game w))).
  { destruct k; simpl in H;
      unfold makeRaise, makeRaiseByBetAmount, makeRaiseByMultiplier, makeRaiseByPot,
        raiseBy, refuse in H; preamble H playerId.
    - (* makeRaise *)
      destruct (Z.leb_spec (toTotal - Player.currentBet p) 0) as [?|Hpos];
        simpl in H; [by inversion H; subst|].
      destruct (Z.ltb_spec (Player.chips p) (toTotal - Player.currentBet p)) as [?|Hchips];
        simpl in H; [by inversion H; subst|].
      destruct (toTotal <=? Game.currentBet (game w)); [by inversion H; subst|].
      destruct (userAmount (users w) playerId <? toTotal - Player.currentBet p);
        [by inversion H; subst|].
      destruct (Z.eqb_spec (Player.chips p) 0) as [?|_]; [lia|].
      unfold upd_game, applyRaise in H; cbv beta in H.
      match type of H with
      | context [addActionToHistory ?a ?b ?c ?d ?g0] =>
          destruct (addActionToHistory_only a b c d g0) as [h Hh]; rewrite Hh in H
      end.
      unfold thenMove in H.
      erewrite (raise_core playerId w p) in H; [|done|done| | | | |reflexivity]; cycle 1.
      { simpl. by rewrite list_lookup_alter_eq, Hp. }
      { done. }
      { done. }
      { intros j Hj. simpl. by rewrite list_lookup_alter_ne. }
      simpl in H. injection H as <- <-. exists p. split; [done|]. simpl.
      split; [reflexivity|]. split; [reflexivity|]. split; [reflexivity|].
      by rewrite list_lookup_alter_eq, Hp.
    - (* makeRaiseByBetAmount *)
      destruct (_ <=? 0); [by inversion H; subst|].
      destruct (_ <? _); [by inversion H; subst|].
      unfold upd_game, applyRaise in H; cbv beta in H.
      match type of H with
      | context [addActionToHistory ?a ?b ?c ?d ?g0] =>
          destruct (addActionToHistory_only a b c d g0) as [h Hh]; rewrite Hh in H
      end.
      unfold thenMove in H.
      erewrite (raise_core playerId w p) in H; [|done|done| | | | |reflexivity]; cycle 1.
      { simpl. by rewrite list_lookup_alter_eq, Hp. }
      { done. }
      { done. }
      { intros j Hj. simpl. by rewrite list_lookup_alter_ne. }
      simpl in H. injection H as <- <-. exists p. split; [done|]. simpl.
      split; [reflexivity|]. split; [reflexivity|]. split; [reflexivity|].
      by rewrite list_lookup_alter_eq, Hp.
    - (* makeRaiseByMultiplier *)
      destruct (_ <=? 0); [by inversion H; subst|].
      destruct (_ <? _); [by inversion H; subst|].
      unfold upd_game, applyRaise in H; cbv beta in H.
      match type of H with
      | context [addActionToHistory ?a ?b ?c ?d ?g0] =>
          destruct (addActionToHistory_only a b c d g0) as [h Hh]; rewrite Hh in H
      end.
      unfold thenMove in H.
      erewrite (raise_core playerId w p) in H; [|done|done| | | | |reflexivity]; cycle 1.
      { simpl. by rewrite list_lookup_alter_eq, Hp. }
      { done. }
      { done. }
      { intros j Hj. simpl. by rewrite list_lookup_alter_ne. }
      simpl in H. injection H as <- <-. exists p. split; [done|]. simpl.
      split; [reflexivity|]. split; [reflexivity|]. split; [reflexivity|].
      by rewrite list_lookup_alter_eq, Hp.
    - (* makeRaiseByPot *)
      destruct (_ <=? 0); [by inversion H; subst|].
      destruct (_ <? _); [by inversion H; subst|].
      unfold upd_game, applyRaise in H; cbv beta in H.
      match type of H with
      | context [addActionToHistory ?a ?b ?c ?d ?g0] =>
          destruct (addActionToHistory_only a b c d g0) as [h Hh]; rewrite Hh in H
      end.
      unfold thenMove in H.
      erewrite (raise_core playerId w p) in H; [|done|done| | | | |reflexivity]; cycle 1.
      { simpl. by rewrite list_lookup_alter_eq, Hp. }
      { done. }
      { done. }
      { intros j Hj. simpl. by rewrite list_lookup_alter_ne. }
      simpl in H. injection H as <- <-. exists p. split; [done|]. simpl.
      split; [reflexivity|]. split; [reflexivity|]. split; [reflexivity|].
      by rewrite list_lookup_alter_eq, Hp. }
  destruct Hmain as (p & Hon & Hto & Hrest). exists p. split; [done|]. split; [done|].
  split; [|done]. intros i. rewrite Hto. apply elem_of_othersToAct.
Qed.

End Raises.

(** ** All-in *)

Section AllInFacts.
Import Engine Props.



End AllInFacts.

(** ** Streets and settlement: what they leave alone *)

Section Frames.
Import Engine Props.

Lemma burn_frame g : ∃ d b, burn g = Game.set_deck d (Game.set_burned b g).
Proof. unfold burn, pop. eauto. Qed.

Lemma dealBoard_frame g : ∃ d bo, dealBoard g = Game.set_deck d (Game.set_board bo g).
Proof.
  unfold dealBoard, pop. destruct (truthy _); [eauto|].
  exists (removelast (Game.deck g)), (Game.board g). reflexivity.
Qed.

Lemma sameTable_refl g : sameTable g g.
Proof. by exists (Game.deck g), (Game.burned g), (Game.board g), (Game.round g). Qed.

Lemma sameTable_trans g1 g2 g3 : sameTable g1 g2 → sameTable g2 g3 → sameTable g1 g3.
Proof. intros (d & b & bo & r & ->) (d' & b' & bo' & r' & ->). by exists d', b', bo', r'. Qed.

Lemma burn_sameTable g : sameTable g (burn g).
Proof. destruct (burn_frame g) as (d & b & ->). by exists d, b, (Game.board g), (Game.round g). Qed.

Lemma dealBoard_sameTable g : sameTable g (dealBoard g).
Proof.
  destruct (dealBoard_frame g) as (d & bo & ->).
  by exists d, (Game.burned g), bo, (Game.round g).
Qed.

Lemma set_round_sameTable r g : sameTable g (Game.set_round r g).
Proof. by exists (Game.deck g), (Game.burned g), (Game.board g), r. Qed.

Lemma revealRemainingBoard_sameTable g : sameTable g (revealRemainingBoard g).
Proof.
  unfold revealRemainingBoard.
  repeat match goal with
         | |- sameTable ?a ?a => apply sameTable_refl
         | |- sameTable _ (let x := ?v in _) => cbv zeta
         | |- sameTable _ (if ?c then _ else _) => destruct c
         | |- sameTable _ (Game.set_round _ _) =>
             eapply sameTable_trans; [|apply set_round_sameTable]
         | |- sameTable _ (dealBoard _) =>
             eapply sameTable_trans; [|apply dealBoard_sameTable]
         | |- sameTable _ (burn _) =>
             eapply sameTable_trans; [|apply burn_sameTable]
         end.
Qed.

End Frames.

(** ** Settlement *)

Section Settlement.
Import Engine Props.

(** The game once the hand is over. *)
Lemma resetForNextHand_spec w :
  let w' := resetForNextHand w in
  users w' = users w ∧ live w' = false
  ∧ Game.isActive (game w') = false ∧ Game.round (game w') = Waiting
  ∧ Game.pot (game w') = 0 ∧ Game.currentBet (game w') = 0
  ∧ Game.board (game w') = []
  ∧ Game.players (game w') = List.map resetPlayer (Game.players (game w))
  ∧ Game.toActIds (game w') = Game.toActIds (game w).
Proof. unfold resetForNextHand. destruct (shuffleDeck _ _). simpl. repeat split. Qed.

Lemma includes_single (x y : string) : includes [x] y = String.eqb y x.
Proof. unfold includes. simpl. by rewrite orb_false_r. Qed.

Lemma find_winner (l : list Player.t) W :
  W ∈ l →
  ∃ q, List.find (fun p => includes [Player.id W] (Player.id p)) l = Some q
       ∧ Player.id q = Player.id W.
Proof.
  induction 1 as [W l|W y l Hin IH]; cbn [List.find]; rewrite includes_single.
  - rewrite String.eqb_refl. eauto.
  - destruct (String.eqb_spec (Player.id y) (Player.id W)); eauto.
Qed.

(** The whole pot goes to the single winner named, and the hand is over. *)
Lemma awardPot_single w W :
  live w = true → W ∈ Game.players (game w) →
  awardPotAndRotate [Player.id W] w
  = resetForNextHand
      (set_users (addMoneyToUser (Player.id W) (Game.pot (game w)) (users w)) w).
Proof.
  intros Hlive Hin. unfold awardPotAndRotate. cbn [length Nat.eqb]. rewrite Hlive.
  cbn [negb]. destruct (find_winner _ _ Hin) as (q & Hq & Hid). by rewrite Hq, Hid.
Qed.

Lemma settledFor_reset W w w0 :
  users w0 = addMoneyToUser (Player.id W) (Game.pot (game w)) (users w) →
  settledFor W w (resetForNextHand w0).
Proof.
  intros Hu. destruct (resetForNextHand_spec w0) as (H1 & H2 & H3 & H4 & H5 & _).
  unfold settledFor. rewrite H1, H2, H3, H4, H5, Hu. unfold addMoneyToUser.
  repeat split.
  - intros a Ha. by rewrite lookup_alter_eq, Ha.
  - intros other Hne. by rewrite lookup_alter_ne.
Qed.

End Settlement.

(** ** Fold-out *)

Section FoldOut.
Import Engine Props.

Lemma getActiveGame_live w g : getActiveGame w = Some g → live w = true.
Proof. unfold getActiveGame. destruct (live w); [done|discriminate]. Qed.

Lemma single_active_In g W : activePlayers g = [W] → W ∈ Game.players g.
Proof.
  intros H. assert (Hin : W ∈ activePlayers g) by (rewrite H; apply list_elem_of_here).
  by apply elem_of_activePlayers in Hin as [? _].
Qed.

(** With one player left, [moveToNextPlayer] settles the hand at once. *)
Lemma moveToNextPlayer_foldout w W :
  live w = true → activePlayers (game w) = [W] →
  moveToNextPlayer w
  = Done (resetForNextHand
            (set_users (addMoneyToUser (Player.id W) (Game.pot (game w)) (users w)) w)).
Proof.
  intros Hlive Ha. unfold moveToNextPlayer. rewrite Ha.
  rewrite awardPot_single; [done|done|]. by apply single_active_In.
Qed.

Lemma checkAndContinueGame_foldout w W :
  live w = true → activePlayers (game w) = [W] →
  checkAndContinueGame w
  = Done (resetForNextHand
            (set_users (addMoneyToUser (Player.id W) (Game.pot (game w)) (users w)) w)).
Proof.
  intros Hlive Ha. unfold checkAndContinueGame. rewrite Hlive, Ha. cbn [negb].
  rewrite awardPot_single; [done|done|]. by apply single_active_In.
Qed.

Lemma makeFold_foldout playerId w p W :
  onTurn playerId w p →
  remainingAfterFold (Game.currentPlayerIndex (game w)) (game w) = [W] →
  ∃ w', makeFold playerId w = Done (Success, w') ∧ settledFor W w w'.
Proof.
  intros (Hact & Hp & Hid & Hf) Hrem. unfold currentPlayer in Hp.
  unfold makeFold, thenMove. rewrite Hact, Hp, Hid, String.eqb_refl, Hf. cbn [negb].
  unfold upd_game; cbv beta.
  match goal with
  | |- context [addActionToHistory ?a ?b ?c ?d ?g0] =>
      destruct (addActionToHistory_only a b c d g0) as [h Hh]; rewrite Hh
  end.
  erewrite (moveToNextPlayer_foldout _ W); [| |exact Hrem].
  - eexists. split; [reflexivity|]. by apply settledFor_reset.
  - simpl. by eapply getActiveGame_live.
Qed.

(** C6: in any round, when a fold, sent by the player or forced by the turn
    timer or by the grace timer, leaves exactly one player [W] in the hand,
    the operation settles the hand at once: the whole pot is credited to [W]
    and to nobody else, the pot is empty and the game is over.  No card and
    no round enters the statement: no hand is compared and no river is
    awaited. *)
Theorem fold_out_awards_pot (e : FoldEvent) (playerId : string) (w : World)
  (i : nat) (W : Player.t) :
  folds playerId w e i →
  remainingAfterFold i (game w) = [W] →
  ∃ w', foldBy e playerId w = Done w' ∧ settledFor W w w'.
Proof.
  intros Hfold Hrem. destruct Hfold as [p Hon|p Hon|i p Hlive Hidx Hp Hf Hshort].
  - destruct (makeFold_foldout _ _ _ _ Hon Hrem) as (w' & Hw' & Hs).
    exists w'. split; [|done]. simpl. by rewrite Hw'.
  - destruct (makeFold_foldout _ _ _ _ Hon Hrem) as (w' & Hw' & Hs).
    exists w'. split; [|done]. simpl. unfold handleTurnTimeout.
    destruct Hon as (_ & Hp & Hid & Hf). unfold currentPlayer in Hp.
    rewrite Hp, Hid, String.eqb_refl, Hf. cbn [negb andb]. by rewrite Hw'.
  - simpl. unfold handleInsufficientFundsTimeout.
    rewrite Hlive, Hidx, Hp, Hf. cbn [negb].
    apply Z.ltb_lt in Hshort. rewrite Hshort.
    erewrite (checkAndContinueGame_foldout _ W); [|exact Hlive|exact Hrem].
    eexists. split; [reflexivity|]. by apply settledFor_reset.
Qed.

End FoldOut.

(** ** The evaluator returns on cards that have a value *)

Section EvaluatorTotal.
Import Cards Evaluator Engine Props.

Lemma hasValue_valued hand : forallb hasValue hand = true ↔ valued hand.
Proof.
  unfold valued. rewrite forallb_forall, Forall_forall.
  split; intros H card Hin; specialize (H card); rewrite list_elem_of_In in *;
    specialize (H Hin); unfold hasValue in *; destruct (getCardValue card); try done.
Qed.

Lemma handValues_total hand : valued hand → is_Some (handValues hand).
Proof. intros H. by apply mapM_is_Some_2. Qed.

Lemma evaluateBasicHand_total hand : valued hand → is_Some (evaluateBasicHand hand).
Proof.
  intros H. unfold evaluateBasicHand.
  destruct (handValues_total _ H) as [vs ->]. simpl. eauto.
Qed.

Lemma combinations_valued n hand combo :
  valued hand → combo ∈ combinations n hand → valued combo.
Proof.
  revert n combo. induction hand as [|x rest IH]; intros [|n] combo Hv Hin; simpl in Hin.
  - apply list_elem_of_singleton in Hin as ->. constructor.
  - by apply not_elem_of_nil in Hin.
  - apply list_elem_of_singleton in Hin as ->. constructor.
  - apply Forall_cons in Hv as [Hx Hrest]. apply elem_of_app in Hin as [Hin|Hin].
    + apply list_elem_of_In, in_map_iff in Hin as (c & <- & Hc).
      constructor; [done|]. apply (IH n); [done|]. by apply list_elem_of_In.
    + by apply (IH (S n)).
Qed.

Lemma keepBetter_total combos best r :
  valued best → (∀ combo, combo ∈ combos → valued combo) →
  ∃ best' r', fold_left keepBetter combos (Some (best, r)) = Some (best', r')
              ∧ valued best'.
Proof.
  revert best r. induction combos as [|c rest IH]; intros best r Hb Hall; simpl.
  - eauto.
  - destruct (evaluateBasicHand_total c) as [rc Hrc].
    { apply Hall. apply list_elem_of_here. }
    rewrite Hrc. simpl.
    destruct (0 <? compareHands rc r); apply IH; try done.
    + apply Hall. apply list_elem_of_here.
    + intros combo Hin. apply Hall. by apply list_elem_of_further.
    + intros combo Hin. apply Hall. by apply list_elem_of_further.
Qed.

Lemma getBestFiveCardHand_total hand :
  valued hand → ∃ best, getBestFiveCardHand hand = Some best ∧ valued best.
Proof.
  intros Hv. unfold getBestFiveCardHand.
  destruct (length hand =? 5)%nat; [eauto|].
  destruct (6 <=? length hand)%nat.
  - destruct (evaluateBasicHand_total (take 5 hand)) as [r0 Hr0].
    { by apply Forall_take. }
    rewrite Hr0. simpl.
    destruct (keepBetter_total (combinations 5 hand) (take 5 hand) r0)
      as (best & r & Hfold & Hbest).
    { by apply Forall_take. }
    { intros combo Hin. by eapply combinations_valued. }
    rewrite Hfold. simpl. eauto.
  - eexists. split; [reflexivity|]. by apply Forall_take.
Qed.

Lemma calculateHandRank_total hand : valued hand → is_Some (calculateHandRank hand).
Proof.
  intros Hv. unfold calculateHandRank.
  destruct (getBestFiveCardHand_total _ Hv) as (best & -> & Hbest). simpl.
  destruct (handValues_total _ Hbest) as [vs ->]. simpl. eauto.
Qed.

End EvaluatorTotal.

(** ** Showdown *)

Section ShowdownFacts.
Import Cards Evaluator Engine Props.

Lemma insertBy_elem {A} (cmp : A → A → Z) (a x : A) l :
  x ∈ insertBy cmp a l ↔ x = a ∨ x ∈ l.
Proof.
  induction l as [|y rest IH]; simpl.
  - rewrite list_elem_of_singleton. split; [by left|]. intros [H|H]; [done|].
    by apply elem_of_nil in H.
  - destruct (cmp a y <=? 0).
    + by rewrite !elem_of_cons.
    + rewrite !elem_of_cons, IH. tauto.
Qed.

Lemma sortBy_elem {A} (cmp : A → A → Z) l (x : A) : x ∈ sortBy cmp l ↔ x ∈ l.
Proof.
  induction l as [|y rest IH]; simpl; [done|].
  rewrite insertBy_elem, elem_of_cons, IH. tauto.
Qed.

Lemma cardsValid_valued g p :
  cardsValid g = true → p ∈ Game.players g → valued (Player.hole p ++ Game.board g).
Proof.
  unfold cardsValid. intros H Hin. apply andb_true_iff in H as [Hb Hp].
  rewrite forallb_forall in Hp. apply list_elem_of_In in Hin. specialize (Hp p Hin).
  apply Forall_app. split; by apply hasValue_valued.
Qed.

(** Ranking returns, and its first entry is one of the contenders. *)
Lemma rankContenders_total g contenders :
  (∀ p, p ∈ contenders → valued (Player.hole p ++ Game.board g)) →
  contenders ≠ [] →
  ∃ winner r rest,
    rankContenders g contenders = Some ((winner, r) :: rest) ∧ winner ∈ contenders.
Proof.
  intros Hv Hne. unfold rankContenders.
  set (f := fun p : Player.t =>
              r ← calculateHandRank (Player.hole p ++ Game.board g); Some (p, r)).
  destruct (mapM_is_Some_2 f contenders) as [l Hl].
  { apply Forall_forall. intros p Hp. unfold f. simpl.
    destruct (calculateHandRank_total _ (Hv p Hp)) as [r ->]. simpl. eauto. }
  rewrite Hl. simpl.
  assert (Hfst : ∀ x, x ∈ l → x.1 ∈ contenders).
  { apply mapM_Some_1 in Hl. clear Hne Hv. induction Hl as [|p y ps ys Hy _ IH].
    - intros x Hx. by apply elem_of_nil in Hx.
    - intros x Hx. apply elem_of_cons in Hx as [->|Hx].
      + unfold f in Hy. destruct (calculateHandRank _); simpl in Hy; [|discriminate].
        injection Hy as <-. apply list_elem_of_here.
      + apply list_elem_of_further. by apply IH. }
  assert (Hlne : l ≠ []).
  { apply mapM_Some_1, Forall2_length in Hl. intros ->. by destruct contenders. }
  destruct (sortBy rankedCompare l) as [|[winner r] rest] eqn:Hs.
  - destruct l as [|x l']; [done|].
    assert (Hx : x ∈ sortBy rankedCompare (x :: l')).
    { apply (sortBy_elem rankedCompare). apply list_elem_of_here. }
    rewrite Hs in Hx. by apply elem_of_nil in Hx.
  - exists winner, r, rest. split; [done|].
    apply (Hfst (winner, r)). apply (sortBy_elem rankedCompare). rewrite Hs.
    apply list_elem_of_here.
Qed.

(** C7: at a showdown of two or more contenders, at the end of the river or
    after an all-in, the settlement credits the whole pot once, to the
    contender ranked first, and to nobody else, also when other contenders
    hold a hand that compares equal: every other row of the user table is
    unchanged, and the pot is empty afterwards, so nothing is split. *)
Theorem showdown_single_winner (k : ShowdownKind) (w : World) :
  live w = true →
  (2 <= length (activePlayers (game w)))%nat →
  cardsValid (showdownGame k (game w)) = true →
  ∃ winner r rest w',
    rankContenders (showdownGame k (game w)) (activePlayers (game w))
    = Some ((winner, r) :: rest)
    ∧ winner ∈ activePlayers (game w)
    ∧ showdownOf k w = Done w'
    ∧ settledFor winner w w'.
Proof.
  intros Hlive Htwo Hvalid.
  assert (Hne : activePlayers (game w) ≠ []).
  { intros Hnil. rewrite Hnil in Htwo. simpl in Htwo. lia. }
  destruct k; simpl in *.
  - destruct (rankContenders_total (game w) (activePlayers (game w)))
      as (winner & r & rest & Hrank & Hin); [|done|].
    { intros p Hp. apply cardsValid_valued; [done|].
      by apply elem_of_activePlayers in Hp as [? _]. }
    exists winner, r, rest. eexists. split; [done|]. split; [done|].
    unfold handleShowdown. rewrite Hrank.
    destruct (length (activePlayers (game w))) eqn:Hlen; [lia|]. cbn [Nat.eqb].
    rewrite awardPot_single; [|done|by apply elem_of_activePlayers in Hin as [? _]].
    split; [reflexivity|]. by apply settledFor_reset.
  - destruct (revealRemainingBoard_sameTable (game w)) as (d & b & bo & rd & Hrev).
    rewrite Hrev in Hvalid.
    destruct (rankContenders_total
                (Game.set_deck d (Game.set_burned b (Game.set_board bo
                   (Game.set_round rd (game w))))) (activePlayers (game w)))
      as (winner & r & rest & Hrank & Hin); [|done|].
    { intros p Hp. apply cardsValid_valued; [done|].
      by apply elem_of_activePlayers in Hp as [? _]. }
    exists winner, r, rest. eexists. rewrite Hrev. split; [done|]. split; [done|].
    unfold handleAllInShowdown, upd_game. rewrite Hrev.
    change (activePlayers (game (set_game _ w))) with (activePlayers (game w)).
    change (game (set_game ?g w)) with g. rewrite Hrank.
    destruct (activePlayers (game w)) as [|x [|y more]] eqn:Hact;
      [done|simpl in Htwo; lia|]. cbn [length Nat.eqb].
    rewrite awardPot_single;
      [|done|simpl; rewrite <- Hact in Hin; by apply elem_of_activePlayers in Hin as [? _]].
    split; [reflexivity|]. by apply settledFor_reset.
Qed.

End ShowdownFacts.

(** ** Closing a round *)

Section Closure.
Import Cards Evaluator Engine Props.

Lemma allMatched_spec g :
  allMatched g = true ↔
  ∀ p, p ∈ Game.players g → Player.hasFolded p = false →
       Player.currentBet p = Game.currentBet g.
Proof.
  unfold allMatched. rewrite forallb_forall. split.
  - intros H p Hp Hf. apply Z.eqb_eq, H, list_elem_of_In, elem_of_activePlayers. done.
  - intros H p Hp. apply list_elem_of_In, elem_of_activePlayers in Hp as [Hp Hf].
    apply Z.eqb_eq. by apply H.
Qed.

(** The test of the code is the closure condition of the specification. *)
Lemma closed_spec g :
  (length (Game.toActIds g) =? 0)%nat && allMatched g = true ↔ roundClosed g.
Proof.
  unfold roundClosed. rewrite andb_true_iff, allMatched_spec, Nat.eqb_eq.
  by rewrite length_zero_iff_nil.
Qed.

Lemma someoneAllIn_spec g :
  (0 <? length (List.filter Player.isAllIn (activePlayers g)))%nat = true ↔ someoneAllIn g.
Proof.
  rewrite Nat.ltb_lt. unfold someoneAllIn. split.
  - intros H. destruct (List.filter Player.isAllIn (activePlayers g)) as [|p rest] eqn:Hl;
      [simpl in H; lia|].
    assert (Hin : In p (List.filter Player.isAllIn (activePlayers g)))
      by (rewrite Hl; by left).
    apply filter_In in Hin as [Hin Hall].
    apply list_elem_of_In, elem_of_activePlayers in Hin as [Hin Hf]. eauto.
  - intros (p & Hp & Hf & Hall).
    assert (Hin : In p (List.filter Player.isAllIn (activePlayers g))).
    { apply filter_In. split; [|done]. apply list_elem_of_In, elem_of_activePlayers. done. }
    destruct (List.filter Player.isAllIn (activePlayers g)); [done|simpl; lia].
Qed.

Lemma closeRound_open w : ¬ roundClosed (game w) → closeRound w = None.
Proof.
  intros Hn. unfold closeRound.
  destruct ((length (Game.toActIds (game w)) =? 0)%nat && allMatched (game w)) eqn:Hc;
    [|done].
  by apply closed_spec in Hc.
Qed.

Lemma closeRound_closed w :
  roundClosed (game w) →
  closeRound w
  = Some (if (0 <? length (List.filter Player.isAllIn (activePlayers (game w))))%nat
          then handleAllInShowdown w
          else if bool_decide (Game.round (game w) = River)
               then handleShowdown (upd_game (Game.set_round Showdown) w)
               else advanceToNextRound w).
Proof.
  intros Hc. unfold closeRound. apply closed_spec in Hc. rewrite Hc.
  by repeat case_match.
Qed.

Lemma moveToNextPlayer_closeRound w :
  notFoldOut (game w) →
  moveToNextPlayer w
  = match closeRound w with Some out => out | None => Done (passTurn w) end.
Proof.
  intros Hnf. unfold moveToNextPlayer.
  destruct (activePlayers (game w)) as [|x [|y rest]] eqn:Ha; try done.
  by destruct (Hnf x).
Qed.

(** With two contenders or more, the all-in showdown is the showdown over
    the revealed board. *)
Lemma handleAllInShowdown_reveal w :
  notFoldOut (game w) → activePlayers (game w) ≠ [] →
  handleAllInShowdown w = handleShowdown (upd_game revealRemainingBoard w).
Proof.
  intros Hnf Hne. unfold handleAllInShowdown, handleShowdown.
  destruct (revealRemainingBoard_sameTable (game w)) as (d & b & bo & rd & Hrev).
  unfold upd_game. rewrite Hrev.
  change (activePlayers (game (set_game _ w))) with (activePlayers (game w)).
  destruct (activePlayers (game w)) as [|x [|y rest]] eqn:Ha; try done.
  by destruct (Hnf x).
Qed.

(** Entering the next street from [Preflop], [Flop] or [Turn]. *)
Lemma advanceToNextRound_street w :
  Game.round (game w) ∈ [Preflop; Flop; Turn] →
  ∃ w', advanceToNextRound w = Done w'
        ∧ Game.round (game w') = nextStreet (Game.round (game w))
        ∧ Game.toActIds (game w') = List.map Player.id (activePlayers (game w))
        ∧ Game.currentPlayerIndex (game w')
          = findNextActivePlayer (game w) (Game.dealerButton (game w))
        ∧ Game.players (game w') = Game.players (game w)
        ∧ Game.pot (game w') = Game.pot (game w)
        ∧ Game.currentBet (game w') = Game.currentBet (game w)
        ∧ Game.hasRaiseInRound (game w') = false
        ∧ Game.lastAggressorIndex (game w') = None
        ∧ Game.actionHistory (game w') = []
        ∧ live w' = live w ∧ users w' = users w.
Proof.
  intros Hr. unfold advanceToNextRound. cbv zeta.
  change (Game.round (Game.set_actionHistory _ _)) with (Game.round (game w)).
  repeat (apply elem_of_cons in Hr as [Hr|Hr]); [| | |by apply elem_of_nil in Hr];
    rewrite Hr; cbn [nextStreet];
    repeat match goal with
           | |- context [dealBoard ?g0] =>
               let d := fresh "d" in let bo := fresh "bo" in let H := fresh "H" in
               destruct (dealBoard_frame g0) as (d & bo & H); rewrite H; clear H
           | |- context [burn ?g0] =>
               let d := fresh "d" in let b := fresh "b" in let H := fresh "H" in
               destruct (burn_frame g0) as (d & b & H); rewrite H; clear H
           end;
    eexists; (split; [reflexivity|]); simpl; repeat split.
Qed.

End Closure.

(** ** Revealing the board *)

Section Reveal.
Import Cards Evaluator Engine Props.

Lemma reveal_stages g :
  revealRemainingBoard g = markRiver (revealRiver (revealTurn (revealFlop g))).
Proof. reflexivity. Qed.

Lemma stocked_pop n g :
  stocked (S n) g →
  ∃ c, pop (Game.deck g) = (Some c, removelast (Game.deck g)) ∧ c ≠ ""
       ∧ (n <= length (removelast (Game.deck g)))%nat
       ∧ Forall (fun c => c ≠ "") (removelast (Game.deck g)).
Proof.
  intros [Hlen Hne]. revert Hlen Hne. generalize (Game.deck g). intros deck.
  destruct deck as [|x l _] using rev_ind; intros Hlen Hne.
  - simpl in Hlen. lia.
  - exists x. unfold pop. rewrite last_snoc, removelast_last.
    apply Forall_app in Hne as [Hl Hx]. apply Forall_cons in Hx as [Hx _].
    rewrite length_app in Hlen. simpl in Hlen.
    split; [done|]. split; [done|]. split; [lia|done].
Qed.

Lemma burn_stocked n g :
  stocked (S n) g →
  stocked n (burn g) ∧ Game.board (burn g) = Game.board g
  ∧ Game.round (burn g) = Game.round g.
Proof.
  intros H. destruct (stocked_pop _ _ H) as (c & Hpop & _ & Hlen & Hne).
  unfold burn. rewrite Hpop. by repeat split.
Qed.

Lemma dealBoard_stocked n g :
  stocked (S n) g →
  stocked n (dealBoard g)
  ∧ (∃ c, Game.board (dealBoard g) = (Game.board g ++ [c])%list)
  ∧ Game.round (dealBoard g) = Game.round g.
Proof.
  intros H. destruct (stocked_pop _ _ H) as (c & Hpop & Hc & Hlen & Hne).
  unfold dealBoard. rewrite Hpop. simpl.
  destruct (String.eqb_spec c ""); [done|]. simpl. repeat split; eauto.
Qed.

Lemma stocked_le n m g : (n <= m)%nat → stocked m g → stocked n g.
Proof. intros Hle [H1 H2]. split; [lia|done]. Qed.

Lemma deal_after_burn n g :
  stocked (S (S n)) g →
  stocked n (dealBoard (burn g))
  ∧ (∃ c, Game.board (dealBoard (burn g)) = (Game.board g ++ [c])%list)
  ∧ Game.round (dealBoard (burn g)) = Game.round g.
Proof.
  intros H. destruct (burn_stocked _ _ H) as (Hs & Hb & Hr).
  destruct (dealBoard_stocked _ _ Hs) as (Hs' & (c & Hc) & Hr').
  split; [done|]. split; [exists c; by rewrite Hc, Hb|]. by rewrite Hr'.
Qed.

(** One street: the board had [k] cards, it has [k + 1], and the round is
    the street's. *)
Lemma reveal_one (k : nat) (street : Round) n g :
  stocked (S (S n)) g → length (Game.board g) = k → Game.round g ≠ Showdown →
  let g' :=
    if (length (Game.board g) =? k)%nat && negb (bool_decide (Game.round g = Showdown))
    then Game.set_round street
           (if (2 <=? length (Game.deck g))%nat then dealBoard (burn g) else g)
    else g in
  stocked n g' ∧ length (Game.board g') = S k ∧ Game.round g' = street
  ∧ Game.board g `prefix_of` Game.board g'.
Proof.
  intros Hs Hk Hr g'. subst g'.
  rewrite Hk, Nat.eqb_refl, bool_decide_eq_false_2 by done. cbn [negb andb].
  destruct Hs as [Hlen Hne]. destruct (Nat.leb_spec 2%nat (length (Game.deck g))); [|lia].
  destruct (deal_after_burn n g) as (Hs' & (c & Hc) & _); [by split|].
  simpl. rewrite Hc, length_app, Hk. simpl.
  repeat split; try apply Hs'; [lia|by apply prefix_app_r].
Qed.

(** With eight cards left in the deck, none of them the empty string, and a
    board of 0, 3, 4 or 5 cards, revealing completes the board and keeps the
    cards already on it. *)
Lemma reveal_completes g :
  Game.round g ≠ Showdown →
  length (Game.board g) ∈ [0; 3; 4; 5]%nat →
  stocked 8 g →
  length (Game.board (revealRemainingBoard g)) = 5%nat
  ∧ Game.round (revealRemainingBoard g) = River
  ∧ Game.board g `prefix_of` Game.board (revealRemainingBoard g).
Proof.
  intros Hround Hboard Hs. rewrite reveal_stages.
  assert (Hflop : ∃ n, stocked (4 + n) (revealFlop g)
                       ∧ length (Game.board (revealFlop g)) ∈ [3; 4; 5]%nat
                       ∧ Game.round (revealFlop g) ≠ Showdown
                       ∧ Game.board g `prefix_of` Game.board (revealFlop g)).
  { unfold revealFlop. rewrite bool_decide_eq_false_2 by done. cbn [negb].
    destruct (Nat.eqb_spec (length (Game.board g)) 0%nat) as [H0|H0]; cbn [andb].
    - destruct Hs as [Hlen Hne].
      destruct (Nat.leb_spec 4%nat (length (Game.deck g))); [|lia].
      destruct (burn_stocked 7%nat g) as (Hs1 & Hb1 & _); [by split|].
      destruct (dealBoard_stocked 6%nat _ Hs1) as (Hs2 & (c2 & Hb2) & _).
      destruct (dealBoard_stocked 5%nat _ Hs2) as (Hs3 & (c3 & Hb3) & _).
      destruct (dealBoard_stocked 4%nat _ Hs3) as (Hs4 & (c4 & Hb4) & _).
      exists 0%nat. simpl. rewrite Hb4, Hb3, Hb2, Hb1, !length_app, H0. simpl.
      split; [done|]. split; [apply list_elem_of_here|]. split; [done|].
      rewrite <- !app_assoc. by apply prefix_app_r.
    - exists 4%nat. split; [done|]. split; [|done].
      repeat (apply elem_of_cons in Hboard as [Hboard|Hboard]);
        [done| | | |by apply elem_of_nil in Hboard]; rewrite Hboard;
        repeat constructor. }
  destruct Hflop as (n & Hs1 & Hb1 & Hr1 & Hp1).
  assert (Hturn : ∃ n, stocked (2 + n) (revealTurn (revealFlop g))
                       ∧ length (Game.board (revealTurn (revealFlop g))) ∈ [4; 5]%nat
                       ∧ Game.round (revealTurn (revealFlop g)) ≠ Showdown
                       ∧ Game.board g `prefix_of` Game.board (revealTurn (revealFlop g))).
  { destruct (Nat.eq_dec (length (Game.board (revealFlop g))) 3%nat) as [H3|H3].
    - destruct (reveal_one 3%nat Turn (2 + n)%nat (revealFlop g)) as (Hs2 & Hb2 & Hr2 & Hp2);
        [done|done|done|].
      exists n. unfold revealTurn. split; [done|]. rewrite Hb2, Hr2.
      split; [apply list_elem_of_here|]. split; [done|]. by etrans.
    - exists (2 + n)%nat. unfold revealTurn.
      destruct (Nat.eqb_spec (length (Game.board (revealFlop g))) 3%nat); [done|].
      cbn [andb]. split; [done|]. split; [|done].
      repeat (apply elem_of_cons in Hb1 as [Hb1|Hb1]);
        [done| | |by apply elem_of_nil in Hb1]; rewrite Hb1; repeat constructor. }
  clear n Hs1 Hb1 Hr1 Hp1. generalize dependent (revealTurn (revealFlop g)).
  intros g2 (n & Hs2 & Hb2 & Hr2 & Hp2).
  assert (Hriver : length (Game.board (revealRiver g2)) = 5%nat
                   ∧ Game.board g `prefix_of` Game.board (revealRiver g2)).
  { destruct (Nat.eq_dec (length (Game.board g2)) 4%nat) as [H4|H4].
    - destruct (reveal_one 4%nat River n g2) as (_ & Hb3 & _ & Hp3); [done|done|done|].
      unfold revealRiver. split; [done|]. by etrans.
    - unfold revealRiver. destruct (Nat.eqb_spec (length (Game.board g2)) 4%nat); [done|].
      cbn [andb]. split; [|done].
      repeat (apply elem_of_cons in Hb2 as [Hb2|Hb2]);
        [done| |by apply elem_of_nil in Hb2]; done. }
  destruct Hriver as [H5 Hp]. unfold markRiver. rewrite H5. simpl. done.
Qed.

End Reveal.

(** ** The round-closure test *)

Section ClosureTheorem.
Import Cards Evaluator Engine Props Steps Examples.

Lemma someoneAllIn_active g : someoneAllIn g → activePlayers g ≠ [].
Proof.
  intros (p & Hp & Hf & _) Hnil.
  assert (Hin : p ∈ activePlayers g) by (by apply elem_of_activePlayers).
  rewrite Hnil in Hin. by apply elem_of_nil in Hin.
Qed.

(** C4, as stated, fails before the deal.  At the table [startGame] has just
    made, in round [Waiting], the game is active, three players are in,
    nobody is left to act and all bets are equal, nobody is all-in and the
    round is not the river; yet [moveToNextPlayer] changes nothing, and the
    check of "a", who is on turn, is accepted and leaves the round, the empty
    board and the turn as they were: no street is entered. *)
Lemma waiting_round_does_not_advance :
  played undealt
  ∧ getActiveGame undealt = Some (game undealt)
  ∧ notFoldOut (game undealt)
  ∧ roundClosed (game undealt)
  ∧ ¬ someoneAllIn (game undealt)
  ∧ Game.round (game undealt) = Waiting
  ∧ moveToNextPlayer undealt = Done undealt
  ∧ (∃ w', perform CheckTurn "a" undealt = Done (Success, w')
           ∧ live w' = true
           ∧ Game.round (game w') = Waiting
           ∧ Game.board (game w') = []
           ∧ Game.currentPlayerIndex (game w') = Game.currentPlayerIndex (game undealt))
  ∧ ¬ (∀ w, played w → getActiveGame w = Some (game w) → notFoldOut (game w) →
            roundClosed (game w) → ¬ someoneAllIn (game w) →
            Game.round (game w) ≠ River →
            ∃ w', moveToNextPlayer w = Done w'
                  ∧ Game.round (game w') ≠ Game.round (game w)).
Proof.
  assert (Hplayed : played undealt).
  { unfold undealt. apply reach_start. split; [simpl; lia|].
    apply (bool_decide_unpack _). vm_compute. reflexivity. }
  assert (Hnf : notFoldOut (game undealt)).
  { intros x H. vm_compute in H. discriminate. }
  assert (Hclosed : roundClosed (game undealt)).
  { split; [reflexivity|]. intros p Hp _.
    apply list_elem_of_In in Hp. vm_compute in Hp.
    destruct Hp as [<-|[<-|[<-|[]]]]; reflexivity. }
  assert (Hnone : ¬ someoneAllIn (game undealt)).
  { intros (p & Hp & _ & Hall).
    apply list_elem_of_In in Hp. vm_compute in Hp.
    destruct Hp as [<-|[<-|[<-|[]]]]; discriminate. }
  assert (Hmove : moveToNextPlayer undealt = Done undealt) by (vm_compute; reflexivity).
  split; [exact Hplayed|]. split; [vm_compute; reflexivity|]. split; [exact Hnf|].
  split; [exact Hclosed|]. split; [exact Hnone|]. split; [reflexivity|].
  split; [exact Hmove|]. split.
  - eexists. split; [vm_compute; reflexivity|].
    split; [reflexivity|]. split; [reflexivity|]. split; reflexivity.
  - intros H.
    assert (Hactive : getActiveGame undealt = Some (game undealt))
      by (vm_compute; reflexivity).
    assert (Hround : Game.round (game undealt) ≠ River) by (intros Hr; discriminate Hr).
    destruct (H undealt Hplayed Hactive Hnf Hclosed Hnone Hround) as (w' & Hrun & Hnew).
    rewrite Hmove in Hrun. injection Hrun as <-. apply Hnew. reflexivity.
Qed.

(** C4: [moveToNextPlayer] first settles a fold-out: with exactly one player
    still in the hand, that player is awarded the pot.  Otherwise the round
    closes exactly when [toActIds] is empty and every player still in the
    hand has matched the table bet.  On closure, if a player still in the
    hand is all-in, the remaining board is revealed and the showdown is held;
    else, on the river, the showdown is held; else, on the preflop, flop or
    turn, the next street is entered; else, in round [Waiting], only what
    [advanceToNextRound] clears changes, so that round, turn, board and deck
    stay; else, in round [Showdown], the showdown is held.  When the
    condition does not hold, the round stays and the turn passes to the next
    actor.  [checkAndContinueGame], which the grace timer calls, decides in
    the same way. *)
Theorem round_closure (w : World) :
  (∀ x, activePlayers (game w) = [x] →
        moveToNextPlayer w = Done (awardPotAndRotate [Player.id x] w))
  ∧ (notFoldOut (game w) →
     (roundClosed (game w) → someoneAllIn (game w) →
        moveToNextPlayer w = handleShowdown (upd_game revealRemainingBoard w)
        ∧ (Game.round (game w) ≠ Showdown →
           length (Game.board (game w)) ∈ [0; 3; 4; 5]%nat →
           stocked 8 (game w) →
           length (Game.board (revealRemainingBoard (game w))) = 5%nat
           ∧ Game.board (game w) `prefix_of` Game.board (revealRemainingBoard (game w))))
     ∧ (roundClosed (game w) → ¬ someoneAllIn (game w) → Game.round (game w) = River →
        moveToNextPlayer w = handleShowdown (upd_game (Game.set_round Showdown) w))
     ∧ (roundClosed (game w) → ¬ someoneAllIn (game w) →
        Game.round (game w) ∈ [Preflop; Flop; Turn] →
        ∃ w', moveToNextPlayer w = Done w'
              ∧ Game.round (game w') = nextStreet (Game.round (game w))
              ∧ Game.toActIds (game w') = List.map Player.id (activePlayers (game w))
              ∧ Game.currentPlayerIndex (game w')
                = findNextActivePlayer (game w) (Game.dealerButton (game w))
              ∧ Game.players (game w') = Game.players (game w)
              ∧ Game.pot (game w') = Game.pot (game w)
              ∧ live w' = live w ∧ users w' = users w)
     ∧ (roundClosed (game w) → ¬ someoneAllIn (game w) → Game.round (game w) = Waiting →
        moveToNextPlayer w = Done (upd_game cleared w)
        ∧ Game.round (cleared (game w)) = Waiting
        ∧ Game.currentPlayerIndex (cleared (game w)) = Game.currentPlayerIndex (game w)
        ∧ Game.toActIds (cleared (game w)) = []
        ∧ Game.board (cleared (game w)) = Game.board (game w)
        ∧ Game.deck (cleared (game w)) = Game.deck (game w))
     ∧ (roundClosed (game w) → ¬ someoneAllIn (game w) → Game.round (game w) = Showdown →
        moveToNextPlayer w = handleShowdown (upd_game cleared w))
     ∧ (¬ roundClosed (game w) →
        moveToNextPlayer w = Done (passTurn w)
        ∧ Game.round (game (passTurn w)) = Game.round (game w)
        ∧ Game.board (game (passTurn w)) = Game.board (game w)
        ∧ Game.toActIds (game (passTurn w)) = Game.toActIds (game w)
        ∧ Game.currentPlayerIndex (game (passTurn w))
          = findNextActorIndex (game w) (Game.currentPlayerIndex (game w))))
  ∧ (live w = true →
     (Game.currentPlayerIndex (game w) < length (Game.players (game w)))%nat →
     checkAndContinueGame w = moveToNextPlayer w).
Proof.
  split; [|split].
  { intros x Hx. unfold moveToNextPlayer. by rewrite Hx. }
  2:{ intros Hlive Hidx. unfold checkAndContinueGame, moveToNextPlayer.
      rewrite Hlive. cbn [negb]. apply Nat.ltb_lt in Hidx. rewrite Hidx. done. }
  intros Hnf. pose proof (moveToNextPlayer_closeRound w Hnf) as Hmove.
  assert (Hadv : roundClosed (game w) → ¬ someoneAllIn (game w) →
                 Game.round (game w) ≠ River →
                 moveToNextPlayer w = advanceToNextRound w).
  { intros Hc Hnone Hr. rewrite Hmove, closeRound_closed by done.
    destruct (0 <? length _)%nat eqn:Hb; [by apply someoneAllIn_spec in Hb|].
    by rewrite bool_decide_eq_false_2. }
  split; [|split; [|split; [|split; [|split]]]].
  - intros Hc Hall. split.
    + rewrite Hmove, closeRound_closed by done.
      apply someoneAllIn_spec in Hall as Hb. rewrite Hb.
      apply handleAllInShowdown_reveal; [done|]. by apply someoneAllIn_active.
    + intros Hr Hb Hs. destruct (reveal_completes _ Hr Hb Hs) as (H5 & _ & Hp). done.
  - intros Hc Hnone Hr. rewrite Hmove, closeRound_closed by done.
    destruct (0 <? length _)%nat eqn:Hb; [by apply someoneAllIn_spec in Hb|].
    by rewrite bool_decide_eq_true_2.
  - intros Hc Hnone Hr. rewrite Hadv; [|done|done|].
    + destruct (advanceToNextRound_street w Hr)
        as (w' & H1 & H2 & H3 & H4 & H5 & H6 & _ & _ & _ & _ & H7 & H8).
      exists w'. done.
    + intros Heq. rewrite Heq in Hr.
      repeat (apply elem_of_cons in Hr as [Hr|Hr]); try done. by apply elem_of_nil in Hr.
  - intros Hc Hnone Hr. rewrite Hadv; [|done|done|by rewrite Hr].
    split.
    + unfold advanceToNextRound. cbv zeta.
      change (Game.round (Game.set_actionHistory _ _)) with (Game.round (game w)).
      by rewrite Hr.
    + split; [exact Hr|]. split; [reflexivity|]. split; [apply Hc|]. split; reflexivity.
  - intros Hc Hnone Hr. rewrite Hadv; [|done|done|by rewrite Hr].
    unfold advanceToNextRound. cbv zeta.
    change (Game.round (Game.set_actionHistory _ _)) with (Game.round (game w)).
    by rewrite Hr.
  - intros Hopen. rewrite Hmove, closeRound_open by done. done.
Qed.

End ClosureTheorem.

(** ** [toActIds] names players who have not folded *)

Section ToAct.
Import Cards Evaluator Engine Props.

Lemma toActSubset_keep g g' :
  Game.players g' = Game.players g →
  (∀ i, i ∈ Game.toActIds g' → i ∈ Game.toActIds g) →
  toActSubset g → toActSubset g'.
Proof. intros Hp Ht Hinv i Hi. rewrite Hp. apply Hinv, Ht, Hi. Qed.

(** Starting a round: [toActIds] is all the players who have not folded. *)
Lemma toActSubset_fresh g :
  Game.toActIds g = List.map Player.id (activePlayers g) → toActSubset g.
Proof.
  intros Ht i Hi. rewrite Ht in Hi.
  apply list_elem_of_In, in_map_iff in Hi as (q & <- & Hq).
  apply list_elem_of_In, elem_of_activePlayers in Hq as [Hq Hf]. eauto.
Qed.

(** A raise: [toActIds] is the players who have not folded, the raiser apart. *)
Lemma toActSubset_others playerId g :
  Game.toActIds g = othersToAct playerId g → toActSubset g.
Proof.
  intros Ht i Hi. rewrite Ht in Hi.
  apply elem_of_othersToAct in Hi as (q & Hq & Hf & Hid & _). eauto.
Qed.

(** A change to one player that keeps the id and the folded flag. *)
Lemma toActSubset_alter (f : Player.t → Player.t) j g g' :
  (∀ p, Player.id (f p) = Player.id p ∧ Player.hasFolded (f p) = Player.hasFolded p) →
  Game.players g' = alter f j (Game.players g) →
  (∀ i, i ∈ Game.toActIds g' → i ∈ Game.toActIds g) →
  toActSubset g → toActSubset g'.
Proof.
  intros Hf Hp Ht Hinv i Hi. destruct (Hinv i (Ht i Hi)) as (q & Hq & Hqf & Hqi).
  apply list_elem_of_lookup in Hq as [k Hk]. rewrite Hp.
  destruct (decide (k = j)) as [->|Hne].
  - exists (f q). destruct (Hf q) as [H1 H2]. rewrite H1, H2. split; [|done].
    apply list_elem_of_lookup. exists j. by rewrite list_lookup_alter_eq, Hk.
  - exists q. split; [|done]. apply list_elem_of_lookup. exists k.
    by rewrite list_lookup_alter_ne.
Qed.

Lemma elem_of_removeFromToAct playerId g i :
  i ∈ Game.toActIds (removeFromToAct playerId g) ↔ i ∈ Game.toActIds g ∧ i ≠ playerId.
Proof.
  unfold removeFromToAct. simpl. rewrite list_elem_of_In, filter_In, <- list_elem_of_In.
  by rewrite negb_true_iff, String.eqb_neq.
Qed.

(** A fold: the player at seat [j] folds and its id leaves [toActIds]. *)
Lemma toActSubset_fold playerId j p g g' :
  Game.players g !! j = Some p → Player.id p = playerId →
  Game.players g' = alter (Player.set_hasFolded true) j (Game.players g) →
  (∀ i, i ∈ Game.toActIds g' → i ∈ Game.toActIds g ∧ i ≠ playerId) →
  toActSubset g → toActSubset g'.
Proof.
  intros Hp Hid Hpl Ht Hinv i Hi. destruct (Ht i Hi) as [Hin Hne].
  destruct (Hinv i Hin) as (q & Hq & Hqf & Hqi).
  apply list_elem_of_lookup in Hq as [k Hk]. exists q. split; [|done].
  rewrite Hpl. apply list_elem_of_lookup. exists k.
  rewrite list_lookup_alter_ne; [done|]. intros ->. congruence.
Qed.

Lemma resetForNextHand_inv w :
  toActSubset (game w) → toActSubset (game (resetForNextHand w)).
Proof.
  intros Hinv i Hi.
  destruct (resetForNextHand_spec w) as (_ & _ & _ & _ & _ & _ & _ & Hp & Ht).
  rewrite Ht in Hi. destruct (Hinv i Hi) as (q & Hq & _ & Hqi).
  exists (resetPlayer q). rewrite Hp. split; [|done].
  apply list_elem_of_In, in_map, list_elem_of_In, Hq.
Qed.

Lemma awardPotAndRotate_inv ids w :
  toActSubset (game w) → toActSubset (game (awardPotAndRotate ids w)).
Proof.
  intros Hinv. unfold awardPotAndRotate.
  destruct (length ids =? 0)%nat; [by apply resetForNextHand_inv|].
  destruct (negb (live w)); [done|].
  destruct (List.find _ _); by apply resetForNextHand_inv.
Qed.

Lemma handleShowdown_inv w w' :
  toActSubset (game w) → handleShowdown w = Done w' → toActSubset (game w').
Proof.
  intros Hinv H. unfold handleShowdown in H.
  destruct (length (activePlayers (game w)) =? 0)%nat.
  { injection H as <-. by apply resetForNextHand_inv. }
  destruct (rankContenders _ _) as [[|[winner r] rest]|]; [| |discriminate];
    injection H as <-; [by apply resetForNextHand_inv|by apply awardPotAndRotate_inv].
Qed.

Lemma revealRemainingBoard_inv g :
  toActSubset g → toActSubset (revealRemainingBoard g).
Proof.
  intros Hinv. destruct (revealRemainingBoard_sameTable g) as (d & b & bo & r & ->).
  by apply (toActSubset_keep g).
Qed.

Lemma handleAllInShowdown_inv w w' :
  toActSubset (game w) → handleAllInShowdown w = Done w' → toActSubset (game w').
Proof.
  intros Hinv H. unfold handleAllInShowdown in H.
  assert (Hinv1 : toActSubset (game (upd_game revealRemainingBoard w)))
    by (by apply revealRemainingBoard_inv).
  revert H Hinv1. generalize (upd_game revealRemainingBoard w). intros w1 H Hinv1.
  destruct (length (activePlayers (game w1)) =? 0)%nat.
  { injection H as <-. by apply resetForNextHand_inv. }
  destruct (activePlayers (game w1)) as [|x [|y more]].
  - destruct (rankContenders _ _) as [[|[winner r] rest]|]; [| |discriminate];
      injection H as <-; [by apply resetForNextHand_inv|by apply awardPotAndRotate_inv].
  - injection H as <-. by apply awardPotAndRotate_inv.
  - destruct (rankContenders _ _) as [[|[winner r] rest]|]; [| |discriminate];
      injection H as <-; [by apply resetForNextHand_inv|by apply awardPotAndRotate_inv].
Qed.

Lemma advanceToNextRound_inv w w' :
  toActSubset (game w) → advanceToNextRound w = Done w' → toActSubset (game w').
Proof.
  intros Hinv H. unfold advanceToNextRound in H. cbv zeta in H.
  change (Game.round (Game.set_actionHistory _ _)) with (Game.round (game w)) in H.
  destruct (Game.round (game w)).
  - injection H as <-. by apply (toActSubset_keep (game w)).
  - repeat match type of H with
           | context [dealBoard ?g0] =>
               let d := fresh "d" in let bo := fresh "bo" in let E := fresh "E" in
               destruct (dealBoard_frame g0) as (d & bo & E); rewrite E in H; clear E
           | context [burn ?g0] =>
               let d := fresh "d" in let b := fresh "b" in let E := fresh "E" in
               destruct (burn_frame g0) as (d & b & E); rewrite E in H; clear E
           end.
    injection H as <-. by apply toActSubset_fresh.
  - repeat match type of H with
           | context [dealBoard ?g0] =>
               let d := fresh "d" in let bo := fresh "bo" in let E := fresh "E" in
               destruct (dealBoard_frame g0) as (d & bo & E); rewrite E in H; clear E
           | context [burn ?g0] =>
               let d := fresh "d" in let b := fresh "b" in let E := fresh "E" in
               destruct (burn_frame g0) as (d & b & E); rewrite E in H; clear E
           end.
    injection H as <-. by apply toActSubset_fresh.
  - repeat match type of H with
           | context [dealBoard ?g0] =>
               let d := fresh "d" in let bo := fresh "bo" in let E := fresh "E" in
               destruct (dealBoard_frame g0) as (d & bo & E); rewrite E in H; clear E
           | context [burn ?g0] =>
               let d := fresh "d" in let b := fresh "b" in let E := fresh "E" in
               destruct (burn_frame g0) as (d & b & E); rewrite E in H; clear E
           end.
    injection H as <-. by apply toActSubset_fresh.
  - injection H as <-. by apply (toActSubset_keep (game w)).
  - apply handleShowdown_inv in H; [done|]. by apply (toActSubset_keep (game w)).
Qed.

Lemma closeRound_inv w out w' :
  toActSubset (game w) → closeRound w = Some out → out = Done w' →
  toActSubset (game w').
Proof.
  intros Hinv H ->. unfold closeRound in H.
  destruct ((length (Game.toActIds (game w)) =? 0)%nat && allMatched (game w));
    [|discriminate].
  destruct (0 <? length _)%nat.
  { injection H as H. by apply handleAllInShowdown_inv in H. }
  destruct (bool_decide _); injection H as H.
  - apply handleShowdown_inv in H; [done|]. by apply (toActSubset_keep (game w)).
  - by apply advanceToNextRound_inv in H.
Qed.

Lemma moveToNextPlayer_inv w w' :
  toActSubset (game w) → moveToNextPlayer w = Done w' → toActSubset (game w').
Proof.
  intros Hinv H. unfold moveToNextPlayer in H.
  assert (Hrest : match closeRound w with
                  | Some out => out
                  | None => Done (passTurn w)
                  end = Done w' → toActSubset (game w')).
  { destruct (closeRound w) as [out|] eqn:Hc.
    - intros ->. by eapply closeRound_inv.
    - intros [= <-]. by apply (toActSubset_keep (game w)). }
  destruct (activePlayers (game w)) as [|x [|y more]]; try by apply Hrest.
  injection H as <-. by apply awardPotAndRotate_inv.
Qed.

Lemma checkAndContinueGame_inv w w' :
  toActSubset (game w) → checkAndContinueGame w = Done w' → toActSubset (game w').
Proof.
  intros Hinv H. unfold checkAndContinueGame in H.
  destruct (negb (live w)); [by injection H as <-|].
  assert (Hrest : match closeRound w with
                  | Some out => out
                  | None =>
                      if (Game.currentPlayerIndex (game w) <? length (Game.players (game w)))%nat
                      then Done (passTurn w) else Done w
                  end = Done w' → toActSubset (game w')).
  { destruct (closeRound w) as [out|] eqn:Hc.
    - intros ->. by eapply closeRound_inv.
    - destruct (_ <? _)%nat; intros [= <-]; [|done].
      by apply (toActSubset_keep (game w)). }
  destruct (activePlayers (game w)) as [|x [|y more]]; try by apply Hrest.
  injection H as <-. by apply awardPotAndRotate_inv.
Qed.

End ToAct.

(** ** Every operation keeps [toActIds] within the players still in *)

Section Reachable.
Import Cards Evaluator Engine Props.

Lemma thenMove_inv w r w' :
  toActSubset (game w) → thenMove w = Done (r, w') → toActSubset (game w').
Proof.
  intros Hinv H. unfold thenMove in H.
  destruct (moveToNextPlayer w) as [w1| |] eqn:Hm; simpl in H; try discriminate.
  injection H as <- <-. by eapply moveToNextPlayer_inv.
Qed.

Lemma raiseBy_inv amount playerId w r w' :
  toActSubset (game w) → raiseBy amount playerId w = Done (r, w') →
  toActSubset (game w').
Proof.
  intros Hinv H. unfold raiseBy, refuse in H. preamble H playerId.
  destruct (_ <=? 0); [by inversion H; subst|].
  destruct (_ <? _); [by inversion H; subst|].
  history H. apply thenMove_inv in H; [done|].
  by apply (toActSubset_others playerId).
Qed.

Lemma perform_inv a playerId w r w' :
  toActSubset (game w) → perform a playerId w = Done (r, w') → toActSubset (game w').
Proof.
  intros Hinv H. destruct a; simpl in H;
    try (by eapply raiseBy_inv);
    unfold makeCall, makeCheck, makeFold, makeRaise, makeAllIn, refuse in H;
    preamble H playerId.
  - (* makeCall *)
    destruct (_ <=? 0); [by inversion H; subst|].
    destruct (_ <? _); [by inversion H; subst|].
    history H. apply thenMove_inv in H; [done|].
    eapply (toActSubset_alter _ _ (game w)); [|reflexivity| |done]; [done|].
    intros i Hi. by apply (elem_of_removeFromToAct playerId) in Hi as [? _].
  - (* makeCheck *)
    destruct (_ <? _); [by inversion H; subst|].
    history H. apply thenMove_inv in H; [done|].
    apply (toActSubset_keep (game w)); [reflexivity| |done].
    intros i Hi. by apply (elem_of_removeFromToAct playerId) in Hi as [? _].
  - (* makeFold *)
    history H. apply thenMove_inv in H; [done|].
    eapply (toActSubset_fold playerId _ p (game w)); [done|done|reflexivity| |done].
    intros i Hi. by apply (elem_of_removeFromToAct playerId) in Hi.
  - (* makeRaise *)
    destruct (_ || _); [by inversion H; subst|].
    destruct (_ <=? _); [by inversion H; subst|].
    destruct (_ <? _); [by inversion H; subst|].
    history H. apply thenMove_inv in H; [done|].
    destruct (Player.chips p =? 0); by apply (toActSubset_others playerId).
  - (* makeAllIn *)
    destruct (_ <=? 0); [by inversion H; subst|].
    destruct (_ && _); [by inversion H; subst|].
    match type of H with
    | context [moveToNextPlayer ?w2] =>
        destruct (moveToNextPlayer w2) as [w1| |] eqn:Hm; simpl in H; try discriminate;
        apply moveToNextPlayer_inv in Hm
    end.
    + history H. injection H as <- <-. by apply (toActSubset_keep (game w1)).
    + destruct (_ <? _); by apply (toActSubset_others playerId).
Qed.

Lemma handleTurnTimeout_inv playerId w w' :
  toActSubset (game w) → handleTurnTimeout playerId w = Done w' → toActSubset (game w').
Proof.
  intros Hinv H. unfold handleTurnTimeout in H.
  destruct (Game.players (game w) !! _) as [player|]; [|by injection H as <-].
  destruct (_ && _); [|by injection H as <-].
  destruct (makeFold playerId w) as [[r w1]| |] eqn:Hfold; simpl in H; try discriminate.
  injection H as <-. by apply (perform_inv Fold playerId w r w1).
Qed.

Lemma handleInsufficientFundsTimeout_inv playerId w w' :
  toActSubset (game w) → handleInsufficientFundsTimeout playerId w = Done w' →
  toActSubset (game w').
Proof.
  intros Hinv H. unfold handleInsufficientFundsTimeout in H.
  destruct (negb (live w)); [by injection H as <-|].
  destruct (findIndex _ _) as [i|] eqn:Hi; [|by injection H as <-].
  destruct (Game.players (game w) !! i) as [player|] eqn:Hp; [|by injection H as <-].
  destruct (Player.hasFolded player); [by injection H as <-|].
  destruct (_ <? _); [|by injection H as <-].
  apply checkAndContinueGame_inv in H; [done|].
  assert (Hid : Player.id player = playerId).
  { clear H. revert i Hi Hp. induction (Game.players (game w)) as [|x l IH];
      intros i Hi Hp; simpl in Hi; [discriminate|].
    destruct (String.eqb_spec (Player.id x) playerId) as [Heq|Hne].
    - injection Hi as <-. simpl in Hp. by injection Hp as <-.
    - destruct (findIndex _ l) as [k|]; simpl in Hi; [|discriminate].
      injection Hi as <-. by apply (IH k). }
  eapply (toActSubset_fold playerId i player (game w)); [done|done|reflexivity| |done].
  intros k Hk. by apply (elem_of_removeFromToAct playerId) in Hk.
Qed.

Lemma dealCardsAndStartGame_inv w :
  toActSubset (game w) → toActSubset (game (dealCardsAndStartGame w)).
Proof.
  intros Hinv. unfold dealCardsAndStartGame. destruct (negb (live w)); [done|].
  by apply toActSubset_fresh.
Qed.

Lemma startGame_inv gameId clanId channelId nameOf playerIds betAmount w :
  toActSubset (game (startGame gameId clanId channelId nameOf playerIds betAmount w)).
Proof.
  unfold startGame. destruct (shuffleDeck _ _). simpl. intros i Hi.
  by apply elem_of_nil in Hi.
Qed.

Lemma createNewGame_inv gameId clanId channelId players betAmount w :
  toActSubset (game (createNewGame gameId clanId channelId players betAmount w)).
Proof.
  unfold createNewGame. destruct (shuffleDeck _ _).
  apply dealCardsAndStartGame_inv. simpl. intros i Hi. by apply elem_of_nil in Hi.
Qed.


End Reachable.

(** ** Seats: who sits at the table and who is still in *)

Section Seats.
Import Cards Evaluator Engine Props.

Lemma map_alter_keep {B} (k : Player.t → B) (f : Player.t → Player.t) j l :
  (∀ p, k (f p) = k p) → List.map k (alter f j l) = List.map k l.
Proof.
  intros Hk. revert j. induction l as [|x l IH]; intros [|j]; simpl; try done.
  - by rewrite Hk.
  - f_equal. apply IH.
Qed.

Lemma map_map_keep {B} (k : Player.t → B) (f : Player.t → Player.t) l :
  (∀ p, k (f p) = k p) → List.map k (List.map f l) = List.map k l.
Proof. intros Hk. induction l as [|x l IH]; simpl; [done|]. by rewrite Hk, IH. Qed.

Lemma map_imap_keep {A B} (k : Player.t → B) (f : nat → A → Player.t) (h : A → B) l :
  (∀ i x, k (f i x) = h x) → List.map k (imap f l) = List.map h l.
Proof.
  revert f. induction l as [|x l IH]; intros f Hk; simpl; [done|].
  rewrite Hk, IH; [done|]. intros i y. apply Hk.
Qed.

(** A change that keeps the folded flag keeps the number of players in. *)
Lemma active_length_alter (f : Player.t → Player.t) j g g' :
  (∀ p, Player.hasFolded (f p) = Player.hasFolded p) →
  Game.players g' = alter f j (Game.players g) →
  length (activePlayers g') = length (activePlayers g).
Proof.
  intros Hk Hp. unfold activePlayers. rewrite Hp. clear Hp. revert j.
  induction (Game.players g) as [|x l IH]; intros [|j]; simpl; try done.
  - rewrite Hk. by destruct (negb (Player.hasFolded x)).
  - destruct (negb (Player.hasFolded x)); simpl; [f_equal|]; exact (IH j).
Qed.

Lemma active_length_map (f : Player.t → Player.t) g g' :
  (∀ p, Player.hasFolded (f p) = Player.hasFolded p) →
  Game.players g' = List.map f (Game.players g) →
  length (activePlayers g') = length (activePlayers g).
Proof.
  intros Hk Hp. unfold activePlayers. rewrite Hp. clear Hp.
  induction (Game.players g) as [|x l IH]; simpl; [done|].
  rewrite Hk. destruct (negb (Player.hasFolded x)); simpl; by rewrite IH.
Qed.

(** A fold takes at most one player out. *)
Lemma active_length_fold j g g' :
  Game.players g' = alter (Player.set_hasFolded true) j (Game.players g) →
  (length (activePlayers g) <= S (length (activePlayers g')))%nat.
Proof.
  intros Hp. unfold activePlayers. rewrite Hp. clear Hp. revert j.
  induction (Game.players g) as [|x l IH]; intros [|j]; simpl; try lia.
  - destruct (negb (Player.hasFolded x)); simpl; lia.
  - pose proof (IH j) as IHj.
    change (list_alter (Player.set_hasFolded true) j l)
      with (alter (Player.set_hasFolded true) j l).
    destruct (negb (Player.hasFolded x)); simpl; lia.
Qed.

Lemma notFoldOut_length g : notFoldOut g ↔ length (activePlayers g) ≠ 1%nat.
Proof.
  unfold notFoldOut. split.
  - intros H Hlen. destruct (activePlayers g) as [|x [|y l]]; try done. by destruct (H x).
  - intros H x Hx. by rewrite Hx in H.
Qed.

Lemma quiet_refl w : quiet w w.
Proof. by split. Qed.

Lemma quiet_trans w1 w2 w3 : quiet w1 w2 → quiet w2 w3 → quiet w1 w3.
Proof.
  intros [Hi1 Hl1] [Hi2 Hl2]. split; [by rewrite Hi2|].
  intros H3. destruct (Hl2 H3) as [H2 Hp2]. destruct (Hl1 H2) as [H1 Hp1].
  split; [done|]. by rewrite Hp2.
Qed.

Lemma quiet_keep w w' :
  Game.players (game w') = Game.players (game w) → live w' = live w → quiet w w'.
Proof. intros Hp Hl. unfold quiet, ids. rewrite Hp, Hl. by split. Qed.

Lemma resetForNextHand_quiet w : quiet w (resetForNextHand w).
Proof.
  destruct (resetForNextHand_spec w) as (_ & Hl & _ & _ & _ & _ & _ & Hp & _).
  split; [|by rewrite Hl]. unfold ids. rewrite Hp. by apply map_map_keep.
Qed.

Lemma awardPotAndRotate_quiet winnerIds w : quiet w (awardPotAndRotate winnerIds w).
Proof.
  unfold awardPotAndRotate. destruct (length winnerIds =? 0)%nat;
    [apply resetForNextHand_quiet|].
  destruct (negb (live w)); [apply quiet_refl|].
  destruct (List.find _ _); [|apply resetForNextHand_quiet].
  eapply quiet_trans; [|apply resetForNextHand_quiet]. by apply quiet_keep.
Qed.

(** A settlement of a live game ends it. *)
Lemma awardPotAndRotate_ends winnerIds w : live (awardPotAndRotate winnerIds w) = false.
Proof.
  unfold awardPotAndRotate.
  assert (Hreset : ∀ w0, live (resetForNextHand w0) = false).
  { intros w0. by destruct (resetForNextHand_spec w0) as (_ & -> & _). }
  destruct (length winnerIds =? 0)%nat; [done|].
  destruct (live w) eqn:Hl; cbn [negb]; [|done]. case_match; apply Hreset.
Qed.

Lemma handleShowdown_quiet w w' : handleShowdown w = Done w' → quiet w w'.
Proof.
  intros H. unfold handleShowdown in H.
  destruct (length (activePlayers (game w)) =? 0)%nat.
  { injection H as <-. apply resetForNextHand_quiet. }
  destruct (rankContenders _ _) as [[|[winner r] rest]|]; [| |discriminate];
    injection H as <-; [apply resetForNextHand_quiet|apply awardPotAndRotate_quiet].
Qed.

Lemma revealRemainingBoard_players g :
  Game.players (revealRemainingBoard g) = Game.players g.
Proof. by destruct (revealRemainingBoard_sameTable g) as (d & b & bo & r & ->). Qed.

Lemma handleAllInShowdown_quiet w w' : handleAllInShowdown w = Done w' → quiet w w'.
Proof.
  intros H. unfold handleAllInShowdown in H.
  assert (Hq : quiet w (upd_game revealRemainingBoard w)).
  { apply quiet_keep; [apply revealRemainingBoard_players|done]. }
  revert H Hq. generalize (upd_game revealRemainingBoard w). intros w1 H Hq.
  eapply quiet_trans; [exact Hq|].
  destruct (length (activePlayers (game w1)) =? 0)%nat.
  { injection H as <-. apply resetForNextHand_quiet. }
  destruct (activePlayers (game w1)) as [|x [|y more]].
  - destruct (rankContenders _ _) as [[|[winner r] rest]|]; [| |discriminate];
      injection H as <-; [apply resetForNextHand_quiet|apply awardPotAndRotate_quiet].
  - injection H as <-. apply awardPotAndRotate_quiet.
  - destruct (rankContenders _ _) as [[|[winner r] rest]|]; [| |discriminate];
      injection H as <-; [apply resetForNextHand_quiet|apply awardPotAndRotate_quiet].
Qed.

Lemma advanceToNextRound_quiet w w' : advanceToNextRound w = Done w' → quiet w w'.
Proof.
  intros H. unfold advanceToNextRound in H. cbv zeta in H.
  change (Game.round (Game.set_actionHistory _ _)) with (Game.round (game w)) in H.
  destruct (Game.round (game w));
    repeat match type of H with
           | context [dealBoard ?g0] =>
               let d := fresh "d" in let bo := fresh "bo" in let E := fresh "E" in
               destruct (dealBoard_frame g0) as (d & bo & E); rewrite E in H; clear E
           | context [burn ?g0] =>
               let d := fresh "d" in let b := fresh "b" in let E := fresh "E" in
               destruct (burn_frame g0) as (d & b & E); rewrite E in H; clear E
           end;
    try (injection H as <-; by apply quiet_keep).
  apply handleShowdown_quiet in H. eapply quiet_trans; [|exact H]. by apply quiet_keep.
Qed.

Lemma closeRound_quiet w out w' : closeRound w = Some out → out = Done w' → quiet w w'.
Proof.
  intros H ->. unfold closeRound in H.
  destruct ((length (Game.toActIds (game w)) =? 0)%nat && allMatched (game w));
    [|discriminate].
  destruct (0 <? length _)%nat.
  { injection H as H. by apply handleAllInShowdown_quiet. }
  destruct (bool_decide _); injection H as H.
  - apply handleShowdown_quiet in H. eapply quiet_trans; [|exact H]. by apply quiet_keep.
  - by apply advanceToNextRound_quiet.
Qed.

(** [moveToNextPlayer] keeps the seats; a game it leaves in [activeGames]
    was there, has the same players, and was not down to one player. *)
Lemma moveToNextPlayer_quiet w w' :
  moveToNextPlayer w = Done w' →
  quiet w w' ∧ (live w' = true → notFoldOut (game w)).
Proof.
  intros H. unfold moveToNextPlayer in H.
  assert (Hrest : match closeRound w with
                  | Some out => out
                  | None => Done (passTurn w)
                  end = Done w' → quiet w w').
  { destruct (closeRound w) as [out|] eqn:Hc.
    - intros ->. by eapply closeRound_quiet.
    - intros [= <-]. by apply quiet_keep. }
  destruct (activePlayers (game w)) as [|x [|y more]] eqn:Ha.
  - split; [by apply Hrest|]. intros _. apply notFoldOut_length. by rewrite Ha.
  - injection H as <-. split; [apply awardPotAndRotate_quiet|].
    by rewrite awardPotAndRotate_ends.
  - split; [by apply Hrest|]. intros _. apply notFoldOut_length. by rewrite Ha.
Qed.

Lemma checkAndContinueGame_quiet w w' :
  checkAndContinueGame w = Done w' →
  quiet w w' ∧ (live w' = true → notFoldOut (game w)).
Proof.
  intros H. unfold checkAndContinueGame in H.
  destruct (live w) eqn:Hl; simpl in H.
  2:{ injection H as <-. split; [apply quiet_refl|]. by rewrite Hl. }
  assert (Hrest : match closeRound w with
                  | Some out => out
                  | None =>
                      if (Game.currentPlayerIndex (game w) <? length (Game.players (game w)))%nat
                      then Done (passTurn w) else Done w
                  end = Done w' → quiet w w').
  { destruct (closeRound w) as [out|] eqn:Hc.
    - intros ->. by eapply closeRound_quiet.
    - destruct (_ <? _)%nat; intros [= <-]; [by apply quiet_keep|apply quiet_refl]. }
  destruct (activePlayers (game w)) as [|x [|y more]] eqn:Ha.
  - split; [by apply Hrest|]. intros _. apply notFoldOut_length. by rewrite Ha.
  - injection H as <-. split; [apply awardPotAndRotate_quiet|].
    by rewrite awardPotAndRotate_ends.
  - split; [by apply Hrest|]. intros _. apply notFoldOut_length. by rewrite Ha.
Qed.

(** After the state change of an action, [moveToNextPlayer] leaves the table
    seated, provided the change kept the ids and left a player in. *)
Lemma seated_after w w2 w' (settle : World → Outcome World) :
  (∀ w0 w1, settle w0 = Done w1 → quiet w0 w1 ∧ (live w1 = true → notFoldOut (game w0))) →
  settle w2 = Done w' → seated w →
  ids (game w2) = ids (game w) → live w2 = live w →
  (length (activePlayers (game w)) <= S (length (activePlayers (game w2))))%nat →
  seated w'.
Proof.
  intros Hsettle Hmove [Hnd Htwo] Hids Hlive Hlen.
  destruct (Hsettle _ _ Hmove) as [[Hi Hl] Hnf]. split.
  - by rewrite Hi, Hids.
  - intros Hl'. destruct (Hl Hl') as [Hl2 Hp]. specialize (Hnf Hl').
    apply notFoldOut_length in Hnf. rewrite Hlive in Hl2. specialize (Htwo Hl2).
    unfold activePlayers in *. rewrite Hp. lia.
Qed.

Lemma keepSeats_refl g : keepSeats g g.
Proof. by split. Qed.

Lemma keepSeats_trans g1 g2 g3 : keepSeats g1 g2 → keepSeats g2 g3 → keepSeats g1 g3.
Proof. intros [H1 H2] [H3 H4]. split; congruence. Qed.

Lemma keepSeats_alter (f : Player.t → Player.t) j g g' :
  (∀ p, Player.id (f p) = Player.id p) →
  (∀ p, Player.hasFolded (f p) = Player.hasFolded p) →
  Game.players g' = alter f j (Game.players g) → keepSeats g g'.
Proof.
  intros Hi Hf Hp. split; [|by eapply active_length_alter].
  unfold ids. rewrite Hp. by apply map_alter_keep.
Qed.

Lemma keepSeats_map (f : Player.t → Player.t) g g' :
  (∀ p, Player.id (f p) = Player.id p) →
  (∀ p, Player.hasFolded (f p) = Player.hasFolded p) →
  Game.players g' = List.map f (Game.players g) → keepSeats g g'.
Proof.
  intros Hi Hf Hp. split; [|by eapply active_length_map].
  unfold ids. rewrite Hp. by apply map_map_keep.
Qed.

Lemma keepSeats_players g g' : Game.players g' = Game.players g → keepSeats g g'.
Proof. intros Hp. unfold keepSeats, ids, activePlayers. by rewrite Hp. Qed.

Lemma seated_keepSeats w w' :
  keepSeats (game w) (game w') → live w' = live w → seated w → seated w'.
Proof. intros [Hi Hl] Hlive [Hnd Htwo]. split; [by rewrite Hi|]. rewrite Hl, Hlive. done. Qed.

Lemma thenMove_Done w r w' :
  thenMove w = Done (r, w') → moveToNextPlayer w = Done w' ∧ r = Success.
Proof.
  unfold thenMove. destruct (moveToNextPlayer w); simpl; [|done|done].
  by intros [= <- <-].
Qed.

(** An action that changes the player on turn without folding it. *)
Lemma seated_move w w2 w' :
  moveToNextPlayer w2 = Done w' → seated w →
  keepSeats (game w) (game w2) → live w2 = live w → seated w'.
Proof.
  intros Hm Hs [Hi Hl] Hlive.
  apply (seated_after w w2 w' moveToNextPlayer moveToNextPlayer_quiet Hm Hs); try done.
  rewrite Hl. lia.
Qed.

Lemma perform_seated a playerId w r w' :
  seated w → perform a playerId w = Done (r, w') → seated w'.
Proof.
  intros Hs H. destruct a; simpl in H;
    unfold makeCall, makeCheck, makeFold, makeRaise, makeRaiseByBetAmount,
      makeRaiseByMultiplier, makeRaiseByPot, raiseBy, makeAllIn, refuse in H;
    preamble H playerId.
  - (* makeCall *)
    destruct (_ <=? 0); [by inversion H; subst|].
    destruct (_ <? _); [by inversion H; subst|].
    history H. apply thenMove_Done in H as [H _].
    apply (seated_move w _ w' H Hs); [|reflexivity].
    by eapply keepSeats_alter; [| |reflexivity].
  - (* makeCheck *)
    destruct (_ <? _); [by inversion H; subst|].
    history H. apply thenMove_Done in H as [H _].
    apply (seated_move w _ w' H Hs); [|reflexivity]. by apply keepSeats_players.
  - (* makeFold *)
    history H. apply thenMove_Done in H as [H _].
    apply (seated_after w _ w' moveToNextPlayer moveToNextPlayer_quiet H Hs);
      [|reflexivity|].
    + unfold ids. simpl. by apply map_alter_keep.
    + by eapply active_length_fold.
  - (* makeRaise *)
    destruct (_ || _); [by inversion H; subst|].
    destruct (_ <=? _); [by inversion H; subst|].
    destruct (_ <? _); [by inversion H; subst|].
    history H. apply thenMove_Done in H as [H _].
    apply (seated_move w _ w' H Hs); [|reflexivity].
    destruct (Player.chips p =? 0).
    + apply (keepSeats_alter (Player.set_isAllIn true ∘ Player.set_currentBet toTotal)
               (Game.currentPlayerIndex (game w))); [done|done|].
      simpl. by rewrite list_alter_alter_eq.
    + by eapply keepSeats_alter; [| |reflexivity].
  - (* makeRaiseByBetAmount *)
    destruct (_ <=? 0); [by inversion H; subst|].
    destruct (_ <? _); [by inversion H; subst|].
    history H. apply thenMove_Done in H as [H _].
    apply (seated_move w _ w' H Hs); [|reflexivity].
    by eapply keepSeats_alter; [| |reflexivity].
  - (* makeRaiseByMultiplier *)
    destruct (_ <=? 0); [by inversion H; subst|].
    destruct (_ <? _); [by inversion H; subst|].
    history H. apply thenMove_Done in H as [H _].
    apply (seated_move w _ w' H Hs); [|reflexivity].
    by eapply keepSeats_alter; [| |reflexivity].
  - (* makeRaiseByPot *)
    destruct (_ <=? 0); [by inversion H; subst|].
    destruct (_ <? _); [by inversion H; subst|].
    history H. apply thenMove_Done in H as [H _].
    apply (seated_move w _ w' H Hs); [|reflexivity].
    by eapply keepSeats_alter; [| |reflexivity].
  - (* makeAllIn *)
    destruct (_ <=? 0); [by inversion H; subst|].
    destruct (_ && _); [by inversion H; subst|].
    match type of H with
    | context [moveToNextPlayer ?w2] =>
        destruct (moveToNextPlayer w2) as [w1| |] eqn:Hm; simpl in H; try discriminate
    end.
    history H. injection H as <- <-.
    apply (seated_keepSeats w1); [by apply keepSeats_players|done|].
    destruct (_ <? _) in Hm;
      (apply (seated_move w _ w1 Hm Hs); [|reflexivity];
       apply (keepSeats_alter
                (Player.set_isAllIn true
                 ∘ Player.set_currentBet (Player.currentBet p + userAmount (users w) playerId)
                 ∘ Player.set_chips 0)
                (Game.currentPlayerIndex (game w))); [done|done|];
       simpl; by rewrite !list_alter_alter_eq).
Qed.

Lemma findIndex_Some {A} (f : A → bool) l i :
  findIndex f l = Some i → ∃ x, l !! i = Some x ∧ f x = true.
Proof.
  revert i. induction l as [|y l IH]; intros i Hi; simpl in Hi; [discriminate|].
  destruct (f y) eqn:Hy.
  - injection Hi as <-. eauto.
  - destruct (findIndex f l) as [k|]; simpl in Hi; [|discriminate].
    injection Hi as <-. by apply IH.
Qed.

Lemma handleTurnTimeout_seated playerId w w' :
  seated w → handleTurnTimeout playerId w = Done w' → seated w'.
Proof.
  intros Hs H. unfold handleTurnTimeout in H.
  destruct (Game.players (game w) !! _) as [player|]; [|by injection H as <-].
  destruct (_ && _); [|by injection H as <-].
  destruct (makeFold playerId w) as [[r w1]| |] eqn:Hfold; simpl in H; try discriminate.
  injection H as <-. by apply (perform_seated Fold playerId w r w1).
Qed.

Lemma handleInsufficientFundsTimeout_seated playerId w w' :
  seated w → handleInsufficientFundsTimeout playerId w = Done w' → seated w'.
Proof.
  intros Hs H. unfold handleInsufficientFundsTimeout in H.
  destruct (negb (live w)); [by injection H as <-|].
  destruct (findIndex _ _) as [i|] eqn:Hi; [|by injection H as <-].
  destruct (Game.players (game w) !! i) as [player|] eqn:Hp; [|by injection H as <-].
  destruct (Player.hasFolded player); [by injection H as <-|].
  destruct (_ <? _); [|by injection H as <-].
  apply (seated_after w _ w' checkAndContinueGame checkAndContinueGame_quiet H Hs);
    [|reflexivity|].
  - unfold ids. simpl. by apply map_alter_keep.
  - by eapply active_length_fold.
Qed.

Lemma dealHole_keepSeats g i : keepSeats g (dealHole g i).
Proof.
  unfold dealHole, pop. destruct (truthy _).
  - by eapply keepSeats_alter; [| |reflexivity].
  - by apply keepSeats_players.
Qed.

Lemma dealRound_keepSeats g : keepSeats g (dealRound g).
Proof.
  unfold dealRound. generalize (seq 0 (length (Game.players g))). intros l.
  revert g. induction l as [|i l IH]; intros g; simpl; [apply keepSeats_refl|].
  eapply keepSeats_trans; [apply dealHole_keepSeats|apply IH].
Qed.

Lemma dealCardsAndStartGame_seated w : seated w → seated (dealCardsAndStartGame w).
Proof.
  intros Hs. unfold dealCardsAndStartGame. destruct (negb (live w)); [done|].
  apply (seated_keepSeats w); [|done|done]. simpl.
  eapply keepSeats_trans; [apply dealRound_keepSeats|].
  eapply keepSeats_trans; [apply dealRound_keepSeats|].
  by eapply keepSeats_map; [| |reflexivity].
Qed.

(** Nobody has folded at a fresh table. *)
Lemma fresh_table_active {A} (f : nat → A → Player.t) l :
  (∀ i x, Player.hasFolded (f i x) = false) →
  length (List.filter (fun p => negb (Player.hasFolded p)) (imap f l)) = length l.
Proof.
  revert f. induction l as [|x l IH]; intros f Hf; simpl; [done|].
  rewrite Hf. simpl. rewrite IH; [done|]. intros i y. apply Hf.
Qed.

Lemma map_id_list (l : list string) : List.map (fun x => x) l = l.
Proof. induction l as [|x l IH]; simpl; by rewrite ?IH. Qed.

Lemma startGame_seated gameId clanId channelId nameOf playerIds betAmount w :
  twoOrMore playerIds →
  seated (startGame gameId clanId channelId nameOf playerIds betAmount w).
Proof.
  intros [Htwo Hnd]. unfold startGame. destruct (shuffleDeck _ _). simpl. split.
  - unfold ids. simpl.
    rewrite (map_imap_keep Player.id _ (fun x => x)), map_id_list; done.
  - intros _. unfold activePlayers. simpl. rewrite fresh_table_active; done.
Qed.

Lemma createNewGame_seated gameId clanId channelId players betAmount w :
  twoOrMore (List.map fst players) →
  seated (createNewGame gameId clanId channelId players betAmount w).
Proof.
  intros [Htwo Hnd]. unfold createNewGame. destruct (shuffleDeck _ _).
  apply dealCardsAndStartGame_seated. split.
  - unfold ids. simpl. by rewrite (map_imap_keep Player.id _ fst).
  - intros _. unfold activePlayers. simpl. rewrite fresh_table_active; [|done].
    by rewrite length_map in Htwo.
Qed.

(** Every state of a properly started table is seated. *)
Lemma played_seated w : played w → seated w.
Proof.
  induction 1 as [| |w _ IH|a playerId w r w' _ IH Hstep|playerId w w' _ IH Hstep
                  |playerId w w' _ IH Hstep].
  - by apply startGame_seated.
  - by apply createNewGame_seated.
  - by apply dealCardsAndStartGame_seated.
  - by eapply perform_seated.
  - by eapply handleTurnTimeout_seated.
  - by eapply handleInsufficientFundsTimeout_seated.
Qed.

(** With two players in, somebody is in at another seat than [i]. *)
Lemma second_player (l : list Player.t) i :
  (2 <= length (List.filter (fun p => negb (Player.hasFolded p)) l))%nat →
  ∃ k q, k ≠ i ∧ l !! k = Some q ∧ Player.hasFolded q = false.
Proof.
  revert i. induction l as [|x l IH]; intros i Hlen; simpl in Hlen; [lia|].
  destruct (Player.hasFolded x) eqn:Hx; simpl in Hlen.
  - destruct (IH (pred i)) as (k & q & Hk & Hq & Hf); [lia|].
    destruct i as [|i].
    + exists (S k), q. done.
    + exists (S k), q. simpl in Hk. split; [lia|done].
  - destruct i as [|i].
    + destruct (List.filter _ l) as [|y rest] eqn:Hfl; [simpl in Hlen; lia|].
      assert (Hy : In y (List.filter (fun p => negb (Player.hasFolded p)) l))
        by (rewrite Hfl; by left).
      apply filter_In in Hy as [Hy Hyf]. apply negb_true_iff in Hyf.
      apply list_elem_of_In, list_elem_of_lookup in Hy as [k Hk].
      exists (S k), y. done.
    + exists 0%nat, x. done.
Qed.

(** At a seated table the player on turn has an opponent. *)
Lemma seated_opponent playerId w p :
  seated w → onTurn playerId w p → hasOpponent playerId (game w).
Proof.
  intros [Hnd Htwo] (Hact & Hp & Hid & Hf).
  specialize (Htwo (getActiveGame_live _ _ Hact)).
  destruct (second_player _ (Game.currentPlayerIndex (game w)) Htwo)
    as (k & q & Hk & Hq & Hqf).
  exists q. split; [by apply list_elem_of_lookup; eauto|]. split; [done|].
  intros Heq. apply Hk. unfold currentPlayer in Hp.
  apply (NoDup_lookup (ids (game w)) k (Game.currentPlayerIndex (game w)) playerId Hnd).
  - unfold ids. rewrite <- Heq. clear -Hq. revert k Hq.
    induction (Game.players (game w)) as [|x l IH]; intros [|k] Hq; simpl in *; try done.
    + by injection Hq as ->.
    + by apply IH.
  - unfold ids. rewrite <- Hid. clear -Hp. revert Hp.
    generalize (Game.currentPlayerIndex (game w)). intros k. revert k.
    induction (Game.players (game w)) as [|x l IH]; intros [|k] Hq; simpl in *; try done.
    + by injection Hq as ->.
    + by apply IH.
Qed.

End Seats.

(** ** Raises and all-ins at a played table *)

Section PlayedTable.
Import Cards Evaluator Engine Props.

(** An action that succeeds was sent by the player on turn. *)
Lemma success_onTurn a playerId w r w' :
  perform a playerId w = Done (r, w') → success r = true → ∃ p, onTurn playerId w p.
Proof.
  intros H Hs. destruct a; simpl in H;
    unfold makeCall, makeCheck, makeFold, makeRaise, makeRaiseByBetAmount,
      makeRaiseByMultiplier, makeRaiseByPot, raiseBy, makeAllIn, refuse in H;
    preamble H playerId; by exists p.
Qed.

(** C5: at a table started with two or more distinct players and played by
    the engine's operations, after a successful raise to X by [playerId],
    through [makeRaise], [makeRaiseByBetAmount], [makeRaiseByMultiplier] or
    [makeRaiseByPot], [toActIds] is exactly the ids of the players who have
    not folded other than [playerId], whoever had acted before; the table bet
    is X, the raiser's bet is X, and the raiser is the last aggressor. *)
Theorem raise_resets_obligations (k : Raise) (playerId : string) (w : World)
  (r : GameResult) (w' : World) :
  played w →
  perform (raiseAction k) playerId w = Done (r, w') →
  success r = true →
  ∃ p, onTurn playerId w p
       ∧ Game.toActIds (game w') = othersToAct playerId (game w')
       ∧ (∀ i, i ∈ Game.toActIds (game w') ↔
               ∃ q, q ∈ Game.players (game w') ∧ Player.hasFolded q = false
                    ∧ Player.id q = i ∧ i ≠ playerId)
       ∧ Game.currentBet (game w') = raiseTotal k (game w)
       ∧ Game.lastAggressorIndex (game w') = Some (Game.currentPlayerIndex (game w))
       ∧ Player.currentBet <$> Game.players (game w') !! Game.currentPlayerIndex (game w)
         = Some (raiseTotal k (game w)).
Proof.
  intros Hplayed H Hs. destruct (success_onTurn _ _ _ _ _ H Hs) as [p Hon].
  apply (raise_with_opponent k playerId w r w' H Hs).
  apply (seated_opponent playerId w p); [by apply played_seated|done].
Qed.


End PlayedTable.

(** ** More on the evaluator and the deck *)

Section EvaluatorMore.
Import Cards Evaluator Engine Props.

(** X1: the card at index 13 * j + i of a new deck is rank i of RANKS
    followed by suit j of SUITS; [getCardSuit] gives back that suit and
    [getCardValue] the value i + 2. *)
Theorem deck_cards_decode (i j : nat) (cardRank suit : string) :
  RANKS !! i = Some cardRank → SUITS !! j = Some suit →
  createDeck !! (13 * j + i)%nat = Some (cardRank ++ suit)
  ∧ getCardSuit (cardRank ++ suit) = suit
  ∧ getCardValue (cardRank ++ suit) = Some (Z.of_nat i + 2).
Proof.
  intros Hi Hj.
  do 4 (destruct j as [|j]; [injection Hj as <-;
    do 13 (destruct i as [|i]; [injection Hi as <-; vm_compute; done|]); done|]).
  done.
Qed.

Lemma createDeck_NoDup : NoDup createDeck.
Proof. apply (bool_decide_unpack _). vm_compute. reflexivity. Qed.

Lemma compareKickers_antisym k1 k2 : compareKickers k1 k2 = - compareKickers k2 k1.
Proof.
  revert k2. induction k1 as [|a r1 IH]; intros [|b r2]; simpl; try lia.
  destruct (Z.eqb_spec a b), (Z.eqb_spec b a); simpl; try lia. apply IH.
Qed.

(** X2: [compareHands] is antisymmetric: swapping the two hands negates the
    result, and a hand compared with itself gives 0; the comparator of the
    showdown sort is [compareHands] with its arguments swapped, so the
    ranking is descending. *)
Theorem compareHands_antisymmetric :
  (∀ a b, compareHands a b = - compareHands b a)
  ∧ (∀ a, compareHands a a = 0)
  ∧ (∀ x y : Player.t * HandRank, rankedCompare x y = compareHands (snd y) (snd x)).
Proof.
  split; [|split].
  - intros a b. unfold compareHands.
    destruct (Z.eqb_spec (rank a) (rank b)), (Z.eqb_spec (rank b) (rank a)); simpl; try lia.
    apply compareKickers_antisym.
  - intros a. pose proof (compareKickers_antisym (kickers a) (kickers a)).
    unfold compareHands. rewrite Z.eqb_refl. simpl. lia.
  - intros x y. unfold rankedCompare, compareHands.
    by rewrite (Z.eqb_sym (rank (snd x))).
Qed.

Lemma swap_Permutation i j deck : swap i j deck ≡ₚ deck.
Proof.
  unfold swap. destruct (deck !! i) as [a|] eqn:Hi; [|done].
  destruct (deck !! j) as [b|] eqn:Hj; [|done].
  by apply Permutation_insert_swap.
Qed.

Lemma shuffleFrom_spec i deck rnd :
  (shuffleFrom i deck rnd).1 ≡ₚ deck ∧ (shuffleFrom i deck rnd).2 = drop i rnd.
Proof.
  revert deck rnd. induction i as [|i IH]; intros deck rnd.
  - simpl. by rewrite drop_0.
  - change (shuffleFrom (S i) deck rnd)
      with (shuffleFrom i (swap (S i) (hd 0%nat rnd mod (S i + 1)) deck) (tl rnd)).
    destruct (IH (swap (S i) (hd 0%nat rnd mod (S i + 1)) deck) (tl rnd)) as [H1 H2].
    split.
    + rewrite H1. apply swap_Permutation.
    + rewrite H2. destruct rnd; simpl; [by rewrite drop_nil|done].
Qed.

Lemma shuffleDeck_Permutation deck rnd : (shuffleDeck deck rnd).1 ≡ₚ deck.
Proof. unfold shuffleDeck. apply shuffleFrom_spec. Qed.

(** X3: [shuffleDeck] only reorders the deck: the result has the same cards,
    as many of them, and no card twice if the deck had none; it reads one
    random value for each card but one. *)
Theorem shuffleDeck_permutes (deck : list string) (rnd : list nat) :
  (shuffleDeck deck rnd).1 ≡ₚ deck
  ∧ length (shuffleDeck deck rnd).1 = length deck
  ∧ (∀ card, card ∈ (shuffleDeck deck rnd).1 ↔ card ∈ deck)
  ∧ (NoDup deck → NoDup (shuffleDeck deck rnd).1)
  ∧ (shuffleDeck deck rnd).2 = drop (length deck - 1) rnd.
Proof.
  unfold shuffleDeck. destruct (shuffleFrom_spec (length deck - 1) deck rnd) as [H1 H2].
  split; [done|]. split; [by rewrite H1|]. split; [intros; by rewrite H1|].
  split; [by rewrite H1|done].
Qed.


(** *** Choosing the best five cards *)

Lemma compareHands_rank a b :
  (0 < compareHands a b → rank b <= rank a) ∧ (compareHands a b <= 0 → rank a <= rank b).
Proof.
  unfold compareHands. destruct (Z.eqb_spec (rank a) (rank b)); simpl; lia.
Qed.

Lemma fold_keepBetter_max combos best res :
  fold_left keepBetter combos best = Some res →
  ∃ b0, best = Some b0
        ∧ (res.1 = b0.1 ∨ res.1 ∈ combos)
        ∧ (evaluateBasicHand b0.1 = Some b0.2 →
           evaluateBasicHand res.1 = Some res.2
           ∧ rank b0.2 <= rank res.2
           ∧ ∀ c r, c ∈ combos → evaluateBasicHand c = Some r → rank r <= rank res.2).
Proof.
  revert best. induction combos as [|c rest IH]; intros best H; simpl in H.
  - exists res. split; [done|]. split; [by left|]. intros He. split; [done|].
    split; [lia|]. intros c r Hc. by apply elem_of_nil in Hc.
  - destruct (IH _ H) as (b1 & Hb1 & Hwhere & Hmax).
    destruct best as [[bh br]|]; [|discriminate]. simpl in Hb1.
    destruct (evaluateBasicHand c) as [rc|] eqn:Hc; [|discriminate]. simpl in Hb1.
    injection Hb1 as Hb1. exists (bh, br). split; [done|]. simpl.
    destruct (compareHands_rank rc br) as [Hgt Hle].
    destruct (Z.ltb_spec 0 (compareHands rc br)) as [Hcmp|Hcmp]; subst b1; simpl in *.
    + split.
      { destruct Hwhere as [->|Hin]; right; [apply list_elem_of_here|].
        by apply list_elem_of_further. }
      intros He. destruct (Hmax Hc) as (H1 & H2 & H3). split; [done|].
      split; [specialize (Hgt Hcmp); lia|].
      intros c' r' Hin Hr'. apply elem_of_cons in Hin as [->|Hin]; [|by eapply H3].
      rewrite Hc in Hr'. injection Hr' as <-. done.
    + split.
      { destruct Hwhere as [->|Hin]; [by left|right; by apply list_elem_of_further]. }
      intros He. destruct (Hmax He) as (H1 & H2 & H3). split; [done|].
      split; [done|].
      intros c' r' Hin Hr'. apply elem_of_cons in Hin as [->|Hin]; [|by eapply H3].
      rewrite Hc in Hr'. injection Hr' as <-. specialize (Hle Hcmp). lia.
Qed.

Lemma combinations_length {A} n (l : list A) c : c ∈ combinations n l → length c = n.
Proof.
  revert n c. induction l as [|x rest IH]; intros [|n] c Hin; simpl in Hin.
  - by apply list_elem_of_singleton in Hin as ->.
  - by apply elem_of_nil in Hin.
  - by apply list_elem_of_singleton in Hin as ->.
  - apply elem_of_app in Hin as [Hin|Hin].
    + apply list_elem_of_In, in_map_iff in Hin as (c' & <- & Hc). simpl. f_equal.
      apply IH. by apply list_elem_of_In.
    + by apply IH.
Qed.

Lemma combinations_short {A} n (l : list A) : (length l < n)%nat → combinations n l = [].
Proof.
  revert n. induction l as [|x rest IH]; intros [|n] Hlt; simpl in *; try lia; [done|].
  rewrite (IH n), (IH (S n)) by lia. done.
Qed.

Lemma combinations_all {A} (l : list A) : combinations (length l) l = [l].
Proof.
  induction l as [|x rest IH]; simpl; [done|].
  rewrite IH, combinations_short by lia. done.
Qed.

(** On five cards the two evaluations agree on the category. *)
Lemma category_agrees hand r :
  length hand = 5%nat → calculateHandRank hand = Some r →
  ∃ r0, evaluateBasicHand hand = Some r0 ∧ rank r0 = rank r.
Proof.
  intros Hlen H. unfold calculateHandRank, getBestFiveCardHand in H.
  rewrite Hlen in H. simpl in H. unfold evaluateBasicHand.
  destruct (handValues hand) as [vs|]; [|discriminate]. simpl in *.
  injection H as <-. eexists. split; [reflexivity|].
  repeat (case_match; simpl; try done).
Qed.

Lemma calculateHandRank_best hand best :
  getBestFiveCardHand hand = Some best → length best = 5%nat →
  calculateHandRank hand = calculateHandRank best.
Proof.
  intros Hb Hlen. unfold calculateHandRank. rewrite Hb.
  unfold getBestFiveCardHand. rewrite Hlen. reflexivity.
Qed.

(** X4: the category [calculateHandRank] returns for a hand is at least the
    category of every five-card combination of the hand, whatever the
    kickers. *)
Theorem best_five_category_maximal (hand combo : list string) (r s : HandRank) :
  calculateHandRank hand = Some r →
  combo ∈ combinations 5 hand →
  calculateHandRank combo = Some s →
  rank s <= rank r.
Proof.
  intros Hr Hin Hs.
  destruct (decide (length hand < 5)%nat) as [Hlt|Hge].
  { rewrite combinations_short in Hin by done. by apply elem_of_nil in Hin. }
  destruct (decide (length hand = 5%nat)) as [H5|Hne].
  { rewrite <- H5, combinations_all in Hin. apply list_elem_of_singleton in Hin as ->.
    rewrite Hr in Hs. injection Hs as <-. lia. }
  pose proof (combinations_length _ _ _ Hin) as Hclen.
  destruct (category_agrees _ _ Hclen Hs) as (s0 & Hs0 & Hrank_s).
  destruct (getBestFiveCardHand hand) as [best|] eqn:Hbest;
    [|unfold calculateHandRank in Hr; rewrite Hbest in Hr; discriminate].
  pose proof Hbest as Hb. unfold getBestFiveCardHand in Hb.
  destruct (Nat.eqb_spec (length hand) 5); [done|].
  destruct (Nat.leb_spec 6 (length hand)); [|lia].
  destruct (evaluateBasicHand (take 5 hand)) as [r0|] eqn:Hr0; [|discriminate].
  simpl in Hb.
  destruct (fold_left keepBetter _ _) as [res|] eqn:Hfold; [|discriminate].
  injection Hb as Hb. apply fold_keepBetter_max in Hfold as (b0 & Hb0 & Hwhere & Hmax).
  injection Hb0 as <-. simpl in *. destruct (Hmax Hr0) as (Hres & _ & Hall).
  assert (Hblen : length best = 5%nat).
  { subst best. destruct Hwhere as [->|Hw]; [rewrite length_take; lia|].
    by eapply combinations_length. }
  rewrite (calculateHandRank_best _ _ Hbest Hblen) in Hr.
  destruct (category_agrees _ _ Hblen Hr) as (rb & Hrb & Hrank_r).
  subst best. rewrite Hres in Hrb. injection Hrb as <-.
  rewrite <- Hrank_s, <- Hrank_r. by eapply Hall.
Qed.

(** *** The name of a category *)

Lemma rank_range (hand : list string) (r : HandRank) :
  calculateHandRank hand = Some r → 1 <= rank r <= 10.
Proof.
  intros H. unfold calculateHandRank in H.
  destruct (getBestFiveCardHand hand) as [best|]; [|discriminate]. simpl in H.
  destruct (handValues best) as [vs|]; [|discriminate]. simpl in H.
  injection H as <-. repeat (case_match; simpl; try lia).
Qed.

(** X5: the category [calculateHandRank] returns lies between 1 and 10, so
    [getRankName] never announces it as Unknown. *)
Theorem rank_has_a_name (hand : list string) (r : HandRank) :
  calculateHandRank hand = Some r →
  1 <= rank r <= 10 ∧ getRankName (rank r) ≠ "Unknown".
Proof.
  intros H. pose proof (rank_range hand r H) as Hr. split; [done|].
  unfold getRankName.
  repeat match goal with
         | |- (if ?a =? ?b then _ else _) ≠ _ =>
             destruct (Z.eqb_spec a b); [discriminate|]
         end.
  lia.
Qed.


(** *** Order of the cards *)

Lemma insertDesc_comm x y l :
  insertDesc x (insertDesc y l) = insertDesc y (insertDesc x l).
Proof.
  induction l as [|a rest IH]; simpl.
  - destruct (Z.ltb_spec y x), (Z.ltb_spec x y); try done; try lia.
    assert (x = y) by lia. by subst.
  - destruct (Z.ltb_spec a y), (Z.ltb_spec a x); simpl.
    + destruct (Z.ltb_spec y x), (Z.ltb_spec x y); try lia;
        repeat (simpl; case_match; try lia); try done.
      assert (x = y) by lia. by subst.
    + destruct (Z.ltb_spec y x); [lia|]. simpl.
      destruct (Z.ltb_spec a x); [lia|]. destruct (Z.ltb_spec a y); [|lia]. done.
    + destruct (Z.ltb_spec x y); [lia|]. simpl.
      destruct (Z.ltb_spec a x); [|lia]. destruct (Z.ltb_spec a y); [lia|]. done.
    + destruct (Z.ltb_spec a x); [lia|]. destruct (Z.ltb_spec a y); [lia|].
      by rewrite IH.
Qed.

Lemma sortDesc_Permutation l l' : l ≡ₚ l' → sortDesc l = sortDesc l'.
Proof.
  induction 1 as [|x l l' _ IH|x y l|l1 l2 l3 _ IH1 _ IH2]; simpl.
  - done.
  - by rewrite IH.
  - apply insertDesc_comm.
  - congruence.
Qed.

Lemma insertDesc_Permutation x l : insertDesc x l ≡ₚ x :: l.
Proof.
  induction l as [|a rest IH]; simpl; [done|].
  destruct (a <? x); [done|]. rewrite IH. apply Permutation_swap.
Qed.

Lemma sortDesc_perm l : sortDesc l ≡ₚ l.
Proof.
  induction l as [|a rest IH]; simpl; [done|].
  by rewrite insertDesc_Permutation, IH.
Qed.

Lemma mapM_Permutation {A B} (f : A → option B) l l' :
  l ≡ₚ l' →
  match mapM f l, mapM f l' with
  | Some k, Some k' => k ≡ₚ k'
  | None, None => True
  | _, _ => False
  end.
Proof.
  induction 1 as [|x l l' _ IH|x y l|l1 l2 l3 _ IH1 _ IH2]; simpl.
  - done.
  - destruct (f x); simpl; [|done].
    destruct (mapM f l), (mapM f l'); simpl; try done. by constructor.
  - destruct (f x), (f y); simpl; try done;
      destruct (mapM f l); simpl; try done. apply Permutation_swap.
  - destruct (mapM f l1), (mapM f l2), (mapM f l3); try done. by etrans.
Qed.

Lemma isFlush_Permutation (l l' : list string) : l ≡ₚ l' → isFlush l = isFlush l'.
Proof.
  intros H. unfold isFlush. rewrite (Permutation_length H).
  assert (Hd : remove_dups l ≡ₚ remove_dups l').
  { apply NoDup_Permutation; try apply NoDup_remove_dups.
    intros x. by rewrite !elem_of_remove_dups, H. }
  by rewrite (Permutation_length Hd).
Qed.

(** X6: for five cards the result of [calculateHandRank] and of
    [evaluateBasicHand] does not depend on the order of the cards. *)
Theorem five_cards_in_any_order (hand hand' : list string) :
  length hand = 5%nat → hand ≡ₚ hand' →
  calculateHandRank hand' = calculateHandRank hand
  ∧ evaluateBasicHand hand' = evaluateBasicHand hand.
Proof.
  intros Hlen Hperm.
  assert (Hlen' : length hand' = 5%nat) by (by rewrite <- Hperm).
  pose proof (mapM_Permutation getCardValue _ _ Hperm) as Hv.
  assert (Hs : isFlush (List.map getCardSuit hand') = isFlush (List.map getCardSuit hand)).
  { apply isFlush_Permutation. symmetry. by apply Permutation_map. }
  unfold calculateHandRank, evaluateBasicHand, getBestFiveCardHand, handValues.
  rewrite Hlen, Hlen'. simpl.
  destruct (mapM getCardValue hand) as [vs|], (mapM getCardValue hand') as [vs'|];
    try done; simpl.
  rewrite Hs, (sortDesc_Permutation vs vs' Hv). done.
Qed.

(** *** Straights *)

Lemma elem_of_sortDesc l v : v ∈ sortDesc l ↔ v ∈ l.
Proof. by rewrite sortDesc_perm. Qed.

Lemma sortDesc_run h : sortDesc [h; h - 1; h - 2; h - 3; h - 4] = [h; h - 1; h - 2; h - 3; h - 4].
Proof.
  unfold sortDesc. simpl.
  repeat (match goal with |- context [?a <? ?b] => destruct (Z.ltb_spec a b); try lia end; simpl).
  done.
Qed.

(** X7: [isStraight] answers with a straight of high card h exactly when the
    values are the five values from h - 4 to h, or h is 5 and the values are
    the ace and 2 to 5. *)
Theorem isStraight_characterised (values : list Z) (h : Z) :
  isStraight values = {| straight := true; highCard := h |} ↔
  (∀ v, v ∈ values ↔ h - 4 <= v <= h)
  ∨ (h = 5 ∧ ∀ v, v ∈ values ↔ v = 14 ∨ 2 <= v <= 5).
Proof.
  assert (Hmem : ∀ v, v ∈ sortDesc (remove_dups values) ↔ v ∈ values).
  { intros v. by rewrite elem_of_sortDesc, elem_of_remove_dups. }
  split.
  - unfold isStraight. intros H.
    destruct (sortDesc (remove_dups values)) as [|a [|b [|c [|d [|e [|f rest]]]]]] eqn:Hu;
      try (simpl in H; discriminate).
    simpl in H.
    destruct (Z.eqb_spec (a - b) 1), (Z.eqb_spec (b - c) 1), (Z.eqb_spec (c - d) 1),
      (Z.eqb_spec (d - e) 1); simpl in H;
      try (injection H as <-; left; intros v; rewrite <- Hmem, !elem_of_cons, elem_of_nil; lia);
      (case_bool_decide as Hw; [|discriminate]; injection H as <-; right; split; [done|];
       injection Hw as -> -> -> -> ->;
       intros v; rewrite <- Hmem, !elem_of_cons, elem_of_nil; lia).
  - intros [Hrun | [-> Hwheel]].
    + assert (Hp : remove_dups values ≡ₚ [h; h - 1; h - 2; h - 3; h - 4]).
      { apply NoDup_Permutation; [apply NoDup_remove_dups| |].
        - repeat (constructor; [rewrite ?elem_of_cons, elem_of_nil; lia|]). constructor.
        - intros v. rewrite elem_of_remove_dups, Hrun, !elem_of_cons, elem_of_nil. lia. }
      unfold isStraight. rewrite (sortDesc_Permutation _ _ Hp), sortDesc_run. simpl.
      rewrite !(proj2 (Z.eqb_eq _ 1)) by lia. done.
    + assert (Hp : remove_dups values ≡ₚ [14; 5; 4; 3; 2]).
      { apply NoDup_Permutation; [apply NoDup_remove_dups| |].
        - repeat (constructor; [rewrite ?elem_of_cons, elem_of_nil; lia|]). constructor.
        - intros v. rewrite elem_of_remove_dups, Hwheel, !elem_of_cons, elem_of_nil. lia. }
      unfold isStraight. rewrite (sortDesc_Permutation _ _ Hp). reflexivity.
Qed.

End EvaluatorMore.

(** ** The shape of an operation *)

(** Open the preamble of the action in the goal; a refusal is the second
    case of [shaped]. *)
Ltac enter playerId :=
  match goal with
  | |- context [Engine.getActiveGame ?w] =>
      let g := fresh "g" in
      let Hg := fresh "Hactive" in
      let Hgw := fresh "Hgw" in
      destruct (Engine.getActiveGame w) as [g|] eqn:Hg; [|right; left; eauto; fail];
      pose proof (getActiveGame_Some _ _ Hg) as Hgw; subst g;
      let p := fresh "p" in
      let Hp := fresh "Hp" in
      destruct (Game.players (Engine.game w) !! Game.currentPlayerIndex (Engine.game w))
        as [p|] eqn:Hp; [|left; done];
      let Hid := fresh "Hid" in
      destruct (String.eqb_spec (Player.id p) playerId) as [Hid|Hid];
      cbn [negb]; [|right; left; eauto; fail];
      let Hf := fresh "Hfolded" in
      destruct (Player.hasFolded p) eqn:Hf; [right; left; eauto; fail|]
  end.

(** Name what [addActionToHistory] appends in the goal. *)
Ltac historyGoal :=
  unfold Engine.upd_game, Engine.applyRaise; cbv beta;
  repeat match goal with
         | |- context [Engine.addActionToHistory ?a ?b ?c ?d ?g0] =>
             let h := fresh "h" in
             let Hh := fresh "Hh" in
             destruct (addActionToHistory_only a b c d g0) as [h Hh];
             rewrite Hh; clear Hh
         end.

Section Decomposition.
Import Cards Evaluator Engine Props Steps.

Lemma keep_history : ∀ w2 : World, ∃ h, w2 = upd_game (Game.set_actionHistory h) w2.
Proof. intros w2. by exists (Game.actionHistory (game w2)). Qed.

Lemma raiseBy_shape (k : Raise) amount playerId w :
  (∀ toTotal, k ≠ ToTotal toTotal) →
  raiseTotal k (game w) = Game.currentBet (game w) + amount (game w) →
  (getActiveGame w = Some (game w) ∧ currentPlayer (game w) = None
   ∧ raiseBy amount playerId w = Throws)
  ∨ (∃ why, raiseBy amount playerId w = Done (Failure why, w))
  ∨ (∃ p w1 (hf : World → World),
       onTurn playerId w p ∧ commits playerId w p w1
       ∧ (∀ w2, ∃ h, hf w2 = upd_game (Game.set_actionHistory h) w2)
       ∧ raiseBy amount playerId w = (w2 ← moveToNextPlayer w1; Done (Success, hf w2))).
Proof.
  intros Hk Heq. unfold raiseBy, refuse, thenMove. enter playerId.
  rewrite <- Heq.
  destruct (Z.leb_spec (raiseTotal k (game w) - Player.currentBet p) 0);
    [right; left; eauto|].
  destruct (Z.ltb_spec (userAmount (users w) playerId)
              (raiseTotal k (game w) - Player.currentBet p));
    [right; left; eauto|].
  historyGoal. right. right. exists p. eexists. exists (fun w2 => w2).
  split; [by repeat split|]. split; [|split; [apply keep_history|reflexivity]].
  apply (commits_raise playerId w p k h); [done|done|]. intros t ->. by destruct (Hk t).
Qed.

Lemma perform_shape a playerId w : shaped a playerId w.
Proof.
  unfold shaped. destruct a; simpl.
  - (* makeCall *)
    unfold makeCall, refuse, thenMove. enter playerId.
    destruct (Z.leb_spec (Game.currentBet (game w) - Player.currentBet p) 0);
      [right; left; eauto|].
    destruct (Z.ltb_spec (userAmount (users w) playerId)
                (Game.currentBet (game w) - Player.currentBet p));
      [right; left; eauto|].
    historyGoal.
    replace (Player.currentBet p + (Game.currentBet (game w) - Player.currentBet p))
      with (Game.currentBet (game w)) by lia.
    right. right. exists p. eexists. exists (fun w2 => w2).
    split; [by repeat split|]. split; [|split; [apply keep_history|reflexivity]].
    by apply (commits_call playerId w p h).
  - (* makeCheck *)
    unfold makeCheck, refuse, thenMove. enter playerId.
    destruct (Z.ltb_spec (Player.currentBet p) (Game.currentBet (game w)));
      [right; left; eauto|].
    historyGoal. right. right. exists p. eexists. exists (fun w2 => w2).
    split; [by repeat split|]. split; [|split; [apply keep_history|reflexivity]].
    by apply (commits_check playerId w p h).
  - (* makeFold *)
    unfold makeFold, refuse, thenMove. enter playerId.
    historyGoal. right. right. exists p. eexists. exists (fun w2 => w2).
    split; [by repeat split|]. split; [|split; [apply keep_history|reflexivity]].
    by apply (commits_fold playerId w p h).
  - (* makeRaise *)
    unfold makeRaise, refuse, thenMove. enter playerId.
    destruct (Z.leb_spec (toTotal - Player.currentBet p) 0);
      [right; left; eauto|].
    destruct (Z.ltb_spec (Player.chips p) (toTotal - Player.currentBet p));
      [right; left; eauto|]. cbn [orb].
    destruct (Z.leb_spec toTotal (Game.currentBet (game w)));
      [right; left; eauto|].
    destruct (Z.ltb_spec (userAmount (users w) playerId) (toTotal - Player.currentBet p));
      [right; left; eauto|].
    destruct (Z.eqb_spec (Player.chips p) 0); [lia|].
    historyGoal. right. right. exists p. eexists. exists (fun w2 => w2).
    split; [by repeat split|]. split; [|split; [apply keep_history|reflexivity]].
    apply (commits_raise playerId w p (ToTotal toTotal) h); [done|done|].
    intros t [= <-]. done.
  - apply (raiseBy_shape ByBetAmount Game.betAmount); done.
  - apply (raiseBy_shape (ByMultiplier multiplier)
             (fun g => Z.max 0 (Game.betAmount g * multiplier))); done.
  - apply (raiseBy_shape ByPot (fun g => Z.max (Game.betAmount g) (Game.pot g))); done.
  - (* makeAllIn *)
    unfold makeAllIn, refuse. enter playerId.
    destruct (Z.leb_spec (userAmount (users w) playerId) 0);
      [right; left; eauto|].
    destruct (Z.ltb_spec 0 (Z.max 0 (Game.currentBet (game w) - Player.currentBet p)));
      destruct (Z.ltb_spec (userAmount (users w) playerId)
                  (Z.max 0 (Game.currentBet (game w) - Player.currentBet p)));
      cbn [andb]; try (right; left; eauto; fail).
    all: match goal with
         | |- context [moveToNextPlayer ?w2] =>
             assert (Heq : w2 = {| game := wentAllIn playerId p (userAmount (users w) playerId)
                                             (game w);
                                   live := live w;
                                   users := alter (fun _ => 0) playerId (users w);
                                   draws := draws w |})
               by (unfold wentAllIn, upd_game; simpl; destruct (_ <? _); reflexivity);
             rewrite Heq; clear Heq
         end.
    all: right; right; exists p; eexists;
      exists (upd_game
                (addActionToHistory playerId ActAllin (Some (userAmount (users w) playerId))
                   (Some (Player.currentBet p + userAmount (users w) playerId))));
      split; [by repeat split|]; split; [|split; [|reflexivity]].
    all: try (apply (commits_allin playerId w p); lia).
    all: intros w2; unfold upd_game;
      destruct (addActionToHistory_only playerId ActAllin
                  (Some (userAmount (users w) playerId))
                  (Some (Player.currentBet p + userAmount (users w) playerId)) (game w2))
        as [h ->]; by exists h.
Qed.

Lemma perform_commits a playerId w r w' :
  perform a playerId w = Done (r, w') → accepted playerId w r w'.
Proof.
  intros H.
  destruct (perform_shape a playerId w)
    as [(_ & _ & Ht)|[(why & Hr)|(p & w1 & hf & Hon & Hc & Hh & Hr)]]; rewrite H in *.
  - discriminate.
  - injection Hr as -> ->. left. eauto.
  - right. destruct (moveToNextPlayer w1) as [w2| |] eqn:Hm; simpl in Hr; try discriminate.
    injection Hr as -> ->. split; [done|]. destruct (Hh w2) as [h Hw2].
    by exists p, w1, w2, h.
Qed.

(** The contender ranked first is one of the contenders. *)
Lemma rankContenders_winner g contenders winner r rest :
  rankContenders g contenders = Some ((winner, r) :: rest) → winner ∈ contenders.
Proof.
  unfold rankContenders.
  set (f := fun p : Player.t =>
              r ← calculateHandRank (Player.hole p ++ Game.board g); Some (p, r)).
  destruct (mapM f contenders) as [l|] eqn:Hl; [|discriminate]. simpl. intros [= Hs].
  assert (Hin : (winner, r) ∈ l).
  { apply (sortBy_elem rankedCompare). rewrite Hs. apply list_elem_of_here. }
  apply mapM_Some_1 in Hl. clear Hs. induction Hl as [|p y ps ys Hy _ IH].
  - by apply elem_of_nil in Hin.
  - apply elem_of_cons in Hin as [<-|Hin].
    + unfold f in Hy. destruct (calculateHandRank _); simpl in Hy; [|discriminate].
      injection Hy as <- _. apply list_elem_of_here.
    + apply list_elem_of_further. by apply IH.
Qed.

Lemma handOver_refl w : handOver w w.
Proof.
  split; [|split; [done|split; [done|by left]]].
  by exists (Game.deck (game w)), (Game.burned (game w)), (Game.board (game w)),
    (Game.round (game w)), (Game.hasRaiseInRound (game w)),
    (Game.lastAggressorIndex (game w)), (Game.actionHistory (game w)).
Qed.

(** The hand is over in [w0], a world that differs from [w] in the streets
    and the round's marks: awarding the pot from there ends the hand. *)
Lemma award_over w w1 W :
  live w = true → live w1 = true → draws w1 = draws w → users w1 = users w →
  (∃ d b bo r hr la ah,
      game w1
      = Game.set_deck d (Game.set_burned b (Game.set_board bo (Game.set_round r
          (Game.set_hasRaiseInRound hr (Game.set_lastAggressorIndex la
             (Game.set_actionHistory ah (game w)))))))) →
  W ∈ activePlayers (game w) →
  ∃ w0, handOver w w0 ∧ awardPotAndRotate [Player.id W] w1 = resetForNextHand w0.
Proof.
  intros Hlive Hlive1 Hd Hu (d & b & bo & r & hr & la & ah & Hg) HW.
  apply elem_of_activePlayers in HW as [HW Hf].
  rewrite awardPot_single; [|done|by rewrite Hg].
  eexists. split; [|reflexivity].
  split; [|split; [simpl; congruence|split; [simpl; congruence|]]].
  - exists d, b, bo, r, hr, la, ah. done.
  - right. exists W. split; [done|]. split; [done|]. simpl. by rewrite Hu, Hg.
Qed.

Lemma frame_table g g1 :
  sameTable g g1 →
  ∃ d b bo r hr la ah,
    g1 = Game.set_deck d (Game.set_burned b (Game.set_board bo (Game.set_round r
           (Game.set_hasRaiseInRound hr (Game.set_lastAggressorIndex la
              (Game.set_actionHistory ah g)))))).
Proof.
  intros (d & b & bo & r & ->).
  by exists d, b, bo, r, (Game.hasRaiseInRound g), (Game.lastAggressorIndex g),
    (Game.actionHistory g).
Qed.

Lemma showdown_over w w1 w' :
  live w = true → live w1 = true → draws w1 = draws w → users w1 = users w →
  (∃ d b bo r hr la ah,
      game w1
      = Game.set_deck d (Game.set_burned b (Game.set_board bo (Game.set_round r
          (Game.set_hasRaiseInRound hr (Game.set_lastAggressorIndex la
             (Game.set_actionHistory ah (game w)))))))) →
  handleShowdown w1 = Done w' →
  ∃ w0, handOver w w0 ∧ w' = resetForNextHand w0.
Proof.
  intros Hlive Hlive1 Hd Hu Hframe H. unfold handleShowdown in H.
  assert (Hplain : ∃ w0, handOver w w0 ∧ resetForNextHand w1 = resetForNextHand w0).
  { exists w1. split; [|done]. split; [done|]. split; [congruence|].
    split; [done|by left]. }
  assert (Hact : activePlayers (game w1) = activePlayers (game w)).
  { destruct Hframe as (d & b & bo & r & hr & la & ah & ->). done. }
  destruct (length (activePlayers (game w1)) =? 0)%nat.
  { injection H as <-. done. }
  destruct (rankContenders _ _) as [[|[winner r] rest]|] eqn:Hrank; [| |discriminate];
    injection H as <-; [done|].
  apply rankContenders_winner in Hrank. rewrite Hact in Hrank.
  by apply award_over.
Qed.

Lemma allInShowdown_over w w' :
  live w = true → handleAllInShowdown w = Done w' →
  ∃ w0, handOver w w0 ∧ w' = resetForNextHand w0.
Proof.
  intros Hlive H. unfold handleAllInShowdown in H.
  pose proof (frame_table _ _ (revealRemainingBoard_sameTable (game w))) as Hframe.
  assert (Hact : activePlayers (game (upd_game revealRemainingBoard w))
                 = activePlayers (game w)).
  { destruct Hframe as (d & b & bo & r & hr & la & ah & Hg). unfold upd_game. simpl.
    by rewrite Hg. }
  assert (Hplain : ∃ w0, handOver w w0
                         ∧ resetForNextHand (upd_game revealRemainingBoard w)
                           = resetForNextHand w0).
  { eexists. split; [|reflexivity]. split; [exact Hframe|]. split; [done|].
    split; [done|by left]. }
  assert (Haward : ∀ W, W ∈ activePlayers (game w) →
            ∃ w0, handOver w w0
                  ∧ awardPotAndRotate [Player.id W] (upd_game revealRemainingBoard w)
                    = resetForNextHand w0).
  { intros W HW. by apply award_over. }
  rewrite Hact in H.
  destruct (length (activePlayers (game w)) =? 0)%nat.
  { injection H as <-. done. }
  assert (Hranked : ∀ out,
            match rankContenders (game (upd_game revealRemainingBoard w))
                    (activePlayers (game w)) with
            | Some [] => Done (resetForNextHand (upd_game revealRemainingBoard w))
            | Some ((winner, _) :: _) =>
                Done (awardPotAndRotate [Player.id winner]
                        (upd_game revealRemainingBoard w))
            | None => NoValue
            end = Done out →
            ∃ w0, handOver w w0 ∧ out = resetForNextHand w0).
  { intros out Hout.
    destruct (rankContenders _ _) as [[|[winner r] rest]|] eqn:Hrank; [| |discriminate];
      injection Hout as <-; [done|].
    apply rankContenders_winner in Hrank. by apply Haward. }
  destruct (activePlayers (game w)) as [|x [|y more]] eqn:Ha.
  - by apply Hranked.
  - injection H as <-. apply Haward. apply list_elem_of_here.
  - by apply Hranked.
Qed.

Lemma advance_shape w :
  Game.round (game w) ∈ [Waiting; Preflop; Flop; Turn] →
  advanceToNextRound w = Done (set_game (enterStreet (game w)) w).
Proof.
  intros Hr. unfold advanceToNextRound, enterStreet. cbv zeta.
  change (Game.round (Game.set_actionHistory _ _)) with (Game.round (game w)).
  repeat (apply elem_of_cons in Hr as [Hr|Hr]); [| | | |by apply elem_of_nil in Hr];
    rewrite Hr; reflexivity.
Qed.

(** How [moveToNextPlayer] ends in a game that is in [activeGames]. *)
Lemma moveToNextPlayer_cases w w' :
  live w = true → moveToNextPlayer w = Done w' →
  (∃ w0, handOver w w0 ∧ w' = resetForNextHand w0)
  ∨ (notFoldOut (game w)
     ∧ ((closeRound w = None ∧ w' = passTurn w)
        ∨ (roundClosed (game w)
           ∧ Game.round (game w) ∈ [Waiting; Preflop; Flop; Turn]
           ∧ w' = set_game (enterStreet (game w)) w))).
Proof.
  intros Hlive H. unfold moveToNextPlayer in H.
  assert (Hrest : match closeRound w with
                  | Some out => out
                  | None => Done (passTurn w)
                  end = Done w' →
                  (∃ w0, handOver w w0 ∧ w' = resetForNextHand w0)
                  ∨ (closeRound w = None ∧ w' = passTurn w)
                  ∨ (roundClosed (game w)
                     ∧ Game.round (game w) ∈ [Waiting; Preflop; Flop; Turn]
                     ∧ w' = set_game (enterStreet (game w)) w)).
  { destruct (closeRound w) as [out|] eqn:Hc; [|intros [= <-]; right; by left].
    intros ->. unfold closeRound in Hc.
    destruct ((length (Game.toActIds (game w)) =? 0)%nat && allMatched (game w)) eqn:Hclosed;
      [|discriminate].
    apply closed_spec in Hclosed.
    destruct (0 <? length _)%nat.
    { injection Hc as Hc. left. by apply allInShowdown_over. }
    case_bool_decide as Hriver; injection Hc as Hc.
    - left. apply (showdown_over w (upd_game (Game.set_round Showdown) w) w' Hlive); try done.
      by exists (Game.deck (game w)), (Game.burned (game w)), (Game.board (game w)),
        Showdown, (Game.hasRaiseInRound (game w)),
        (Game.lastAggressorIndex (game w)), (Game.actionHistory (game w)).
    - destruct (Game.round (game w)) eqn:Hr; try done.
      + right. right. split; [done|]. split; [set_solver|].
        rewrite advance_shape in Hc by (rewrite Hr; set_solver). by injection Hc.
      + right. right. split; [done|]. split; [set_solver|].
        rewrite advance_shape in Hc by (rewrite Hr; set_solver). by injection Hc.
      + right. right. split; [done|]. split; [set_solver|].
        rewrite advance_shape in Hc by (rewrite Hr; set_solver). by injection Hc.
      + right. right. split; [done|]. split; [set_solver|].
        rewrite advance_shape in Hc by (rewrite Hr; set_solver). by injection Hc.
      + left. unfold advanceToNextRound in Hc. cbv zeta in Hc.
        change (Game.round (Game.set_actionHistory _ _)) with (Game.round (game w)) in Hc.
        rewrite Hr in Hc. apply (showdown_over w _ w' Hlive) in Hc; try done.
        by exists (Game.deck (game w)), (Game.burned (game w)), (Game.board (game w)),
          (Game.round (game w)), false, None, []. }
  destruct (activePlayers (game w)) as [|x [|y more]] eqn:Ha.
  - destruct (Hrest H) as [?|?]; [by left|right]. split; [|done].
    intros z Hz. unfold notFoldOut in *. congruence.
  - injection H as <-. left. apply award_over; try done; [apply frame_table, sameTable_refl|].
    rewrite Ha. apply list_elem_of_here.
  - destruct (Hrest H) as [?|?]; [by left|right]. split; [|done].
    intros z Hz. congruence.
Qed.

Lemma checkAndContinueGame_cases w w' :
  checkAndContinueGame w = Done w' →
  w' = w ∨ (live w = true ∧ moveToNextPlayer w = Done w').
Proof.
  unfold checkAndContinueGame, moveToNextPlayer. destruct (live w); [|intros [= <-]; by left].
  cbn [negb]. intros H.
  destruct (activePlayers (game w)) as [|x [|y more]]; try (by right);
    (destruct (closeRound w); [by right|]);
    (destruct (_ <? _)%nat; [by right|injection H as <-; by left]).
Qed.

Lemma commits_live playerId w p w1 : commits playerId w p w1 → live w1 = live w.
Proof. by destruct 1. Qed.

Lemma onTurn_live playerId w p : onTurn playerId w p → live w = true.
Proof. intros (Hg & _). by eapply getActiveGame_live. Qed.

End Decomposition.

(** ** A rule for invariants *)

Section Stepwise.
Import Cards Evaluator Engine Props Steps.

Variable I : World → Prop.

Hypothesis I_commit :
  ∀ playerId w p w1, I w → onTurn playerId w p → commits playerId w p w1 → I w1.
Hypothesis I_grace :
  ∀ playerId w i p,
    I w → live w = true → Game.players (game w) !! i = Some p →
    Player.id p = playerId → Player.hasFolded p = false →
    I (graceFolded playerId i w).
Hypothesis I_over : ∀ w w0, I w → live w = true → handOver w w0 → I (resetForNextHand w0).
Hypothesis I_pass :
  ∀ w, I w → live w = true → notFoldOut (game w) → closeRound w = None → I (passTurn w).
Hypothesis I_street :
  ∀ w, I w → live w = true → notFoldOut (game w) → roundClosed (game w) →
       Game.round (game w) ∈ [Waiting; Preflop; Flop; Turn] →
       I (set_game (enterStreet (game w)) w).
Hypothesis I_history : ∀ w h, I w → I (upd_game (Game.set_actionHistory h) w).

Lemma move_keeps w w' : I w → live w = true → moveToNextPlayer w = Done w' → I w'.
Proof.
  intros Hi Hlive H.
  destruct (moveToNextPlayer_cases _ _ Hlive H)
    as [(w0 & Hover & ->)|[Hnf [[Hc ->]|(Hc & Hr & ->)]]]; eauto.
Qed.

Lemma perform_keeps a playerId w r w' : I w → perform a playerId w = Done (r, w') → I w'.
Proof.
  intros Hi H.
  destruct (perform_commits _ _ _ _ _ H)
    as [(why & -> & ->)|(-> & p & w1 & w2 & h & Hon & Hc & Hm & ->)]; [done|].
  apply I_history. apply (move_keeps w1); [by eapply I_commit| |done].
  rewrite (commits_live _ _ _ _ Hc). by eapply onTurn_live.
Qed.

Lemma turn_timer_keeps playerId w w' : I w → handleTurnTimeout playerId w = Done w' → I w'.
Proof.
  intros Hi H. unfold handleTurnTimeout in H.
  destruct (Game.players (game w) !! _) as [player|]; [|by injection H as <-].
  destruct (_ && _); [|by injection H as <-].
  destruct (makeFold playerId w) as [[r w1]| |] eqn:Hfold; simpl in H; try discriminate.
  injection H as <-. by apply (perform_keeps Fold playerId w r w1).
Qed.

Lemma grace_timer_keeps playerId w w' :
  I w → handleInsufficientFundsTimeout playerId w = Done w' → I w'.
Proof.
  intros Hi H. unfold handleInsufficientFundsTimeout in H.
  destruct (live w) eqn:Hlive; [|by injection H as <-]. cbn [negb] in H.
  destruct (findIndex _ _) as [i|] eqn:Hidx; [|by injection H as <-].
  destruct (Game.players (game w) !! i) as [player|] eqn:Hp; [|by injection H as <-].
  destruct (Player.hasFolded player) eqn:Hf; [by injection H as <-|].
  destruct (_ <? _); [|by injection H as <-].
  assert (Hid : Player.id player = playerId).
  { apply findIndex_Some in Hidx as (q & Hq & Hqid). rewrite Hp in Hq.
    injection Hq as <-. by apply String.eqb_eq. }
  assert (Hg : I (graceFolded playerId i w)) by (by eapply I_grace).
  apply checkAndContinueGame_cases in H as [->|[_ Hm]]; [done|].
  by apply (move_keeps (graceFolded playerId i w)).
Qed.

Variable ok : list string → Prop.

Hypothesis I_start :
  ∀ gameId clanId channelId nameOf playerIds betAmount w,
    ok playerIds → I (startGame gameId clanId channelId nameOf playerIds betAmount w).
Hypothesis I_continue :
  ∀ gameId clanId channelId players betAmount w,
    ok (List.map fst players) →
    I (createNewGame gameId clanId channelId players betAmount w).
Hypothesis I_deal : ∀ w, I w → I (dealCardsAndStartGame w).

Lemma reachable_keeps w : reachableFrom ok w → I w.
Proof.
  induction 1 as [| |w _ IH|a playerId w r w' _ IH Hstep|playerId w w' _ IH Hstep
                  |playerId w w' _ IH Hstep].
  - by apply I_start.
  - by apply I_continue.
  - by apply I_deal.
  - by eapply perform_keeps.
  - by eapply turn_timer_keeps.
  - by eapply grace_timer_keeps.
Qed.

End Stepwise.

(** ** Seats, cards and returns *)

Section Range.
Import Cards Evaluator Engine Props Steps Invariants.

Lemma scanSeats_Some ok g startIndex idx :
  scanSeats ok g startIndex = Some idx →
  ∃ p, Game.players g !! idx = Some p ∧ ok p = true.
Proof.
  unfold scanSeats. intros H. apply find_some in H as [_ H].
  destruct (Game.players g !! idx) as [p|]; [eauto|discriminate].
Qed.

Lemma findNextActivePlayer_lt g startIndex :
  (startIndex < length (Game.players g))%nat →
  (findNextActivePlayer g startIndex < length (Game.players g))%nat.
Proof.
  intros Hlt. unfold findNextActivePlayer.
  destruct (scanSeats _ g startIndex) as [idx|] eqn:Hs; [|done].
  apply scanSeats_Some in Hs as (p & Hp & _). by eapply lookup_lt_Some.
Qed.

Lemma findNextActorIndex_lt g startIndex :
  (startIndex < length (Game.players g))%nat →
  (findNextActorIndex g startIndex < length (Game.players g))%nat.
Proof.
  intros Hlt. unfold findNextActorIndex.
  destruct (scanSeats _ g startIndex) as [idx|] eqn:Hs.
  - apply scanSeats_Some in Hs as (p & Hp & _). by eapply lookup_lt_Some.
  - by apply findNextActivePlayer_lt.
Qed.

Lemma dealStreet_sameTable r g : sameTable g (dealStreet r g).
Proof.
  destruct r; simpl; try apply sameTable_refl;
    repeat (eapply sameTable_trans; [|apply dealBoard_sameTable]);
    (eapply sameTable_trans; [|apply burn_sameTable]); apply set_round_sameTable.
Qed.

Lemma enterStreet_frame g :
  ∃ d b bo r hr la ah ta i,
    enterStreet g
    = Game.set_currentPlayerIndex i (Game.set_toActIds ta
        (Game.set_deck d (Game.set_burned b (Game.set_board bo (Game.set_round r
          (Game.set_hasRaiseInRound hr (Game.set_lastAggressorIndex la
             (Game.set_actionHistory ah g)))))))).
Proof.
  unfold enterStreet.
  assert (Hstreet : ∃ d b bo r hr la ah ta i,
    firstToAct (setToActForNewRound (dealStreet (Game.round g) (cleared g)))
    = Game.set_currentPlayerIndex i (Game.set_toActIds ta
        (Game.set_deck d (Game.set_burned b (Game.set_board bo (Game.set_round r
          (Game.set_hasRaiseInRound hr (Game.set_lastAggressorIndex la
             (Game.set_actionHistory ah g))))))))).
  { destruct (dealStreet_sameTable (Game.round g) (cleared g)) as (d & b & bo & r & ->).
    by eexists d, b, bo, r, _, _, _, _, _. }
  assert (Hsame : ∃ d b bo r hr la ah ta i,
    g = Game.set_currentPlayerIndex i (Game.set_toActIds ta
        (Game.set_deck d (Game.set_burned b (Game.set_board bo (Game.set_round r
          (Game.set_hasRaiseInRound hr (Game.set_lastAggressorIndex la
             (Game.set_actionHistory ah g))))))))).
  { by exists (Game.deck g), (Game.burned g), (Game.board g), (Game.round g),
      (Game.hasRaiseInRound g), (Game.lastAggressorIndex g), (Game.actionHistory g),
      (Game.toActIds g), (Game.currentPlayerIndex g). }
  destruct (Game.round g) eqn:Hr; try done.
  by exists (Game.deck g), (Game.burned g), (Game.board g), (Game.round g), false, None, [],
    (Game.toActIds g), (Game.currentPlayerIndex g).
Qed.


Lemma commits_players playerId w p w1 :
  commits playerId w p w1 →
  length (Game.players (game w1)) = length (Game.players (game w))
  ∧ Game.currentPlayerIndex (game w1) = Game.currentPlayerIndex (game w)
  ∧ Game.dealerButton (game w1) = Game.dealerButton (game w)
  ∧ Game.betAmount (game w1) = Game.betAmount (game w).
Proof.
  destruct 1; unfold raisedTo, wentAllIn; simpl; rewrite ?length_alter; try done.
  destruct (_ <? _); simpl; by rewrite ?length_alter.
Qed.

Lemma inRange_commit playerId w p w1 :
  inRange w → onTurn playerId w p → commits playerId w p w1 → inRange w1.
Proof.
  intros [Hd Hi] _ Hc. destruct (commits_players _ _ _ _ Hc) as (Hl & Hx & Hb & _).
  unfold inRange. by rewrite Hl, Hx, Hb.
Qed.

Lemma inRange_over w w0 : inRange w → handOver w w0 → inRange (resetForNextHand w0).
Proof.
  intros [Hd Hi] ((d & b & bo & r & hr & la & ah & Hg) & _).
  unfold inRange, resetForNextHand. destruct (shuffleDeck _ _). simpl.
  rewrite Hg. simpl. by rewrite length_map.
Qed.

Lemma enterStreet_seats g :
  Game.players (enterStreet g) = Game.players g
  ∧ Game.dealerButton (enterStreet g) = Game.dealerButton g
  ∧ Game.betAmount (enterStreet g) = Game.betAmount g
  ∧ Game.pot (enterStreet g) = Game.pot g
  ∧ Game.currentBet (enterStreet g) = Game.currentBet g
  ∧ ((Game.dealerButton g < length (Game.players g))%nat →
     (Game.currentPlayerIndex g < length (Game.players g))%nat →
     (Game.currentPlayerIndex (enterStreet g) < length (Game.players g))%nat).
Proof.
  unfold enterStreet.
  assert (H : ∀ r,
    let g' := firstToAct (setToActForNewRound (dealStreet r (cleared g))) in
    Game.players g' = Game.players g
    ∧ Game.dealerButton g' = Game.dealerButton g
    ∧ Game.betAmount g' = Game.betAmount g
    ∧ Game.pot g' = Game.pot g
    ∧ Game.currentBet g' = Game.currentBet g
    ∧ ((Game.dealerButton g < length (Game.players g))%nat →
       (Game.currentPlayerIndex g < length (Game.players g))%nat →
       (Game.currentPlayerIndex g' < length (Game.players g))%nat)).
  { intros r. destruct (dealStreet_sameTable r (cleared g)) as (d & b & bo & rd & Hs).
    unfold firstToAct, setToActForNewRound. simpl. rewrite Hs. simpl.
    repeat split; try done. intros Hd _.
    match goal with
    | |- (findNextActivePlayer ?g1 ?i < _)%nat =>
        apply (findNextActivePlayer_lt g1 i Hd)
    end. }
  destruct (Game.round g); try apply H; simpl; done.
Qed.

Lemma inRange_street w : inRange w → inRange (set_game (enterStreet (game w)) w).
Proof.
  intros [Hd Hi]. destruct (enterStreet_seats (game w)) as (Hp & Hb & _ & _ & _ & Hx).
  unfold inRange. simpl. rewrite Hp, Hb. split; [done|]. apply Hx; [lia|done].
Qed.

Lemma dealHole_frame g i : ∃ d ps, dealHole g i = Game.set_players ps (Game.set_deck d g).
Proof.
  unfold dealHole, pop. destruct (truthy _); [by eexists _, _|].
  by exists (removelast (Game.deck g)), (Game.players g).
Qed.

Lemma dealRound_frame g : ∃ d ps, dealRound g = Game.set_players ps (Game.set_deck d g).
Proof.
  unfold dealRound. generalize (seq 0 (length (Game.players g))). intros l.
  revert g. induction l as [|i l IH]; intros g; simpl.
  - by exists (Game.deck g), (Game.players g).
  - destruct (IH (dealHole g i)) as (d & ps & ->).
    destruct (dealHole_frame g i) as (d1 & ps1 & ->). by exists d, ps.
Qed.

Lemma dealRound_length g : length (Game.players (dealRound g)) = length (Game.players g).
Proof.
  destruct (dealRound_keepSeats g) as [Hids _]. unfold ids in Hids.
  by rewrite <- (length_map Player.id), Hids, length_map.
Qed.

Lemma inRange_deal w : inRange w → inRange (dealCardsAndStartGame w).
Proof.
  intros [Hd Hi]. unfold dealCardsAndStartGame. destruct (negb (live w)); [done|].
  unfold inRange. simpl. rewrite length_map, !dealRound_length.
  destruct (dealRound_frame (game w)) as (d1 & ps1 & H1). rewrite H1.
  destruct (dealRound_frame (Game.set_players ps1 (Game.set_deck d1 (game w))))
    as (d2 & ps2 & H2). rewrite H2. simpl.
  split; [done|]. apply Nat.mod_upper_bound. lia.
Qed.

Lemma inRange_start gameId clanId channelId nameOf playerIds betAmount w :
  twoOrMore playerIds →
  inRange (startGame gameId clanId channelId nameOf playerIds betAmount w).
Proof.
  intros [Hlen _]. unfold startGame, inRange. destruct (shuffleDeck _ _). simpl.
  rewrite length_imap. split; [done|lia].
Qed.

Lemma inRange_continue gameId clanId channelId players betAmount w :
  twoOrMore (List.map fst players) →
  inRange (createNewGame gameId clanId channelId players betAmount w).
Proof.
  intros [Hlen _]. unfold createNewGame. destruct (shuffleDeck _ _).
  apply inRange_deal. unfold inRange. simpl. rewrite length_map in Hlen.
  rewrite length_imap. split; [done|lia].
Qed.

Lemma played_inRange w : played w → inRange w.
Proof.
  apply (reachable_keeps inRange); clear w.
  - apply inRange_commit.
  - intros playerId w i p [Hd Hi] _ _ _ _. unfold inRange, graceFolded. simpl.
    by rewrite length_alter.
  - intros w w0 H _ Hover. by apply (inRange_over w).
  - intros w [Hd Hi] _ _ _. unfold inRange, passTurn. simpl. split; [done|].
    by apply findNextActorIndex_lt.
  - intros w H _ _ _ _. by apply inRange_street.
  - intros w h H. exact H.
  - apply inRange_start.
  - apply inRange_continue.
  - apply inRange_deal.
Qed.

End Range.

Section CardsInvariant.
Import Cards Evaluator Engine Props Steps Invariants.

Lemma pop_nil {A} : pop (@nil A) = (None, []).
Proof. reflexivity. Qed.

Lemma pop_snoc {A} (l : list A) c : pop (l ++ [c]) = (Some c, l).
Proof. unfold pop. by rewrite last_snoc, removelast_last. Qed.

Lemma cardsOf_same g g' :
  List.map Player.hole (Game.players g') = List.map Player.hole (Game.players g) →
  Game.board g' = Game.board g → Game.burned g' = Game.burned g →
  Game.deck g' = Game.deck g → cardsOf g' = cardsOf g.
Proof. unfold cardsOf. by intros -> -> -> ->. Qed.

Lemma burn_cards g : cardsOf (burn g) ≡ₚ cardsOf g.
Proof.
  unfold burn, cardsOf. destruct (Game.deck g) as [|c l _] using rev_ind.
  - rewrite pop_nil. simpl. rewrite omap_app. simpl. by rewrite app_nil_r.
  - rewrite pop_snoc. simpl. rewrite omap_app. simpl. solve_Permutation.
Qed.

Lemma truthy_Some c : c ≠ "" → truthy (Some c) = Some c.
Proof. intros Hc. simpl. by destruct (String.eqb_spec c ""). Qed.

Lemma blank_deck g : "" ∉ cardsOf g → "" ∉ Game.deck g.
Proof. unfold cardsOf. rewrite !elem_of_app. tauto. Qed.

Lemma dealBoard_cards g : "" ∉ cardsOf g → cardsOf (dealBoard g) ≡ₚ cardsOf g.
Proof.
  intros Hb. apply blank_deck in Hb. revert Hb. unfold dealBoard, cardsOf.
  destruct (Game.deck g) as [|c l _] using rev_ind; intros Hb.
  - rewrite pop_nil. simpl. done.
  - rewrite pop_snoc. rewrite truthy_Some.
    + simpl. solve_Permutation.
    + intros ->. apply Hb. set_solver.
Qed.

Lemma holes_alter c i (ps : list Player.t) :
  (i < length ps)%nat →
  concat (List.map Player.hole
            (alter (fun p => Player.set_hole (Player.hole p ++ [c]) p) i ps))
  ≡ₚ c :: concat (List.map Player.hole ps).
Proof.
  revert i. induction ps as [|p ps IH]; intros [|i] Hlt; simpl in *; try lia.
  - solve_Permutation.
  - change (list_alter ?f i ps) with (alter f i ps). rewrite IH by lia. solve_Permutation.
Qed.

Lemma dealHole_cards g i :
  (i < length (Game.players g))%nat → "" ∉ cardsOf g →
  cardsOf (dealHole g i) ≡ₚ cardsOf g.
Proof.
  intros Hi Hb. apply blank_deck in Hb. revert Hb. unfold dealHole, cardsOf.
  destruct (Game.deck g) as [|c l _] using rev_ind; intros Hb.
  - rewrite pop_nil. simpl. done.
  - rewrite pop_snoc. rewrite truthy_Some.
    + simpl. rewrite holes_alter by done. solve_Permutation.
    + intros ->. apply Hb. set_solver.
Qed.

Lemma dealHole_length g i :
  length (Game.players (dealHole g i)) = length (Game.players g).
Proof.
  unfold dealHole, pop. destruct (truthy _); simpl; by rewrite ?length_alter.
Qed.

Lemma dealRound_cards g : "" ∉ cardsOf g → cardsOf (dealRound g) ≡ₚ cardsOf g.
Proof.
  unfold dealRound.
  assert (Hseq : Forall (fun i => (i < length (Game.players g))%nat)
                   (seq 0 (length (Game.players g)))).
  { apply Forall_forall. intros i Hin. apply list_elem_of_In, in_seq in Hin. lia. }
  revert Hseq. generalize (seq 0 (length (Game.players g))). intros l.
  revert g. induction l as [|i l IH]; intros g Hseq Hb; simpl; [done|].
  apply Forall_cons in Hseq as [Hi Hl].
  pose proof (dealHole_cards g i Hi Hb) as Hd.
  rewrite IH; [done| |by rewrite Hd].
  by rewrite dealHole_length.
Qed.

Lemma blank_createDeck : "" ∉ createDeck.
Proof.
  intros H. apply list_elem_of_In in H.
  assert (Hb : existsb (String.eqb "") createDeck = false) by (vm_compute; reflexivity).
  apply not_true_iff_false in Hb. apply Hb. apply existsb_exists. exists "". by split.
Qed.

Lemma fullDeck_blank g : fullDeck g → "" ∉ cardsOf g.
Proof. unfold fullDeck. intros ->. apply blank_createDeck. Qed.

Lemma dealStreet_cards r g : fullDeck g → fullDeck (dealStreet r g).
Proof.
  assert (Hround : ∀ r' g', fullDeck g' → fullDeck (Game.set_round r' g')) by done.
  assert (Hburn : ∀ g', fullDeck g' → fullDeck (burn g')).
  { intros g' H. unfold fullDeck. by rewrite burn_cards. }
  assert (Hdeal : ∀ g', fullDeck g' → fullDeck (dealBoard g')).
  { intros g' H. unfold fullDeck. rewrite dealBoard_cards; [done|by apply fullDeck_blank]. }
  intros H. destruct r; simpl; auto 10.
Qed.

Lemma revealRemainingBoard_cards g : fullDeck g → fullDeck (revealRemainingBoard g).
Proof.
  assert (Hround : ∀ r' g', fullDeck g' → fullDeck (Game.set_round r' g')) by done.
  assert (Hburn : ∀ g', fullDeck g' → fullDeck (burn g')).
  { intros g' H. unfold fullDeck. by rewrite burn_cards. }
  assert (Hdeal : ∀ g', fullDeck g' → fullDeck (dealBoard g')).
  { intros g' H. unfold fullDeck. rewrite dealBoard_cards; [done|by apply fullDeck_blank]. }
  intros H. rewrite reveal_stages.
  assert (H1 : fullDeck (revealFlop g)).
  { unfold revealFlop. repeat case_match; auto 10. }
  assert (H2 : fullDeck (revealTurn (revealFlop g))).
  { unfold revealTurn. repeat case_match; auto 10. }
  assert (H3 : fullDeck (revealRiver (revealTurn (revealFlop g)))).
  { unfold revealRiver. repeat case_match; auto 10. }
  unfold markRiver. case_match; auto.
Qed.

Lemma holes_reset (ps : list Player.t) :
  concat (List.map Player.hole (List.map resetPlayer ps)) = [].
Proof. induction ps as [|p ps IH]; simpl; done. Qed.

Lemma fullDeck_reset w : fullDeck (game (resetForNextHand w)).
Proof.
  unfold resetForNextHand.
  pose proof (shuffleDeck_Permutation createDeck (draws w)) as Hp.
  destruct (shuffleDeck createDeck (draws w)) as [deck rnd]. simpl in *.
  unfold fullDeck, cardsOf. simpl. by rewrite holes_reset.
Qed.

Lemma holes_fresh {A} (f : nat → A → Player.t) (l : list A) :
  (∀ i x, Player.hole (f i x) = []) → concat (List.map Player.hole (imap f l)) = [].
Proof.
  intros Hf. revert f Hf. induction l as [|x l IH]; intros f Hf; simpl; [done|].
  rewrite Hf. simpl. apply IH. intros i y. apply Hf.
Qed.

Lemma commits_cards playerId w p w1 :
  commits playerId w p w1 → cardsOf (game w1) = cardsOf (game w).
Proof.
  destruct 1; apply cardsOf_same; unfold raisedTo, wentAllIn; simpl;
    try (destruct (_ <? _); simpl); rewrite ?map_alter_keep; done.
Qed.

Lemma fullDeck_deal w : fullDeck (game w) → fullDeck (game (dealCardsAndStartGame w)).
Proof.
  intros H. unfold dealCardsAndStartGame. destruct (negb (live w)); [done|].
  unfold fullDeck. simpl.
  assert (H2 : cardsOf (dealRound (dealRound (game w))) ≡ₚ createDeck).
  { pose proof (fullDeck_blank _ H) as Hb.
    pose proof (dealRound_cards _ Hb) as H1.
    rewrite dealRound_cards; [by rewrite H1|by rewrite H1]. }
  rewrite <- H2. unfold cardsOf. simpl. by rewrite map_map_keep.
Qed.

Lemma reachable_fullDeck w : reachable w → fullDeck (game w).
Proof.
  apply (reachable_keeps (fun w => fullDeck (game w))); clear w.
  - intros playerId w p w1 H _ Hc. unfold fullDeck. by rewrite (commits_cards _ _ _ _ Hc).
  - intros playerId w i p H _ _ _ _. unfold fullDeck, graceFolded.
    erewrite cardsOf_same; [exact H| |done|done|done]. simpl. by rewrite map_alter_keep.
  - intros w w0 _ _ _. apply fullDeck_reset.
  - intros w H _ _ _. done.
  - intros w H _ _ _ _. simpl. unfold enterStreet.
    destruct (Game.round (game w)); try done;
      by apply (dealStreet_cards _ (cleared (game w))).
  - intros w h H. done.
  - intros gameId clanId channelId nameOf playerIds betAmount w _.
    unfold startGame.
    pose proof (shuffleDeck_Permutation createDeck (draws w)) as Hp.
    destruct (shuffleDeck createDeck (draws w)) as [deck rnd].
    change (deck ≡ₚ createDeck) in Hp. unfold fullDeck, cardsOf, deductPlayersFunds.
    cbn [game Game.players Game.board Game.burned Game.deck newGame].
    rewrite holes_fresh by done. by rewrite Hp.
  - intros gameId clanId channelId players betAmount w _.
    unfold createNewGame.
    match goal with
    | |- context [shuffleDeck ?d ?r] =>
        pose proof (shuffleDeck_Permutation d r) as Hp;
        destruct (shuffleDeck d r) as [deck rnd]
    end.
    change (deck ≡ₚ createDeck) in Hp.
    apply fullDeck_deal. unfold fullDeck, cardsOf.
    cbn [game Game.players Game.board Game.burned Game.deck Game.set_deck newGame].
    rewrite holes_fresh by done. by rewrite Hp.
  - intros w. apply fullDeck_deal.
Qed.

End CardsInvariant.

Section Returns.
Import Cards Evaluator Engine Props Steps Invariants.

Lemma fullDeck_valued g p :
  fullDeck g → p ∈ Game.players g → valued (Player.hole p ++ Game.board g).
Proof.
  intros Hfull Hp. apply Forall_forall. intros c Hc.
  assert (Hin : c ∈ cardsOf g).
  { unfold cardsOf. apply elem_of_app in Hc as [Hc|Hc]; [|set_solver].
    apply elem_of_app. left. apply list_elem_of_In, in_concat. exists (Player.hole p).
    split; [|by apply list_elem_of_In]. apply in_map. by apply list_elem_of_In. }
  unfold fullDeck in Hfull. rewrite Hfull in Hin. pose proof createDeck_values as Hv.
  rewrite Forall_forall in Hv. destruct (Hv c Hin) as (v & -> & _). done.
Qed.

Lemma ranked_returns g contenders :
  fullDeck g → (∀ p, p ∈ contenders → p ∈ Game.players g) → contenders ≠ [] →
  ∃ winner r rest, rankContenders g contenders = Some ((winner, r) :: rest).
Proof.
  intros Hfull Hsub Hne.
  destruct (rankContenders_total g contenders) as (winner & r & rest & H & _); eauto.
  intros p Hp. apply fullDeck_valued; auto.
Qed.

Lemma handleShowdown_returns w : fullDeck (game w) → ∃ w', handleShowdown w = Done w'.
Proof.
  intros Hfull. unfold handleShowdown.
  destruct (activePlayers (game w)) as [|x l] eqn:Ha; [simpl; eauto|].
  cbn [length Nat.eqb]. rewrite <- Ha.
  destruct (ranked_returns (game w) (activePlayers (game w))) as (winner & r & rest & ->);
    eauto.
  - intros p Hp. by apply elem_of_activePlayers in Hp as [? _].
  - by rewrite Ha.
Qed.

Lemma handleAllInShowdown_returns w :
  fullDeck (game w) → ∃ w', handleAllInShowdown w = Done w'.
Proof.
  intros Hfull. unfold handleAllInShowdown.
  assert (Hfull1 : fullDeck (game (upd_game revealRemainingBoard w)))
    by (by apply revealRemainingBoard_cards).
  revert Hfull1. generalize (upd_game revealRemainingBoard w). intros w1 Hfull1.
  destruct (activePlayers (game w1)) as [|x [|y l]] eqn:Ha; simpl; eauto.
  rewrite <- Ha.
  destruct (ranked_returns (game w1) (activePlayers (game w1))) as (winner & r & rest & ->);
    eauto.
  - intros p Hp. by apply elem_of_activePlayers in Hp as [? _].
  - by rewrite Ha.
Qed.

Lemma advanceToNextRound_returns w :
  fullDeck (game w) → ∃ w', advanceToNextRound w = Done w'.
Proof.
  intros Hfull. unfold advanceToNextRound. cbv zeta.
  change (Game.round (Game.set_actionHistory _ _)) with (Game.round (game w)).
  destruct (Game.round (game w)); eauto.
  by apply handleShowdown_returns.
Qed.

Lemma moveToNextPlayer_returns w : fullDeck (game w) → ∃ w', moveToNextPlayer w = Done w'.
Proof.
  intros Hfull. unfold moveToNextPlayer.
  assert (Hrest : ∃ w', match closeRound w with
                        | Some out => out
                        | None => Done (passTurn w)
                        end = Done w').
  { unfold closeRound. destruct (_ && _); [|eauto].
    destruct (0 <? _)%nat; [by apply handleAllInShowdown_returns|].
    destruct (bool_decide _); [by apply handleShowdown_returns|].
    by apply advanceToNextRound_returns. }
  destruct (activePlayers (game w)) as [|x [|y l]]; eauto.
Qed.

Lemma checkAndContinueGame_returns w :
  fullDeck (game w) → ∃ w', checkAndContinueGame w = Done w'.
Proof.
  intros Hfull. unfold checkAndContinueGame. destruct (negb (live w)); [eauto|].
  assert (Hrest : ∃ w', match closeRound w with
                        | Some out => out
                        | None =>
                            if (Game.currentPlayerIndex (game w)
                                <? length (Game.players (game w)))%nat
                            then Done (passTurn w) else Done w
                        end = Done w').
  { unfold closeRound. destruct (_ && _); [|destruct (_ <? _)%nat; eauto].
    destruct (0 <? _)%nat; [by apply handleAllInShowdown_returns|].
    destruct (bool_decide _); [by apply handleShowdown_returns|].
    by apply advanceToNextRound_returns. }
  destruct (activePlayers (game w)) as [|x [|y l]]; eauto.
Qed.

Lemma perform_returns a playerId w :
  inRange w → fullDeck (game w) → ∃ r w', perform a playerId w = Done (r, w').
Proof.
  intros [_ Hi] Hfull.
  destruct (perform_shape a playerId w)
    as [(_ & Hnone & _)|[(why & Hr)|(p & w1 & hf & Hon & Hc & Hh & Hr)]].
  - unfold currentPlayer in Hnone. apply lookup_ge_None in Hnone. lia.
  - eauto.
  - destruct (moveToNextPlayer_returns w1) as [w2 Hm].
    { unfold fullDeck. by rewrite (commits_cards _ _ _ _ Hc). }
    rewrite Hr, Hm. simpl. eauto.
Qed.

Lemma timers_return playerId w :
  inRange w → fullDeck (game w) →
  (∃ w', handleTurnTimeout playerId w = Done w')
  ∧ (∃ w', handleInsufficientFundsTimeout playerId w = Done w').
Proof.
  intros Hr Hfull. split.
  - unfold handleTurnTimeout. destruct (Game.players (game w) !! _); [|eauto].
    destruct (_ && _); [|eauto].
    destruct (perform_returns Fold playerId w Hr Hfull) as (r & w' & H). simpl in H.
    rewrite H. simpl. eauto.
  - unfold handleInsufficientFundsTimeout. destruct (negb (live w)); [eauto|].
    destruct (findIndex _ _) as [i|]; [|eauto].
    destruct (Game.players (game w) !! i) as [p|]; [|eauto].
    destruct (Player.hasFolded p); [eauto|]. destruct (_ <? _); [|eauto].
    apply checkAndContinueGame_returns. unfold fullDeck.
    erewrite cardsOf_same; [exact Hfull| |done|done|done]. simpl. by rewrite map_alter_keep.
Qed.

Lemma played_reachable w : played w → reachable w.
Proof.
  induction 1; [by apply reach_start|by apply reach_continue|by apply reach_deal
               |by eapply reach_action|by eapply reach_turn_timer
               |by eapply reach_grace_timer].
Qed.

(** X8: at a table started with two or more distinct players and played by
    the engine's operations, every action and both fold timers return: no
    [TypeError], no card without a value. *)
Theorem played_operations_return (w : World) :
  played w →
  (∀ a playerId, ∃ r w', perform a playerId w = Done (r, w'))
  ∧ (∀ playerId, ∃ w', handleTurnTimeout playerId w = Done w')
  ∧ (∀ playerId, ∃ w', handleInsufficientFundsTimeout playerId w = Done w').
Proof.
  intros Hp. pose proof (played_inRange w Hp) as Hr.
  pose proof (reachable_fullDeck w (played_reachable w Hp)) as Hfull.
  split; [|split].
  - intros a playerId. by apply perform_returns.
  - intros playerId. by apply timers_return.
  - intros playerId. by apply timers_return.
Qed.

(** X9: at every table reached from a start by the deal, the actions and the
    timers, the hole cards, the board, the burnt cards and the deck together
    are the 52 cards of a new deck, each once. *)
Theorem no_card_twice (w : World) :
  reachable w →
  cardsOf (game w) ≡ₚ createDeck
  ∧ NoDup (cardsOf (game w))
  ∧ length (cardsOf (game w)) = 52%nat.
Proof.
  intros H. pose proof (reachable_fullDeck w H) as Hfull. unfold fullDeck in Hfull.
  split; [done|]. rewrite Hfull. split; [apply createDeck_NoDup|reflexivity].
Qed.

(** X10: at a played table the dealer button is seat 0, it never moves, and
    [currentPlayerIndex] names a seat. *)
Theorem button_and_turn_in_range (w : World) :
  played w →
  Game.dealerButton (game w) = 0%nat
  ∧ is_Some (currentPlayer (game w)).
Proof.
  intros H. destruct (played_inRange w H) as [Hd Hi]. split; [done|].
  by apply lookup_lt_is_Some.
Qed.

End Returns.

(** ** Tokens, bets and chips *)

Section Money.
Import Cards Evaluator Engine Props Steps Invariants.




End Money.

Section Bets.
Import Cards Evaluator Engine Props Steps Invariants.

Lemma elem_of_alter_cases {A} (f : A → A) i (l : list A) q :
  q ∈ alter f i l →
  (∃ p, l !! i = Some p ∧ q = f p) ∨ (∃ j, j ≠ i ∧ l !! j = Some q).
Proof.
  intros Hq. apply list_elem_of_lookup in Hq as [j Hj].
  destruct (decide (j = i)) as [->|Hne].
  - rewrite list_lookup_alter_eq in Hj. destruct (l !! i) as [p|]; [|discriminate].
    injection Hj as <-. left. eauto.
  - rewrite list_lookup_alter_ne in Hj by done. right. eauto.
Qed.

Lemma ids_apart g i j p q :
  NoDup (ids g) → Game.players g !! i = Some p → Game.players g !! j = Some q →
  j ≠ i → Player.id q ≠ Player.id p.
Proof.
  intros Hnd Hp Hq Hne Heq. apply Hne.
  apply (NoDup_lookup (ids g) j i (Player.id q)); [done| |]; unfold ids.
  - by rewrite list_lookup_fmap, Hq.
  - by rewrite list_lookup_fmap, Hp, Heq.
Qed.

(** The player at seat [i] changes by [f]; the table bet does not go down;
    the player, if still in, has matched the new table bet; and any other
    player still in who is not listed afterwards was not listed before, the
    table bet being unchanged. *)
Lemma betsSettled_update g g' (f : Player.t → Player.t) i p :
  NoDup (ids g) → Game.players g !! i = Some p →
  Game.players g' = alter f i (Game.players g) →
  (Player.hasFolded (f p) = false → Player.currentBet (f p) = Game.currentBet g') →
  Game.currentBet g <= Game.currentBet g' →
  (∀ q, q ∈ Game.players g → Player.hasFolded q = false → Player.id q ≠ Player.id p →
        Player.id q ∉ Game.toActIds g' →
        (Player.id q ∉ Game.toActIds g) ∧ Game.currentBet g' = Game.currentBet g) →
  betsSettled g → betsSettled g'.
Proof.
  intros Hnd Hp Hpl Hcur Htable Hlist Hinv q Hq Hqf. rewrite Hpl in Hq.
  apply elem_of_alter_cases in Hq as [(p' & Hp' & ->)|(j & Hne & Hj)].
  - rewrite Hp in Hp'. injection Hp' as <-. specialize (Hcur Hqf). split; [lia|done].
  - assert (Hin : q ∈ Game.players g) by (apply list_elem_of_lookup; eauto).
    destruct (Hinv q Hin Hqf) as [Hle Hmatch]. split; [lia|].
    intros Hnot. destruct (Hlist q Hin Hqf) as [Hold Heq]; [by eapply ids_apart|done|].
    rewrite Heq. by apply Hmatch.
Qed.

Lemma not_removed playerId g i :
  i ≠ playerId → i ∉ Game.toActIds (removeFromToAct playerId g) → i ∉ Game.toActIds g.
Proof. intros Hne Hnot Hin. apply Hnot. by apply elem_of_removeFromToAct. Qed.

(** After a raise everybody else still in is listed. *)
Lemma listed_after_raise playerId g (f : Player.t → Player.t) i p q :
  Game.players g !! i = Some p → Player.id p = playerId →
  q ∈ Game.players g → Player.hasFolded q = false → Player.id q ≠ playerId →
  Player.id q
  ∈ List.map Player.id
      (List.filter
         (fun x => negb (Player.hasFolded x) && negb (String.eqb (Player.id x) playerId))
         (alter f i (Game.players g))).
Proof.
  intros Hp Hid Hq Hqf Hne. apply list_elem_of_In, in_map_iff. exists q. split; [done|].
  apply filter_In. split.
  - apply list_elem_of_In. apply list_elem_of_lookup in Hq as [j Hj].
    apply list_elem_of_lookup. exists j. rewrite list_lookup_alter_ne; [done|].
    intros ->. rewrite Hp in Hj. injection Hj as <-. done.
  - rewrite Hqf. simpl. apply negb_true_iff. by apply String.eqb_neq.
Qed.

Lemma raiseTotal_up k g :
  0 <= Game.betAmount g → (∀ t, k = ToTotal t → Game.currentBet g < t) →
  Game.currentBet g <= raiseTotal k g.
Proof.
  intros Hs Ht. destruct k; simpl; try lia. specialize (Ht toTotal eq_refl). lia.
Qed.

Lemma settled_commit playerId w p w1 :
  settled w → onTurn playerId w p → commits playerId w p w1 → settled w1.
Proof.
  intros [Hnd Hinv] (_ & Hp & Hid & Hf) Hc. unfold currentPlayer in Hp.
  destruct (commits_players _ _ _ _ Hc) as (_ & _ & _ & Hstake).
  split.
  { destruct Hc; unfold ids, raisedTo, wentAllIn; simpl;
      try (destruct (_ <? _); simpl); rewrite ?map_alter_keep; done. }
  rewrite Hstake. intros Hs. specialize (Hinv Hs).
  destruct Hc as [h Hpos Hle|h Hle|h|k h Hpos Hle Hto|Hpos Hle].
  - (* call *)
    apply (betsSettled_update (game w) _ (Player.set_currentBet (Game.currentBet (game w)))
             (Game.currentPlayerIndex (game w)) p); try done.
    intros q Hq Hqf Hne Hnot. split; [|done]. eapply not_removed; [|exact Hnot]. congruence.
  - (* check *)
    apply (betsSettled_update (game w) _ (fun x => x)
             (Game.currentPlayerIndex (game w)) p); try done.
    + simpl. by rewrite list_alter_id.
    + intros _. simpl. destruct (Hinv p) as [Hle' _]; [|done|lia].
      apply list_elem_of_lookup. eauto.
    + intros q Hq Hqf Hne Hnot. split; [|done]. eapply not_removed; [|exact Hnot].
      congruence.
  - (* fold *)
    apply (betsSettled_update (game w) _ (Player.set_hasFolded true)
             (Game.currentPlayerIndex (game w)) p); try done.
    intros q Hq Hqf Hne Hnot. split; [|done]. eapply not_removed; [|exact Hnot]. congruence.
  - (* raise *)
    apply (betsSettled_update (game w) _ (Player.set_currentBet (raiseTotal k (game w)))
             (Game.currentPlayerIndex (game w)) p); try done.
    + simpl. apply raiseTotal_up; [done|]. intros t Hk. by destruct (Hto t Hk).
    + intros q Hq Hqf Hne Hnot. exfalso. apply Hnot. simpl.
      eapply listed_after_raise; eauto. congruence.
  - (* all-in *)
    apply (betsSettled_update (game w) _
             (Player.set_isAllIn true
              ∘ Player.set_currentBet (Player.currentBet p + userAmount (users w) playerId)
              ∘ Player.set_chips 0)
             (Game.currentPlayerIndex (game w)) p); try done.
    + unfold wentAllIn. simpl. destruct (_ <? _); simpl; by rewrite !list_alter_alter_eq.
    + intros _. unfold wentAllIn. simpl.
      destruct (Z.ltb_spec (Game.currentBet (game w))
                  (Player.currentBet p + userAmount (users w) playerId)); simpl; lia.
    + unfold wentAllIn. simpl.
      destruct (Z.ltb_spec (Game.currentBet (game w))
                  (Player.currentBet p + userAmount (users w) playerId)); simpl; lia.
    + intros q Hq Hqf Hne Hnot. exfalso. apply Hnot. unfold wentAllIn. simpl.
      destruct (_ <? _); simpl; rewrite !list_alter_alter_eq;
        eapply listed_after_raise; eauto; congruence.
Qed.

Lemma settled_reset w w0 :
  ids (game w0) = ids (game w) → Game.betAmount (game w0) = Game.betAmount (game w) →
  NoDup (ids (game w)) → settled (resetForNextHand w0).
Proof.
  intros Hids Hstake Hnd. unfold settled, resetForNextHand.
  destruct (shuffleDeck _ _). simpl. split.
  - unfold ids. simpl. rewrite map_map_keep by done. by rewrite <- Hids in Hnd.
  - intros _ q Hq _. simpl in Hq. apply list_elem_of_In, in_map_iff in Hq as (x & <- & _).
    simpl. split; [lia|done].
Qed.

Lemma settled_fresh g :
  NoDup (ids g) → Game.currentBet g = 0 →
  Forall (fun p => Player.currentBet p = 0) (Game.players g) →
  betsSettled g.
Proof.
  intros _ Ht Hall q Hq _. rewrite Forall_forall in Hall. rewrite (Hall q Hq), Ht.
  split; [lia|done].
Qed.

Lemma settled_deal w : settled w → settled (dealCardsAndStartGame w).
Proof.
  intros [Hnd Hinv]. unfold dealCardsAndStartGame. destruct (negb (live w)); [done|].
  split.
  - destruct (dealRound_keepSeats (dealRound (game w))) as [H2 _].
    destruct (dealRound_keepSeats (game w)) as [H1 _].
    unfold ids in *. simpl. rewrite map_map_keep by done. by rewrite H2, H1.
  - intros _ q Hq _. simpl in Hq. apply list_elem_of_In, in_map_iff in Hq as (x & <- & _).
    simpl. split; [lia|done].
Qed.

Lemma ids_fresh {A} (f : nat → A → Player.t) (k : A → string) (l : list A) :
  (∀ i x, Player.id (f i x) = k x) → List.map Player.id (imap f l) = List.map k l.
Proof. intros Hf. by apply map_imap_keep. Qed.

Lemma played_settled w : played w → settled w.
Proof.
  apply (reachable_keeps settled); clear w.
  - apply settled_commit.
  - intros playerId w i p [Hnd Hinv] _ Hp Hid Hf. split.
    { unfold ids, graceFolded. simpl. by rewrite map_alter_keep. }
    intros Hs. specialize (Hinv Hs).
    apply (betsSettled_update (game w) _ (Player.set_hasFolded true) i p); try done.
    intros q Hq Hqf Hne Hnot. split; [|done]. eapply not_removed; [|exact Hnot].
    congruence.
  - intros w w0 [Hnd _] _ ((d & b & bo & r & hr & la & ah & Hg) & _).
    apply (settled_reset w); [by rewrite Hg|by rewrite Hg|done].
  - intros w H _ _ _. exact H.
  - intros w [Hnd Hinv] _ _ _ _.
    destruct (enterStreet_seats (game w)) as (Hp & _ & Hb & _ & Ht & _).
    split; [unfold ids; simpl; by rewrite Hp|]. simpl. rewrite Hb. intros Hs.
    specialize (Hinv Hs). intros q Hq Hqf. rewrite Hp in Hq. rewrite Ht.
    destruct (Hinv q Hq Hqf) as [Hle Hmatch]. split; [done|]. intros Hnot. apply Hmatch.
    intros Hin. apply Hnot. unfold enterStreet.
    assert (Hall : ∀ r0, Player.id q
              ∈ Game.toActIds
                  (firstToAct (setToActForNewRound (dealStreet r0 (cleared (game w)))))).
    { intros r0. destruct (dealStreet_sameTable r0 (cleared (game w)))
        as (d & b & bo & r & ->).
      unfold firstToAct, setToActForNewRound. simpl.
      apply list_elem_of_In, in_map, list_elem_of_In, elem_of_activePlayers. done. }
    destruct (Game.round (game w)); try done; apply Hall.
  - intros w h H. exact H.
  - intros gameId clanId channelId nameOf playerIds betAmount w [_ Hnd].
    unfold startGame, deductPlayersFunds. destruct (shuffleDeck _ _).
    set (g0 := newGame gameId clanId channelId
                 (imap (fun index playerId =>
                          newPlayer playerId
                            (default ("Player" ++ pretty (index + 1)%nat)%string
                               (nameOf playerId)) 0 index) playerIds)
                 l (Z.of_nat (length playerIds) * betAmount) betAmount).
    assert (Hids : ids g0 = playerIds).
    { unfold ids, g0. simpl. rewrite (ids_fresh _ (fun x => x)) by done. apply map_id_list. }
    split; [change (NoDup (ids g0)); by rewrite Hids|]. intros _.
    change (betsSettled g0). apply settled_fresh; [by rewrite Hids|done|].
    unfold g0. simpl. apply Forall_forall. intros q Hq.
    apply list_elem_of_lookup in Hq as [j Hj]. rewrite list_lookup_imap in Hj.
    destruct (playerIds !! j); [|discriminate]. by injection Hj as <-.
  - intros gameId clanId channelId players betAmount w [_ Hnd].
    unfold createNewGame. destruct (shuffleDeck _ _). apply settled_deal.
    set (g0 := Game.set_deck l (newGame gameId clanId channelId
                 (imap (fun index p => newPlayer (fst p) (snd p) betAmount index) players)
                 Cards.createDeck (Z.of_nat (length players) * betAmount) betAmount)).
    assert (Hids : ids g0 = List.map fst players).
    { unfold ids, g0. simpl. by rewrite (ids_fresh _ fst). }
    split; [change (NoDup (ids g0)); by rewrite Hids|]. intros _.
    change (betsSettled g0). apply settled_fresh; [by rewrite Hids|done|].
    unfold g0. simpl. apply Forall_forall. intros q Hq.
    apply list_elem_of_lookup in Hq as [j Hj]. rewrite list_lookup_imap in Hj.
    destruct (players !! j); [|discriminate]. by injection Hj as <-.
  - apply settled_deal.
Qed.


End Bets.

Section Chips.
Import Cards Evaluator Engine Props Steps Invariants.

Lemma dealHole_keeps {B} (k : Player.t → B) g i :
  (∀ p c, k (Player.set_hole c p) = k p) →
  List.map k (Game.players (dealHole g i)) = List.map k (Game.players g).
Proof.
  intros Hk. unfold dealHole, pop. destruct (truthy _); simpl; [|done].
  apply map_alter_keep. intros p. apply Hk.
Qed.

Lemma dealRound_keeps {B} (k : Player.t → B) g :
  (∀ p c, k (Player.set_hole c p) = k p) →
  List.map k (Game.players (dealRound g)) = List.map k (Game.players g).
Proof.
  intros Hk. unfold dealRound. generalize (seq 0 (length (Game.players g))). intros l.
  revert g. induction l as [|i l IH]; intros g; simpl; [done|].
  by rewrite IH, dealHole_keeps.
Qed.

Lemma dealt_keeps {B} (k : Player.t → B) w :
  (∀ p c, k (Player.set_hole c p) = k p) →
  (∀ p c, k (Player.set_currentBet c p) = k p) →
  List.map k (Game.players (game (dealCardsAndStartGame w)))
  = List.map k (Game.players (game w)).
Proof.
  intros Hh Hb. unfold dealCardsAndStartGame. destruct (negb (live w)); [done|].
  simpl. rewrite map_map_keep by (intros; apply Hb). by rewrite !dealRound_keeps.
Qed.

Lemma Forall_by {B} (k : Player.t → B) (P : B → Prop) (l l' : list Player.t) :
  List.map k l' = List.map k l → Forall (fun p => P (k p)) l → Forall (fun p => P (k p)) l'.
Proof.
  intros Hk H. rewrite Forall_forall in *. intros p Hp.
  assert (Hin : In (k p) (List.map k l)).
  { rewrite <- Hk. apply in_map. by apply list_elem_of_In. }
  apply in_map_iff in Hin as (q & <- & Hq). apply H. by apply list_elem_of_In.
Qed.

(** Only an all-in changes chips, to 0. *)
Lemma commits_chips playerId w p w1 (P : Z → Prop) :
  P 0 → commits playerId w p w1 →
  Forall (fun x => P (Player.chips x)) (Game.players (game w)) →
  Forall (fun x => P (Player.chips x)) (Game.players (game w1)).
Proof.
  intros H0 Hc Hall. destruct Hc; unfold raisedTo, wentAllIn; simpl;
    try (apply (Forall_by Player.chips P (Game.players (game w))); [|done];
         rewrite ?map_alter_keep; done).
  destruct (_ <? _); simpl; rewrite !list_alter_alter_eq; by apply Forall_alter.
Qed.

Lemma reset_chips w (P : Z → Prop) :
  P 0 → Forall (fun x => P (Player.chips x)) (Game.players (game (resetForNextHand w))).
Proof.
  intros H0. unfold resetForNextHand. destruct (shuffleDeck _ _). simpl.
  apply Forall_forall. intros x Hx. apply list_elem_of_In, in_map_iff in Hx as (y & <- & _).
  done.
Qed.

Section ChipsRule.
Variable P : Game.t → Z → Prop.
Hypothesis P0 : ∀ g, P g 0.
Hypothesis Pstake : ∀ g g', Game.betAmount g' = Game.betAmount g → ∀ c, P g c → P g' c.

Lemma chipsAll_move (w w1 : World) :
  Game.betAmount (game w1) = Game.betAmount (game w) →
  List.map Player.chips (Game.players (game w1))
  = List.map Player.chips (Game.players (game w)) →
  chipsAll P w → chipsAll P w1.
Proof.
  intros Hs Hk H. unfold chipsAll in *.
  apply (Forall_by Player.chips (P (game w1)) (Game.players (game w))); [done|].
  eapply Forall_impl; [exact H|]. intros x. by apply Pstake.
Qed.

Lemma chipsAll_commit playerId w p w1 :
  chipsAll P w → onTurn playerId w p → commits playerId w p w1 → chipsAll P w1.
Proof.
  intros H _ Hc. unfold chipsAll.
  apply (commits_chips playerId w p w1 (P (game w1))); [apply P0|done|].
  eapply Forall_impl; [exact H|]. intros x. apply Pstake.
  by destruct (commits_players _ _ _ _ Hc) as (_ & _ & _ & ->).
Qed.

Lemma perform_chips a playerId w r w' :
  chipsAll P w → perform a playerId w = Done (r, w') → chipsAll P w'.
Proof.
  apply (perform_keeps (chipsAll P)).
  - apply chipsAll_commit.
  - intros w0 w1 _ _ _. apply reset_chips. apply P0.
  - intros w0 H _ _ _. by apply (chipsAll_move w0).
  - intros w0 H _ _ _ _.
    destruct (enterStreet_seats (game w0)) as (Hp & _ & Hb & _).
    apply (chipsAll_move w0); [done|by simpl; rewrite Hp|done].
  - intros w0 h H. by apply (chipsAll_move w0).
Qed.

Lemma grace_chips playerId w w' :
  chipsAll P w → handleInsufficientFundsTimeout playerId w = Done w' → chipsAll P w'.
Proof.
  apply (grace_timer_keeps (chipsAll P)).
  - intros pid w0 i p H _ _ _ _. apply (chipsAll_move w0); [done| |done].
    unfold graceFolded. simpl. by rewrite map_alter_keep.
  - intros w0 w1 _ _ _. apply reset_chips. apply P0.
  - intros w0 H _ _ _. by apply (chipsAll_move w0).
  - intros w0 H _ _ _ _.
    destruct (enterStreet_seats (game w0)) as (Hp & _ & Hb & _).
    apply (chipsAll_move w0); [done|by simpl; rewrite Hp|done].
Qed.

Lemma turn_chips playerId w w' :
  chipsAll P w → handleTurnTimeout playerId w = Done w' → chipsAll P w'.
Proof.
  intros Hi H. unfold handleTurnTimeout in H.
  destruct (Game.players (game w) !! _) as [player|]; [|by injection H as <-].
  destruct (_ && _); [|by injection H as <-].
  destruct (makeFold playerId w) as [[r w1]| |] eqn:Hfold; simpl in H; try discriminate.
  injection H as <-. by apply (perform_chips Fold playerId w r w1).
Qed.

Lemma deal_chips w : chipsAll P w → chipsAll P (dealCardsAndStartGame w).
Proof.
  intros H. apply (chipsAll_move w); [|by apply dealt_keeps|done].
  unfold dealCardsAndStartGame. destruct (negb (live w)); [done|]. simpl.
  destruct (dealRound_frame (game w)) as (d1 & ps1 & H1). rewrite H1.
  destruct (dealRound_frame (Game.set_players ps1 (Game.set_deck d1 (game w))))
    as (d2 & ps2 & H2). by rewrite H2.
Qed.

End ChipsRule.

Lemma makeRaise_success playerId toTotal w w' :
  makeRaise playerId toTotal w = Done (Success, w') →
  ∃ p, onTurn playerId w p
       ∧ 0 < toTotal - Player.currentBet p <= Player.chips p
       ∧ Game.currentBet (game w) < toTotal
       ∧ toTotal - Player.currentBet p <= userAmount (users w) playerId.
Proof.
  intros H. unfold makeRaise, refuse in H. preamble H playerId.
  destruct (Z.leb_spec (toTotal - Player.currentBet p) 0); [discriminate|].
  destruct (Z.ltb_spec (Player.chips p) (toTotal - Player.currentBet p)); [discriminate|].
  cbn [orb] in H.
  destruct (Z.leb_spec toTotal (Game.currentBet (game w))); [discriminate|].
  destruct (Z.ltb_spec (userAmount (users w) playerId) (toTotal - Player.currentBet p));
    [discriminate|].
  exists p. repeat split; try done; lia.
Qed.

(** X13: [startGame] seats every player with 0 chips, no operation gives
    chips to a player of such a table, and there [makeRaise] is refused
    whatever the amount. *)
Theorem chipless_tables_refuse_custom_raise :
  (∀ gameId clanId channelId nameOf playerIds betAmount w,
     chipless (game (startGame gameId clanId channelId nameOf playerIds betAmount w)))
  ∧ (∀ w, chipless (game w) →
       (∀ a playerId r w', perform a playerId w = Done (r, w') → chipless (game w'))
       ∧ (∀ playerId w', handleTurnTimeout playerId w = Done w' → chipless (game w'))
       ∧ (∀ playerId w',
            handleInsufficientFundsTimeout playerId w = Done w' → chipless (game w'))
       ∧ chipless (game (dealCardsAndStartGame w))
       ∧ (∀ playerId toTotal w', makeRaise playerId toTotal w ≠ Done (Success, w'))).
Proof.
  split.
  - intros. unfold startGame, deductPlayersFunds, chipless. destruct (shuffleDeck _ _).
    simpl. apply Forall_forall. intros q Hq.
    apply list_elem_of_lookup in Hq as [j Hj]. rewrite list_lookup_imap in Hj.
    destruct (playerIds !! j); [|discriminate]. by injection Hj as <-.
  - intros w Hw.
    assert (Hrule : chipsAll (fun _ c => c = 0) w) by exact Hw.
    split; [|split; [|split; [|split]]].
    + intros a playerId r w' H.
      by apply (perform_chips (fun _ c => c = 0) (fun _ => eq_refl) (fun _ _ _ _ H => H)
                  a playerId w r w').
    + intros playerId w' H.
      by apply (turn_chips (fun _ c => c = 0) (fun _ => eq_refl) (fun _ _ _ _ H => H)
                  playerId w w').
    + intros playerId w' H.
      by apply (grace_chips (fun _ c => c = 0) (fun _ => eq_refl) (fun _ _ _ _ H => H)
                  playerId w w').
    + by apply (deal_chips (fun _ c => c = 0) (fun _ _ _ _ H => H) w).
    + intros playerId toTotal w' H.
      apply makeRaise_success in H as (p & (_ & Hp & _) & Hamt & _).
      unfold chipless in Hw. rewrite Forall_forall in Hw.
      assert (Hz : Player.chips p = 0).
      { apply Hw. apply list_elem_of_lookup. eauto. }
      lia.
Qed.

Lemma played_chipsAtStake w : played w → chipsAtStake (game w).
Proof.
  set (P := fun (g : Game.t) (c : Z) => c = 0 ∨ c = Game.betAmount g).
  assert (P0 : ∀ g, P g 0) by (by left).
  assert (Ps : ∀ g g', Game.betAmount g' = Game.betAmount g → ∀ c, P g c → P g' c).
  { intros g g' Hs c. unfold P. by rewrite Hs. }
  change (played w → chipsAll P w).
  induction 1 as [gameId clanId channelId nameOf playerIds betAmount w _
                 |gameId clanId channelId players betAmount w _
                 |w _ IH|a playerId w r w' _ IH Hstep|playerId w w' _ IH Hstep
                 |playerId w w' _ IH Hstep].
  - unfold startGame, deductPlayersFunds, chipsAll. destruct (shuffleDeck _ _).
    simpl. apply Forall_forall. intros q Hq.
    apply list_elem_of_lookup in Hq as [j Hj]. rewrite list_lookup_imap in Hj.
    destruct (playerIds !! j); [|discriminate]. injection Hj as <-. by left.
  - unfold createNewGame. destruct (shuffleDeck _ _). apply (deal_chips P Ps).
    unfold chipsAll. simpl. apply Forall_forall. intros q Hq.
    apply list_elem_of_lookup in Hq as [j Hj]. rewrite list_lookup_imap in Hj.
    destruct (players !! j); [|discriminate]. injection Hj as <-. by right.
  - by apply (deal_chips P Ps).
  - by apply (perform_chips P P0 Ps a playerId w r w').
  - by apply (turn_chips P P0 Ps playerId w w').
  - by apply (grace_chips P P0 Ps playerId w w').
Qed.

(** X14: at a played table an accepted [makeRaise] comes from a player who
    holds the table stake in chips and adds at most that stake. *)
Theorem custom_raise_capped_by_stake (playerId : string) (toTotal : Z) (w w' : World) :
  played w →
  makeRaise playerId toTotal w = Done (Success, w') →
  ∃ p, onTurn playerId w p
       ∧ Player.chips p = Game.betAmount (game w)
       ∧ 0 < toTotal - Player.currentBet p <= Game.betAmount (game w).
Proof.
  intros Hp H. apply makeRaise_success in H as (p & Hon & Hamt & _).
  exists p. split; [done|].
  pose proof (played_chipsAtStake w Hp) as Hc. unfold chipsAtStake in Hc.
  rewrite Forall_forall in Hc. destruct Hon as (_ & Hcur & _).
  destruct (Hc p) as [Hz|Hs]; [apply list_elem_of_lookup; eauto|lia|].
  split; [done|lia].
Qed.

End Chips.

(** ** The stakes: checked, then collected *)

Section FundsFacts.
Import Engine Props Funds.

Lemma checkLoop_ok labelOf players betAmount (us : gmap string Z) short :
  checkLoop labelOf players betAmount us short = FundsOk →
  short = []
  ∧ ∀ idUser name, (idUser, name) ∈ players →
      ∃ amount, us !! idUser = Some amount ∧ betAmount <= amount.
Proof.
  revert short. induction players as [|[idUser name] rest IH]; intros short H; simpl in H.
  - destruct short; [|discriminate]. split; [done|]. intros i n Hin.
    by apply elem_of_nil in Hin.
  - destruct (us !! idUser) as [amount|] eqn:Hu; [|discriminate].
    destruct (Z.ltb_spec amount betAmount).
    + apply IH in H as [Hnil _]. by destruct short.
    + apply IH in H as [-> Hrest]. split; [done|]. intros i n Hin.
      apply elem_of_cons in Hin as [ [= -> ->] | Hin]; eauto.
Qed.

Lemma checkLoop_short labelOf players betAmount (us : gmap string Z) short who :
  checkLoop labelOf players betAmount us short = ShortOfFunds who →
  who = (short
         ++ List.map labelOf
              (List.filter (fun i => userAmount us i <? betAmount)
                 (List.map fst players)))%list
  ∧ ∀ idUser name, (idUser, name) ∈ players → is_Some (us !! idUser).
Proof.
  revert short. induction players as [|[idUser name] rest IH]; intros short H; simpl in H.
  - destruct (0 <? length short)%nat; [|discriminate]. injection H as <-. simpl.
    split; [by rewrite app_nil_r|]. intros i n Hin. by apply elem_of_nil in Hin.
  - destruct (us !! idUser) as [amount|] eqn:Hu; [|discriminate].
    apply IH in H as [-> Hall]. split.
    + simpl. unfold userAmount at 2. rewrite Hu. simpl.
      destruct (amount <? betAmount); [|done]. by rewrite <- app_assoc.
    + intros i n Hin. apply elem_of_cons in Hin as [ [= -> ->] | Hin]; [by eexists|eauto].
Qed.

Lemma deductLoop_other playerIds betAmount (us : gmap string Z) other :
  other ∉ playerIds → deductLoop playerIds betAmount us !! other = us !! other.
Proof.
  revert us. induction playerIds as [|x rest IH]; intros us Hnot; simpl; [done|].
  apply not_elem_of_cons in Hnot as [Hne Hnot].
  destruct (us !! x) as [a|] eqn:Hx; [|by apply IH].
  destruct (betAmount <=? a); [|by apply IH].
  rewrite IH by done. by rewrite lookup_insert_ne.
Qed.

Lemma deductLoop_paid playerIds betAmount (us : gmap string Z) playerId a :
  NoDup playerIds → playerId ∈ playerIds → us !! playerId = Some a → betAmount <= a →
  deductLoop playerIds betAmount us !! playerId = Some (a - betAmount).
Proof.
  revert us. induction playerIds as [|x rest IH]; intros us Hnd Hin Hu Hle; simpl.
  - by apply elem_of_nil in Hin.
  - apply NoDup_cons in Hnd as [Hx Hnd]. apply elem_of_cons in Hin as [->|Hin].
    + rewrite Hu. destruct (Z.leb_spec betAmount a); [|lia].
      rewrite deductLoop_other by done. by rewrite lookup_insert_eq.
    + assert (Hne : x ≠ playerId) by (intros ->; done).
      destruct (us !! x) as [b|] eqn:Hxu; [|by apply IH].
      destruct (betAmount <=? b); [|by apply IH].
      apply IH; try done. by rewrite lookup_insert_ne.
Qed.

(** X15: when [checkPlayersFunds] accepts the invited players,
    [deductPlayersFunds] on any duplicate-free list of them takes exactly
    the stake from each and leaves every other row alone. *)
Theorem checked_stakes_are_collected (labelOf : string → string)
  (players : list (string * string)) (betAmount : Z) (us : gmap string Z)
  (playerIds : list string) :
  checkPlayersFunds labelOf players betAmount us = FundsOk →
  NoDup playerIds →
  (∀ playerId, playerId ∈ playerIds → playerId ∈ List.map fst players) →
  let us' := (deductPlayersFunds playerIds betAmount us).2 in
  (∀ playerId, playerId ∈ playerIds →
     ∃ amount, us !! playerId = Some amount ∧ betAmount <= amount
               ∧ us' !! playerId = Some (amount - betAmount))
  ∧ (∀ other, other ∉ playerIds → us' !! other = us !! other).
Proof.
  intros Hok Hnd Hsub us'. apply checkLoop_ok in Hok as [_ Hall]. split.
  - intros playerId Hin. pose proof (Hsub _ Hin) as Hp.
    apply list_elem_of_In, in_map_iff in Hp as ([i name] & Heq & Hp). simpl in Heq.
    subst i. apply list_elem_of_In in Hp.
    destruct (Hall _ _ Hp) as (amount & Hu & Hle).
    exists amount. split; [done|]. split; [done|]. unfold us'. simpl.
    by apply deductLoop_paid.
  - intros other Hnot. unfold us'. simpl. by apply deductLoop_other.
Qed.

(** X16: [checkPlayersFunds] accepts only if every player has a row that
    covers the stake; it names a player without a row; otherwise it lists,
    in order, exactly the players whose row is below the stake, and that
    list is not empty. *)
Theorem check_reports_who_is_short (labelOf : string → string)
  (players : list (string * string)) (betAmount : Z) (us : gmap string Z) :
  match checkPlayersFunds labelOf players betAmount us with
  | FundsOk =>
      ∀ idUser name, (idUser, name) ∈ players →
        ∃ amount, us !! idUser = Some amount ∧ betAmount <= amount
  | UnknownPlayer name => ∃ idUser, (idUser, name) ∈ players ∧ us !! idUser = None
  | ShortOfFunds who =>
      who ≠ []
      ∧ who = List.map labelOf
                (List.filter (fun i => userAmount us i <? betAmount)
                   (List.map fst players))
      ∧ ∀ idUser name, (idUser, name) ∈ players → is_Some (us !! idUser)
  end.
Proof.
  unfold checkPlayersFunds.
  destruct (checkLoop labelOf players betAmount us []) as [|name|who] eqn:H.
  - by apply checkLoop_ok in H as [_ H].
  - assert (Hgen : ∀ short,
              checkLoop labelOf players betAmount us short = UnknownPlayer name →
              ∃ idUser, (idUser, name) ∈ players ∧ us !! idUser = None).
    { clear H. induction players as [|[i n] rest IH]; intros short H; simpl in H.
      - destruct (0 <? _)%nat; discriminate.
      - destruct (us !! i) as [a|] eqn:Hu.
        + apply IH in H as (j & Hj & Hn). exists j. split; [|done].
          by apply list_elem_of_further.
        + injection H as <-. exists i. split; [apply list_elem_of_here|done]. }
    by eapply Hgen.
  - split.
    + assert (Hgen : ∀ short,
                checkLoop labelOf players betAmount us short = ShortOfFunds who →
                who ≠ []).
      { clear H. induction players as [|[i n] rest IH]; intros short H; simpl in H.
        - destruct short; simpl in H; [discriminate|]. by injection H as <-.
        - destruct (us !! i); [|discriminate]. by eapply IH. }
      by eapply Hgen.
    + by apply checkLoop_short in H.
Qed.

End FundsFacts.

(** ** Invitations: answers and the table they start *)

Section InviteFacts.
Import Engine Props Invite.

Lemma includes_elem (l : list string) x : includes l x = true ↔ x ∈ l.
Proof.
  unfold includes. rewrite existsb_exists. split.
  - intros (y & Hy & Heq). apply String.eqb_eq in Heq as ->. by apply list_elem_of_In.
  - intros Hx. exists x. split; [by apply list_elem_of_In|apply String.eqb_refl].
Qed.

Lemma includes_not (l : list string) x : includes l x = false ↔ x ∉ l.
Proof. rewrite <- includes_elem. by destruct (includes l x). Qed.

Lemma elem_of_without (l : list string) u x :
  x ∈ List.filter (fun v => negb (String.eqb v u)) l ↔ x ∈ l ∧ x ≠ u.
Proof.
  rewrite !list_elem_of_In, filter_In, negb_true_iff, String.eqb_neq. done.
Qed.

Lemma NoDup_without (l : list string) u :
  NoDup l → NoDup (List.filter (fun v => negb (String.eqb v u)) l).
Proof.
  intros H. apply NoDup_ListNoDup. apply List.NoDup_filter. by apply NoDup_ListNoDup.
Qed.

Lemma NoDup_snoc (l : list string) u : NoDup l → u ∉ l → NoDup (l ++ [u]).
Proof.
  intros Hl Hu. apply NoDup_app. split; [done|]. split; [|apply NoDup_singleton].
  intros x Hx Hin. apply list_elem_of_singleton in Hin as ->. done.
Qed.

Lemma respond_wellFormed userId action invite :
  wellFormed invite → userId ≠ creatorId invite →
  wellFormed (respond userId action invite).
Proof.
  intros (Hc & Hnc & Hnd & Hdis) Hne. destruct action; unfold respond, wellFormed; simpl.
  - destruct (includes (confirmedUsers invite) userId) eqn:Hin; simpl.
    + split; [done|]. split; [done|]. split; [by apply NoDup_without|].
      intros u Hu Hd. apply elem_of_without in Hd as [Hd _]. by apply (Hdis u).
    + apply includes_not in Hin. split; [set_solver|].
      split; [by apply NoDup_snoc|]. split; [by apply NoDup_without|].
      intros u Hu Hd. apply elem_of_without in Hd as [Hd Hneq].
      apply elem_of_app in Hu as [Hu|Hu]; [by apply (Hdis u)|].
      by apply list_elem_of_singleton in Hu.
  - destruct (includes (declinedUsers invite) userId) eqn:Hin; simpl.
    + split; [apply elem_of_without; by split|]. split; [by apply NoDup_without|].
      split; [done|]. intros u Hu Hd. apply elem_of_without in Hu as [Hu _].
      by apply (Hdis u).
    + apply includes_not in Hin. split; [apply elem_of_without; by split|].
      split; [by apply NoDup_without|]. split; [by apply NoDup_snoc|].
      intros u Hu Hd. apply elem_of_without in Hu as [Hu Hneq].
      apply elem_of_app in Hd as [Hd|Hd]; [by apply (Hdis u)|].
      by apply list_elem_of_singleton in Hd.
Qed.

(** The click leaves [userId] in the list it asked for and in no other, and
    moves nobody else. *)
Lemma respond_lists userId action invite :
  let invite' := respond userId action invite in
  (userId ∈ confirmedUsers invite' ↔ action = PokerJoin)
  ∧ (userId ∈ declinedUsers invite' ↔ action = PokerDecline)
  ∧ (∀ u, u ≠ userId →
       (u ∈ confirmedUsers invite' ↔ u ∈ confirmedUsers invite)
       ∧ (u ∈ declinedUsers invite' ↔ u ∈ declinedUsers invite))
  ∧ gameId invite' = gameId invite ∧ creatorId invite' = creatorId invite
  ∧ mentionedUsers invite' = mentionedUsers invite
  ∧ betAmount invite' = betAmount invite
  ∧ clanId invite' = clanId invite ∧ channelId invite' = channelId invite.
Proof.
  assert (Hno : ∀ l : list string,
            ¬ userId ∈ List.filter (fun v => negb (String.eqb v userId)) l).
  { intros l H. by apply elem_of_without in H as [_ H']. }
  assert (Hother : ∀ (l : list string) u, u ≠ userId →
            (u ∈ List.filter (fun v => negb (String.eqb v userId)) l ↔ u ∈ l)).
  { intros l u Hu. rewrite elem_of_without. tauto. }
  assert (Hsnoc : ∀ (l : list string) u, u ≠ userId → (u ∈ (l ++ [userId])%list ↔ u ∈ l)).
  { intros l u Hu. rewrite elem_of_app, list_elem_of_singleton. tauto. }
  destruct action; unfold respond; simpl.
  - destruct (includes (confirmedUsers invite) userId) eqn:Hin; simpl.
    + apply includes_elem in Hin.
      split; [done|]. split; [split; [intros H; exfalso; exact (Hno _ H)|done]|].
      split; [|done]. intros u Hu. split; [done|by apply Hother].
    + split; [split; [done|intros _; apply elem_of_app; right; apply list_elem_of_here]|].
      split; [split; [intros H; exfalso; exact (Hno _ H)|done]|].
      split; [|done]. intros u Hu. split; [by apply Hsnoc|by apply Hother].
  - destruct (includes (declinedUsers invite) userId) eqn:Hin; simpl.
    + apply includes_elem in Hin.
      split; [split; [intros H; exfalso; exact (Hno _ H)|done]|]. split; [done|].
      split; [|done]. intros u Hu. split; [by apply Hother|done].
    + split; [split; [intros H; exfalso; exact (Hno _ H)|done]|].
      split; [split; [done|intros _; apply elem_of_app; right; apply list_elem_of_here]|].
      split; [|done]. intros u Hu. split; [by apply Hother|by apply Hsnoc].
Qed.

Lemma updateInvite_keys gameId0 f m :
  List.map fst (updateInvite gameId0 f m) = List.map fst m.
Proof.
  induction m as [|e rest IH]; simpl; [done|].
  destruct (String.eqb _ _); simpl; [done|]. by rewrite IH.
Qed.

Lemma mapUpdate_keys {V} key (f : V → V) m :
  List.map fst (mapUpdate key f m) = List.map fst m.
Proof.
  induction m as [|e rest IH]; simpl; [done|].
  destruct (String.eqb _ _); simpl; [done|]. by rewrite IH.
Qed.

Lemma updateInvite_Forall (P : PokerInvite → Prop) gameId0 f m :
  (∀ invite, P invite → gameId invite = gameId0 → P (f invite)) →
  Forall (fun e => P (snd e)) m → Forall (fun e => P (snd e)) (updateInvite gameId0 f m).
Proof.
  intros Hf. induction 1 as [|e rest He Hrest IH]; simpl; [done|].
  destruct (String.eqb_spec (gameId (snd e)) gameId0); constructor; simpl; auto.
Qed.

Lemma mapUpdate_Forall {V} (P : V → Prop) key f (m : list (string * V)) :
  (∀ v, P v → mapGet key m = Some v → P (f v)) →
  Forall (fun e => P (snd e)) m → Forall (fun e => P (snd e)) (mapUpdate key f m).
Proof.
  intros Hf H. revert Hf. induction H as [|e rest He Hrest IH]; intros Hf; simpl; [done|].
  unfold mapGet in Hf. simpl in Hf.
  destruct (String.eqb_spec (fst e) key) as [Heq|Hne]; constructor; simpl; auto.
Qed.

Lemma mapDelete_ok (m : list (string * PokerInvite)) key :
  NoDup (List.map fst m) ∧ Forall (fun e => wellFormed (snd e)) m →
  NoDup (List.map fst (mapDelete key m))
  ∧ Forall (fun e => wellFormed (snd e)) (mapDelete key m).
Proof.
  intros [Hnd Hall]. unfold mapDelete. split.
  - induction m as [|e rest IH]; simpl in *; [done|].
    apply NoDup_cons in Hnd as [He Hnd]. apply Forall_cons in Hall as [_ Hall].
    destruct (negb _); simpl; [|by apply IH].
    apply NoDup_cons. split; [|by apply IH]. intros Hin. apply He.
    apply list_elem_of_In, in_map_iff in Hin as (x & Hx & Hin).
    apply filter_In in Hin as [Hin _]. apply list_elem_of_In, in_map_iff. eauto.
  - apply Forall_forall. intros e He. apply list_elem_of_In, filter_In in He as [He _].
    rewrite Forall_forall in Hall. by apply Hall, list_elem_of_In.
Qed.

Lemma mapGet_elem {V} key (m : list (string * V)) v :
  mapGet key m = Some v → (key, v) ∈ m.
Proof.
  unfold mapGet. destruct (List.find _ m) as [[k v']|] eqn:Hf; [|discriminate].
  simpl. intros [= <-]. apply find_some in Hf as [Hin Hk]. simpl in Hk.
  apply String.eqb_eq in Hk as <-. by apply list_elem_of_In.
Qed.

Lemma mapGet_deleted {V} key (m : list (string * V)) : mapGet key (mapDelete key m) = None.
Proof.
  unfold mapGet, mapDelete. induction m as [|e rest IH]; simpl; [done|].
  destruct (String.eqb (fst e) key) eqn:He; simpl; [done|]. by rewrite He.
Qed.

Lemma startGameFromInvite_ok inviteKey newGameId nameOf l :
  lobbyOk l → lobbyOk (startGameFromInvite inviteKey newGameId nameOf l).2.
Proof.
  intros Hok. unfold startGameFromInvite.
  destruct (mapGet inviteKey (gameInvites l)); [|done].
  repeat case_match; by apply mapDelete_ok.
Qed.

(** X17: [createInvite], [handleButtonClick], [handlePlayerTimeout] and
    [startGameFromInvite] keep the invitations well formed: one invitation
    per key, the creator confirmed, nobody listed twice, nobody both
    confirmed and declined. *)
Theorem invitations_stay_well_formed :
  (∀ creatorId0 clanId0 channelId0 messageId0 allPlayers betAmount0 gameId0 l,
     lobbyOk l →
     lobbyOk (createInvite creatorId0 clanId0 channelId0 messageId0 allPlayers
                betAmount0 gameId0 l))
  ∧ (∀ userId action gameId0 newGameId nameOf l,
       lobbyOk l → lobbyOk (handleButtonClick userId action gameId0 newGameId nameOf l).2)
  ∧ (∀ inviteKey playerId l, lobbyOk l → lobbyOk (handlePlayerTimeout inviteKey playerId l))
  ∧ (∀ inviteKey newGameId nameOf l,
       lobbyOk l → lobbyOk (startGameFromInvite inviteKey newGameId nameOf l).2).
Proof.
  split; [|split; [|split]].
  - intros creatorId0 clanId0 channelId0 messageId0 allPlayers betAmount0 gameId0 l [Hnd Hall].
    unfold createInvite, lobbyOk. simpl.
    set (key := (clanId0 ++ "_" ++ channelId0 ++ "_" ++ gameId0)%string).
    assert (Hwf : wellFormed
                    {| gameId := gameId0; creatorId := creatorId0; clanId := clanId0;
                       channelId := channelId0; messageId := messageId0;
                       mentionedUsers := allPlayers; confirmedUsers := [creatorId0];
                       declinedUsers := []; betAmount := betAmount0 |}).
    { unfold wellFormed. simpl. split; [set_solver|]. split; [apply NoDup_singleton|].
      split; [constructor|]. intros u _ Hu. by apply elem_of_nil in Hu. }
    unfold mapSet. destruct (mapHas key (gameInvites l)) eqn:Hhas.
    + split; [by rewrite mapUpdate_keys|]. by apply mapUpdate_Forall.
    + split.
      * rewrite map_app. simpl. apply NoDup_app. split; [done|].
        split; [|apply NoDup_singleton]. intros k Hk Hin.
        apply list_elem_of_singleton in Hin as ->.
        apply not_true_iff_false in Hhas. apply Hhas. unfold mapHas.
        apply existsb_exists. apply list_elem_of_In, in_map_iff in Hk as (e & He & Hin).
        exists e. split; [done|]. by apply String.eqb_eq.
      * apply Forall_app. split; [done|]. by constructor.
  - intros userId action gameId0 newGameId nameOf l [Hnd Hall]. unfold handleButtonClick.
    destruct (getGameInvite gameId0 l) as [invite|] eqn:Hget; [|done].
    destruct (String.eqb_spec userId (creatorId invite)) as [Heq|Hne]; [done|].
    assert (Hok' : lobbyOk
                     {| gameInvites :=
                          updateInvite gameId0 (respond userId action) (gameInvites l);
                        table := table l |}).
    { split; simpl; [by rewrite updateInvite_keys|].
      unfold getGameInvite, findInvite in Hget.
      clear Hnd. induction Hall as [|e rest He Hrest IH]; simpl in *; [done|].
      destruct (String.eqb (gameId (snd e)) gameId0).
      - simpl in Hget. injection Hget as <-. constructor; [|done].
        by apply respond_wellFormed.
      - constructor; [done|]. by apply IH. }
    destruct (_ =? _)%nat; [|done].
    destruct (findInvite _ _) as [[key inv]|]; [|done].
    destruct (String.eqb key ""); [done|]. by apply startGameFromInvite_ok.
  - intros inviteKey playerId l [Hnd Hall]. unfold handlePlayerTimeout.
    destruct (mapGet inviteKey (gameInvites l)) as [invite|] eqn:Hget; [|done].
    destruct (includes (confirmedUsers invite) playerId) eqn:Hc; [done|].
    destruct (includes (declinedUsers invite) playerId) eqn:Hd; [done|]. simpl.
    apply includes_not in Hc, Hd.
    split; simpl; [by rewrite mapUpdate_keys|].
    apply mapUpdate_Forall; [|done]. intros v (H1 & H2 & H3 & H4) Hv.
    rewrite Hget in Hv. injection Hv as <-.
    unfold wellFormed. simpl. split; [done|]. split; [done|].
    split; [by apply NoDup_snoc|]. intros u Hu Hin.
    apply elem_of_app in Hin as [Hin|Hin]; [by apply (H4 u)|].
    apply list_elem_of_singleton in Hin as ->. done.
  - intros. by apply startGameFromInvite_ok.
Qed.

Lemma startGame_ids gameId0 clanId0 channelId0 nameOf playerIds betAmount0 w :
  ids (game (startGame gameId0 clanId0 channelId0 nameOf playerIds betAmount0 w))
  = playerIds
  ∧ Game.betAmount (game (startGame gameId0 clanId0 channelId0 nameOf playerIds
                            betAmount0 w)) = betAmount0.
Proof.
  unfold startGame, deductPlayersFunds. destruct (shuffleDeck _ _). unfold ids. simpl.
  split; [|done]. rewrite (map_imap_keep _ _ (fun x => x)) by done. apply map_id_list.
Qed.

Lemma lobbyOk_get l inviteKey invite :
  lobbyOk l → mapGet inviteKey (gameInvites l) = Some invite → wellFormed invite.
Proof.
  intros [_ Hall] Hget. apply mapGet_elem in Hget. rewrite Forall_forall in Hall.
  by apply (Hall (inviteKey, invite)).
Qed.

(** X18: when [startGameFromInvite] starts a game, its players are the
    confirmed users of the invitation, the creator among them, at the
    invitation's stake; the table is a played table, and the invitation is
    gone, so a second call finds nothing. *)
Theorem invited_table_is_played (inviteKey newGameId : string)
  (nameOf : string → option string) (l l' : Lobby) :
  lobbyOk l →
  startGameFromInvite inviteKey newGameId nameOf l = (GameStarted, l') →
  ∃ invite,
    mapGet inviteKey (gameInvites l) = Some invite
    ∧ played (table l')
    ∧ ids (game (table l')) = confirmedUsers invite
    ∧ creatorId invite ∈ ids (game (table l'))
    ∧ Game.betAmount (game (table l')) = betAmount invite
    ∧ mapGet inviteKey (gameInvites l') = None
    ∧ ∀ newGameId' nameOf',
        startGameFromInvite inviteKey newGameId' nameOf' l' = (InviteMissing, l').
Proof.
  intros Hok H. unfold startGameFromInvite in H.
  destruct (mapGet inviteKey (gameInvites l)) as [invite|] eqn:Hget; [|discriminate].
  destruct (lobbyOk_get _ _ _ Hok Hget) as (Hc & Hnd & _).
  destruct (Nat.eqb_spec (length (confirmedUsers invite)) 0); [discriminate|].
  destruct (Nat.ltb_spec (length (confirmedUsers invite)) 2); [discriminate|].
  injection H as <-. exists invite. cbn [table gameInvites].
  destruct (startGame_ids newGameId (clanId invite) (channelId invite) nameOf
              (confirmedUsers invite) (betAmount invite) (table l)) as [Hids Hbet].
  split; [done|]. split; [by apply reach_start|]. split; [done|].
  split; [by rewrite Hids|]. split; [done|]. split; [apply mapGet_deleted|].
  intros newGameId' nameOf'. unfold startGameFromInvite. cbn [table gameInvites].
  by rewrite mapGet_deleted.
Qed.

Lemma findInvite_update gameId0 f m key invite :
  (∀ x, gameId (f x) = gameId x) →
  findInvite gameId0 m = Some (key, invite) →
  findInvite gameId0 (updateInvite gameId0 f m) = Some (key, f invite).
Proof.
  intros Hf. unfold findInvite. induction m as [|e rest IH]; simpl; [done|].
  destruct (String.eqb (gameId (snd e)) gameId0) eqn:He; simpl.
  - intros [= ->]. simpl in *. by rewrite Hf, He.
  - rewrite He. apply IH.
Qed.

Lemma mapGet_found gameId0 m key invite :
  NoDup (List.map fst m) → findInvite gameId0 m = Some (key, invite) →
  mapGet key m = Some invite.
Proof.
  intros Hnd Hf. unfold findInvite in Hf. apply find_some in Hf as [Hin _].
  unfold mapGet. induction m as [|e rest IH]; simpl in *; [done|].
  apply NoDup_cons in Hnd as [He Hnd]. destruct Hin as [->|Hin].
  - simpl. by rewrite String.eqb_refl.
  - destruct (String.eqb_spec (fst e) key) as [Heq|Hne]; [|by apply IH].
    exfalso. apply He. rewrite Heq. apply list_elem_of_In, in_map_iff.
    by exists (key, invite).
Qed.

Lemma findInvite_gameId gameId0 m key invite :
  findInvite gameId0 m = Some (key, invite) → gameId invite = gameId0.
Proof.
  unfold findInvite. intros H. apply find_some in H as [_ H]. by apply String.eqb_eq.
Qed.

(** X19: a click of a user other than the creator leaves that user in the
    list asked for and in no other, moves nobody else, and reports
    [gameStarted] exactly when every invited user has then answered; until
    then only the invitation changes. *)
Theorem last_click_wins (userId : string) (action : InviteAction)
  (gameId0 newGameId : string) (nameOf : string → option string) (l : Lobby)
  (invite : PokerInvite) :
  getGameInvite gameId0 l = Some invite →
  userId ≠ creatorId invite →
  let invite' := respond userId action invite in
  let allAnswered :=
    (length (confirmedUsers invite') + length (declinedUsers invite')
     =? length (mentionedUsers invite))%nat in
  (userId ∈ confirmedUsers invite' ↔ action = PokerJoin)
  ∧ (userId ∈ declinedUsers invite' ↔ action = PokerDecline)
  ∧ (∀ u, u ≠ userId →
       (u ∈ confirmedUsers invite' ↔ u ∈ confirmedUsers invite)
       ∧ (u ∈ declinedUsers invite' ↔ u ∈ declinedUsers invite))
  ∧ (handleButtonClick userId action gameId0 newGameId nameOf l).1 = Clicked allAnswered
  ∧ (allAnswered = false →
     getGameInvite gameId0 (handleButtonClick userId action gameId0 newGameId nameOf l).2
     = Some invite'
     ∧ table (handleButtonClick userId action gameId0 newGameId nameOf l).2 = table l).
Proof.
  intros Hget Hne invite' allAnswered.
  destruct (respond_lists userId action invite) as (H1 & H2 & H3 & Hg & _ & Hm & _).
  split; [done|]. split; [done|]. split; [done|].
  unfold getGameInvite in Hget.
  destruct (findInvite gameId0 (gameInvites l)) as [[key inv]|] eqn:Hfind; [|discriminate].
  simpl in Hget. injection Hget as ->.
  pose proof (findInvite_gameId _ _ _ _ Hfind) as Hgid.
  pose proof (findInvite_update gameId0 (respond userId action) _ _ _
                (fun x => proj1 (proj2 (proj2 (proj2 (respond_lists userId action x)))))
                Hfind) as Hupd.
  unfold handleButtonClick, getGameInvite. rewrite Hfind. cbn [fmap option_fmap option_map snd].
  destruct (String.eqb_spec userId (creatorId invite)); [done|].
  cbn [gameInvites]. rewrite Hm, Hg, Hgid, Hupd.
  change (respond userId action invite) with invite'.
  change ((length (confirmedUsers invite') + length (declinedUsers invite')
           =? length (mentionedUsers invite))%nat) with allAnswered.
  destruct allAnswered eqn:Hall.
  - split; [|done]. by destruct (String.eqb key "").
  - split; [done|]. intros _. cbn [snd gameInvites table]. by rewrite Hupd.
Qed.

(** X20: the click that completes the answers deletes the invitation and
    reports [gameStarted: true] in every case; the game itself is started,
    with the confirmed users, only when two or more confirmed, otherwise the
    table is untouched. *)
Theorem all_answered_click (userId : string) (action : InviteAction)
  (gameId0 newGameId : string) (nameOf : string → option string) (l : Lobby)
  (inviteKey : string) (invite : PokerInvite) :
  lobbyOk l →
  findInvite gameId0 (gameInvites l) = Some (inviteKey, invite) →
  inviteKey ≠ "" →
  userId ≠ creatorId invite →
  let invite' := respond userId action invite in
  (length (confirmedUsers invite') + length (declinedUsers invite')
   = length (mentionedUsers invite))%nat →
  let l' := (handleButtonClick userId action gameId0 newGameId nameOf l).2 in
  (handleButtonClick userId action gameId0 newGameId nameOf l).1 = Clicked true
  ∧ mapGet inviteKey (gameInvites l') = None
  ∧ ((2 <= length (confirmedUsers invite'))%nat →
     played (table l') ∧ ids (game (table l')) = confirmedUsers invite')
  ∧ ((length (confirmedUsers invite') < 2)%nat → table l' = table l).
Proof.
  intros Hok Hfind Hkey Hne invite' Hall l'.
  assert (Hget : getGameInvite gameId0 l = Some invite).
  { unfold getGameInvite. by rewrite Hfind. }
  destruct (respond_lists userId action invite) as (_ & _ & _ & Hg & _ & Hm & _).
  pose proof (findInvite_gameId _ _ _ _ Hfind) as Hgid.
  pose proof (findInvite_update gameId0 (respond userId action) _ _ _
                (fun x => proj1 (proj2 (proj2 (proj2 (respond_lists userId action x)))))
                Hfind) as Hupd.
  assert (Hmap : mapGet inviteKey
                   (updateInvite gameId0 (respond userId action) (gameInvites l))
                 = Some invite').
  { apply (mapGet_found gameId0); [|done]. rewrite updateInvite_keys. apply Hok. }
  assert (Hwf : wellFormed invite').
  { apply respond_wellFormed; [|done]. destruct Hok as [_ Hall'].
    rewrite Forall_forall in Hall'. unfold findInvite in Hfind.
    apply find_some in Hfind as [Hin _].
    by apply (Hall' _ (proj2 (list_elem_of_In _ _) Hin)). }
  assert (Hrun : handleButtonClick userId action gameId0 newGameId nameOf l
                 = (Clicked true,
                    (startGameFromInvite inviteKey newGameId nameOf
                       {| gameInvites :=
                            updateInvite gameId0 (respond userId action) (gameInvites l);
                          table := table l |}).2)).
  { unfold handleButtonClick. rewrite Hget.
    destruct (String.eqb_spec userId (creatorId invite)); [done|].
    cbn [gameInvites]. rewrite Hm, Hg, Hgid, Hupd.
    change (respond userId action invite) with invite'.
    apply Nat.eqb_eq in Hall. rewrite Hall.
    by destruct (String.eqb_spec inviteKey ""). }
  subst l'. rewrite Hrun. cbn [fst snd]. split; [done|].
  unfold startGameFromInvite. cbn [gameInvites table]. rewrite Hmap.
  destruct (Nat.eqb_spec (length (confirmedUsers invite')) 0) as [H0|H0].
  { cbn [snd gameInvites table]. split; [apply mapGet_deleted|]. split; [lia|done]. }
  destruct (Nat.ltb_spec (length (confirmedUsers invite')) 2) as [H2|H2].
  { cbn [snd gameInvites table]. split; [apply mapGet_deleted|]. split; [lia|done]. }
  cbn [snd gameInvites table]. split; [apply mapGet_deleted|]. split; [|lia]. intros _.
  destruct (startGame_ids newGameId (clanId invite') (channelId invite') nameOf
              (confirmedUsers invite') (betAmount invite') (table l)) as [Hids _].
  split; [|done]. apply reach_start. split; [done|]. apply Hwf.
Qed.

End InviteFacts.

(** ** Another hand: who pays, who is paid back, who is seated *)

Section RematchFacts.
Import Engine Props Invariants Rematch.

Lemma includes_setAdd x s u :
  includes (setAdd x s) u = String.eqb u x || includes s u.
Proof.
  unfold setAdd. destruct (includes s x) eqn:Hx.
  - destruct (String.eqb_spec u x) as [->|]; [by rewrite Hx|done].
  - unfold includes. rewrite existsb_app. simpl. rewrite orb_false_r. apply orb_comm.
Qed.

Lemma NoDup_setAdd x s : NoDup s → NoDup (setAdd x s).
Proof.
  intros H. unfold setAdd. destruct (includes s x) eqn:Hx; [done|].
  apply NoDup_snoc; [done|]. by apply includes_not.
Qed.

Lemma elem_of_setAdd x s u : u ∈ setAdd x s ↔ u = x ∨ u ∈ s.
Proof.
  rewrite <- !includes_elem, includes_setAdd, orb_true_iff, String.eqb_eq. done.
Qed.

Lemma pay_once playerId b (us : gmap string Z) u :
  b <= userAmount us playerId →
  (deductPlayersFunds [playerId] b us).2 !! u
  = if String.eqb u playerId then (fun a => a - b) <$> us !! u else us !! u.
Proof.
  intros Hle. unfold deductPlayersFunds, userAmount in *. simpl.
  destruct (String.eqb_spec u playerId) as [->|Hne].
  - destruct (us !! playerId) as [a|] eqn:Ha; simpl in *; [|by rewrite Ha].
    destruct (Z.leb_spec b a); [|lia]. by rewrite lookup_insert_eq.
  - destruct (us !! playerId) as [a|]; [|done].
    destruct (b <=? a); [|done]. by rewrite lookup_insert_ne.
Qed.

Lemma charged_continue b us0 w0 playerId o :
  charged b us0 w0 o → charged b us0 w0 (continueGame playerId o).
Proof.
  intros (accepted & paid & gi & Ha & Hp & Hi & Hb & Hna & Hnp & Hsub & Hus & Hle & Hg).
  unfold continueGame. rewrite Ha, Hi, Hp, Hb.
  destruct (Z.ltb_spec (userAmount (users (table o)) playerId) b) as [Hlt|Hge].
  { by exists accepted, paid, gi. }
  destruct (includes paid playerId) eqn:Hin; cbn [negb].
  - exists (setAdd playerId accepted), paid, gi. cbn.
    repeat (split; [done|]). split; [by apply NoDup_setAdd|]. split; [done|].
    split; [|done]. intros u Hu. apply elem_of_setAdd in Hu as [->|Hu]; [|by apply Hsub].
    by apply includes_elem.
  - assert (Hsame : users (table o) !! playerId = us0 !! playerId).
    { by rewrite Hus, Hin. }
    assert (Hge0 : b <= userAmount us0 playerId).
    { unfold userAmount in *. by rewrite <- Hsame. }
    unfold deductPlayersFunds.
    exists (setAdd playerId accepted), (setAdd playerId paid), gi. cbn [continueGamePlayers
      continueGamePaid continueGameInfo table users game live draws set_users].
    repeat (split; [done|]). split; [by apply NoDup_setAdd|].
    split; [by apply NoDup_setAdd|]. split.
    { intros u Hu. apply elem_of_setAdd. apply elem_of_setAdd in Hu as [->|Hu]; [by left|].
      right. by apply Hsub. }
    split.
    { intros u. rewrite includes_setAdd.
      change (deductLoop [playerId] b (users (table o)))
        with (deductPlayersFunds [playerId] b (users (table o))).2.
      rewrite pay_once by done.
      destruct (String.eqb_spec u playerId) as [->|Hne]; simpl; [by rewrite Hsame|].
      apply Hus. }
    split; [|done]. intros u Hu. apply elem_of_setAdd in Hu as [->|Hu]; [done|by apply Hle].
Qed.

Lemma charged_decline b us0 w0 playerId o :
  charged b us0 w0 o → charged b us0 w0 (declineGame playerId o).
Proof.
  intros (accepted & paid & gi & Ha & Hp & Hi & Hb & Hna & Hnp & Hsub & Hus & Hle & Hg).
  unfold declineGame. rewrite Ha.
  exists (setDelete playerId accepted), paid, gi. cbn.
  repeat (split; [done|]). split; [by apply NoDup_without|]. split; [done|].
  split; [|done]. intros u Hu. apply elem_of_without in Hu as [Hu _]. by apply Hsub.
Qed.

Lemma charged_start g o :
  charged (Game.betAmount g) (users (table o)) (table o) (sendContinueGameButtons g o).
Proof.
  eexists [], [], _. cbn. repeat (split; [reflexivity|]).
  split; [apply NoDup_nil_2|]. split; [apply NoDup_nil_2|]. split; [done|].
  split; [done|]. split; [|done]. intros u Hu. by apply elem_of_nil in Hu.
Qed.

Lemma clicked_charged g o o' :
  clicked (sendContinueGameButtons g o) o' →
  charged (Game.betAmount g) (users (table o)) (table o) o'.
Proof.
  induction 1; [apply charged_start|by apply charged_continue|by apply charged_decline].
Qed.

(** X21: while another hand is offered, whatever users click continue or
    decline in whatever order, each user who is listed has paid, each user
    who has paid has paid the stake once and could afford it, a decline pays
    nothing back, and the table does not change. *)
Theorem rematch_charges_once (g : Game.t) (o o' : Offer) :
  clicked (sendContinueGameButtons g o) o' →
  ∃ accepted paid,
    continueGamePlayers o' = Some accepted
    ∧ continueGamePaid o' = Some paid
    ∧ NoDup accepted ∧ NoDup paid
    ∧ (∀ u, u ∈ accepted → u ∈ paid)
    ∧ (∀ u, u ∈ paid → Game.betAmount g <= userAmount (users (table o)) u)
    ∧ (∀ u, users (table o') !! u
            = if includes paid u
              then (fun a => a - Game.betAmount g) <$> users (table o) !! u
              else users (table o) !! u)
    ∧ game (table o') = game (table o)
    ∧ live (table o') = live (table o).
Proof.
  intros H. apply clicked_charged in H
    as (accepted & paid & gi & Ha & Hp & Hi & Hb & Hna & Hnp & Hsub & Hus & Hle & Hg & Hl & _).
  by exists accepted, paid.
Qed.



(** *** The table of the next hand *)

Lemma mapHas_false {V} key (m : list (string * V)) :
  key ∉ List.map fst m → Invite.mapHas key m = false.
Proof.
  intros Hk. unfold Invite.mapHas. apply not_true_is_false. intros H.
  apply existsb_exists in H as (e & He & Heq). apply String.eqb_eq in Heq.
  apply Hk. subst key. apply list_elem_of_In, in_map. done.
Qed.

Lemma uniqueById_fold (players : list (string * string)) m :
  NoDup (List.map fst m ++ List.map fst players) →
  fold_left
    (fun m p => if String.eqb (fst p) "" then m else Invite.mapSet (fst p) p m)
    players m
  = (m ++ List.map (fun p => (fst p, p))
            (List.filter (fun p => negb (String.eqb (fst p) "")) players))%list.
Proof.
  revert m. induction players as [|p players IH]; intros m Hnd; simpl.
  - by rewrite app_nil_r.
  - apply NoDup_app in Hnd as (Hm & Hdis & Hp). simpl in Hp.
    apply NoDup_cons in Hp as [Hp Hps].
    destruct (String.eqb (fst p) ""); simpl.
    + apply IH. apply NoDup_app. split; [done|]. split; [|done].
      intros x Hx Hin. apply (Hdis x Hx). simpl. by apply list_elem_of_further.
    + unfold Invite.mapSet. rewrite mapHas_false.
      2:{ intros Hin. apply (Hdis _ Hin). simpl. apply list_elem_of_here. }
      rewrite IH.
      * by rewrite <- app_assoc.
      * rewrite map_app. simpl. rewrite <- app_assoc. simpl.
        apply NoDup_app. split; [done|]. split; [|by apply NoDup_cons].
        intros x Hx Hin. by apply (Hdis x Hx).
Qed.

Lemma uniqueById_values (players : list (string * string)) :
  NoDup (List.map fst players) →
  List.map snd (uniqueById players)
  = List.filter (fun p => negb (String.eqb (fst p) "")) players.
Proof.
  intros Hnd. unfold uniqueById. rewrite uniqueById_fold by done. simpl.
  rewrite map_map. simpl. apply List.map_id.
Qed.

Lemma createNewGame_table gameId0 clanId0 channelId0 players0 b w :
  let w' := createNewGame gameId0 clanId0 channelId0 players0 b w in
  ids (game w') = List.map fst players0
  ∧ List.map Player.name (Game.players (game w')) = List.map snd players0
  ∧ Forall (fun p => Player.chips p = b) (Game.players (game w'))
  ∧ Game.pot (game w') = Z.of_nat (length players0) * b
  ∧ Game.betAmount (game w') = b
  ∧ users w' = users w ∧ live w' = true.
Proof.
  unfold createNewGame. destruct (shuffleDeck _ _) as [deck rnd].
  split; [|split; [|split]].
  - unfold ids. rewrite dealt_keeps by done.
    cbn [game Game.players Game.set_deck newGame]. by apply map_imap_keep.
  - rewrite dealt_keeps by done.
    cbn [game Game.players Game.set_deck newGame]. by apply map_imap_keep.
  - apply (Forall_by Player.chips (fun c => c = b)
             (imap (fun index p => newPlayer (fst p) (snd p) b index) players0)).
    + by rewrite dealt_keeps by done.
    + apply Forall_forall. intros p Hp. apply list_elem_of_lookup in Hp as [i Hi].
      rewrite list_lookup_imap in Hi. destruct (players0 !! i); [|done].
      simpl in Hi. by injection Hi as <-.
  - unfold dealCardsAndStartGame. cbn [live negb].
    cbn [upd_game set_game game users live].
    match goal with |- context [dealRound ?x] =>
      destruct (dealRound_frame x) as (d1 & ps1 & H1); rewrite H1 end.
    match goal with |- context [dealRound ?x] =>
      destruct (dealRound_frame x) as (d2 & ps2 & H2); rewrite H2 end.
    done.
Qed.

(** X23: when the offer times out with two or more users listed, nothing is
    paid back; the first eight listed users with a non-empty id are seated,
    each with the stake in chips (1000 if the stake was 0), at a played
    table whose pot is their stakes; with fewer than two of them no game is
    made. *)
Theorem rematch_seats_the_accepted (g g' : Game.t) (o o' : Offer) (newGameId : string)
  (nameOf : string → string) (accepted : list string) :
  clicked (sendContinueGameButtons g o) o' →
  continueGamePlayers o' = Some accepted →
  (2 <= length accepted)%nat →
  let seated := List.filter (fun id => negb (String.eqb id "")) (take 8 accepted) in
  let stake := if Game.betAmount g =? 0 then 1000 else Game.betAmount g in
  let o'' := handleContinueGameTimeout newGameId nameOf g' o' in
  continueGamePlayers o'' = None
  ∧ users (table o'') = users (table o')
  ∧ ((length seated < 2)%nat → table o'' = table o')
  ∧ ((2 <= length seated)%nat →
     played (table o'')
     ∧ ids (game (table o'')) = seated
     ∧ Forall (fun p => Player.chips p = stake) (Game.players (game (table o'')))
     ∧ Game.pot (game (table o'')) = Z.of_nat (length seated) * stake
     ∧ Game.betAmount (game (table o'')) = stake).
Proof.
  intros H Hacc Hlen seated stake o''. apply clicked_charged in H
    as (accepted' & paid & gi & Ha & Hp & Hi & Hb & Hna & Hnp & Hsub & Hus & Hle & Hg & Hl
        & Hd).
  rewrite Hacc in Ha. injection Ha as <-.
  set (name := fun id => (id, resolvePlayerName nameOf id (Some gi))).
  assert (Hobj : (if (8 <? length (List.map name accepted))%nat
                  then take 8 (List.map name accepted) else List.map name accepted)
                 = List.map name (take 8 accepted)).
  { rewrite <- fmap_take.
    destruct (Nat.ltb_spec 8 (length (List.map name accepted))) as [|Hshort]; [done|].
    rewrite length_map in Hshort. by rewrite take_ge by lia. }
  assert (Hnd8 : NoDup (take 8 accepted)).
  { eapply sublist_NoDup; [exact Hna|apply sublist_take]. }
  assert (Hnorm : take 8 (List.map snd (uniqueById (List.map name (take 8 accepted))))
                  = List.map name seated).
  { rewrite uniqueById_values.
    2:{ rewrite map_map. simpl. by rewrite map_id_list. }
    rewrite take_ge.
    - unfold seated. clear. induction (take 8 accepted) as [|x l IH]; simpl; [done|].
      destruct (String.eqb x ""); simpl; by rewrite IH.
    - etransitivity; [apply List.filter_length_le|]. rewrite length_map, length_take. lia. }
  assert (Ho : o'' = cleanupContinueGameData
                       (startNewGameFromContinue (Game.clanId g') (Game.channelId g')
                          newGameId (List.map name (take 8 accepted)) gi o')).
  { unfold o'', handleContinueGameTimeout. rewrite Hacc, Hi.
    destruct (Nat.leb_spec 2 (length accepted)); [|lia]. fold name. by rewrite Hobj. }
  rewrite Ho. unfold startNewGameFromContinue. rewrite Hnorm, length_map, Hb.
  fold stake. destruct (Nat.ltb_spec (length seated) 2) as [Hlt|Hge].
  - cbn. split; [done|]. split; [done|]. split; [done|]. lia.
  - cbn [cleanupContinueGameData set_table table continueGamePlayers].
    destruct (createNewGame_table newGameId (Game.clanId g') (Game.channelId g')
                (List.map name seated) stake (table o'))
      as (Hids & _ & Hchips & Hpot & Hbet & Hu & _).
    split; [done|]. split; [done|]. split; [lia|]. intros _.
    assert (Hfst : List.map fst (List.map name seated) = seated).
    { rewrite map_map. simpl. apply map_id_list. }
    split.
    { apply reach_continue. rewrite Hfst. split; [done|].
      by apply NoDup_ListNoDup, List.NoDup_filter, NoDup_ListNoDup. }
    rewrite Hids, Hfst. split; [done|]. split; [done|].
    rewrite Hpot, length_map. done.
Qed.

End RematchFacts.

(** ** Buttons and clicks *)

Section ButtonFacts.
Import Engine Props Invariants Buttons.

Lemma split_cons sep s : ∃ first more, split sep s = first :: more.
Proof.
  induction s as [|c s (first & more & IH)]; simpl; [by eexists _, _|].
  destruct (Ascii.eqb c sep); [by eexists _, _|]. rewrite IH. by eexists _, _.
Qed.

Lemma split_sep sep x y :
  split sep (x ++ String sep y) = (split sep x ++ split sep y)%list.
Proof.
  induction x as [|c x IH]; simpl.
  - by rewrite Ascii.eqb_refl.
  - destruct (Ascii.eqb c sep); [by rewrite IH|]. rewrite IH.
    by destruct (split_cons sep x) as (first & more & ->).
Qed.

Lemma split_plain s : plain s = true → split underscore s = [s].
Proof.
  induction s as [|c s IH]; simpl; [done|]. intros H.
  apply andb_true_iff in H as [Hc Hs]. apply negb_true_iff in Hc. rewrite Hc.
  by rewrite IH.
Qed.

Lemma join_split s : join "_" (split underscore s) = s.
Proof.
  induction s as [|c s IH]; [done|]. cbn [split].
  destruct (Ascii.eqb_spec c underscore) as [->|Hne].
  - destruct (split_cons underscore s) as (first & more & Hs). rewrite Hs in *.
    change (join "_" ("" :: first :: more)) with ("_" ++ join "_" (first :: more)).
    by rewrite IH.
  - destruct (split_cons underscore s) as (first & more & Hs). rewrite Hs in *.
    destruct more as [|second more]; simpl in *; by rewrite <- IH.
Qed.

(** The parts of a button id. *)
Lemma split_buttonId action gameId clanId channelId :
  plain action = true → plain clanId = true → plain channelId = true →
  split underscore (buttonId action gameId clanId channelId)
  = ("poker" :: action :: split underscore gameId ++ [clanId; channelId])%list.
Proof.
  intros Ha Hc Hch. unfold buttonId.
  change ("poker_" ++ action ++ "_" ++ gameId ++ "_" ++ clanId ++ "_" ++ channelId)
    with ("poker" ++ String underscore
            (action ++ String underscore
               (gameId ++ String underscore (clanId ++ String underscore channelId)))).
  rewrite !split_sep, (split_plain action), (split_plain clanId), (split_plain channelId)
    by done.
  done.
Qed.

Lemma buttonId_nonempty action gameId clanId channelId :
  String.eqb (buttonId action gameId clanId channelId) "" = false.
Proof. done. Qed.

Lemma truthy_nonempty s : s ≠ "" → truthy (Some s) = Some s.
Proof. intros H. simpl. by destruct (String.eqb_spec s ""). Qed.

(** What the listener reads off a button id. *)
Lemma read_buttonId action gameId clanId channelId fromMessage data :
  plain action = true → plain clanId = true → plain channelId = true →
  clanId ≠ "" → channelId ≠ "" →
  button_id data = buttonId action gameId clanId channelId →
  (truthy (clan_id data) = None ∨ clan_id data = Some clanId) →
  (truthy (channel_id data) = None ∨ channel_id data = Some channelId) →
  split underscore (button_id data) !! 0%nat = Some "poker"
  ∧ split underscore (button_id data) !! 1%nat = Some action
  ∧ extractGameIdFromData fromMessage data = Some gameId
  ∧ address data = Some (clanId, channelId).
Proof.
  intros Ha Hc Hch Hcn Hchn Hid Hclan Hchan.
  pose proof (split_buttonId action gameId clanId channelId Ha Hc Hch) as Hs.
  rewrite <- Hid in Hs.
  destruct (split_cons underscore gameId) as (first & more & Hg).
  assert (Hlen : length (split underscore (button_id data))
                 = (length (split underscore gameId) + 4)%nat).
  { rewrite Hs. simpl. rewrite length_app. simpl. lia. }
  assert (H5 : (5 <=? length (split underscore (button_id data)))%nat = true).
  { apply Nat.leb_le. rewrite Hlen, Hg. simpl. lia. }
  split; [by rewrite Hs|]. split; [by rewrite Hs|]. split.
  - unfold extractGameIdFromData. rewrite H5, Hid, buttonId_nonempty, <- Hid.
    rewrite bool_decide_eq_true_2 by (by rewrite Hs). cbn [negb andb]. f_equal.
    transitivity (join "_" (split underscore gameId)); [|apply join_split].
    f_equal. unfold slice. rewrite Hlen, Hs.
    cbn [drop]. replace (length (split underscore gameId) + 4 - 2 - 2)%nat
      with (length (split underscore gameId)) by lia.
    by rewrite drop_0, take_app_length.
  - assert (Hparsed :
      split underscore (button_id data)
        !! (length (split underscore (button_id data)) - 2)%nat = Some clanId
      ∧ split underscore (button_id data)
        !! (length (split underscore (button_id data)) - 1)%nat = Some channelId).
    { rewrite Hlen, Hs.
      change ("poker" :: action :: split underscore gameId ++ [clanId; channelId])%list
        with ((["poker"; action] ++ split underscore gameId) ++ [clanId; channelId])%list.
      rewrite !lookup_app_r by (rewrite length_app; simpl; lia).
      rewrite length_app. simpl.
      replace (length (split underscore gameId) + 4 - 2
               - S (S (length (split underscore gameId))))%nat with 0%nat by lia.
      replace (length (split underscore gameId) + 4 - 1
               - S (S (length (split underscore gameId))))%nat with 1%nat by lia.
      done. }
    destruct Hparsed as [Hp1 Hp2]. unfold address. rewrite H5, Hp1, Hp2.
    assert (Hpair :
      match truthy (clan_id data), truthy (channel_id data) with
      | Some _, Some _ => (clan_id data, channel_id data)
      | _, _ => (Some clanId, Some channelId)
      end = (Some clanId, Some channelId)).
    { destruct Hclan as [Hclan|Hclan], Hchan as [Hchan|Hchan].
      - by rewrite Hclan.
      - by rewrite Hclan.
      - rewrite Hchan. by destruct (truthy (clan_id data)).
      - by rewrite Hclan, Hchan, !truthy_nonempty by done. }
    rewrite Hpair. by rewrite !truthy_nonempty by done.
Qed.

(** X24: a click on a turn button of a game whose clan and channel ids are
    non-empty and hold no underscore is served as that button's action, by
    the clicking user, at that game, whether or not the event names the clan
    and the channel and whatever underscores the game id holds. *)
Theorem click_reaches_the_table (name : string) (act : Action) (w : World)
  (l : Invite.Lobby) (fromMessage : option string) (data : ButtonData) :
  (name, act) ∈ turnButtons →
  plain (Game.clanId (game w)) = true → plain (Game.channelId (game w)) = true →
  Game.clanId (game w) ≠ "" → Game.channelId (game w) ≠ "" → Game.id (game w) ≠ "" →
  button_id data
  = buttonId name (Game.id (game w)) (Game.clanId (game w)) (Game.channelId (game w)) →
  (truthy (clan_id data) = None ∨ clan_id data = Some (Game.clanId (game w))) →
  (truthy (channel_id data) = None ∨ channel_id data = Some (Game.channelId (game w))) →
  ∃ call,
    handleButtonForm l fromMessage data = Some call
    ∧ serve call w = Some (perform act (user_id data) w).
Proof.
  intros Hin Hc Hch Hcn Hchn Hgn Hid Hclan Hchan.
  assert (Hplain : plain name = true).
  { unfold turnButtons in Hin.
    repeat (apply elem_of_cons in Hin as [ [= -> ->] | Hin]; [done|]).
    by apply elem_of_nil in Hin. }
  destruct (read_buttonId name (Game.id (game w)) _ _ fromMessage data
              Hplain Hc Hch Hcn Hchn Hid Hclan Hchan) as (H0 & H1 & Hx & Haddr).
  exists (TableAction act (Game.clanId (game w)) (Game.channelId (game w))
            (Game.id (game w)) (user_id data)).
  split; [|by simpl; rewrite String.eqb_refl].
  unfold handleButtonForm. rewrite H0. cbn [String.eqb Ascii.eqb Bool.eqb].
  unfold handlePoker. rewrite H1. unfold withAddress. rewrite Haddr, Hx.
  rewrite truthy_nonempty by done. unfold turnButtons in Hin.
  repeat (apply elem_of_cons in Hin as [ [= -> ->] | Hin]; [done|]).
  by apply elem_of_nil in Hin.
Qed.

(** *** Clicks on an invitation *)

Lemma handleButtonForm_invite l fromMessage data userId action gameId :
  handleButtonForm l fromMessage data = Some (HandleButtonClick userId action gameId) →
  action = Invite.PokerJoin ∧ userId = user_id data
  ∧ ∃ invite, Invite.getGameInvite gameId l = Some invite
              ∧ userId ∈ List.map fst (Invite.mentionedUsers invite).
Proof.
  unfold handleButtonForm. destruct (split underscore (button_id data) !! 0%nat); [|done].
  destruct (String.eqb _ "role"); [done|]. destruct (String.eqb _ "poker"); [|done].
  unfold handlePoker. destruct (split underscore (button_id data) !! 1%nat); [|done].
  repeat match goal with
         | |- (if ?c then _ else _) = _ → _ => destruct c
         | |- withAddress _ _ _ = _ → _ =>
             unfold withAddress; destruct (address data) as [[? ?]|]; [|done];
             destruct (truthy _); done
         end; try done.
  unfold handlePokerJoin. destruct (truthy _) as [gid|]; [|done].
  destruct (Invite.getGameInvite gid l) as [invite|] eqn:Hget; [|done].
  destruct (existsb _ _) eqn:Hex; [|done]. intros [= <- <- <-].
  split; [done|]. split; [done|]. exists invite. split; [done|].
  apply existsb_exists in Hex as (u & Hu & Heq). apply String.eqb_eq in Heq.
  rewrite <- Heq. by apply list_elem_of_In, in_map.
Qed.

Lemma mapGet_updateInvite key gameId0 f m (x' : Invite.PokerInvite) :
  Invite.mapGet key (Invite.updateInvite gameId0 f m) = Some x' →
  ∃ x, Invite.mapGet key m = Some x
       ∧ (x' = x ∨ (x' = f x ∧ snd <$> Invite.findInvite gameId0 m = Some x)).
Proof.
  unfold Invite.mapGet, Invite.findInvite.
  induction m as [|e rest IH]; simpl; [done|].
  destruct (String.eqb (Invite.gameId (snd e)) gameId0) eqn:Hg; simpl.
  - destruct (String.eqb (fst e) key); simpl.
    + intros [= <-]. exists (snd e). split; [done|]. by right.
    + intros H. exists x'. split; [done|]. by left.
  - destruct (String.eqb (fst e) key); simpl.
    + intros [= <-]. exists (snd e). split; [done|]. by left.
    + apply IH.
Qed.

Lemma mapGet_mapDelete {V} key k (m : list (string * V)) x :
  Invite.mapGet key (Invite.mapDelete k m) = Some x → Invite.mapGet key m = Some x.
Proof.
  destruct (String.eqb_spec key k) as [->|Hne].
  { by rewrite mapGet_deleted. }
  unfold Invite.mapGet, Invite.mapDelete. induction m as [|e rest IH]; simpl; [done|].
  destruct (String.eqb_spec (fst e) k) as [Hk|Hk]; simpl.
  - destruct (String.eqb_spec (fst e) key) as [Hkey|Hkey]; [congruence|]. apply IH.
  - destruct (String.eqb (fst e) key); [done|]. apply IH.
Qed.

Lemma startGameFromInvite_invites inviteKey newGameId nameOf l key x :
  Invite.mapGet key
    (Invite.gameInvites (Invite.startGameFromInvite inviteKey newGameId nameOf l).2)
  = Some x →
  Invite.mapGet key (Invite.gameInvites l) = Some x.
Proof.
  unfold Invite.startGameFromInvite.
  destruct (Invite.mapGet inviteKey (Invite.gameInvites l)); [|done].
  destruct (_ =? 0)%nat; [apply mapGet_mapDelete|].
  destruct (_ <? 2)%nat; apply mapGet_mapDelete.
Qed.

(** X25: no click declines an invitation: after any click every invitation
    was there before with the same invited users, creator and stake, its
    declined users were declined before, and a newly confirmed user is the
    clicking user and was invited. *)
Theorem clicks_confirm_the_invited (newGameId : string) (nameOf : string → option string)
  (fromMessage : option string) (data : ButtonData) (l : Invite.Lobby)
  (key : string) (invite' : Invite.PokerInvite) :
  Invite.mapGet key (Invite.gameInvites (click newGameId nameOf fromMessage data l))
  = Some invite' →
  ∃ invite,
    Invite.mapGet key (Invite.gameInvites l) = Some invite
    ∧ (∀ u, u ∈ Invite.declinedUsers invite' → u ∈ Invite.declinedUsers invite)
    ∧ (∀ u, u ∈ Invite.confirmedUsers invite' →
         u ∈ Invite.confirmedUsers invite
         ∨ (u = user_id data ∧ u ∈ List.map fst (Invite.mentionedUsers invite)))
    ∧ Invite.mentionedUsers invite' = Invite.mentionedUsers invite
    ∧ Invite.creatorId invite' = Invite.creatorId invite
    ∧ Invite.betAmount invite' = Invite.betAmount invite.
Proof.
  assert (Hsame : ∀ x, Invite.mapGet key (Invite.gameInvites l) = Some x →
            ∃ invite,
              Invite.mapGet key (Invite.gameInvites l) = Some invite
              ∧ (∀ u, u ∈ Invite.declinedUsers x → u ∈ Invite.declinedUsers invite)
              ∧ (∀ u, u ∈ Invite.confirmedUsers x →
                   u ∈ Invite.confirmedUsers invite
                   ∨ (u = user_id data ∧ u ∈ List.map fst (Invite.mentionedUsers invite)))
              ∧ Invite.mentionedUsers x = Invite.mentionedUsers invite
              ∧ Invite.creatorId x = Invite.creatorId invite
              ∧ Invite.betAmount x = Invite.betAmount invite).
  { intros x Hx. exists x. repeat split; auto. }
  unfold click.
  destruct (handleButtonForm l fromMessage data) as [[|userId action gameId| | |]|] eqn:Hform;
    try apply Hsame.
  apply handleButtonForm_invite in Hform as (-> & -> & inv & Hget & Hment).
  unfold Invite.handleButtonClick. rewrite Hget.
  destruct (String.eqb _ (Invite.creatorId inv)); [apply Hsame|].
  assert (Hupd : ∀ x,
            Invite.mapGet key
              (Invite.updateInvite gameId (Invite.respond (user_id data) Invite.PokerJoin)
                 (Invite.gameInvites l)) = Some x →
            ∃ invite,
              Invite.mapGet key (Invite.gameInvites l) = Some invite
              ∧ (∀ u, u ∈ Invite.declinedUsers x → u ∈ Invite.declinedUsers invite)
              ∧ (∀ u, u ∈ Invite.confirmedUsers x →
                   u ∈ Invite.confirmedUsers invite
                   ∨ (u = user_id data ∧ u ∈ List.map fst (Invite.mentionedUsers invite)))
              ∧ Invite.mentionedUsers x = Invite.mentionedUsers invite
              ∧ Invite.creatorId x = Invite.creatorId invite
              ∧ Invite.betAmount x = Invite.betAmount invite).
  { intros x Hx. apply mapGet_updateInvite in Hx as (x0 & Hx0 & [->|[-> Hfirst]]);
      [by apply Hsame|].
    exists x0. split; [done|].
    assert (x0 = inv) as ->.
    { unfold Invite.getGameInvite in Hget. rewrite Hfirst in Hget. by injection Hget. }
    destruct (respond_lists (user_id data) Invite.PokerJoin inv)
      as (Hu & Hd & Hother & _ & Hcr & Hm & Hb & _).
    split; [|split; [|done]].
    - intros u Hin. destruct (String.eqb_spec u (user_id data)) as [->|Hne].
      + by apply Hd in Hin.
      + by apply (Hother u Hne).
    - intros u Hin. destruct (String.eqb_spec u (user_id data)) as [->|Hne].
      + right. by split.
      + left. by apply (Hother u Hne). }
  cbv zeta. destruct (_ =? _)%nat; [|apply Hupd].
  destruct (Invite.findInvite _ _) as [[actualInviteKey ?]|]; [|apply Hupd].
  destruct (String.eqb actualInviteKey ""); [apply Hupd|].
  intros Hx. apply startGameFromInvite_invites in Hx. by apply Hupd.
Qed.

(** *** The buttons offered *)

Ltac current Hon :=
  let Hga := fresh "Hga" in
  let Hcur := fresh "Hcur" in
  let Hfold := fresh "Hfold" in
  destruct Hon as (Hga & Hcur & _ & Hfold); unfold currentPlayer in Hcur.

Lemma thenMove_Success w r w' : thenMove w = Done (r, w') → r = Success.
Proof.
  unfold thenMove. destruct (moveToNextPlayer w); simpl; [|done..]. by intros [= <- _].
Qed.

Lemma check_accepted w p r w' :
  onTurn (Player.id p) w p → Game.currentBet (game w) <= Player.currentBet p →
  perform CheckTurn (Player.id p) w = Done (r, w') → r = Success.
Proof.
  intros Hon Hle. current Hon. simpl. unfold makeCheck.
  rewrite Hga, Hcur, String.eqb_refl, Hfold. cbn [negb].
  destruct (Z.ltb_spec (Player.currentBet p) (Game.currentBet (game w))); [lia|].
  apply thenMove_Success.
Qed.

Lemma fold_accepted w p r w' :
  onTurn (Player.id p) w p →
  perform Fold (Player.id p) w = Done (r, w') → r = Success.
Proof.
  intros Hon. current Hon. simpl. unfold makeFold.
  rewrite Hga, Hcur, String.eqb_refl, Hfold. cbn [negb]. apply thenMove_Success.
Qed.

Lemma raiseBy_accepted raiseAmount w p r w' :
  onTurn (Player.id p) w p →
  0 < Game.currentBet (game w) + raiseAmount (game w) - Player.currentBet p →
  Game.currentBet (game w) + raiseAmount (game w) - Player.currentBet p
  <= userAmount (users w) (Player.id p) →
  raiseBy raiseAmount (Player.id p) w = Done (r, w') → r = Success.
Proof.
  intros Hon Hpos Hle. current Hon. unfold raiseBy.
  rewrite Hga, Hcur, String.eqb_refl, Hfold. cbn [negb].
  destruct (Z.leb_spec (Game.currentBet (game w) + raiseAmount (game w)
                        - Player.currentBet p) 0); [lia|].
  destruct (Z.ltb_spec (userAmount (users w) (Player.id p))
              (Game.currentBet (game w) + raiseAmount (game w) - Player.currentBet p));
    [lia|].
  apply thenMove_Success.
Qed.

Lemma call_accepted w p r w' :
  onTurn (Player.id p) w p →
  0 < Game.currentBet (game w) - Player.currentBet p →
  perform Call (Player.id p) w = Done (r, w') →
  r = Success
  ↔ Game.currentBet (game w) - Player.currentBet p <= userAmount (users w) (Player.id p).
Proof.
  intros Hon Hpos. current Hon. simpl. unfold makeCall.
  rewrite Hga, Hcur, String.eqb_refl, Hfold. cbn [negb].
  destruct (Z.leb_spec (Game.currentBet (game w) - Player.currentBet p) 0); [lia|].
  destruct (Z.ltb_spec (userAmount (users w) (Player.id p))
              (Game.currentBet (game w) - Player.currentBet p)).
  - unfold refuse. intros [= <- _]. split; [done|lia].
  - intros H'. apply thenMove_Success in H'. by split.
Qed.

Lemma allin_accepted w p r w' :
  onTurn (Player.id p) w p →
  1 <= userAmount (users w) (Player.id p) →
  perform AllIn (Player.id p) w = Done (r, w') →
  r = Success
  ↔ Game.currentBet (game w) - Player.currentBet p <= userAmount (users w) (Player.id p).
Proof.
  intros Hon Hpos. current Hon. simpl. unfold makeAllIn.
  rewrite Hga, Hcur, String.eqb_refl, Hfold. cbn [negb].
  destruct (Z.leb_spec (userAmount (users w) (Player.id p)) 0); [lia|].
  destruct (Z.ltb_spec 0 (Z.max 0 (Game.currentBet (game w) - Player.currentBet p)));
    destruct (Z.ltb_spec (userAmount (users w) (Player.id p))
                (Z.max 0 (Game.currentBet (game w) - Player.currentBet p)));
    cbn [andb].
  - unfold refuse. intros [= <- _]. split; [done|lia].
  - destruct (moveToNextPlayer _); simpl; [|done..]. intros [= <- _]. split; [lia|done].
  - destruct (moveToNextPlayer _); simpl; [|done..]. intros [= <- _]. split; [lia|done].
  - destruct (moveToNextPlayer _); simpl; [|done..]. intros [= <- _]. split; [lia|done].
Qed.

(** Which buttons are sent, as conditions on the table. *)
Lemma buttons_sent w p buttons :
  Game.players (game w) !! Game.currentPlayerIndex (game w) = Some p →
  sendTurnActionButtons w = Some buttons →
  let g := game w in
  let bal := userAmount (users w) (Player.id p) in
  let anyAllIn :=
    existsb (fun p => negb (Player.hasFolded p) && Player.isAllIn p) (Game.players g) in
  includes buttons "check"
  = (Game.currentBet g <=? Player.currentBet p) && negb anyAllIn
  ∧ includes buttons "call"
    = negb (Game.currentBet g <=? Player.currentBet p)
      && (0 <? Z.max 0 (Game.currentBet g - Player.currentBet p))
  ∧ includes buttons "raise1"
    = negb anyAllIn
      && ((0 <? Game.currentBet g + Game.betAmount g - Player.currentBet p)
          && (Game.currentBet g + Game.betAmount g - Player.currentBet p <=? bal))
  ∧ includes buttons "raise2"
    = negb anyAllIn
      && ((0 <? Game.currentBet g + Game.betAmount g * 2 - Player.currentBet p)
          && (Game.currentBet g + Game.betAmount g * 2 - Player.currentBet p <=? bal))
  ∧ includes buttons "raisepot"
    = negb anyAllIn
      && ((0 <? Game.currentBet g + Z.max (Game.betAmount g) (Game.pot g)
                - Player.currentBet p)
          && (Game.currentBet g + Z.max (Game.betAmount g) (Game.pot g)
              - Player.currentBet p <=? bal))
  ∧ includes buttons "allin" = (1 <=? bal)
  ∧ includes buttons "fold" = true.
Proof.
  intros Hcur Hb. unfold sendTurnActionButtons in Hb. rewrite Hcur in Hb.
  destruct (Player.hasFolded p); [done|]. destruct (Player.isAllIn p); [done|].
  injection Hb as <-. cbv zeta.
  repeat match goal with |- context [if ?c then _ else _] => destruct c end;
    repeat split; reflexivity.
Qed.

(** X26: at a played table with a stake that is not negative, the check,
    raise and fold buttons sent to the player on turn are accepted when
    clicked; the call button is sent whenever something is owed and the
    all-in button whenever the balance is 1 or more, and each is accepted
    exactly when the balance covers what is owed. *)
Theorem offered_buttons (w : World) (p : Player.t) (buttons : list string) :
  played w →
  onTurn (Player.id p) w p →
  0 <= Game.betAmount (game w) →
  sendTurnActionButtons w = Some buttons →
  let does (a : Action) := ∃ w', perform a (Player.id p) w = Done (Success, w') in
  let owed := Game.currentBet (game w) - Player.currentBet p in
  ("check" ∈ buttons → does CheckTurn)
  ∧ ("raise1" ∈ buttons → does RaiseByBetAmount)
  ∧ ("raise2" ∈ buttons → does (RaiseByMultiplier 2))
  ∧ ("raisepot" ∈ buttons → does RaiseByPot)
  ∧ ("fold" ∈ buttons ∧ does Fold)
  ∧ ("call" ∈ buttons ↔ 0 < owed)
  ∧ ("call" ∈ buttons → (does Call ↔ owed <= userAmount (users w) (Player.id p)))
  ∧ ("allin" ∈ buttons ↔ 1 <= userAmount (users w) (Player.id p))
  ∧ ("allin" ∈ buttons → (does AllIn ↔ owed <= userAmount (users w) (Player.id p))).
Proof.
  intros Hp Hon Hbet Hb does owed.
  pose proof (played_inRange w Hp) as Hr.
  pose proof (reachable_fullDeck w (played_reachable w Hp)) as Hfull.
  assert (Hret : ∀ a, ∃ r w', perform a (Player.id p) w = Done (r, w')).
  { intros a. by apply perform_returns. }
  assert (Hdoes : ∀ a, (∀ r w', perform a (Player.id p) w = Done (r, w') → r = Success) →
            does a).
  { intros a H. destruct (Hret a) as (r & w' & Hperf). exists w'.
    by rewrite Hperf, (H _ _ Hperf). }
  assert (Hiff : ∀ a (P : Prop),
            (∀ r w', perform a (Player.id p) w = Done (r, w') → r = Success ↔ P) →
            does a ↔ P).
  { intros a P H. destruct (Hret a) as (r & w' & Hperf). split.
    - intros [w'' Hd]. rewrite Hperf in Hd. injection Hd as -> _. by apply (H _ _ Hperf).
    - intros HP. exists w'. rewrite Hperf. by rewrite (proj2 (H _ _ Hperf) HP). }
  pose proof Hon as (_ & Hcur & _ & _). unfold currentPlayer in Hcur.
  destruct (buttons_sent w p buttons Hcur Hb)
    as (Hcheck & Hcall & Hr1 & Hr2 & Hr3 & Hall & Hfoldb).
  rewrite <- !includes_elem, Hcheck, Hcall, Hr1, Hr2, Hr3, Hall, Hfoldb.
  rewrite !andb_true_iff, !negb_true_iff, !Z.leb_le, !Z.ltb_lt, !Z.leb_gt.
  fold owed. clear Hcheck Hcall Hr1 Hr2 Hr3 Hall Hfoldb.
  split; [|split; [|split; [|split; [|split; [|split; [|split; [|split]]]]]]].
  - intros [Hle _]. apply Hdoes. intros r w'. by apply check_accepted.
  - intros (_ & Hpos & Hle). apply Hdoes. intros r w'.
    by apply (raiseBy_accepted Game.betAmount).
  - intros (_ & Hpos & Hle). apply Hdoes. intros r w'.
    apply (raiseBy_accepted (fun g => Z.max 0 (Game.betAmount g * 2))); [done|lia..].
  - intros (_ & Hpos & Hle). apply Hdoes. intros r w'.
    by apply (raiseBy_accepted (fun g => Z.max (Game.betAmount g) (Game.pot g))).
  - split; [done|]. apply Hdoes. intros r w'. by apply fold_accepted.
  - unfold owed. lia.
  - intros [Hlt _]. apply Hiff. intros r w'. apply call_accepted; [done|lia].
  - done.
  - intros Hbal. apply Hiff. intros r w'. by apply allin_accepted.
Qed.

End ButtonFacts.

(** ** Whose turn it is *)

Section TurnFacts.
Import Cards Evaluator Engine Props Steps Invariants Hands.

Lemma dealt_played w : dealt w → played w.
Proof.
  induction 1.
  - by apply reach_deal, reach_start.
  - by apply reach_continue.
  - by eapply reach_action.
  - by eapply reach_turn_timer.
  - by eapply reach_grace_timer.
Qed.

(** The scan visits every seat. *)
Lemma scanSeats_complete ok g startIndex idx p :
  Game.players g !! idx = Some p → ok p = true →
  is_Some (scanSeats ok g startIndex).
Proof.
  intros Hp Hok. unfold scanSeats.
  set (n := length (Game.players g)).
  assert (Hlt : (idx < n)%nat) by (by eapply lookup_lt_Some).
  destruct (List.find _ _) as [x|] eqn:Hfind; [by eexists|]. exfalso.
  set (s := (startIndex mod n)%nat).
  assert (Hs : (s < n)%nat) by (apply Nat.mod_upper_bound; lia).
  set (i := if decide (s < idx)%nat then (idx - s)%nat else (idx + n - s)%nat).
  assert (Hi : (1 <= i <= n)%nat) by (unfold i; destruct (decide _); lia).
  assert (Hmod : ((startIndex + i) mod n)%nat = idx).
  { rewrite <- Nat.Div0.add_mod_idemp_l. fold s. unfold i. destruct (decide _).
    - replace (s + (idx - s))%nat with idx by lia. by apply Nat.mod_small.
    - replace (s + (idx + n - s))%nat with (idx + 1 * n)%nat by lia.
      rewrite Nat.Div0.mod_add. by apply Nat.mod_small. }
  pose proof (find_none _ _ Hfind idx) as Hnone. cbv beta in Hnone.
  rewrite Hp, Hok in Hnone. enough (false = true) by done. symmetry. apply Hnone.
  apply in_map_iff. exists i. split; [done|]. apply in_seq. lia.
Qed.

Lemma someone_in g :
  (1 <= length (activePlayers g))%nat →
  ∃ idx q, Game.players g !! idx = Some q ∧ Player.hasFolded q = false.
Proof.
  intros Hlen. destruct (activePlayers g) as [|q rest] eqn:Ha; [simpl in Hlen; lia|].
  assert (Hq : q ∈ activePlayers g) by (rewrite Ha; apply list_elem_of_here).
  apply elem_of_activePlayers in Hq as [Hq Hf].
  apply list_elem_of_lookup in Hq as [idx Hidx]. eauto.
Qed.

Lemma pick_first g startIndex :
  (1 <= length (activePlayers g))%nat →
  ∃ p, Game.players g !! findNextActivePlayer g startIndex = Some p
       ∧ Player.hasFolded p = false.
Proof.
  intros Hlen. destruct (someone_in g Hlen) as (idx & q & Hq & Hf).
  unfold findNextActivePlayer.
  destruct (scanSeats_complete (fun p => negb (Player.hasFolded p)) g startIndex idx q Hq)
    as [found Hfound]; [by rewrite Hf|].
  rewrite Hfound. simpl. apply scanSeats_Some in Hfound as (p & Hp & Hok).
  exists p. split; [done|]. by apply negb_true_iff.
Qed.

Lemma pick_actor g startIndex :
  (1 <= length (activePlayers g))%nat →
  ∃ p, Game.players g !! findNextActorIndex g startIndex = Some p
       ∧ Player.hasFolded p = false
       ∧ ((∃ q, q ∈ Game.players g ∧ Player.hasFolded q = false
                ∧ Player.id q ∈ Game.toActIds g) →
          Player.id p ∈ Game.toActIds g).
Proof.
  intros Hlen. unfold findNextActorIndex.
  destruct (scanSeats _ g startIndex) as [found|] eqn:Hscan.
  - apply scanSeats_Some in Hscan as (p & Hp & Hok).
    apply andb_true_iff in Hok as [Hf Hin]. exists p. split; [done|].
    split; [by apply negb_true_iff|]. intros _. by apply includes_elem.
  - destruct (pick_first g startIndex Hlen) as (p & Hp & Hf).
    exists p. split; [exact Hp|]. split; [done|]. intros (q & Hq & Hqf & Hlisted).
    apply list_elem_of_lookup in Hq as [idx Hidx].
    destruct (scanSeats_complete
                (fun p => negb (Player.hasFolded p)
                          && includes (Game.toActIds g) (Player.id p))
                g startIndex idx q Hidx) as [x Hx].
    + rewrite Hqf. simpl. by apply includes_elem.
    + by rewrite Hx in Hscan.
Qed.

Lemma closeRound_None w : closeRound w = None → ¬ roundClosed (game w).
Proof.
  unfold closeRound.
  destruct ((length (Game.toActIds (game w)) =? 0)%nat && allMatched (game w)) eqn:Hc.
  - destruct (_ <? _)%nat; [done|]. by destruct (bool_decide _).
  - intros _ Hclosed. apply closed_spec in Hclosed. by rewrite Hclosed in Hc.
Qed.

Lemma dealBoard_round g : Game.round (dealBoard g) = Game.round g.
Proof. destruct (dealBoard_frame g) as (d & bo & ->). done. Qed.

Lemma burn_round g : Game.round (burn g) = Game.round g.
Proof. destruct (burn_frame g) as (d & b & ->). done. Qed.

Lemma dealStreet_players r g :
  Game.players (dealStreet r g) = Game.players g
  ∧ Game.isActive (dealStreet r g) = Game.isActive g
  ∧ Game.dealerButton (dealStreet r g) = Game.dealerButton g.
Proof. destruct (dealStreet_sameTable r g) as (d & b & bo & r' & ->). done. Qed.

Ltac inList := repeat first [apply list_elem_of_here | apply list_elem_of_further].

Lemma street_cases (r : Round) :
  r ∈ [Preflop; Flop; Turn; River] → r ∈ [Waiting; Preflop; Flop; Turn] →
  r = Preflop ∨ r = Flop ∨ r = Turn.
Proof.
  rewrite !elem_of_cons, !elem_of_nil. intros H1 H2.
  destruct r; auto; exfalso; intuition discriminate.
Qed.

(** What [moveToNextPlayer] leaves when the hand goes on. *)
Lemma move_turn w1 w2 :
  live w1 = true → Game.isActive (game w1) = true →
  Game.round (game w1) ∈ [Preflop; Flop; Turn; River] →
  toActSubset (game w1) →
  (0 <= Game.betAmount (game w1) → betsSettled (game w1)) →
  (1 <= length (activePlayers (game w1)))%nat →
  moveToNextPlayer w1 = Done w2 → turnOk w2.
Proof.
  intros Hlive Hact Hround Hsub Hbets Hlen Hmove.
  destruct (moveToNextPlayer_cases _ _ Hlive Hmove)
    as [(w0 & Hover & ->)|[Hnf [[Hc ->]|(Hc & Hr & ->)]]].
  - intros Hl. destruct (resetForNextHand_spec w0) as (_ & Hdead & _).
    rewrite Hdead in Hl. discriminate.
  - intros _. split; [done|]. split; [done|].
    destruct (pick_actor (game w1) (Game.currentPlayerIndex (game w1)) Hlen)
      as (p & Hp & Hf & Hlisted).
    exists p. split; [exact Hp|]. split; [done|]. intros Hs.
    apply Hlisted. specialize (Hbets Hs). apply closeRound_None in Hc.
    destruct (Game.toActIds (game w1)) as [|i rest] eqn:Hto.
    + exfalso. apply Hc. split; [done|]. intros q Hq Hqf.
      destruct (Hbets q Hq Hqf) as [_ Hm]. apply Hm. rewrite Hto. apply not_elem_of_nil.
    + destruct (Hsub i) as (q & Hq & Hqf & Hid); [rewrite Hto; apply list_elem_of_here|].
      exists q. split; [done|]. split; [done|]. rewrite Hid. apply list_elem_of_here.
  - intros _. cbn [game set_game].
    pose proof (street_cases _ Hround Hr) as Hstreet.
    clear Hround Hr. unfold enterStreet.
    assert (Hgo : ∀ r, r = Preflop ∨ r = Flop ∨ r = Turn →
              let g' := firstToAct (setToActForNewRound (dealStreet r (cleared (game w1)))) in
              Game.isActive g' = true
              ∧ Game.round g' ∈ [Preflop; Flop; Turn; River]
              ∧ ∃ p, currentPlayer g' = Some p ∧ Player.hasFolded p = false
                     ∧ (0 <= Game.betAmount g' → Player.id p ∈ Game.toActIds g')).
    { intros r Hcases g'.
      destruct (dealStreet_players r (cleared (game w1))) as (Hpl & Hia & _).
      split; [unfold g', firstToAct, setToActForNewRound; simpl; by rewrite Hia|].
      split.
      { unfold g', firstToAct, setToActForNewRound. simpl.
        destruct Hcases as [ -> | [ -> | -> ] ]; simpl; rewrite ?dealBoard_round, burn_round;
          simpl; inList. }
      set (g1 := setToActForNewRound (dealStreet r (cleared (game w1)))).
      assert (Hpl1 : Game.players g1 = Game.players (game w1)) by exact Hpl.
      assert (Hlen1 : (1 <= length (activePlayers g1))%nat).
      { unfold activePlayers. rewrite Hpl1. exact Hlen. }
      destruct (pick_first g1 (Game.dealerButton g1) Hlen1) as (p & Hp & Hf).
      exists p. split; [exact Hp|]. split; [done|]. intros _.
      unfold g', firstToAct, g1, setToActForNewRound. simpl.
      apply list_elem_of_In, in_map, list_elem_of_In, elem_of_activePlayers.
      split; [|done]. apply list_elem_of_lookup. eexists. exact Hp. }
    destruct Hstreet as [Hrd|[Hrd|Hrd]]; rewrite Hrd; apply Hgo; auto.
Qed.

(** What an accepted action hands to [moveToNextPlayer]. *)
Lemma commits_turn playerId w p w1 :
  onTurn playerId w p → commits playerId w p w1 →
  Game.isActive (game w1) = Game.isActive (game w)
  ∧ Game.round (game w1) = Game.round (game w)
  ∧ (toActSubset (game w) → toActSubset (game w1))
  ∧ (length (activePlayers (game w)) <= S (length (activePlayers (game w1))))%nat.
Proof.
  intros (_ & Hp & Hid & Hf) Hc. unfold currentPlayer in Hp.
  destruct Hc as [h Hpos Hle|h Hle|h|k h Hpos Hle Hto|Hpos Hle].
  - split; [done|]. split; [done|]. split.
    + intros Hsub.
      eapply (toActSubset_alter _ _ (game w)); [|reflexivity| |exact Hsub]; [done|].
      intros i Hi. by apply (elem_of_removeFromToAct playerId) in Hi as [? _].
    + match goal with
      | |- (_ <= S (length (activePlayers ?g1)))%nat =>
          rewrite (active_length_alter
                     (Player.set_currentBet (Game.currentBet (game w)))
                     (Game.currentPlayerIndex (game w)) (game w) g1); [lia|done|done]
      end.
  - split; [done|]. split; [done|]. split.
    + intros Hsub. apply (toActSubset_keep (game w)); [reflexivity| |exact Hsub].
      intros i Hi. by apply (elem_of_removeFromToAct playerId) in Hi as [? _].
    + unfold activePlayers. simpl. lia.
  - split; [done|]. split; [done|]. split.
    + intros Hsub.
      eapply (toActSubset_fold playerId _ p (game w));
        [exact Hp|done|reflexivity| |exact Hsub].
      intros i Hi. by apply (elem_of_removeFromToAct playerId) in Hi.
    + by apply (active_length_fold (Game.currentPlayerIndex (game w))).
  - split; [done|]. split; [done|]. split.
    + intros _. by apply (toActSubset_others playerId).
    + match goal with
      | |- (_ <= S (length (activePlayers ?g1)))%nat =>
          rewrite (active_length_alter
                     (Player.set_currentBet (raiseTotal k (game w)))
                     (Game.currentPlayerIndex (game w)) (game w) g1); [lia|done|done]
      end.
  - assert (Hpl : Game.players
                    (wentAllIn playerId p (userAmount (users w) playerId) (game w))
                  = alter (fun x => Player.set_isAllIn true
                                      (Player.set_currentBet
                                         (Player.currentBet p
                                          + userAmount (users w) playerId)
                                         (Player.set_chips 0 x)))
                      (Game.currentPlayerIndex (game w)) (Game.players (game w))).
    { unfold wentAllIn, updCurrent. simpl. destruct (_ <? _); simpl;
        by rewrite !list_alter_alter_eq. }
    split; [unfold wentAllIn; simpl; by destruct (_ <? _)|].
    split; [unfold wentAllIn; simpl; by destruct (_ <? _)|]. split.
    + intros _. by apply (toActSubset_others playerId).
    + cbn [game].
      match type of Hpl with
      | _ = alter ?f ?j _ =>
          rewrite (active_length_alter f j (game w) _ (fun _ => eq_refl) Hpl)
      end.
      lia.
Qed.

(** The same for the fold of the grace timer. *)
Lemma grace_turn playerId i p w :
  Game.players (game w) !! i = Some p → Player.id p = playerId →
  Player.hasFolded p = false → settled w →
  let w1 := graceFolded playerId i w in
  Game.isActive (game w1) = Game.isActive (game w)
  ∧ Game.round (game w1) = Game.round (game w)
  ∧ Game.betAmount (game w1) = Game.betAmount (game w)
  ∧ (toActSubset (game w) → toActSubset (game w1))
  ∧ (0 <= Game.betAmount (game w) → betsSettled (game w1))
  ∧ (length (activePlayers (game w)) <= S (length (activePlayers (game w1))))%nat.
Proof.
  intros Hp Hid Hf [Hnd Hinv] w1. split; [done|]. split; [done|]. split; [done|].
  split; [|split].
  - intros Hsub.
    eapply (toActSubset_fold playerId i p (game w)); [done|done|reflexivity| |exact Hsub].
    intros j Hj. by apply (elem_of_removeFromToAct playerId) in Hj.
  - intros Hs. specialize (Hinv Hs).
    apply (betsSettled_update (game w) _ (Player.set_hasFolded true) i p); try done.
    intros q Hq Hqf Hne Hnot. split; [|done]. eapply not_removed; [|exact Hnot].
    congruence.
  - by apply (active_length_fold i).
Qed.

Lemma checkAndContinueGame_move w w' :
  live w = true →
  (Game.currentPlayerIndex (game w) < length (Game.players (game w)))%nat →
  checkAndContinueGame w = Done w' → moveToNextPlayer w = Done w'.
Proof.
  intros Hlive Hi. unfold checkAndContinueGame, moveToNextPlayer. rewrite Hlive.
  cbn [negb]. destruct (Nat.ltb_spec (Game.currentPlayerIndex (game w))
                          (length (Game.players (game w)))); [|lia].
  destruct (activePlayers (game w)) as [|x [|y rest]]; try done;
    by destruct (closeRound w).
Qed.

(** The deal puts the turn on seat 1. *)
Lemma deal_turn w :
  live w = true → Game.isActive (game w) = true →
  Game.dealerButton (game w) = 0%nat →
  (2 <= length (Game.players (game w)))%nat →
  Forall (fun p => Player.hasFolded p = false) (Game.players (game w)) →
  turnOk (dealCardsAndStartGame w).
Proof.
  intros Hlive Hact Hd Hlen Hall _.
  unfold dealCardsAndStartGame. rewrite Hlive. cbn [negb upd_game set_game game].
  destruct (dealRound_frame (game w)) as (d1 & ps1 & H1).
  pose proof (dealRound_length (game w)) as L1.
  pose proof (dealRound_keeps Player.hasFolded (game w) (fun _ _ => eq_refl)) as F1.
  rewrite H1 in L1, F1 |- *.
  destruct (dealRound_frame (Game.set_players ps1 (Game.set_deck d1 (game w))))
    as (d2 & ps2 & H2).
  pose proof (dealRound_length (Game.set_players ps1 (Game.set_deck d1 (game w)))) as L2.
  pose proof (dealRound_keeps Player.hasFolded
                (Game.set_players ps1 (Game.set_deck d1 (game w)))
                (fun _ _ => eq_refl)) as F2.
  rewrite H2 in L2, F2 |- *. cbn in L1, L2, F1, F2.
  assert (Hn : length ps2 = length (Game.players (game w))) by lia.
  assert (Hfolded : List.map Player.hasFolded ps2
                    = List.map Player.hasFolded (Game.players (game w))).
  { by rewrite F2, F1. }
  unfold postBlinds, setToActForNewRound, currentPlayer. cbn.
  rewrite Hact, Hd, length_map, Hn. split; [done|]. split; [inList|].
  rewrite (Nat.mod_small (0 + 1)) by lia.
  destruct (ps2 !! 1%nat) as [p|] eqn:Hp; [|apply lookup_ge_None in Hp; lia].
  assert (Hpf : Player.hasFolded p = false).
  { assert (Hin : In (Player.hasFolded p) (List.map Player.hasFolded ps2)).
    { apply in_map. apply list_elem_of_In, list_elem_of_lookup. eauto. }
    rewrite Hfolded in Hin. apply in_map_iff in Hin as (q & <- & Hq).
    rewrite Forall_forall in Hall. by apply Hall, list_elem_of_In. }
  exists (Player.set_currentBet 0 p). split.
  { change (List.map (Player.set_currentBet 0) ps2 !! (0 + 1)%nat)
      with ((Player.set_currentBet 0 <$> ps2) !! 1%nat).
    by rewrite list_lookup_fmap, Hp. }
  split; [done|]. intros _.
  apply list_elem_of_In, in_map, filter_In. split; [|by cbn; rewrite Hpf].
  apply in_map, list_elem_of_In, list_elem_of_lookup. eauto.
Qed.

Lemma fresh_unfolded {A} (f : nat → A → Player.t) (l : list A) :
  (∀ i x, Player.hasFolded (f i x) = false) →
  Forall (fun p => Player.hasFolded p = false) (imap f l).
Proof.
  intros Hf. apply Forall_forall. intros p Hp. apply list_elem_of_lookup in Hp as [i Hi].
  rewrite list_lookup_imap in Hi. destruct (l !! i); [|discriminate].
  injection Hi as <-. apply Hf.
Qed.

Lemma played_toAct w : played w → toActSubset (game w).
Proof.
  induction 1 as [| |w _ IH|a playerId w r w' _ IH Hstep|playerId w w' _ IH Hstep
                  |playerId w w' _ IH Hstep].
  - apply startGame_inv.
  - apply createNewGame_inv.
  - by apply dealCardsAndStartGame_inv.
  - by eapply perform_inv.
  - by eapply handleTurnTimeout_inv.
  - by eapply handleInsufficientFundsTimeout_inv.
Qed.

Lemma perform_turn a playerId w r w' :
  played w → turnOk w → perform a playerId w = Done (r, w') → turnOk w'.
Proof.
  intros Hp Ht H.
  destruct (perform_commits _ _ _ _ _ H)
    as [(why & -> & ->)|(-> & p & w1 & w2 & h & Hon & Hc & Hm & ->)]; [done|].
  pose proof (onTurn_live _ _ _ Hon) as Hlive.
  destruct (Ht Hlive) as (Hact & Hround & _).
  destruct (commits_turn _ _ _ _ Hon Hc) as (Hact1 & Hround1 & Hsub1 & Hlen1).
  destruct (commits_players _ _ _ _ Hc) as (_ & _ & _ & Hstake).
  pose proof (settled_commit _ _ _ _ (played_settled w Hp) Hon Hc) as [_ Hbets1].
  destruct (played_seated w Hp) as [_ Htwo]. specialize (Htwo Hlive).
  assert (Hturn : turnOk w2).
  { apply (move_turn w1 w2).
    - rewrite (commits_live _ _ _ _ Hc). exact Hlive.
    - by rewrite Hact1.
    - by rewrite Hround1.
    - apply Hsub1. by apply played_toAct.
    - exact Hbets1.
    - lia.
    - exact Hm. }
  exact Hturn.
Qed.

Lemma turn_timer_turn playerId w w' :
  played w → turnOk w → handleTurnTimeout playerId w = Done w' → turnOk w'.
Proof.
  intros Hp Ht H. unfold handleTurnTimeout in H.
  destruct (Game.players (game w) !! _) as [player|]; [|by injection H as <-].
  destruct (_ && _); [|by injection H as <-].
  destruct (makeFold playerId w) as [[r w1]| |] eqn:Hfold; simpl in H; try discriminate.
  injection H as <-. by apply (perform_turn Fold playerId w r w1).
Qed.

Lemma grace_timer_turn playerId w w' :
  played w → turnOk w → handleInsufficientFundsTimeout playerId w = Done w' → turnOk w'.
Proof.
  intros Hp Ht H. unfold handleInsufficientFundsTimeout in H.
  destruct (live w) eqn:Hlive; [|by injection H as <-]. cbn [negb] in H.
  destruct (findIndex _ _) as [i|] eqn:Hidx; [|by injection H as <-].
  destruct (Game.players (game w) !! i) as [player|] eqn:Hpl; [|by injection H as <-].
  destruct (Player.hasFolded player) eqn:Hf; [by injection H as <-|].
  destruct (_ <? _); [|by injection H as <-].
  assert (Hid : Player.id player = playerId).
  { apply findIndex_Some in Hidx as (q & Hq & Hqid). rewrite Hpl in Hq.
    injection Hq as <-. by apply String.eqb_eq. }
  destruct (Ht Hlive) as (Hact & Hround & _).
  destruct (grace_turn playerId i player w Hpl Hid Hf (played_settled w Hp))
    as (Hact1 & Hround1 & Hstake & Hsub1 & Hbets1 & Hlen1).
  destruct (played_seated w Hp) as [_ Htwo]. specialize (Htwo Hlive).
  destruct (played_inRange w Hp) as [_ Hin].
  change (checkAndContinueGame (graceFolded playerId i w) = Done w') in H.
  apply checkAndContinueGame_move in H; [|done|].
  2:{ unfold graceFolded. simpl. by rewrite length_alter. }
  apply (move_turn (graceFolded playerId i w) w').
  - exact Hlive.
  - by rewrite Hact1.
  - by rewrite Hround1.
  - apply Hsub1. by apply played_toAct.
  - rewrite Hstake. exact Hbets1.
  - lia.
  - exact H.
Qed.

Lemma dealt_turn w : dealt w → turnOk w.
Proof.
  induction 1 as [gameId clanId channelId nameOf playerIds betAmount w [Htwo Hnd]
                  |gameId clanId channelId players betAmount w [Htwo Hnd]
                  |a playerId w r w' Hd IH Hstep|playerId w w' Hd IH Hstep
                  |playerId w w' Hd IH Hstep].
  - apply deal_turn; unfold startGame, deductPlayersFunds; destruct (shuffleDeck _ _);
      try done; cbn [game Game.players newGame].
    + by rewrite length_imap.
    + by apply fresh_unfolded.
  - unfold createNewGame. destruct (shuffleDeck _ _).
    apply deal_turn; try done; cbn [game Game.players Game.set_deck newGame].
    + rewrite length_imap. by rewrite length_map in Htwo.
    + by apply fresh_unfolded.
  - apply (perform_turn a playerId w r w'); [by apply dealt_played|done|done].
  - apply (turn_timer_turn playerId w w'); [by apply dealt_played|done|done].
  - apply (grace_timer_turn playerId w w'); [by apply dealt_played|done|done].
Qed.


End TurnFacts.

(** ** The cards of each street *)

Section StreetFacts.
Import Cards Evaluator Engine Props Steps Invariants Hands Streets.

Lemma stocked_snoc n g :
  stocked (S n) g →
  ∃ c rest, Game.deck g = (rest ++ [c])%list ∧ c ≠ "" ∧ Forall (fun c => c ≠ "") rest
            ∧ (n <= length rest)%nat.
Proof.
  intros [Hlen Hne]. destruct (Game.deck g) as [|c rest _] using rev_ind.
  - simpl in Hlen. lia.
  - apply Forall_app in Hne as [Hrest Hc]. apply Forall_cons in Hc as [Hc _].
    exists c, rest. rewrite length_app in Hlen. simpl in Hlen.
    repeat split; try done. lia.
Qed.

Lemma burn_counts n g :
  stocked (S n) g →
  stocked n (burn g)
  ∧ S (length (Game.deck (burn g))) = length (Game.deck g)
  ∧ length (Game.burned (burn g)) = S (length (Game.burned g))
  ∧ Game.board (burn g) = Game.board g
  ∧ Game.round (burn g) = Game.round g.
Proof.
  intros H. destruct (stocked_snoc n g H) as (c & rest & Hd & Hc & Hrest & Hlen).
  unfold burn. rewrite Hd, pop_snoc. cbn. rewrite !length_app. simpl.
  repeat split; try done; lia.
Qed.

Lemma dealBoard_counts n g :
  stocked (S n) g →
  stocked n (dealBoard g)
  ∧ S (length (Game.deck (dealBoard g))) = length (Game.deck g)
  ∧ length (Game.board (dealBoard g)) = S (length (Game.board g))
  ∧ Game.burned (dealBoard g) = Game.burned g
  ∧ Game.round (dealBoard g) = Game.round g.
Proof.
  intros H. destruct (stocked_snoc n g H) as (c & rest & Hd & Hc & Hrest & Hlen).
  unfold dealBoard. rewrite Hd, pop_snoc, truthy_Some by done. cbn.
  rewrite !length_app. simpl. repeat split; try done; lia.
Qed.

(** The street dealt after round [r]. *)
Lemma dealStreet_counts r g :
  r = Preflop ∨ r = Flop ∨ r = Turn →
  stocked (match r with Preflop => 4 | _ => 2 end) g →
  Game.round g = r →
  length (Game.board g) = boardFor r → length (Game.burned g) = burnedFor r →
  let g' := dealStreet r g in
  length (Game.board g') = boardFor (Game.round g')
  ∧ length (Game.burned g') = burnedFor (Game.round g')
  ∧ (length (Game.deck g') + boardFor (Game.round g') + burnedFor (Game.round g')
     = length (Game.deck g) + boardFor r + burnedFor r)%nat.
Proof.
  intros Hr Hs Hround Hb Hu.
  destruct Hr as [ -> | [ -> | -> ] ]; cbn [dealStreet boardFor burnedFor] in *.
  - assert (H0 : stocked 4 (Game.set_round Flop g)) by exact Hs.
    destruct (burn_counts 3 _ H0) as (H1 & D1 & U1 & B1 & R1).
    destruct (dealBoard_counts 2 _ H1) as (H2 & D2 & B2 & U2 & R2).
    destruct (dealBoard_counts 1 _ H2) as (H3 & D3 & B3 & U3 & R3).
    destruct (dealBoard_counts 0 _ H3) as (H4 & D4 & B4 & U4 & R4).
    assert (Hrd : Game.round (dealBoard (dealBoard (dealBoard
                    (burn (Game.set_round Flop g))))) = Flop).
    { by rewrite R4, R3, R2, R1. }
    rewrite Hrd. cbn [boardFor burnedFor].
    apply (f_equal (@length _)) in B1, U2, U3, U4.
    assert (E1 : length (Game.board (Game.set_round Flop g)) = length (Game.board g))
      by reflexivity.
    assert (E2 : length (Game.burned (Game.set_round Flop g)) = length (Game.burned g))
      by reflexivity.
    assert (E3 : length (Game.deck (Game.set_round Flop g)) = length (Game.deck g))
      by reflexivity.
    repeat split; lia.
  - assert (H0 : stocked 2 (Game.set_round Turn g)) by exact Hs.
    destruct (burn_counts 1 _ H0) as (H1 & D1 & U1 & B1 & R1).
    destruct (dealBoard_counts 0 _ H1) as (H2 & D2 & B2 & U2 & R2).
    assert (Hrd : Game.round (dealBoard (burn (Game.set_round Turn g))) = Turn).
    { by rewrite R2, R1. }
    rewrite Hrd. cbn [boardFor burnedFor].
    apply (f_equal (@length _)) in B1, U2.
    assert (E1 : length (Game.board (Game.set_round Turn g)) = length (Game.board g))
      by reflexivity.
    assert (E2 : length (Game.burned (Game.set_round Turn g)) = length (Game.burned g))
      by reflexivity.
    assert (E3 : length (Game.deck (Game.set_round Turn g)) = length (Game.deck g))
      by reflexivity.
    repeat split; lia.
  - assert (H0 : stocked 2 (Game.set_round River g)) by exact Hs.
    destruct (burn_counts 1 _ H0) as (H1 & D1 & U1 & B1 & R1).
    destruct (dealBoard_counts 0 _ H1) as (H2 & D2 & B2 & U2 & R2).
    assert (Hrd : Game.round (dealBoard (burn (Game.set_round River g))) = River).
    { by rewrite R2, R1. }
    rewrite Hrd. cbn [boardFor burnedFor].
    apply (f_equal (@length _)) in B1, U2.
    assert (E1 : length (Game.board (Game.set_round River g)) = length (Game.board g))
      by reflexivity.
    assert (E2 : length (Game.burned (Game.set_round River g)) = length (Game.burned g))
      by reflexivity.
    assert (E3 : length (Game.deck (Game.set_round River g)) = length (Game.deck g))
      by reflexivity.
    repeat split; lia.
Qed.

(** One card to each of the seats [a], ..., [a + m - 1]. *)
Lemma dealHoles_counts m a g :
  stocked m g →
  let g' := fold_left dealHole (seq a m) g in
  (length (Game.deck g') + m = length (Game.deck g))%nat
  ∧ Forall (fun c => c ≠ "") (Game.deck g')
  ∧ length (Game.players g') = length (Game.players g)
  ∧ ∀ j p', Game.players g' !! j = Some p' →
      ∃ p, Game.players g !! j = Some p
           ∧ length (Player.hole p')
             = (length (Player.hole p)
                + (if bool_decide (a <= j < a + m)%nat then 1 else 0))%nat.
Proof.
  revert a g. induction m as [|m IH]; intros a g Hs; cbn [seq fold_left].
  - destruct Hs as [_ Hne]. split; [lia|]. split; [done|]. split; [done|].
    intros j p' Hp'. exists p'. split; [done|].
    rewrite bool_decide_eq_false_2 by lia. lia.
  - destruct (stocked_snoc m g Hs) as (c & rest & Hd & Hc & Hrest & Hlen).
    assert (Hg1 : dealHole g a
                  = Game.set_players
                      (alter (fun p => Player.set_hole (Player.hole p ++ [c]) p) a
                         (Game.players g))
                      (Game.set_deck rest g)).
    { unfold dealHole. by rewrite Hd, pop_snoc, truthy_Some. }
    rewrite Hg1.
    destruct (IH (S a)
                (Game.set_players
                   (alter (fun p => Player.set_hole (Player.hole p ++ [c]) p) a
                      (Game.players g))
                   (Game.set_deck rest g))) as (Hdeck & Hne & Hn & Hholes).
    { by split. }
    cbn in Hdeck, Hn, Hholes.
    rewrite length_alter in Hn. rewrite Hd, length_app. simpl.
    split; [lia|]. split; [done|]. split; [done|].
    intros j p' Hp'. destruct (Hholes j p' Hp') as (p1 & Hp1 & Hl1).
    destruct (decide (j = a)) as [->|Hne'].
    + rewrite list_lookup_alter_eq in Hp1.
      destruct (Game.players g !! a) as [q|] eqn:Hq; [|discriminate].
      simpl in Hp1. injection Hp1 as <-.
      exists q. split; [done|]. rewrite Hl1. cbn. rewrite length_app. simpl.
      rewrite bool_decide_eq_false_2 by lia. rewrite bool_decide_eq_true_2 by lia. lia.
    + rewrite list_lookup_alter_ne in Hp1 by done. exists p1. split; [done|].
      rewrite Hl1. destruct (decide (S a <= j < S a + m)%nat).
      * by rewrite !bool_decide_eq_true_2 by lia.
      * by rewrite !bool_decide_eq_false_2 by lia.
Qed.

Lemma dealRound_counts g :
  stocked (length (Game.players g)) g →
  (length (Game.deck (dealRound g)) + length (Game.players g) = length (Game.deck g))%nat
  ∧ Forall (fun c => c ≠ "") (Game.deck (dealRound g))
  ∧ length (Game.players (dealRound g)) = length (Game.players g)
  ∧ ∀ j p', Game.players (dealRound g) !! j = Some p' →
      ∃ p, Game.players g !! j = Some p
           ∧ length (Player.hole p') = S (length (Player.hole p)).
Proof.
  intros Hs. destruct (dealHoles_counts _ 0 g Hs) as (Hd & Hne & Hn & Hholes).
  split; [done|]. split; [done|]. split; [done|].
  intros j p' Hp'. destruct (Hholes j p' Hp') as (p & Hp & Hl). exists p. split; [done|].
  rewrite Hl. apply lookup_lt_Some in Hp. rewrite bool_decide_eq_true_2 by lia. lia.
Qed.

(** The deal from a new, shuffled deck. *)
Lemma deal_street w :
  live w = true →
  length (Game.deck (game w)) = 52%nat → Forall (fun c => c ≠ "") (Game.deck (game w)) →
  Forall (fun p => Player.hole p = []) (Game.players (game w)) →
  Game.board (game w) = [] → Game.burned (game w) = [] →
  streetOk (dealCardsAndStartGame w).
Proof.
  intros Hlive Hdeck Hne Hholes Hboard Hburned _ Hn.
  assert (Hlen : length (Game.players (game (dealCardsAndStartGame w)))
                 = length (Game.players (game w))).
  { pose proof (dealt_keeps Player.id w (fun _ _ => eq_refl) (fun _ _ => eq_refl)) as H.
    by rewrite <- (length_map Player.id), H, length_map. }
  rewrite Hlen in Hn. clear Hlen.
  unfold dealCardsAndStartGame. rewrite Hlive. cbn [negb upd_game set_game game].
  destruct (dealRound_counts (game w)) as (D1 & N1 & L1 & H1); [split; [lia|done]|].
  destruct (dealRound_counts (dealRound (game w))) as (D2 & N2 & L2 & H2);
    [split; [lia|done]|].
  destruct (dealRound_frame (game w)) as (d1 & ps1 & F1).
  destruct (dealRound_frame (dealRound (game w))) as (d2 & ps2 & F2).
  rewrite F2 in D2, L2, H2 |- *. rewrite F1 in D1, L1, H1, D2, L2, H2 |- *.
  unfold postBlinds, setToActForNewRound. cbn in D1, L1, H1, D2, L2, H2 |- *.
  rewrite length_map, Hboard, Hburned. split; [|split; [done|split; [done|lia]]].
  apply Forall_forall. intros p Hp.
  apply list_elem_of_In, in_map_iff in Hp as (p2 & <- & Hp2).
  apply list_elem_of_In, list_elem_of_lookup in Hp2 as [j Hj].
  destruct (H2 j p2 Hj) as (p1 & Hp1 & Hl2). destruct (H1 j p1 Hp1) as (p0 & Hp0 & Hl1).
  rewrite Forall_forall in Hholes.
  rewrite (Hholes p0) in Hl1 by (apply list_elem_of_lookup; eauto).
  cbn. rewrite Hl2, Hl1. done.
Qed.

(** What an accepted action does not touch. *)
Lemma commits_table playerId w p w1 :
  commits playerId w p w1 →
  List.map Player.hole (Game.players (game w1))
  = List.map Player.hole (Game.players (game w))
  ∧ Game.board (game w1) = Game.board (game w)
  ∧ Game.burned (game w1) = Game.burned (game w)
  ∧ Game.deck (game w1) = Game.deck (game w)
  ∧ Game.round (game w1) = Game.round (game w).
Proof.
  destruct 1; unfold raisedTo, wentAllIn; simpl;
    try (destruct (_ <? _); simpl); rewrite ?map_alter_keep; done.
Qed.

Lemma holes_by (l l' : list Player.t) :
  List.map Player.hole l' = List.map Player.hole l →
  Forall (fun p => length (Player.hole p) = 2%nat) l →
  Forall (fun p => length (Player.hole p) = 2%nat) l'.
Proof. apply (Forall_by Player.hole (fun h => length h = 2%nat)). Qed.

Lemma fullDeck_stock g : fullDeck g → Forall (fun c => c ≠ "") (Game.deck g).
Proof.
  intros Hfull. apply fullDeck_blank, blank_deck in Hfull.
  apply Forall_forall. intros c Hc ->. done.
Qed.

(** The cards after [moveToNextPlayer], when the hand goes on. *)
Lemma move_street w1 w2 :
  live w1 = true → fullDeck (game w1) →
  Game.round (game w1) ∈ [Preflop; Flop; Turn; River] →
  (length (Game.players (game w1)) <= 22)%nat →
  Forall (fun p => length (Player.hole p) = 2%nat) (Game.players (game w1)) →
  length (Game.board (game w1)) = boardFor (Game.round (game w1)) →
  length (Game.burned (game w1)) = burnedFor (Game.round (game w1)) →
  (length (Game.deck (game w1)) + 2 * length (Game.players (game w1))
   + boardFor (Game.round (game w1)) + burnedFor (Game.round (game w1)) = 52)%nat →
  moveToNextPlayer w1 = Done w2 →
  live w2 = true →
  Forall (fun p => length (Player.hole p) = 2%nat) (Game.players (game w2))
  ∧ length (Game.board (game w2)) = boardFor (Game.round (game w2))
  ∧ length (Game.burned (game w2)) = burnedFor (Game.round (game w2))
  ∧ (length (Game.deck (game w2)) + 2 * length (Game.players (game w2))
     + boardFor (Game.round (game w2)) + burnedFor (Game.round (game w2)) = 52)%nat.
Proof.
  intros Hlive Hfull Hround Hn Hholes Hboard Hburned Hdeck Hmove Hlive2.
  destruct (moveToNextPlayer_cases _ _ Hlive Hmove)
    as [(w0 & Hover & ->)|[Hnf [[Hc ->]|(Hc & Hr & ->)]]].
  - destruct (resetForNextHand_spec w0) as (_ & Hdead & _).
    rewrite Hdead in Hlive2. discriminate.
  - done.
  - pose proof (street_cases _ Hround Hr) as Hstreet. cbn [game set_game].
    destruct (enterStreet_seats (game w1)) as (Hpl & _).
    rewrite Hpl. split; [done|].
    assert (Hstock : stocked (match Game.round (game w1) with Preflop => 4 | _ => 2 end)
                       (cleared (game w1))).
    { split; [|by apply fullDeck_stock]. cbn.
      destruct Hstreet as [Hrd|[Hrd|Hrd]]; rewrite Hrd in Hdeck |- *; cbn in Hdeck; lia. }
    pose proof (dealStreet_counts (Game.round (game w1)) (cleared (game w1)) Hstreet
                  Hstock eq_refl Hboard Hburned) as (Hb' & Hu' & Hd').
    assert (Heq : ∀ r, r = Preflop ∨ r = Flop ∨ r = Turn →
              enterStreet (Game.set_round r (game w1))
              = firstToAct (setToActForNewRound
                              (dealStreet r (cleared (Game.set_round r (game w1)))))).
    { intros r [ -> | [ -> | -> ] ]; reflexivity. }
    assert (Hsame : Game.set_round (Game.round (game w1)) (game w1) = game w1)
      by reflexivity.
    specialize (Heq _ Hstreet). rewrite Hsame in Heq. rewrite Heq.
    unfold firstToAct, setToActForNewRound. cbn.
    cbn in Hb', Hu', Hd'. rewrite Hb', Hu'. split; [done|]. split; [done|]. lia.
Qed.

Lemma perform_street a playerId w r w' :
  played w → turnOk w → streetOk w → perform a playerId w = Done (r, w') → streetOk w'.
Proof.
  intros Hp Ht Hs H.
  destruct (perform_commits _ _ _ _ _ H)
    as [(why & -> & ->)|(-> & p & w1 & w2 & h & Hon & Hc & Hm & ->)]; [done|].
  pose proof (onTurn_live _ _ _ Hon) as Hlive.
  destruct (Ht Hlive) as (_ & Hround & _).
  destruct (commits_table _ _ _ _ Hc) as (Hh & Hb & Hu & Hd & Hr).
  destruct (commits_players _ _ _ _ Hc) as (Hn & _).
  pose proof (reachable_fullDeck w (played_reachable w Hp)) as Hfull.
  intros Hlive' Hn'.
  assert (Hn2 : length (Game.players (game w2)) = length (Game.players (game w))).
  { rewrite <- Hn. apply (f_equal (@length _)).
    assert (Hl1 : live w1 = true) by (by rewrite (commits_live _ _ _ _ Hc)).
    destruct (moveToNextPlayer_cases _ _ Hl1 Hm)
      as [(w0 & Hover & ->)|[Hnf [[Hcl ->]|(Hcl & Hrr & ->)]]].
    - destruct (resetForNextHand_spec w0) as (_ & Hdead & _).
      change (live (resetForNextHand w0) = true) in Hlive'.
      rewrite Hdead in Hlive'. discriminate.
    - done.
    - by destruct (enterStreet_seats (game w1)) as (Hpl & _). }
  cbn in Hn'. rewrite Hn2 in Hn'.
  destruct (Hs Hlive Hn') as (Hholes & Hboard & Hburned & Hdeck).
  apply (move_street w1 w2); try done.
  - by rewrite (commits_live _ _ _ _ Hc).
  - unfold fullDeck. by rewrite (commits_cards _ _ _ _ Hc).
  - by rewrite Hr.
  - by rewrite Hn.
  - by apply (holes_by (Game.players (game w))).
  - by rewrite Hb, Hr.
  - by rewrite Hu, Hr.
  - by rewrite Hd, Hn, Hr.
Qed.

Lemma turn_timer_street playerId w w' :
  played w → turnOk w → streetOk w → handleTurnTimeout playerId w = Done w' →
  streetOk w'.
Proof.
  intros Hp Ht Hs H. unfold handleTurnTimeout in H.
  destruct (Game.players (game w) !! _) as [player|]; [|by injection H as <-].
  destruct (_ && _); [|by injection H as <-].
  destruct (makeFold playerId w) as [[r w1]| |] eqn:Hfold; simpl in H; try discriminate.
  injection H as <-. by apply (perform_street Fold playerId w r w1).
Qed.

Lemma grace_timer_street playerId w w' :
  played w → turnOk w → streetOk w →
  handleInsufficientFundsTimeout playerId w = Done w' → streetOk w'.
Proof.
  intros Hp Ht Hs H. unfold handleInsufficientFundsTimeout in H.
  destruct (live w) eqn:Hlive; [|by injection H as <-]. cbn [negb] in H.
  destruct (findIndex _ _) as [i|] eqn:Hidx; [|by injection H as <-].
  destruct (Game.players (game w) !! i) as [player|] eqn:Hpl; [|by injection H as <-].
  destruct (Player.hasFolded player) eqn:Hf; [by injection H as <-|].
  destruct (_ <? _); [|by injection H as <-].
  destruct (Ht Hlive) as (_ & Hround & _).
  destruct (played_inRange w Hp) as [_ Hin].
  pose proof (reachable_fullDeck w (played_reachable w Hp)) as Hfull.
  change (checkAndContinueGame (graceFolded playerId i w) = Done w') in H.
  apply checkAndContinueGame_move in H; [|done|].
  2:{ unfold graceFolded. simpl. by rewrite length_alter. }
  intros Hlive' Hn'.
  assert (Hn2 : length (Game.players (game w')) = length (Game.players (game w))).
  { transitivity (length (Game.players (game (graceFolded playerId i w))));
      [|unfold graceFolded; simpl; by rewrite length_alter].
    apply (f_equal (@length _)).
    destruct (moveToNextPlayer_cases (graceFolded playerId i w) w' Hlive H)
      as [(w0 & Hover & ->)|[Hnf [[Hcl ->]|(Hcl & Hrr & ->)]]].
    - destruct (resetForNextHand_spec w0) as (_ & Hdead & _).
      rewrite Hdead in Hlive'. discriminate.
    - done.
    - by destruct (enterStreet_seats (game (graceFolded playerId i w))) as (Hpl' & _). }
  rewrite Hn2 in Hn'.
  destruct (Hs Hlive Hn') as (Hholes & Hboard & Hburned & Hdeck).
  apply (move_street (graceFolded playerId i w) w'); try done.
  - unfold fullDeck, graceFolded.
    erewrite cardsOf_same; [exact Hfull| |done|done|done]. simpl. by rewrite map_alter_keep.
  - unfold graceFolded. simpl. by rewrite length_alter.
  - apply (holes_by (Game.players (game w))); [|done].
    unfold graceFolded. simpl. by rewrite map_alter_keep.
  - unfold graceFolded. simpl. by rewrite length_alter.
Qed.

Lemma shuffled_deck rnd :
  length (shuffleDeck createDeck rnd).1 = 52%nat
  ∧ Forall (fun c => c ≠ "") (shuffleDeck createDeck rnd).1.
Proof.
  pose proof (shuffleDeck_Permutation createDeck rnd) as Hperm. split.
  - by rewrite Hperm.
  - apply Forall_forall. intros c Hc ->. rewrite Hperm in Hc. by apply blank_createDeck.
Qed.

Lemma fresh_holes {A} (f : nat → A → Player.t) (l : list A) :
  (∀ i x, Player.hole (f i x) = []) →
  Forall (fun p => Player.hole p = []) (imap f l).
Proof.
  intros Hf. apply Forall_forall. intros p Hp. apply list_elem_of_lookup in Hp as [i Hi].
  rewrite list_lookup_imap in Hi. destruct (l !! i); [|discriminate].
  injection Hi as <-. apply Hf.
Qed.

Lemma dealt_street w : dealt w → streetOk w.
Proof.
  induction 1 as [gameId clanId channelId nameOf playerIds betAmount w [Htwo Hnd]
                  |gameId clanId channelId players betAmount w [Htwo Hnd]
                  |a playerId w r w' Hd IH Hstep|playerId w w' Hd IH Hstep
                  |playerId w w' Hd IH Hstep].
  - unfold startGame, deductPlayersFunds.
    destruct (shuffled_deck (draws w)) as [Hlen Hne].
    destruct (shuffleDeck _ _) as [deck rnd]. cbn in Hlen, Hne.
    apply deal_street; try done. cbn. by apply fresh_holes.
  - unfold createNewGame.
    destruct (shuffled_deck (draws w)) as [Hlen Hne]. cbn [Game.deck newGame].
    destruct (shuffleDeck _ _) as [deck rnd]. cbn in Hlen, Hne.
    apply deal_street; try done. cbn. by apply fresh_holes.
  - apply (perform_street a playerId w r w');
      [by apply dealt_played|by apply dealt_turn|done|done].
  - apply (turn_timer_street playerId w w');
      [by apply dealt_played|by apply dealt_turn|done|done].
  - apply (grace_timer_street playerId w w');
      [by apply dealt_played|by apply dealt_turn|done|done].
Qed.

(** X28: at a table of 22 players or fewer where the cards were dealt
    before anybody acted, as long as the game is in [activeGames] every
    player holds two hole cards, the board holds 0, 3, 4 or 5 cards and 0, 1,
    2 or 3 cards are burnt on preflop, flop, turn and river, the deck holds
    the rest of the 52 cards, and no card lies in two places. *)
Theorem streets_deal_the_right_cards (w : World) :
  dealt w → live w = true → (length (Game.players (game w)) <= 22)%nat →
  Forall (fun p => length (Player.hole p) = 2%nat) (Game.players (game w))
  ∧ length (Game.board (game w)) = boardFor (Game.round (game w))
  ∧ length (Game.burned (game w)) = burnedFor (Game.round (game w))
  ∧ (length (Game.deck (game w)) + 2 * length (Game.players (game w))
     + length (Game.board (game w)) + length (Game.burned (game w)) = 52)%nat
  ∧ NoDup (cardsOf (game w)).
Proof.
  intros Hd Hlive Hn. destruct (dealt_street w Hd Hlive Hn) as (Hh & Hb & Hu & Hdeck).
  split; [done|]. split; [done|]. split; [done|]. split; [by rewrite Hb, Hu|].
  pose proof (reachable_fullDeck w (played_reachable w (dealt_played w Hd))) as Hfull.
  unfold fullDeck in Hfull. rewrite Hfull. apply createDeck_NoDup.
Qed.

End StreetFacts.

(** ** The theorems at work on sample tables *)

Section Samples.
Import Cards Evaluator Engine Props Steps Examples.

Lemma table_onTurn_b : ∃ p, onTurn "b" table p.
Proof. eexists. split; [|split; [|split]]; vm_compute; reflexivity. Defined.

Lemma table_played : played table.
Proof.
  unfold table. apply reach_deal, reach_start. split; [simpl; lia|].
  apply (bool_decide_unpack _). vm_compute. reflexivity.
Defined.

Lemma table_notFoldOut : notFoldOut (game table).
Proof. intros x H. vm_compute in H. discriminate. Defined.

(** "a" sends a call while it is "b"'s turn: refused, nothing changes. *)
Lemma refused_action_witness : ∃ why, perform Call "a" table = Done (Failure why, table).
Proof.
  apply refused_action_changes_nothing. right.
  eexists. split; [vm_compute; reflexivity|]. left. vm_compute. discriminate.
Defined.

(** "b" raises by the stake at the dealt table. *)
Lemma raise_witness :
  Game.toActIds (game raised) = ["a"; "c"]
  ∧ Game.currentBet (game raised) = 1000
  ∧ Game.lastAggressorIndex (game raised) = Some 1%nat.
Proof.
  destruct (raise_resets_obligations ByBetAmount "b" table Success raised)
    as (p & _ & Hto & _ & Hbet & Hagg & _).
  - exact table_played.
  - vm_compute. reflexivity.
  - reflexivity.
  - split; [rewrite Hto; vm_compute; reflexivity|].
    split; [rewrite Hbet; vm_compute; reflexivity|].
    rewrite Hagg. vm_compute. reflexivity.
Defined.


(** Heads-up, "b" folds: "a" takes the pot of 2000. *)
Lemma fold_out_witness :
  ∃ W w', foldBy FoldSent "b" headsUp = Done w' ∧ settledFor W headsUp w'.
Proof.
  eexists. eapply fold_out_awards_pot.
  - eapply folds_sent. split; [|split; [|split]]; vm_compute; reflexivity.
  - vm_compute. reflexivity.
Defined.

(** Both players hold the royal flush of the board; the first one is paid. *)
Lemma showdown_witness :
  ∃ winner r rest w',
    rankContenders (game tied) (activePlayers (game tied)) = Some ((winner, r) :: rest)
    ∧ winner ∈ activePlayers (game tied)
    ∧ showdownOf AtRiver tied = Done w'
    ∧ settledFor winner tied w'.
Proof.
  apply (showdown_single_winner AtRiver tied).
  - reflexivity.
  - vm_compute. lia.
  - vm_compute. reflexivity.
Defined.

(** The tie of [tied], spelled out: equal hands, and the whole pot of 2000
    to "a", nothing to "b". *)
Example tied_hands_one_winner :
  calculateHandRank ["2♥️"; "3♦️"; "A♠️"; "K♠️"; "Q♠️"; "J♠️"; "10♠️"]
  = calculateHandRank ["4♣️"; "5♥️"; "A♠️"; "K♠️"; "Q♠️"; "J♠️"; "10♠️"]
  ∧ users (worldOr (handleShowdown tied) tied) = {[ "a" := 6000; "b" := 2000 ]}
  ∧ Game.pot (game (worldOr (handleShowdown tied) tied)) = 0.
Proof. split; [|split]; vm_compute; reflexivity. Qed.

(** The closure condition and the absence of an all-in, as tests that can
    be run on a sample table. *)
Lemma sample_closed (w : World) :
  Game.toActIds (game w) = [] →
  forallb (fun p => Player.hasFolded p || (Player.currentBet p =? Game.currentBet (game w)))
    (Game.players (game w)) = true →
  roundClosed (game w).
Proof.
  intros Hto Hall. split; [done|]. intros p Hp Hf.
  rewrite forallb_forall in Hall. apply list_elem_of_In in Hp.
  specialize (Hall p Hp). rewrite Hf in Hall. by apply Z.eqb_eq in Hall.
Defined.

Lemma sample_nobody_allin (w : World) :
  forallb (fun p => negb (Player.isAllIn p)) (Game.players (game w)) = true →
  ¬ someoneAllIn (game w).
Proof.
  intros Hall (p & Hp & _ & Ha). rewrite forallb_forall in Hall.
  apply list_elem_of_In in Hp. specialize (Hall p Hp). by rewrite Ha in Hall.
Defined.

(** The branches at work: at the dealt table everybody has still to act and
    the turn passes; once all three have checked the flop is entered; on the
    river of [tied] the showdown is held; heads-up with "b" all-in and called
    the board is run out for the showdown; before the deal nothing moves. *)
Lemma round_closure_witness :
  moveToNextPlayer table = Done (passTurn table)
  ∧ (∃ w', moveToNextPlayer checkedAround = Done w'
           ∧ Game.round (game w') = Flop
           ∧ Game.toActIds (game w') = ["a"; "b"; "c"])
  ∧ moveToNextPlayer tied = handleShowdown (upd_game (Game.set_round Showdown) tied)
  ∧ (moveToNextPlayer calledAllIn = handleShowdown (upd_game revealRemainingBoard calledAllIn)
     ∧ length (Game.board (revealRemainingBoard (game calledAllIn))) = 5%nat)
  ∧ moveToNextPlayer undealt = Done (upd_game cleared undealt).
Proof.
  split; [|split; [|split; [|split]]].
  - destruct (round_closure table) as (_ & H & _).
    destruct (H table_notFoldOut) as (_ & _ & _ & _ & _ & Hopen).
    apply Hopen. intros [Hnil _]. vm_compute in Hnil. discriminate.
  - destruct (round_closure checkedAround) as (_ & H & _).
    destruct H as (_ & _ & Hadv & _).
    { intros x Hx. vm_compute in Hx. discriminate. }
    destruct Hadv as (w' & Hrun & Hround & Hto & _).
    + apply sample_closed; vm_compute; reflexivity.
    + apply sample_nobody_allin. vm_compute. reflexivity.
    + apply list_elem_of_here.
    + exists w'. split; [done|]. split; [exact Hround|]. rewrite Hto. vm_compute. reflexivity.
  - destruct (round_closure tied) as (_ & H & _).
    destruct H as (_ & Hriver & _).
    { intros x Hx. vm_compute in Hx. discriminate. }
    apply Hriver.
    + apply sample_closed; vm_compute; reflexivity.
    + apply sample_nobody_allin. vm_compute. reflexivity.
    + reflexivity.
  - destruct (round_closure calledAllIn) as (_ & H & _).
    destruct H as (Hallin & _).
    { intros x Hx. vm_compute in Hx. discriminate. }
    destruct Hallin as (Hrun & Hboard).
    + apply sample_closed; vm_compute; reflexivity.
    + eexists. split; [apply list_elem_of_In; vm_compute; right; left; reflexivity|].
      split; vm_compute; reflexivity.
    + split; [exact Hrun|]. apply Hboard.
      * vm_compute. discriminate.
      * vm_compute. apply list_elem_of_here.
      * split; [vm_compute; lia|]. apply (bool_decide_unpack _). vm_compute. reflexivity.
  - destruct (round_closure undealt) as (_ & H & _).
    destruct H as (_ & _ & _ & Hwait & _).
    { intros x Hx. vm_compute in Hx. discriminate. }
    apply Hwait.
    + apply sample_closed; vm_compute; reflexivity.
    + apply sample_nobody_allin. vm_compute. reflexivity.
    + reflexivity.
Defined.


End Samples.

(** ** The further theorems at work *)

Section MoreSamples.
Import Cards Evaluator Engine Props Invariants Examples.

Lemma table_reachable : reachable table.
Proof. unfold table. by apply reach_deal, reach_start. Defined.


Lemma continued_played : played continued.
Proof.
  unfold continued. apply reach_continue. split; [simpl; lia|].
  apply (bool_decide_unpack _). vm_compute. reflexivity.
Defined.

(** The ace of spades is card 12 of a new deck. *)
Lemma deck_cards_decode_witness :
  createDeck !! 12%nat = Some "A♠️"
  ∧ getCardSuit "A♠️" = "♠️"
  ∧ getCardValue "A♠️" = Some 14.
Proof. exact (deck_cards_decode 12 0 "A" "♠️" eq_refl eq_refl). Defined.

(** The five cards with the king are not ranked above the six. *)
Lemma best_five_witness :
  ∃ r s, calculateHandRank pairOfAces6 = Some r
         ∧ calculateHandRank pairOfAcesKing = Some s
         ∧ rank s <= rank r.
Proof.
  eexists _, _. split; [vm_compute; reflexivity|]. split; [vm_compute; reflexivity|].
  apply (best_five_category_maximal pairOfAces6 pairOfAcesKing).
  - vm_compute. reflexivity.
  - apply (bool_decide_unpack _). vm_compute. reflexivity.
  - vm_compute. reflexivity.
Defined.

(** A pair of aces is called a pair. *)
Lemma rank_name_witness :
  ∃ r, calculateHandRank pairOfAcesKing = Some r ∧ 1 <= rank r <= 10.
Proof.
  eexists. split; [vm_compute; reflexivity|].
  refine (proj1 (rank_has_a_name pairOfAcesKing _ _)). vm_compute. reflexivity.
Defined.

(** The same five cards, last card first. *)
Lemma any_order_witness :
  calculateHandRank (rev pairOfAcesKing) = calculateHandRank pairOfAcesKing
  ∧ evaluateBasicHand (rev pairOfAcesKing) = evaluateBasicHand pairOfAcesKing.
Proof.
  apply five_cards_in_any_order; [reflexivity|apply Permutation_rev].
Defined.

(** A call out of turn at the dealt table returns. *)
Lemma operations_return_witness : ∃ r w', perform Call "a" table = Done (r, w').
Proof. exact (proj1 (played_operations_return table table_played) Call "a"). Defined.

Lemma no_card_twice_witness :
  NoDup (cardsOf (game table)) ∧ length (cardsOf (game table)) = 52%nat.
Proof. exact (proj2 (no_card_twice table table_reachable)). Defined.

Lemma in_range_witness :
  Game.dealerButton (game table) = 0%nat ∧ is_Some (currentPlayer (game table)).
Proof. exact (button_and_turn_in_range table table_played). Defined.



(** At the continued table "b" holds the stake in chips and raises to 500. *)
Lemma capped_raise_witness :
  ∃ p, onTurn "b" continued p
       ∧ Player.chips p = Game.betAmount (game continued)
       ∧ 0 < 500 - Player.currentBet p <= Game.betAmount (game continued).
Proof.
  apply (custom_raise_capped_by_stake "b" 500 continued raisedTo500 continued_played).
  vm_compute. reflexivity.
Defined.

(** Both stakes are taken: "a" is left with 4000. *)
Lemma stakes_collected_witness :
  (deductPlayersFunds ["a"; "b"] 1000 balances).2 !! "a" = Some 4000.
Proof.
  destruct (checked_stakes_are_collected (fun i => i) invitedPlayers 1000 balances ["a"; "b"])
    as [Hpaid _].
  - vm_compute. reflexivity.
  - apply (bool_decide_unpack _). vm_compute. reflexivity.
  - intros playerId Hin. apply (bool_decide_unpack _).
    apply elem_of_cons in Hin as [->|Hin]; [vm_compute; reflexivity|].
    apply list_elem_of_singleton in Hin as ->. vm_compute. reflexivity.
  - destruct (Hpaid "a") as (amount & Hu & _ & Hres); [apply list_elem_of_here|].
    vm_compute in Hu. injection Hu as <-. exact Hres.
Defined.

Lemma joined_ok : Invite.lobbyOk joined.
Proof.
  split.
  - apply (bool_decide_unpack _). vm_compute. reflexivity.
  - apply Forall_cons. split; [|apply Forall_nil_2].
    split; [apply (bool_decide_unpack _); vm_compute; reflexivity|].
    split; [apply (bool_decide_unpack _); vm_compute; reflexivity|].
    split; [apply NoDup_nil_2|]. intros u _ Hu. by apply elem_of_nil in Hu.
Defined.

(** "a" and "b" play the table the invitation starts. *)
Lemma invited_table_witness :
  played (Invite.table fromInvite) ∧ ids (game (Invite.table fromInvite)) = ["a"; "b"].
Proof.
  destruct (invited_table_is_played "clan_channel_poker_7" "poker_8" (fun _ => None)
              joined fromInvite joined_ok)
    as (invite & Hget & Hplayed & Hids & _).
  - vm_compute. reflexivity.
  - split; [exact Hplayed|]. rewrite Hids. vm_compute in Hget. by injection Hget as <-.
Defined.

(** "b" joins; "c" has not answered yet. *)
Lemma last_click_witness :
  (Invite.handleButtonClick "b" Invite.PokerJoin "poker_7" "poker_8" (fun _ => None)
     invited).1 = Invite.Clicked false.
Proof.
  destruct (last_click_wins "b" Invite.PokerJoin "poker_7" "poker_8" (fun _ => None)
              invited invitation) as (_ & _ & _ & Hres & _).
  - reflexivity.
  - discriminate.
  - exact Hres.
Defined.

(** "c" is the last to answer, and declines: "a" and "b" play. *)
Lemma all_answered_witness :
  (Invite.handleButtonClick "c" Invite.PokerDecline "poker_7" "poker_8" (fun _ => None)
     joined).1 = Invite.Clicked true
  ∧ played
      (Invite.table
         (Invite.handleButtonClick "c" Invite.PokerDecline "poker_7" "poker_8"
            (fun _ => None) joined).2).
Proof.
  destruct (all_answered_click "c" Invite.PokerDecline "poker_7" "poker_8" (fun _ => None)
              joined "clan_channel_poker_7"
              (Invite.respond "b" Invite.PokerJoin invitation) joined_ok)
    as (Hres & _ & Hstart & _).
  - vm_compute. reflexivity.
  - discriminate.
  - discriminate.
  - reflexivity.
  - split; [exact Hres|]. apply Hstart. simpl. lia.
Defined.

(** "a" accepts another hand and pays 1000 of 4000. *)
Lemma charged_once_witness :
  ∃ accepted paid,
    Rematch.continueGamePlayers onceAccepted = Some accepted
    ∧ Rematch.continueGamePaid onceAccepted = Some paid
    ∧ NoDup paid
    ∧ users (Rematch.table onceAccepted) !! "a" = Some 3000.
Proof.
  destruct (rematch_charges_once (game table) _ onceAccepted
              (Rematch.clicked_continue _ "a" _ (Rematch.clicked_none _)))
    as (accepted & paid & Ha & Hp & _ & Hnp & _ & _ & Hus & _).
  exists accepted, paid. split; [done|]. split; [done|]. split; [done|].
  rewrite Hus. vm_compute in Hp. injection Hp as <-. vm_compute. reflexivity.
Defined.


(** "a" and "b" accept: they are seated at the next table. *)
Lemma rematch_witness :
  played
    (Rematch.table
       (Rematch.handleContinueGameTimeout "poker_9" (fun i => i) (game table)
          twiceAccepted))
  ∧ ids (game (Rematch.table
                 (Rematch.handleContinueGameTimeout "poker_9" (fun i => i) (game table)
                    twiceAccepted)))
    = ["a"; "b"].
Proof.
  destruct (rematch_seats_the_accepted (game table) (game table) _ twiceAccepted "poker_9"
              (fun i => i) ["a"; "b"]
              (Rematch.clicked_continue _ "b" _
                 (Rematch.clicked_continue _ "a" _ (Rematch.clicked_none _))))
    as (_ & _ & _ & Hseated).
  - vm_compute. reflexivity.
  - simpl. lia.
  - destruct Hseated as (Hp & Hids & _); [simpl; lia|]. by split.
Defined.

(** The click of "b" on the call button of the dealt table is a call of
    "b" at that table. *)
Lemma click_witness :
  ∃ call,
    Buttons.handleButtonForm invited None callClick = Some call
    ∧ Buttons.serve call table = Some (perform Call "b" table).
Proof.
  apply (click_reaches_the_table "call" Call table invited None callClick).
  - apply list_elem_of_further, list_elem_of_here.
  - vm_compute. reflexivity.
  - vm_compute. reflexivity.
  - vm_compute. discriminate.
  - vm_compute. discriminate.
  - vm_compute. discriminate.
  - vm_compute. reflexivity.
  - by left.
  - by left.
Defined.

(** At the dealt table "b" is offered a check, and the check is accepted. *)
Lemma offered_witness :
  Buttons.sendTurnActionButtons table = Some ["check"; "raise1"; "raise2"; "allin"; "fold"]
  ∧ ∃ w', perform CheckTurn "b" table = Done (Success, w').
Proof.
  split; [vm_compute; reflexivity|].
  destruct table_onTurn_b as (p & Hga & Hcur & Hid & Hfold).
  destruct (offered_buttons table p ["check"; "raise1"; "raise2"; "allin"; "fold"]
              table_played) as (Hcheck & _).
  - rewrite Hid. by repeat split.
  - vm_compute. discriminate.
  - vm_compute. reflexivity.
  - rewrite Hid in Hcheck. apply Hcheck. apply list_elem_of_here.
Defined.

(** The click of "b" on the join button confirms "b", who was invited. *)
Lemma confirm_witness :
  ∃ invite,
    Invite.mapGet "clan_channel_poker_7" (Invite.gameInvites invited) = Some invite
    ∧ Invite.mentionedUsers (Invite.respond "b" Invite.PokerJoin invitation)
      = Invite.mentionedUsers invite.
Proof.
  destruct (clicks_confirm_the_invited "poker_8" (fun _ => None) None joinClick invited
              "clan_channel_poker_7" (Invite.respond "b" Invite.PokerJoin invitation))
    as (invite & Hget & _ & _ & Hm & _).
  - vm_compute. reflexivity.
  - by exists invite.
Defined.


Lemma table_dealt : Hands.dealt table.
Proof.
  unfold table. apply Hands.dealt_start. split; [simpl; lia|].
  apply (bool_decide_unpack _). vm_compute. reflexivity.
Defined.

(** At the dealt table three players hold two cards each, the board is
    empty and 46 cards are left. *)
Lemma streets_witness :
  Forall (fun p => length (Player.hole p) = 2%nat) (Game.players (game table))
  ∧ length (Game.board (game table)) = 0%nat
  ∧ length (Game.deck (game table)) = 46%nat.
Proof.
  destruct (streets_deal_the_right_cards table table_dealt) as (Hh & Hb & Hu & Hd & _).
  - vm_compute. reflexivity.
  - vm_compute. lia.
  - split; [exact Hh|]. split; [exact Hb|]. rewrite Hb, Hu in Hd.
    change (length (Game.players (game table))) with 3%nat in Hd.
    change (Streets.boardFor (Game.round (game table))) with 0%nat in Hd.
    change (Streets.burnedFor (Game.round (game table))) with 0%nat in Hd. lia.
Defined.

End MoreSamples.
